(** * The C backend of the Puffs transpiler (puffs-gen-c), embedded in Rocq

    The Go program walks a type-checked AST of one package and appends C
    source text to a byte buffer.  The embedding keeps the shape of the Go
    code: every method of [gen] becomes a computation in a small monad that
    threads the generator's fields, may fail with an error, and collects the
    text appended to [g.buffer]. *)

From Stdlib Require Import String Ascii List ZArith NArith Bool Arith Lia.
From Stdlib Require Import DecimalString DecimalZ DecimalNat.
From Stdlib Require Import Permutation.
Import ListNotations.

#[local] Set Warnings "-register-all".
#[local] Open Scope string_scope.

(* ================================================================== *)
(** ** Package token: identifiers and keys *)

Module Token.

(** Modelled from the spec: package token (imported as [t]) is not part of
    the sources.  A key is a small integer there; the backend only compares
    keys with the named constants below and uses them as table indices, so
    the keys it names are constructors and every other key (user
    identifiers, literals) is [KeyOther].  The named keys are the built-in
    ones, all below 256, on which the [0xFF&] mask of the operator table is
    the identity. *)
Inductive Key : Type :=
  | Key0
  | KeyOpenParen | KeyOpenBracket | KeyDot | KeyColon
  | KeyPtr | KeyError | KeyBreak | KeyIn | KeyThis
  | KeyReadU8 | KeyWrite | KeyWriteU8 | KeyLowBits
  | KeyI8 | KeyI16 | KeyI32 | KeyI64
  | KeyU8 | KeyU16 | KeyU32 | KeyU64 | KeyUsize | KeyBool
  | KeyBuf1 | KeyBuf2
  | KeyEq | KeyPlusEq | KeyMinusEq | KeyStarEq | KeySlashEq
  | KeyShiftLEq | KeyShiftREq | KeyAmpEq | KeyAmpHatEq | KeyPipeEq | KeyHatEq
  | KeyXUnaryPlus | KeyXUnaryMinus | KeyXUnaryNot
  | KeyXBinaryPlus | KeyXBinaryMinus | KeyXBinaryStar | KeyXBinarySlash
  | KeyXBinaryShiftL | KeyXBinaryShiftR | KeyXBinaryAmp | KeyXBinaryAmpHat
  | KeyXBinaryPipe | KeyXBinaryHat | KeyXBinaryNotEq | KeyXBinaryLessThan
  | KeyXBinaryLessEq | KeyXBinaryEqEq | KeyXBinaryGreaterEq
  | KeyXBinaryGreaterThan | KeyXBinaryAnd | KeyXBinaryOr | KeyXBinaryAs
  | KeyXAssociativePlus | KeyXAssociativeStar | KeyXAssociativeAmp
  | KeyXAssociativePipe | KeyXAssociativeHat | KeyXAssociativeAnd
  | KeyXAssociativeOr
  | KeyOther (k : N).

Definition Key_eq_dec (a b : Key) : {a = b} + {a <> b}.
Proof. decide equality. apply N.eq_dec. Defined.

Definition Key_eqb (a b : Key) : bool :=
  if Key_eq_dec a b then true else false.

(** An ID packs a key with flag bits; the backend reads three of them. *)
Record ID : Type := mkID {
  Key_ : Key;
  FlagsUnaryOp : bool;
  FlagsBinaryOp : bool;
  FlagsAssociativeOp : bool }.

(** The zero ID, written [0] in the Go code. *)
Definition ID0 : ID := mkID Key0 false false false.

(** An identifier or literal: a key with no operator flag. *)
Definition ident (k : Key) : ID := mkID k false false false.

Definition ID_eq_dec (a b : ID) : {a = b} + {a <> b}.
Proof. decide equality; try apply Bool.bool_dec. apply Key_eq_dec. Defined.

Definition ID_eqb (a b : ID) : bool :=
  if ID_eq_dec a b then true else false.

(** The interned identifier table [*t.Map]: [ByName] is 0 for a name that
    was never interned, [ByID] gives the text of an ID ([id.String(tm)]). *)
Record Map : Type := mkMap {
  ByName : string -> ID;
  ByID : ID -> string }.

End Token.
Import Token.

(* ================================================================== *)
(** ** Package ast: the syntax tree the backend consumes *)

Module Ast.

(** Modelled from the spec: package ast (imported as [a]) is not part of
    the sources.  There every syntax-tree node is one Go struct, and the
    typed views ([*Expr], [*If], [*Func], ...) are pointer casts of
    [*Node] whose accessors read its generic fields.  The embedding keeps
    that: one [Node] type and one accessor per method the backend calls. *)
Inductive Kind : Type :=
  | KInvalid | KArg | KAssert | KAssign | KExpr | KField | KFile | KFunc
  | KIf | KJump | KReturn | KStatus | KStruct | KTypeExpr | KUse | KVar
  | KWhile.

Definition Kind_eq_dec (a b : Kind) : {a = b} + {a <> b}.
Proof. decide equality. Defined.

Definition Kind_eqb (a b : Kind) : bool :=
  if Kind_eq_dec a b then true else false.

(** The flag bits of a node that the backend reads. *)
Record Flags : Type := mkFlags {
  FlagsSuspendible : bool;
  FlagsCallImpure : bool;
  FlagsCallSuspendible : bool;
  FlagsPublic : bool;
  FlagsHasBreak : bool;
  FlagsHasContinue : bool }.

Definition noFlags : Flags := mkFlags false false false false false false.

(** A Go pointer to a child is [option Node] ([None] is nil).  [addr] is
    the node's own address: [jumpTargets] is keyed by [*a.While], that is by
    pointer identity, and [jumpTarget] holds the address of the loop a
    [break] or [continue] leaves (0 is nil). *)
Inductive Node : Type := mkNode {
  kind : Kind;
  flags : Flags;
  addr : N;
  constValue : option Z;
  mType : option Node;
  jumpTarget : N;
  id0 : ID;
  id1 : ID;
  lhs : option Node;
  mhs : option Node;
  rhs : option Node;
  list0 : list Node;
  list1 : list Node }.

(** [n.Raw().SubNodes()] *)
Definition SubNodes (n : Node) : list (option Node) := [lhs n; mhs n; rhs n].

(** File *)
Definition TopLevelDecls (n : Node) : list Node := list0 n.

(** Status *)
Definition Status_Keyword (n : Node) : ID := id0 n.
Definition Status_Message (n : Node) : ID := id1 n.

(** Struct *)
Definition Struct_Name (n : Node) : ID := id1 n.
Definition Struct_Public (n : Node) : bool := FlagsPublic (flags n).
Definition Struct_Suspendible (n : Node) : bool := FlagsSuspendible (flags n).
Definition Struct_Fields (n : Node) : list Node := list0 n.

(** Field *)
Definition Field_Name (n : Node) : ID := id1 n.
Definition Field_XType (n : Node) : option Node := lhs n.
Definition Field_DefaultValue (n : Node) : option Node := rhs n.

(** Func *)
Definition Func_Receiver (n : Node) : ID := id0 n.
Definition Func_Name (n : Node) : ID := id1 n.
Definition Func_Public (n : Node) : bool := FlagsPublic (flags n).
Definition Func_Suspendible (n : Node) : bool := FlagsSuspendible (flags n).
Definition Func_In (n : Node) : option Node := lhs n.
Definition Func_Body (n : Node) : list Node := list1 n.

(** Expr *)
Definition Expr_Suspendible (n : Node) : bool := FlagsSuspendible (flags n).
Definition Expr_CallSuspendible (n : Node) : bool :=
  FlagsCallSuspendible (flags n).
Definition Expr_CallImpure (n : Node) : bool := FlagsCallImpure (flags n).
Definition Expr_ConstValue (n : Node) : option Z := constValue n.
Definition Expr_MType (n : Node) : option Node := mType n.
Definition Expr_ID0 (n : Node) : ID := id0 n.
Definition Expr_ID1 (n : Node) : ID := id1 n.
Definition Expr_LHS (n : Node) : option Node := lhs n.
Definition Expr_MHS (n : Node) : option Node := mhs n.
Definition Expr_RHS (n : Node) : option Node := rhs n.
Definition Expr_Args (n : Node) : list Node := list0 n.

(** Arg *)
Definition Arg_Value (n : Node) : option Node := rhs n.

(** Assign *)
Definition Assign_Operator (n : Node) : ID := id0 n.
Definition Assign_LHS (n : Node) : option Node := lhs n.
Definition Assign_RHS (n : Node) : option Node := rhs n.

(** If *)
Definition If_Condition (n : Node) : option Node := lhs n.
Definition If_ElseIf (n : Node) : option Node := rhs n.
Definition If_BodyIfTrue (n : Node) : list Node := list0 n.
Definition If_BodyIfFalse (n : Node) : list Node := list1 n.

(** Jump *)
Definition Jump_Keyword (n : Node) : ID := id0 n.
Definition Jump_JumpTarget (n : Node) : N := jumpTarget n.

(** Return *)
Definition Return_Keyword (n : Node) : ID := id0 n.
Definition Return_Message (n : Node) : ID := id1 n.

(** Var *)
Definition Var_Name (n : Node) : ID := id1 n.
Definition Var_XType (n : Node) : option Node := lhs n.
Definition Var_Value (n : Node) : option Node := rhs n.

(** While *)
Definition While_Condition (n : Node) : option Node := lhs n.
Definition While_Body (n : Node) : list Node := list1 n.
Definition While_HasBreak (n : Node) : bool := FlagsHasBreak (flags n).
Definition While_HasContinue (n : Node) : bool := FlagsHasContinue (flags n).

(** TypeExpr: [Decorator] is 0, [ptr] or an open bracket; a refined
    numeric type carries its bounds, an array type its length. *)
Definition TypeExpr_Decorator (n : Node) : ID := id0 n.
Definition TypeExpr_Name (n : Node) : ID := id1 n.
Definition TypeExpr_ArrayLength (n : Node) : option Node := lhs n.
Definition TypeExpr_Bounds (n : Node) : list (option Node) := [lhs n; mhs n].
Definition TypeExpr_Inner (n : Node) : option Node := rhs n.
Definition TypeExpr_IsRefined (n : Node) : bool :=
  negb (Key_eqb (Key_ (id0 n)) KeyOpenBracket) &&
  (match lhs n with Some _ => true | None => false end ||
   match mhs n with Some _ => true | None => false end).
Definition TypeExpr_IsBool (n : Node) : bool :=
  ID_eqb (id0 n) ID0 && Key_eqb (Key_ (id1 n)) KeyBool.

(** [x != x.Innermost()]: a type expression is its own innermost one
    exactly when it has no inner type. *)
Definition TypeExpr_IsInnermost (n : Node) : bool :=
  match TypeExpr_Inner n with Some _ => false | None => true end.

(** The height of a tree, the measure of the inductions over nodes. *)
Fixpoint height (n : Node) : nat :=
  let hopt (o : option Node) :=
    match o with Some c => height c | None => 0 end in
  let hlist := fix hlist (l : list Node) : nat :=
    match l with [] => 0 | c :: r => Nat.max (height c) (hlist r) end in
  S (Nat.max (hopt (mType n))
    (Nat.max (hopt (lhs n))
    (Nat.max (hopt (mhs n))
    (Nat.max (hopt (rhs n))
    (Nat.max (hlist (list0 n)) (hlist (list1 n))))))).

End Ast.
Import Ast.

(* ================================================================== *)
(** ** Go library functions the backend formats text with *)

(** [%d] of an integer, and [String()] of a [*big.Int]. *)
Definition showZ (z : Z) : string := NilEmpty.string_of_int (Z.to_int z).
Definition showNat (n : nat) : string := showZ (Z.of_nat n).
Definition showN (n : N) : string := showZ (Z.of_N n).

(** [%d] of a [*big.Int] that may be nil. *)
Definition showBig (o : option Z) : string :=
  match o with Some z => showZ z | None => "<nil>" end.

Definition inRange (lo hi c : ascii) : bool :=
  Nat.leb (nat_of_ascii lo) (nat_of_ascii c) &&
  Nat.leb (nat_of_ascii c) (nat_of_ascii hi).

(** A text of ASCII bytes only: every byte is a rune of its own, and the
    Go library needs none of its Unicode tables. *)
Fixpoint isASCII (s : string) : bool :=
  match s with
  | EmptyString => true
  | String c r => Nat.ltb (nat_of_ascii c) 128 && isASCII r
  end.

(** [strings.ToUpper] on an ASCII text: the letters a to z are mapped, all
    other bytes are kept. *)
Definition upperAscii (c : ascii) : ascii :=
  if inRange "a" "z" c then ascii_of_nat (nat_of_ascii c - 32) else c.

Fixpoint ToUpperASCII (s : string) : string :=
  match s with
  | EmptyString => EmptyString
  | String c r => String (upperAscii c) (ToUpperASCII r)
  end.

(** [strings.HasPrefix] *)
Definition HasPrefix (s p : string) : bool := String.prefix p s.

Definition hexDigit (n : nat) : ascii :=
  if Nat.ltb n 10 then ascii_of_nat (48 + n) else ascii_of_nat (87 + n).

(** [%q], that is [strconv.Quote], on an ASCII text: printable ASCII is
    kept, the quote and the backslash are escaped, control characters are
    written as escapes. *)
Definition quoteByte (c : ascii) : string :=
  let n := nat_of_ascii c in
  if Nat.eqb n 34 then "\" ++ String c ""
  else if Nat.eqb n 92 then "\\"
  else if Nat.eqb n 7 then "\a"
  else if Nat.eqb n 8 then "\b"
  else if Nat.eqb n 12 then "\f"
  else if Nat.eqb n 10 then "\n"
  else if Nat.eqb n 13 then "\r"
  else if Nat.eqb n 9 then "\t"
  else if Nat.eqb n 11 then "\v"
  else if Nat.ltb n 32 || Nat.eqb n 127
       then "\x" ++ String (hexDigit (n / 16)) (String (hexDigit (n mod 16)) "")
  else String c "".

Fixpoint quoteBody (s : string) : string :=
  match s with
  | EmptyString => EmptyString
  | String c r => quoteByte c ++ quoteBody r
  end.

Definition dquote : ascii := ascii_of_nat 34.

Definition quoteASCII (s : string) : string :=
  String dquote (quoteBody s ++ String dquote "").

(** On a text that holds a byte outside ASCII, [strings.ToUpper] and
    [strconv.Quote] decode UTF-8 and consult the Unicode tables of the Go
    library (the case mappings, the printable runes), which are not in the
    sources: what they give there is taken as it is. *)
Record Unicode : Type := mkUnicode {
  upperOf : string -> string;
  quoteOf : string -> string }.

(** The Go slice expression [s[i:j]] on a string. *)
Definition slice (s : string) (i j : nat) : string := substring i (j - i) s.

Fixpoint repeatString (s : string) (n : nat) : string :=
  match n with O => "" | S k => s ++ repeatString s k end.

(* ================================================================== *)
(** ** The generator's data *)

(** Prefixes are prepended to names to form a namespace. *)
Definition aPrefix : string := "a_". (* Function argument. *)
Definition fPrefix : string := "f_". (* Struct field. *)
Definition tPrefix : string := "t_". (* Temporary local variable. *)
Definition vPrefix : string := "v_". (* Local variable. *)

Definition userDefinedStatusBase : nat := 128.

Definition builtInStatuses : list string :=
  [ "status ok";
    "error bad version";
    "error bad receiver";
    "error bad argument";
    "error constructor not called";
    "error unexpected EOF";
    "status short read";
    "status short write";
    "error closed for writes" ].

Inductive replacementPolicy : Type :=
  | replaceNothing | replaceCallSuspendibles.

Inductive parenthesesPolicy : Type :=
  | parenthesesMandatory | parenthesesOptional.

Inductive visibility : Type := bothPubPri | pubOnly | priOnly.

Definition maxTemp : N := 10000.

Record status : Type := mkStatus {
  name : string;
  msg : string;
  isError : bool }.

(** The zero value of [status], what a Go map gives for a missing key. *)
Definition zeroStatus : status := mkStatus "" "" false.

Record perFunc : Type := mkPerFunc {
  funk : option Node;
  jumpTargets : list (N * N);
  tempW : N;
  tempR : N;
  public : bool;
  suspendible : bool }.

(** [gen] without its [buffer]: the buffer is only ever appended to, and is
    carried by the monad below as the text each computation writes.  The
    counters are [uint32] in Go; they stay far below 2^32 ([tempW] is capped
    by [maxTemp], the depths by the ast package's limits), so they are
    unbounded naturals here. *)
Record gen : Type := mkGen {
  pkgName : string;
  tm : Token.Map;
  files : list Node;
  statusList : list status;
  statusMap : list (ID * status);
  structList : list Node;
  structMap : list (ID * Node);
  perFunc_ : perFunc }.

(** A Go map as an association list: the newest binding of a key wins. *)
Fixpoint lookupID {V : Type} (m : list (ID * V)) (k : ID) : option V :=
  match m with
  | [] => None
  | (k', v) :: r => if ID_eqb k' k then Some v else lookupID r k
  end.

Fixpoint lookupAddr (m : list (N * N)) (k : N) : option N :=
  match m with
  | [] => None
  | (k', v) :: r => if N.eqb k' k then Some v else lookupAddr r k
  end.

(** Every error the backend returns, one constructor per [fmt.Errorf] of the
    source, and the run-time panics of Go (a nil pointer dereferenced, an
    index out of range). *)
Inductive error : Type :=
  | ErrTooManyJumpTargets          (* "too many jump targets" *)
  | ErrCyclicalStructs             (* "cyclical struct definitions" *)
  | ErrBadStatusMessage (m : string) (* "bad status message %q" *)
  | ErrTempOutOfSync  (* "internal error: temporary variable count out of sync" *)
  | ErrBodyTooDeep                 (* "body recursion depth too large" *)
  | ErrNotCallSuspendible (* "TODO: generate code for foo() when foo is not a ? call-suspendible" *)
  | ErrTooManyNestedIfs            (* "too many nested if's" *)
  | ErrArrayInitializer (* "TODO: array initializers for non-zero default values" *)
  | ErrUnrecognizedKind (k : Kind) (* "unrecognized ast.Kind (%s) for writeStatement" *)
  | ErrExprTooDeep                 (* "expression recursion depth too large" *)
  | ErrTooManyTemporaries          (* "too many temporary variables required" *)
  | ErrCannotConvertCall (n : Node) (* "cannot convert Puffs call %q to C" *)
  | ErrBoolConstant (n : Node) (cv : Z) (* "%v has type bool but constant value %v is neither 0 or 1" *)
  | ErrUnrecognizedKeyExpr (k : Key) (* "unrecognized token.Key (0x%X) for writeExpr" *)
  | ErrUnrecognizedKeyExprOther (k : Key) (* "unrecognized token.Key (0x%X) for writeExprOther" *)
  | ErrTooManyPtrs (n : Node) (* "cannot convert Puffs type %q to C: too many ptr's" *)
  | ErrCannotConvertType (n : Node) (* "cannot convert Puffs type %q to C" *)
  | PanicNilDereference
  | PanicIndexOutOfRange.

(* ================================================================== *)
(** ** The generator monad *)

(** A method of [gen] either fails or returns a value, the generator's new
    fields and the text it appended to the buffer. *)
Inductive Res (A : Type) : Type :=
  | Ok (a : A) (g : gen) (out : string)
  | Err (e : error).
Arguments Ok {A} a g out.
Arguments Err {A} e.

Definition M (A : Type) : Type := gen -> Res A.

Definition ret {A : Type} (a : A) : M A := fun g => Ok a g "".

Definition bind {A B : Type} (m : M A) (k : A -> M B) : M B := fun g =>
  match m g with
  | Ok a g1 o1 =>
      match k a g1 with
      | Ok b g2 o2 => Ok b g2 (o1 ++ o2)
      | Err e => Err e
      end
  | Err e => Err e
  end.

Definition fail {A : Type} (e : error) : M A := fun _ => Err e.

Declare Scope gen_scope.
Delimit Scope gen_scope with gen.
Notation "x <- c1 ;; c2" := (bind c1 (fun x => c2))
  (at level 61, c1 at next level, right associativity) : gen_scope.
Notation "' pat <- c1 ;; c2" :=
  (bind c1 (fun x => match x with pat => c2 end))
  (at level 61, pat pattern, c1 at next level, right associativity) : gen_scope.
Notation "c1 ;; c2" := (bind c1 (fun _ => c2))
  (at level 61, right associativity) : gen_scope.
#[local] Open Scope gen_scope.

(** [g.writes], [g.writeb]; a [g.printf] is a [writes] of the formatted text. *)
Definition writes (s : string) : M unit := fun g => Ok tt g s.
Definition writeb (b : ascii) : M unit := writes (String b "").

(** The fields of [g] as they are now. *)
Definition getG : M gen := fun g => Ok g g "".
Definition put (g : gen) : M unit := fun _ => Ok tt g "".
Definition modify (f : gen -> gen) : M unit := fun g => Ok tt (f g) "".

(** A pointer that is dereferenced: nil panics. *)
Definition deref {A : Type} (p : option A) : M A :=
  match p with Some a => ret a | None => fail PanicNilDereference end.

(** [for _, x := range l { if err := f(x); err != nil { return err } }] *)
Definition forEach {A : Type} (f : A -> M unit) : list A -> M unit :=
  fix go (l : list A) : M unit :=
    match l with
    | [] => ret tt
    | x :: r => f x ;; go r
    end.

(** [for i, x := range l { ... }] *)
Definition forEachI {A : Type} (f : nat -> A -> M unit) : nat -> list A -> M unit :=
  fix go (i : nat) (l : list A) : M unit :=
    match l with
    | [] => ret tt
    | x :: r => f i x ;; go (S i) r
    end.

Definition when (b : bool) (m : M unit) : M unit := if b then m else ret tt.

Definition setPerFunc (p : perFunc) (g : gen) : gen :=
  mkGen (pkgName g) (tm g) (files g) (statusList g) (statusMap g)
        (structList g) (structMap g) p.
Definition setStatusList (l : list status) (g : gen) : gen :=
  mkGen (pkgName g) (tm g) (files g) l (statusMap g)
        (structList g) (structMap g) (perFunc_ g).
Definition setStatusMap (m : list (ID * status)) (g : gen) : gen :=
  mkGen (pkgName g) (tm g) (files g) (statusList g) m
        (structList g) (structMap g) (perFunc_ g).
Definition setStructList (l : list Node) (g : gen) : gen :=
  mkGen (pkgName g) (tm g) (files g) (statusList g) (statusMap g)
        l (structMap g) (perFunc_ g).
Definition setStructMap (m : list (ID * Node)) (g : gen) : gen :=
  mkGen (pkgName g) (tm g) (files g) (statusList g) (statusMap g)
        (structList g) m (perFunc_ g).

Definition setJumpTargets (m : list (N * N)) (p : perFunc) : perFunc :=
  mkPerFunc (funk p) m (tempW p) (tempR p) (public p) (suspendible p).
Definition setTempW (w : N) (p : perFunc) : perFunc :=
  mkPerFunc (funk p) (jumpTargets p) w (tempR p) (public p) (suspendible p).
Definition setTempR (r : N) (p : perFunc) : perFunc :=
  mkPerFunc (funk p) (jumpTargets p) (tempW p) r (public p) (suspendible p).
Definition setPublic (b : bool) (p : perFunc) : perFunc :=
  mkPerFunc (funk p) (jumpTargets p) (tempW p) (tempR p) b (suspendible p).
Definition setSuspendible (b : bool) (p : perFunc) : perFunc :=
  mkPerFunc (funk p) (jumpTargets p) (tempW p) (tempR p) (public p) b.

Definition foldM {A B : Type} (f : B -> A -> M B) : B -> list A -> M B :=
  fix go (b : B) (l : list A) : M B :=
    match l with
    | [] => ret b
    | x :: r => b' <- f b x ;; go b' r
    end.

(** The line feed and the double quote of the Go string literals. *)
Definition nl : string := String (ascii_of_nat 10) "".
Definition dq : string := String dquote "".

(* ================================================================== *)
(** ** The lookup tables *)

Definition numTypeBounds (k : Key) : option Z * option Z :=
  match k with
  | KeyI8 => (Some (- 2 ^ 7), Some (2 ^ 7 - 1))
  | KeyI16 => (Some (- 2 ^ 15), Some (2 ^ 15 - 1))
  | KeyI32 => (Some (- 2 ^ 31), Some (2 ^ 31 - 1))
  | KeyI64 => (Some (- 2 ^ 63), Some (2 ^ 63 - 1))
  | KeyU8 => (Some 0, Some (2 ^ 8 - 1))
  | KeyU16 => (Some 0, Some (2 ^ 16 - 1))
  | KeyU32 => (Some 0, Some (2 ^ 32 - 1))
  | KeyU64 => (Some 0, Some (2 ^ 64 - 1))
  | KeyUsize => (Some 0, Some 0)
  | KeyBool => (Some 0, Some 1)
  | _ => (None, None)
  end%Z.

Definition cTypeNames (k : Key) : string :=
  match k with
  | KeyI8 => "int8_t"
  | KeyI16 => "int16_t"
  | KeyI32 => "int32_t"
  | KeyI64 => "int64_t"
  | KeyU8 => "uint8_t"
  | KeyU16 => "uint16_t"
  | KeyU32 => "uint32_t"
  | KeyU64 => "uint64_t"
  | KeyUsize => "size_t"
  | KeyBool => "bool"
  | KeyBuf1 => "puffs_base_buf1"
  | KeyBuf2 => "puffs_base_buf2"
  | _ => ""
  end.

Definition cOpNames (k : Key) : string :=
  match k with
  | KeyEq => " = "
  | KeyPlusEq => " += "
  | KeyMinusEq => " -= "
  | KeyStarEq => " *= "
  | KeySlashEq => " /= "
  | KeyShiftLEq => " <<= "
  | KeyShiftREq => " >>= "
  | KeyAmpEq => " &= "
  | KeyAmpHatEq => " no_such_amp_hat_C_operator "
  | KeyPipeEq => " |= "
  | KeyHatEq => " ^= "
  | KeyXUnaryPlus => "+"
  | KeyXUnaryMinus => "-"
  | KeyXUnaryNot => "!"
  | KeyXBinaryPlus => " + "
  | KeyXBinaryMinus => " - "
  | KeyXBinaryStar => " * "
  | KeyXBinarySlash => " / "
  | KeyXBinaryShiftL => " << "
  | KeyXBinaryShiftR => " >> "
  | KeyXBinaryAmp => " & "
  | KeyXBinaryAmpHat => " no_such_amp_hat_C_operator "
  | KeyXBinaryPipe => " | "
  | KeyXBinaryHat => " ^ "
  | KeyXBinaryNotEq => " != "
  | KeyXBinaryLessThan => " < "
  | KeyXBinaryLessEq => " <= "
  | KeyXBinaryEqEq => " == "
  | KeyXBinaryGreaterEq => " >= "
  | KeyXBinaryGreaterThan => " > "
  | KeyXBinaryAnd => " && "
  | KeyXBinaryOr => " || "
  | KeyXBinaryAs => " no_such_as_C_operator "
  | KeyXAssociativePlus => " + "
  | KeyXAssociativeStar => " * "
  | KeyXAssociativeAmp => " & "
  | KeyXAssociativePipe => " | "
  | KeyXAssociativeHat => " ^ "
  | KeyXAssociativeAnd => " && "
  | KeyXAssociativeOr => " || "
  | _ => ""
  end.

(* ================================================================== *)
(** ** The backend *)

Section Backend.

(** What the backend takes from code that is not in the sources: the two
    depth limits and the topological sort of package ast, and the two
    generated C preludes. *)
Variable MaxExprDepth : nat.
Variable MaxBodyDepth : nat.
Variable TopologicalSortStructs : list Node -> list Node * bool.
Variable baseHeader : string.
Variable baseImpl : string.

(** And from the Go library: what [strings.ToUpper] and [strconv.Quote] give
    for a text that holds a byte outside ASCII. *)
Variable unicode : Unicode.

(** [strings.ToUpper] *)
Definition ToUpper (s : string) : string :=
  if isASCII s then ToUpperASCII s else upperOf unicode s.

(** [%q], that is [strconv.Quote] *)
Definition quote (s : string) : string :=
  if isASCII s then quoteASCII s else quoteOf unicode s.

Definition jumpTarget_ (n : N) : M N :=
  g <- getG ;;
  match lookupAddr (jumpTargets (perFunc_ g)) n with
  | Some jt => ret jt
  | None =>
      let jt := N.of_nat (List.length (jumpTargets (perFunc_ g))) in
      if N.eqb jt 1000000 then fail ErrTooManyJumpTargets
      else
        modify (fun g =>
          setPerFunc (setJumpTargets ((n, jt) :: jumpTargets (perFunc_ g))
                                     (perFunc_ g)) g) ;;
        ret jt
  end.

(** The name mangler.  A rune outside ASCII is dropped by the Go loop
    whatever bytes encode it, so the loop is over bytes. *)
Fixpoint mangle (name : string) : string :=
  match name with
  | EmptyString => EmptyString
  | String r rest =>
      if inRange "A" "Z" r
      then String (ascii_of_nat (nat_of_ascii r + 32)) (mangle rest)
      else if inRange "a" "z" r || inRange "0" "9" r
              || Nat.eqb (nat_of_ascii r) (nat_of_ascii "_")
      then String r (mangle rest)
      else if Nat.eqb (nat_of_ascii r) (nat_of_ascii " ")
      then String "_" (mangle rest)
      else mangle rest
  end.

Definition cName (g : gen) (name : string) : string :=
  "puffs_" ++ pkgName g ++ "_" ++ mangle name.

(** *** Type lowering *)

(** [for ; x != nil && x.Decorator().Key() == t.KeyOpenBracket; x = x.Inner()] *)
Fixpoint skipArrays (x : Node) : option Node :=
  if Key_eqb (Key_ (TypeExpr_Decorator x)) KeyOpenBracket
  then match TypeExpr_Inner x with
       | Some i => skipArrays i
       | None => None
       end
  else Some x.

(** maxNumPointers is an arbitrary implementation restriction. *)
Definition maxNumPointers : nat := 16.

(** The second loop of [writeCTypeName], from [innermost] on: it counts the
    [ptr] decorators down to the innermost type.  [n] is the whole type, for
    the error messages. *)
Fixpoint countPointers (n : Node) (numPointers : nat) (innermost : Node)
  : M (nat * Node) :=
  match TypeExpr_Inner innermost with
  | None => ret (numPointers, innermost)
  | Some inner =>
      if Key_eqb (Key_ (TypeExpr_Decorator innermost)) KeyPtr
      then if Nat.eqb numPointers maxNumPointers
           then fail (ErrTooManyPtrs n)
           else countPointers n (S numPointers) inner
      else fail (ErrCannotConvertType n)
  end.

(** The last loop of [writeCTypeName]: the array extents, outermost first. *)
Fixpoint writeArrayExtents (x : Node) : M unit :=
  if Key_eqb (Key_ (TypeExpr_Decorator x)) KeyOpenBracket
  then
    writeb "[" ;;
    len <- deref (TypeExpr_ArrayLength x) ;;
    writes (showBig (Expr_ConstValue len)) ;;
    writeb "]" ;;
    match TypeExpr_Inner x with
    | Some i => writeArrayExtents i
    | None => ret tt
    end
  else ret tt.

Definition writeCTypeName (n : Node) (varNamePrefix varName : string)
  : M unit :=
  g <- getG ;;
  x <- deref (skipArrays n) ;;
  '(numPointers, innermost) <- countPointers n 0 x ;;
  match cTypeNames (Key_ (TypeExpr_Name innermost)) with
  | EmptyString =>
      writes ("puffs_" ++ pkgName g ++ "_" ++ ByID (tm g) (TypeExpr_Name n))
  | s => writes s
  end ;;
  writes (repeatString "*" numPointers) ;;
  writeb " " ;;
  writes varNamePrefix ;;
  writes varName ;;
  writeArrayExtents n.

(** *** The call shapes the backend recognises *)

Definition isInSrcReadU8 (tm : Token.Map) (n : Node) : M bool :=
  if negb (Key_eqb (Key_ (Expr_ID0 n)) KeyOpenParen)
     || negb (Expr_CallSuspendible n)
     || negb (Nat.eqb (List.length (Expr_Args n)) 0)
  then ret false
  else
    n <- deref (Expr_LHS n) ;;
    if negb (Key_eqb (Key_ (Expr_ID0 n)) KeyDot)
       || negb (Key_eqb (Key_ (Expr_ID1 n)) KeyReadU8)
    then ret false
    else
      n <- deref (Expr_LHS n) ;;
      if negb (Key_eqb (Key_ (Expr_ID0 n)) KeyDot)
         || negb (ID_eqb (Expr_ID1 n) (ByName tm "src"))
      then ret false
      else
        n <- deref (Expr_LHS n) ;;
        ret (ID_eqb (Expr_ID0 n) ID0 && Key_eqb (Key_ (Expr_ID1 n)) KeyIn).

Definition isInDst (tm : Token.Map) (n : Node) (methodName : Key) : M bool :=
  if negb (Key_eqb (Key_ (Expr_ID0 n)) KeyOpenParen)
     || negb (Expr_CallSuspendible n)
     || negb (Nat.eqb (List.length (Expr_Args n)) 1)
  then ret false
  else
    n <- deref (Expr_LHS n) ;;
    if negb (Key_eqb (Key_ (Expr_ID0 n)) KeyDot)
       || negb (Key_eqb (Key_ (Expr_ID1 n)) methodName)
    then ret false
    else
      n <- deref (Expr_LHS n) ;;
      if negb (Key_eqb (Key_ (Expr_ID0 n)) KeyDot)
         || negb (ID_eqb (Expr_ID1 n) (ByName tm "dst"))
      then ret false
      else
        n <- deref (Expr_LHS n) ;;
        ret (ID_eqb (Expr_ID0 n) ID0 && Key_eqb (Key_ (Expr_ID1 n)) KeyIn).

Definition isThisDecodeHeader (tm : Token.Map) (n : Node) : M bool :=
  if negb (Key_eqb (Key_ (Expr_ID0 n)) KeyOpenParen)
     || negb (Expr_CallSuspendible n)
     || negb (Nat.eqb (List.length (Expr_Args n)) 1)
  then ret false
  else
    n <- deref (Expr_LHS n) ;;
    if negb (Key_eqb (Key_ (Expr_ID0 n)) KeyDot)
       || negb (ID_eqb (Expr_ID1 n) (ByName tm "decode_header"))
    then ret false
    else
      n <- deref (Expr_LHS n) ;;
      ret (ID_eqb (Expr_ID0 n) ID0 && Key_eqb (Key_ (Expr_ID1 n)) KeyThis).

Definition isLowBits (tm : Token.Map) (n : Node) : M bool :=
  if negb (Key_eqb (Key_ (Expr_ID0 n)) KeyOpenParen)
     || Expr_CallImpure n
     || negb (Nat.eqb (List.length (Expr_Args n)) 1)
  then ret false
  else
    n <- deref (Expr_LHS n) ;;
    ret (Key_eqb (Key_ (Expr_ID0 n)) KeyDot
         && Key_eqb (Key_ (Expr_ID1 n)) KeyLowBits).

(** *** Expression lowering *)

(** [writeExpr] and the functions it dispatches to call one another on the
    children of the node; they are written over the function they recurse
    through, and [writeExpr] ties the knot by recursion on the node.  A nil
    child that is handed on panics in the callee at its first field
    access: that is the [None] case of each match. *)
Section WriteExprCases.

Variable writeExpr :
  Node -> replacementPolicy -> parenthesesPolicy -> nat -> M unit.

Definition writeExprOther (n : Node) (rp : replacementPolicy) (depth : nat)
  : M unit :=
  g <- getG ;;
  match Key_ (Expr_ID0 n) with
  | Key0 =>
      if Key_eqb (Key_ (Expr_ID1 n)) KeyThis
      then writes "self->private_impl"
      else writes vPrefix ;; writes (ByID (tm g) (Expr_ID1 n))
  | KeyOpenParen =>
      (* n is a function call. *)
      b <- isLowBits (tm g) n ;;
      if b then
        writes "PUFFS_LOW_BITS(" ;;
        match Expr_LHS n with
        | Some l =>
            match Expr_LHS l with
            | Some x => writeExpr x rp parenthesesMandatory depth
            | None => fail PanicNilDereference
            end
        | None => fail PanicNilDereference
        end ;;
        writes "," ;;
        match Expr_Args n with
        | a0 :: _ =>
            match Arg_Value a0 with
            | Some x => writeExpr x rp parenthesesMandatory depth
            | None => fail PanicNilDereference
            end
        | [] => fail PanicIndexOutOfRange
        end ;;
        writes ")"
      else fail (ErrUnrecognizedKeyExprOther (Key_ (Expr_ID0 n)))
  | KeyOpenBracket =>
      (* n is an index. *)
      match Expr_LHS n with
      | Some l => writeExpr l rp parenthesesMandatory depth
      | None => fail PanicNilDereference
      end ;;
      writeb "[" ;;
      match Expr_RHS n with
      | Some r => writeExpr r rp parenthesesOptional depth
      | None => fail PanicNilDereference
      end ;;
      writeb "]"
  | KeyDot =>
      match Expr_LHS n with
      | Some l =>
          if Key_eqb (Key_ (Expr_ID1 l)) KeyIn
          then writes aPrefix ;; writes (ByID (tm g) (Expr_ID1 n))
          else
            writeExpr l rp parenthesesMandatory depth ;;
            writes "." ;;
            writes fPrefix ;;
            writes (ByID (tm g) (Expr_ID1 n))
      | None => fail PanicNilDereference
      end
  | k => (* a slice (the colon) and every other key *)
      fail (ErrUnrecognizedKeyExprOther k)
  end.

Definition writeExprUnaryOp (n : Node) (rp : replacementPolicy) (depth : nat)
  : M unit :=
  ret tt.

Definition writeExprAs (lhs rhs : option Node) (rp : replacementPolicy)
  (depth : nat) : M unit :=
  writes "((" ;;
  rhs <- deref rhs ;;
  writeCTypeName rhs "" "" ;;
  writes ")(" ;;
  match lhs with
  | Some l => writeExpr l rp parenthesesMandatory depth
  | None => fail PanicNilDereference
  end ;;
  writes "))".

Definition writeExprBinaryOp (n : Node) (rp : replacementPolicy)
  (pp : parenthesesPolicy) (depth : nat) : M unit :=
  let op := Expr_ID0 n in
  if Key_eqb (Key_ op) KeyXBinaryAs
  then writeExprAs (Expr_LHS n) (Expr_RHS n) rp depth
  else
    match pp with
    | parenthesesMandatory => writeb "("
    | parenthesesOptional => ret tt
    end ;;
    match Expr_LHS n with
    | Some l => writeExpr l rp parenthesesMandatory depth
    | None => fail PanicNilDereference
    end ;;
    writes (cOpNames (Key_ op)) ;;
    match Expr_RHS n with
    | Some r => writeExpr r rp parenthesesMandatory depth
    | None => fail PanicNilDereference
    end ;;
    match pp with
    | parenthesesMandatory => writeb ")"
    | parenthesesOptional => ret tt
    end.

Definition writeExprAssociativeOp (n : Node) (rp : replacementPolicy)
  (depth : nat) : M unit :=
  let opName := cOpNames (Key_ (Expr_ID0 n)) in
  forEachI (fun i o =>
      when (negb (Nat.eqb i 0)) (writes opName) ;;
      writeExpr o rp parenthesesMandatory depth)
    0 (Expr_Args n).

End WriteExprCases.

Fixpoint writeExpr (n : Node) (rp : replacementPolicy) (pp : parenthesesPolicy)
  (depth : nat) {struct n} : M unit :=
  if Nat.ltb MaxExprDepth depth then fail ErrExprTooDeep else
  let depth := S depth in
  g <- getG ;;
  if match rp with replaceCallSuspendibles => true | replaceNothing => false end
     && Expr_CallSuspendible n
  then
    if N.leb (tempW (perFunc_ g)) (tempR (perFunc_ g))
    then fail ErrTempOutOfSync
    else
      writes (tPrefix ++ showN (tempR (perFunc_ g))) ;;
      modify (fun g =>
        setPerFunc (setTempR (tempR (perFunc_ g) + 1) (perFunc_ g)) g)
  else
    match Expr_ConstValue n with
    | Some cv =>
        mt <- deref (Expr_MType n) ;;
        if negb (TypeExpr_IsBool mt) then writes (showZ cv)
        else if Z.eqb cv 0 then writes "false"
        else if Z.eqb cv 1 then writes "true"
        else fail (ErrBoolConstant n cv)
    | None =>
        match FlagsUnaryOp (Expr_ID0 n), FlagsBinaryOp (Expr_ID0 n),
              FlagsAssociativeOp (Expr_ID0 n) with
        | false, false, false => writeExprOther writeExpr n rp depth
        | true, false, false => writeExprUnaryOp n rp depth
        | false, true, false => writeExprBinaryOp writeExpr n rp pp depth
        | false, false, true => writeExprAssociativeOp writeExpr n rp depth
        | _, _, _ => fail (ErrUnrecognizedKeyExpr (Key_ (Expr_ID0 n)))
        end
    end.

(** *** Suspendible-call lowering *)

(** The exit of a failed suspendible call. *)
Definition writeExit : M unit :=
  g <- getG ;;
  if public (perFunc_ g) && suspendible (perFunc_ g)
  then writes "goto cleanup0;"
  else writes "return status;".

Fixpoint writeCallSuspendibles (n : Node) (depth : nat) {struct n} : M unit :=
  (* The evaluation order for suspendible calls (which can have side effects)
     is important here: LHS, MHS, RHS, Args and finally the node itself. *)
  if negb (Expr_CallSuspendible n) then
    if Nat.ltb MaxExprDepth depth then fail ErrExprTooDeep else
    let depth := S depth in
    let sub (o : option Node) : M unit :=
      match o with
      | Some o =>
          if Kind_eqb (kind o) KExpr then writeCallSuspendibles o depth
          else ret tt
      | None => ret tt
      end in
    sub (lhs n) ;; sub (mhs n) ;; sub (rhs n) ;;
    forEach (fun o =>
        if Kind_eqb (kind o) KExpr then writeCallSuspendibles o depth
        else ret tt)
      (Expr_Args n)
  else
    g <- getG ;;
    b <- isInSrcReadU8 (tm g) n ;;
    if b then
      if N.ltb maxTemp (tempW (perFunc_ g)) then fail ErrTooManyTemporaries
      else
        let temp := tempW (perFunc_ g) in
        modify (fun g =>
          setPerFunc (setTempW (tempW (perFunc_ g) + 1) (perFunc_ g)) g) ;;
        writes ("if (" ++ aPrefix ++ "src->ri >= " ++ aPrefix
                ++ "src->wi) { status = " ++ aPrefix
                ++ "src->closed ? puffs_" ++ pkgName g
                ++ "_error_unexpected_eof : puffs_" ++ pkgName g
                ++ "_status_short_read;") ;;
        writeExit ;;
        writes ("}" ++ nl) ;;
        mt <- deref (Expr_MType n) ;;
        writeCTypeName mt tPrefix (showN temp) ;;
        writes (" = " ++ aPrefix ++ "src->ptr[" ++ aPrefix ++ "src->ri++];"
                ++ nl)
    else
    b <- isInDst (tm g) n KeyWrite ;;
    if b then
      writes ("if (" ++ aPrefix ++ "dst->closed) { status = puffs_"
              ++ pkgName g ++ "_error_closed_for_writes;") ;;
      writeExit ;;
      writes ("}" ++ nl) ;;
      writes ("if ((" ++ aPrefix ++ "dst->len - " ++ aPrefix
              ++ "dst->wi) < (sizeof(self->private_impl.f_stack) - v_s)) {") ;;
      writes ("status = puffs_" ++ pkgName g ++ "_status_short_write;") ;;
      writeExit ;;
      writes ("}" ++ nl) ;;
      writes ("memmove(" ++ "a_dst->ptr + a_dst->wi,"
              ++ "self->private_impl.f_stack + v_s,"
              ++ "sizeof(self->private_impl.f_stack) - v_s);" ++ nl) ;;
      writes ("a_dst->wi += sizeof(self->private_impl.f_stack) - v_s;" ++ nl)
    else
    b <- isInDst (tm g) n KeyWriteU8 ;;
    if b then
      writes ("if (" ++ aPrefix ++ "dst->wi >= " ++ aPrefix
              ++ "dst->len) { status = puffs_" ++ pkgName g
              ++ "_status_short_write;") ;;
      writeExit ;;
      writes ("}" ++ nl) ;;
      writes (aPrefix ++ "dst->ptr[" ++ aPrefix ++ "dst->wi++] = ") ;;
      a0 <- match Expr_Args n with
            | a0 :: _ => ret a0
            | [] => fail PanicIndexOutOfRange
            end ;;
      x <- deref (Arg_Value a0) ;;
      writeExpr x replaceCallSuspendibles parenthesesMandatory depth ;;
      writes (";" ++ nl)
    else
    b <- isThisDecodeHeader (tm g) n ;;
    if b then
      f <- deref (funk (perFunc_ g)) ;;
      writes ("status = puffs_" ++ pkgName g ++ "_"
              ++ ByID (tm g) (Func_Receiver f) ++ "_decode_header(self, "
              ++ aPrefix ++ "src);" ++ nl) ;;
      writes ("if (status) { goto cleanup0; }" ++ nl)
    else
      fail (ErrCannotConvertCall n).

Definition writeSuspendibles (n : Node) (depth : nat) : M unit :=
  if negb (Expr_Suspendible n) then ret tt
  else writeCallSuspendibles n depth.

(** *** Statement lowering *)

Section WriteStatementCases.

Variable writeStatement : Node -> nat -> M unit.

Definition maxCloseCurly : nat := 1000.

(** The loop of the [if] case over the chain of [else if]s; it returns the
    number of closing braces owed. *)
Fixpoint writeIfChain (n : Node) (first : bool) (nCloseCurly : nat)
  (depth : nat) {struct n} : M nat :=
  cond <- deref (If_Condition n) ;;
  nCloseCurly <-
    (if Expr_Suspendible cond then
       nCloseCurly <-
         (if negb first then
            writeb "{" ;;
            if Nat.eqb nCloseCurly maxCloseCurly
            then fail ErrTooManyNestedIfs
            else ret (S nCloseCurly)
          else ret nCloseCurly) ;;
       writeSuspendibles cond depth ;;
       ret nCloseCurly
     else ret nCloseCurly) ;;
  writes "if (" ;;
  writeExpr cond replaceCallSuspendibles parenthesesOptional 0 ;;
  writes (") {" ++ nl) ;;
  forEach (fun o => writeStatement o depth) (If_BodyIfTrue n) ;;
  match If_BodyIfFalse n with
  | _ :: _ =>
      writes "} else {" ;;
      forEach (fun o => writeStatement o depth) (If_BodyIfFalse n) ;;
      ret nCloseCurly
  | [] =>
      match If_ElseIf n with
      | None => ret nCloseCurly
      | Some n' =>
          writes "} else " ;;
          writeIfChain n' false nCloseCurly depth
      end
  end.

End WriteStatementCases.

Fixpoint writeStatement (n : Node) (depth : nat) {struct n} : M unit :=
  if Nat.ltb MaxBodyDepth depth then fail ErrBodyTooDeep else
  let depth := S depth in
  match kind n with
  | KAssert =>
      (* Assertions only apply at compile-time. *)
      ret tt

  | KAssign =>
      l <- deref (Assign_LHS n) ;;
      writeSuspendibles l depth ;;
      r <- deref (Assign_RHS n) ;;
      writeSuspendibles r depth ;;
      writeExpr l replaceCallSuspendibles parenthesesMandatory depth ;;
      writes (cOpNames (Key_ (Assign_Operator n))) ;;
      writeExpr r replaceCallSuspendibles parenthesesMandatory depth ;;
      writes (";" ++ nl)

  | KExpr =>
      writeSuspendibles n depth ;;
      if Expr_CallSuspendible n then ret tt
      else fail ErrNotCallSuspendible

  | KIf =>
      nCloseCurly <- writeIfChain writeStatement n true 1 depth ;;
      writes (repeatString ("}" ++ nl) nCloseCurly)

  | KJump =>
      jt <- jumpTarget_ (Jump_JumpTarget n) ;;
      let keyword :=
        if Key_eqb (Key_ (Jump_Keyword n)) KeyBreak then "break"
        else "continue" in
      writes ("goto label_" ++ showN jt ++ "_" ++ keyword ++ ";" ++ nl)

  | KReturn =>
      g <- getG ;;
      let ret_ :=
        if ID_eqb (Return_Keyword n) ID0
        then "puffs_" ++ pkgName g ++ "_status_ok"
        else name (match lookupID (statusMap g) (Return_Message n) with
                   | Some s => s
                   | None => zeroStatus
                   end) in
      if negb (suspendible (perFunc_ g)) then writes ("return;" ++ nl)
      else if public (perFunc_ g)
      then writes ("status = " ++ ret_ ++ "; goto cleanup0;" ++ nl)
      else writes ("return " ++ ret_ ++ ";" ++ nl)

  | KVar =>
      g <- getG ;;
      match Var_Value n with
      | Some v => writeSuspendibles v depth
      | None => ret tt
      end ;;
      x <- deref (Var_XType n) ;;
      (if Key_eqb (Key_ (TypeExpr_Decorator x)) KeyOpenBracket then
         match Var_Value n with
         | Some _ => fail ErrArrayInitializer
         | None =>
             len <- deref (TypeExpr_ArrayLength x) ;;
             let cv := Expr_ConstValue len in
             writes ("for (size_t i = 0; i < " ++ showBig cv
                     ++ "; i++) { " ++ vPrefix ++ ByID (tm g) (Var_Name n)
                     ++ "[i] = 0; }" ++ nl)
         end
       else
         writes (vPrefix ++ ByID (tm g) (Var_Name n) ++ " = ") ;;
         match Var_Value n with
         | Some v =>
             writeExpr v replaceCallSuspendibles parenthesesMandatory 0
         | None => writeb "0"
         end) ;;
      writes (";" ++ nl)

  | KWhile =>
      when (While_HasContinue n)
        (jt <- jumpTarget_ (addr n) ;;
         writes ("label_" ++ showN jt ++ "_continue:;" ++ nl)) ;;
      writes "while (" ;;
      cond <- deref (While_Condition n) ;;
      writeExpr cond replaceCallSuspendibles parenthesesOptional 0 ;;
      writes (") {" ++ nl) ;;
      forEach (fun o => writeStatement o depth) (While_Body n) ;;
      writes ("}" ++ nl) ;;
      when (While_HasBreak n)
        (jt <- jumpTarget_ (addr n) ;;
         writes ("label_" ++ showN jt ++ "_break:;" ++ nl))

  | k => fail (ErrUnrecognizedKind k)
  end.

(** *** Local variable declarations *)

Section WriteVarsCases.

(** What [writeVars] does for one node of a block, at the depth of the
    block's statements. *)
Variable writeVarsNode : Node -> nat -> M unit.

Definition writeVarsBlock (block : list Node) (depth : nat) : M unit :=
  if Nat.ltb MaxBodyDepth depth then fail ErrBodyTooDeep else
  let depth := S depth in
  forEach (fun o => writeVarsNode o depth) block.

(** [for o := o.If(); o != nil; o = o.ElseIf()] *)
Fixpoint writeVarsIfChain (o : Node) (depth : nat) {struct o} : M unit :=
  writeVarsBlock (If_BodyIfTrue o) depth ;;
  writeVarsBlock (If_BodyIfFalse o) depth ;;
  match If_ElseIf o with
  | Some o' => writeVarsIfChain o' depth
  | None => ret tt
  end.

End WriteVarsCases.

Fixpoint writeVarsNode (o : Node) (depth : nat) {struct o} : M unit :=
  match kind o with
  | KIf => writeVarsIfChain writeVarsNode o depth
  | KVar =>
      g <- getG ;;
      x <- deref (Var_XType o) ;;
      writeCTypeName x vPrefix (ByID (tm g) (Var_Name o)) ;;
      writes (";" ++ nl)
  | KWhile => writeVarsBlock writeVarsNode (While_Body o) depth
  | _ => ret tt
  end.

Definition writeVars (block : list Node) (depth : nat) : M unit :=
  writeVarsBlock writeVarsNode block depth.

(** *** Functions *)

Definition writeFuncSignature (n : Node) : M unit :=
  g <- getG ;;
  (* TODO: write n's return values. *)
  (if Func_Suspendible n
   then writes ("puffs_" ++ pkgName g ++ "_status")
   else writes "void") ;;
  writes (" puffs_" ++ pkgName g) ;;
  when (negb (ID_eqb (Func_Receiver n) ID0))
    (writes ("_" ++ ByID (tm g) (Func_Receiver n))) ;;
  writes ("_" ++ ByID (tm g) (Func_Name n) ++ "(") ;;
  comma <-
    (if negb (ID_eqb (Func_Receiver n) ID0)
     then
       writes ("puffs_" ++ pkgName g ++ "_" ++ ByID (tm g) (Func_Receiver n)
               ++ " *self") ;;
       ret true
     else ret false) ;;
  in_ <- deref (Func_In n) ;;
  _ <- foldM (fun (comma : bool) o =>
      when comma (writeb ",") ;;
      x <- deref (Field_XType o) ;;
      writeCTypeName x aPrefix (ByID (tm g) (Field_Name o)) ;;
      ret true)
    comma (Struct_Fields in_) ;;
  writes ")".

Definition writeFuncPrototype (n : Node) : M unit :=
  writeFuncSignature n ;;
  writes (";" ++ nl ++ nl).

(** The bounds of a refined argument that need a run-time check: those the
    argument's type gives a constant for, less the ones that equal the bound
    of the underlying numeric type. *)
Definition argBound (b : option Node) (ntb : option Z) : option Z :=
  match match b with Some b => Expr_ConstValue b | None => None end with
  | Some cv =>
      match ntb with
      | Some t => if Z.eqb cv t then None else Some cv
      | None => Some cv
      end
  | None => None
  end.

(** The checks one argument [o] adds to [checks]. *)
Definition argChecks (g : gen) (o : Node) : M (list string) :=
  oTyp <- deref (Field_XType o) ;;
  if negb (Key_eqb (Key_ (TypeExpr_Decorator oTyp)) KeyPtr)
     && negb (TypeExpr_IsRefined oTyp)
  then
    (* TODO: Also check elements, for array-typed arguments. *)
    ret []
  else if Key_eqb (Key_ (TypeExpr_Decorator oTyp)) KeyPtr
  then ret ["!" ++ aPrefix ++ ByID (tm g) (Field_Name o)]
  else
    let ntb := numTypeBounds (Key_ (TypeExpr_Name oTyp)) in
    let lo := argBound (lhs oTyp) (fst ntb) in
    let hi := argBound (mhs oTyp) (snd ntb) in
    ret (List.app
           match lo with
           | Some b =>
               [aPrefix ++ ByID (tm g) (Field_Name o) ++ " < " ++ showZ b]
           | None => []
           end
           match hi with
           | Some b =>
               [aPrefix ++ ByID (tm g) (Field_Name o) ++ " > " ++ showZ b]
           | None => []
           end).

(** [strings.Join]-like: the checks separated by the C disjunction. *)
Fixpoint joinChecks (checks : list string) : string :=
  match checks with
  | [] => ""
  | [c] => c
  | c :: r => c ++ " || " ++ joinChecks r
  end.

Definition writeFuncImplArgChecks (n : Node) : M unit :=
  g <- getG ;;
  in_ <- deref (Func_In n) ;;
  checks <- foldM (fun checks o =>
      cs <- argChecks g o ;; ret (List.app checks cs))
    [] (Struct_Fields in_) ;;
  match checks with
  | [] => ret tt
  | _ :: _ =>
      writes "if (" ;;
      writes (joinChecks checks) ;;
      writes ") {" ;;
      (if Func_Suspendible n
       then writes ("status = puffs_" ++ pkgName g
                    ++ "_error_bad_argument; goto cleanup0;")
       else if negb (ID_eqb (Func_Receiver n) ID0)
       then writes ("self->private_impl.status = puffs_" ++ pkgName g
                    ++ "_error_bad_argument; return;")
       else writes "return;") ;;
      writes ("}" ++ nl)
  end.

(** [writeFuncImpl] is lowered in three parts, in the order of its text:
    what comes before the body (the signature, the checks of the receiver,
    of the status and of the arguments, the local variables), the body and
    the epilogue, and the last check on the temporaries. *)
Definition writeFuncImplPrologue (n : Node) : M unit :=
  modify (setPerFunc (mkPerFunc (Some n) [] 0 0 false false)) ;;
  g <- getG ;;
  writeFuncSignature n ;;
  writes ("{" ++ nl) ;;

  (* Check the previous status and the "self" arg. *)
  when (Func_Public n)
    (modify (fun g => setPerFunc (setPublic true (perFunc_ g)) g) ;;
     when (negb (ID_eqb (Func_Receiver n) ID0))
       (writes ("if (!self) {" ++ nl) ;;
        (if Func_Suspendible n
         then writes ("return puffs_" ++ pkgName g ++ "_error_bad_receiver;")
         else writes "return;") ;;
        writes ("}" ++ nl))) ;;

  (if Func_Suspendible n then
     modify (fun g => setPerFunc (setSuspendible true (perFunc_ g)) g) ;;
     writes ("puffs_" ++ pkgName g ++ "_status status = ") ;;
     (if negb (ID_eqb (Func_Receiver n) ID0) then
        writes ("self->private_impl.status;" ++ nl) ;;
        when (Func_Public n) (writes "if (status & 1) { return status; }")
      else writes ("puffs_" ++ pkgName g ++ "_status_ok;" ++ nl)) ;;
     when (Func_Public n)
       (writes ("if (self->private_impl.magic != PUFFS_MAGIC) {"
                ++ "status = puffs_" ++ pkgName g
                ++ "_error_constructor_not_called; goto cleanup0; }" ++ nl))
   else if negb (ID_eqb (Func_Receiver n) ID0) && Func_Public n then
     writes "if (self->private_impl.status & 1) { return; }" ;;
     writes ("if (self->private_impl.magic != PUFFS_MAGIC) {"
             ++ "self->private_impl.status = puffs_" ++ pkgName g
             ++ "_error_constructor_not_called; return; }" ++ nl)
   else ret tt) ;;

  (* For public functions, check (at runtime) the other args for bounds and
     null-ness. For private functions, those checks are done at compile
     time. *)
  when (Func_Public n) (writeFuncImplArgChecks n) ;;
  writes nl ;;

  (* Generate the local variables. *)
  writeVars (Func_Body n) 0 ;;
  writes nl.

Definition writeFuncImplEmit (n : Node) : M unit :=
  writeFuncImplPrologue n ;;

  (* Generate the function body. *)
  forEach (fun o => writeStatement o 0) (Func_Body n) ;;
  writes nl ;;

  g <- getG ;;
  when (suspendible (perFunc_ g))
    (when (public (perFunc_ g))
       (writes ("cleanup0: self->private_impl.status = status;" ++ nl)) ;;
     writes ("return status;" ++ nl)) ;;

  writes ("}" ++ nl ++ nl).

Definition writeFuncImpl (n : Node) : M unit :=
  writeFuncImplEmit n ;;
  g <- getG ;;
  if negb (N.eqb (tempW (perFunc_ g)) (tempR (perFunc_ g)))
  then fail ErrTempOutOfSync
  else ret tt.

(** *** Structs, constructors and destructors *)

Definition writeStruct (n : Node) : M unit :=
  g <- getG ;;
  (* For API/ABI compatibility, the very first field in the struct's
     private_impl must be the status code. *)
  let structName := ByID (tm g) (Struct_Name n) in
  writes ("typedef struct {" ++ nl) ;;
  writes ("// Do not access the private_impl's fields directly. There is no API/ABI" ++ nl) ;;
  writes ("// compatibility or safety guarantee if you do so. Instead, use the" ++ nl) ;;
  writes ("// puffs_" ++ pkgName g ++ "_" ++ structName ++ "_etc functions." ++ nl) ;;
  writes ("//" ++ nl) ;;
  writes ("// In C++, these fields would be " ++ dq ++ "private" ++ dq
          ++ ", but C does not support that." ++ nl) ;;
  writes ("//" ++ nl) ;;
  writes ("// It is a struct, not a struct*, so that it can be stack allocated." ++ nl) ;;
  writes ("struct {" ++ nl) ;;
  when (Struct_Suspendible n)
    (writes ("puffs_" ++ pkgName g ++ "_status status;" ++ nl) ;;
     writes ("uint32_t magic;" ++ nl)) ;;
  forEach (fun o =>
      x <- deref (Field_XType o) ;;
      writeCTypeName x fPrefix (ByID (tm g) (Field_Name o)) ;;
      writes (";" ++ nl))
    (Struct_Fields n) ;;
  writes ("} private_impl;" ++ nl ++ " } puffs_" ++ pkgName g ++ "_"
          ++ structName ++ ";" ++ nl ++ nl).

Definition writeCtorSignature (n : Node) (public ctor : bool) : M unit :=
  g <- getG ;;
  let structName := ByID (tm g) (Struct_Name n) in
  let ctorName := if ctor then "constructor" else "destructor" in
  when (ctor && public)
    (writes ("// puffs_" ++ pkgName g ++ "_" ++ structName ++ "_" ++ ctorName
             ++ " is a constructor function." ++ nl) ;;
     writes ("//" ++ nl) ;;
     writes ("// It should be called before any other puffs_" ++ pkgName g
             ++ "_" ++ structName ++ "_* function." ++ nl) ;;
     writes ("//" ++ nl) ;;
     writes ("// Pass PUFFS_VERSION and 0 for puffs_version and for_internal_use_only."
             ++ nl)) ;;
  writes ("void puffs_" ++ pkgName g ++ "_" ++ structName ++ "_" ++ ctorName
          ++ "(puffs_" ++ pkgName g ++ "_" ++ structName ++ " *self") ;;
  when ctor
    (writes ", uint32_t puffs_version, uint32_t for_internal_use_only") ;;
  writes ")".

Definition writeCtorPrototype (n : Node) : M unit :=
  if negb (Struct_Suspendible n) then ret tt
  else
    forEach (fun ctor =>
        writeCtorSignature n (Struct_Public n) ctor ;;
        writes (";" ++ nl ++ nl))
      [true; false].

Definition writeCtorImpl (n : Node) : M unit :=
  if negb (Struct_Suspendible n) then ret tt
  else
    g <- getG ;;
    forEach (fun ctor : bool =>
        writeCtorSignature n false ctor ;;
        writes ("{" ++ nl) ;;
        writes ("if (!self) { return; }" ++ nl) ;;

        when ctor
          (writes ("if (puffs_version != PUFFS_VERSION) {" ++ nl) ;;
           writes ("self->private_impl.status = puffs_" ++ pkgName g
                   ++ "_error_bad_version;" ++ nl) ;;
           writes ("return;" ++ nl) ;;
           writes ("}" ++ nl) ;;

           writes ("if (for_internal_use_only != PUFFS_ALREADY_ZEROED) {"
                   ++ "memset(self, 0, sizeof(*self)); }" ++ nl) ;;
           writes ("self->private_impl.magic = PUFFS_MAGIC;" ++ nl) ;;

           forEach (fun f =>
               match Field_DefaultValue f with
               | Some dv =>
                   (* TODO: set default values for array types. *)
                   writes ("self->private_impl." ++ fPrefix
                           ++ ByID (tm g) (Field_Name f) ++ " = "
                           ++ showBig (Expr_ConstValue dv) ++ ";" ++ nl)
               | None => ret tt
               end)
             (Struct_Fields n)) ;;

        (* Call any ctor/dtors on sub-structs. *)
        forEach (fun f =>
            x <- deref (Field_XType f) ;;
            if negb (TypeExpr_IsInnermost x) then
              (* TODO: arrays of sub-structs. *)
              ret tt
            else
              match lookupID (structMap g) (TypeExpr_Name x) with
              | None => ret tt
              | Some _ =>
                  if ctor then
                    writes ("puffs_" ++ pkgName g ++ "_"
                            ++ ByID (tm g) (TypeExpr_Name x)
                            ++ "_constructor(&self->private_impl." ++ fPrefix
                            ++ ByID (tm g) (Field_Name f) ++ ","
                            ++ "PUFFS_VERSION, PUFFS_ALREADY_ZEROED);" ++ nl)
                  else
                    writes ("puffs_" ++ pkgName g ++ "_"
                            ++ ByID (tm g) (TypeExpr_Name x)
                            ++ "_destructor(&self->private_impl." ++ fPrefix
                            ++ ByID (tm g) (Field_Name f) ++ ");" ++ nl)
              end)
          (Struct_Fields n) ;;

        writes ("}" ++ nl ++ nl))
      [true; false].

(** *** The collector *)

(** The test of both [forEach] loops: the declaration is of kind [k] and
    has the visibility asked for. *)
Definition selected (k : Kind) (v : visibility) (n : Node) : bool :=
  negb (negb (Kind_eqb (kind n) k)
        || (match v with pubOnly => true | _ => false end
            && negb (FlagsPublic (flags n)))
        || (match v with priOnly => true | _ => false end
            && FlagsPublic (flags n))).

Definition forEachFunc (v : visibility) (f : Node -> M unit) : M unit :=
  g <- getG ;;
  forEach (fun file =>
      forEach (fun n => if selected KFunc v n then f n else ret tt)
        (TopLevelDecls file))
    (files g).

Definition forEachStatus (v : visibility) (f : Node -> M unit) : M unit :=
  g <- getG ;;
  forEach (fun file =>
      forEach (fun n => if selected KStatus v n then f n else ret tt)
        (TopLevelDecls file))
    (files g).

(** [msg[0]] and [msg[len(msg)-1]] *)
Definition byteAt (s : string) (i : nat) : option ascii := String.get i s.

Definition isQuoted (msg : string) : bool :=
  negb (Nat.ltb (String.length msg) 2
        || negb (match byteAt msg 0 with
                 | Some c => Ascii.eqb c dquote
                 | None => false
                 end)
        || negb (match byteAt msg (String.length msg - 1) with
                 | Some c => Ascii.eqb c dquote
                 | None => false
                 end)).

Definition gatherStatuses (n : Node) : M unit :=
  g <- getG ;;
  let msg := ByID (tm g) (Status_Message n) in
  if negb (isQuoted msg) then fail (ErrBadStatusMessage msg)
  else
    let msg := slice msg 1 (String.length msg - 1) in
    let isError := Key_eqb (Key_ (Status_Keyword n)) KeyError in
    let prefix := if isError then "error " else "status " in
    let s := mkStatus (cName g (prefix ++ msg)) msg isError in
    modify (fun g => setStatusList (List.app (statusList g) [s]) g) ;;
    modify (fun g => setStatusMap ((Status_Message n, s) :: statusMap g) g).

(** *** The header and the implementation *)

Definition genHeader : M unit :=
  g <- getG ;;
  let includeGuard := "PUFFS_" ++ ToUpper (pkgName g) ++ "_H" in
  writes ("#ifndef " ++ includeGuard ++ nl ++ "#define " ++ includeGuard
          ++ nl ++ nl) ;;

  writes ("// Code generated by puffs-gen-c. DO NOT EDIT." ++ nl ++ nl) ;;
  writes baseHeader ;;
  writes (nl ++ "#ifdef __cplusplus" ++ nl ++ "extern " ++ dq ++ "C" ++ dq
          ++ " {" ++ nl ++ "#endif" ++ nl ++ nl) ;;

  writes ("// ---------------- Status Codes" ++ nl ++ nl) ;;
  writes ("// Status codes are non-positive integers." ++ nl) ;;
  writes ("//" ++ nl) ;;
  writes ("// The least significant bit indicates a non-recoverable status code: an error." ++ nl) ;;
  writes ("typedef enum {" ++ nl) ;;
  forEachI (fun i s =>
      let nudge := if HasPrefix s "error " then "+1" else "" in
      writes (cName g s ++ " = " ++ showZ (-2 * Z.of_nat i) ++ nudge ++ ","
              ++ nl))
    0 builtInStatuses ;;
  forEachI (fun i s =>
      let nudge := if isError s then "+1" else "" in
      writes (name s ++ " = "
              ++ showZ (-2 * Z.of_nat (userDefinedStatusBase + i)) ++ nudge
              ++ "," ++ nl))
    0 (statusList g) ;;
  writes ("} puffs_" ++ pkgName g ++ "_status;" ++ nl ++ nl) ;;
  writes ("bool puffs_" ++ pkgName g ++ "_status_is_error(puffs_"
          ++ pkgName g ++ "_status s);" ++ nl ++ nl) ;;
  writes ("const char* puffs_" ++ pkgName g ++ "_status_string(puffs_"
          ++ pkgName g ++ "_status s);" ++ nl ++ nl) ;;

  writes ("// ---------------- Structs" ++ nl ++ nl) ;;
  forEach writeStruct (structList g) ;;

  writes ("// ---------------- Public Constructor and Destructor Prototypes"
          ++ nl ++ nl) ;;
  forEach (fun n => if Struct_Public n then writeCtorPrototype n else ret tt)
    (structList g) ;;

  writes ("// ---------------- Public Function Prototypes" ++ nl ++ nl) ;;
  forEachFunc pubOnly writeFuncPrototype ;;

  writes (nl ++ "#ifdef __cplusplus" ++ nl ++ "}  // extern " ++ dq ++ "C"
          ++ dq ++ nl ++ "#endif" ++ nl ++ nl) ;;
  writes ("#endif  // " ++ includeGuard ++ nl ++ nl).

(** The message of a built-in status: its name without the keyword. *)
Definition builtInMessage (s : string) : string :=
  if HasPrefix s "status "
  then slice s (String.length "status ") (String.length s)
  else if HasPrefix s "error "
  then slice s (String.length "error ") (String.length s)
  else s.

Definition genImpl : M unit :=
  g <- getG ;;
  writes baseImpl ;;
  writes nl ;;

  writes ("// ---------------- Status Codes Implementations" ++ nl ++ nl) ;;
  writes ("bool puffs_" ++ pkgName g ++ "_status_is_error(puffs_"
          ++ pkgName g ++ "_status s) {" ++ "return s & 1; }" ++ nl ++ nl) ;;
  writes ("const char* puffs_" ++ pkgName g ++ "_status_strings["
          ++ showNat (List.length builtInStatuses
                      + List.length (statusList g))
          ++ "] = {" ++ nl) ;;
  forEach (fun s =>
      let s := builtInMessage s in
      let s := pkgName g ++ ": " ++ s in
      writes (quote s ++ ","))
    builtInStatuses ;;
  forEach (fun s => writes (quote (pkgName g ++ ": " ++ msg s) ++ ","))
    (statusList g) ;;
  writes ("};" ++ nl ++ nl) ;;

  writes ("const char* puffs_" ++ pkgName g ++ "_status_string(puffs_"
          ++ pkgName g ++ "_status s) {" ++ nl) ;;
  writes ("s = -(s >> 1); if (0 <= s) {" ++ nl) ;;
  writes ("if (s < " ++ showNat (List.length builtInStatuses)
          ++ ") { return puffs_" ++ pkgName g ++ "_status_strings[s]; }"
          ++ nl) ;;
  writes ("s -= "
          ++ showNat (userDefinedStatusBase - List.length builtInStatuses)
          ++ ";" ++ nl) ;;
  writes ("if ((" ++ showNat (List.length builtInStatuses)
          ++ " <= s) && (s < "
          ++ showNat (List.length builtInStatuses
                      + List.length (statusList g))
          ++ ")) { return puffs_" ++ pkgName g ++ "_status_strings[s]; }"
          ++ nl) ;;
  writes ("}" ++ nl ++ "return " ++ dq ++ pkgName g ++ ": unknown status"
          ++ dq ++ ";" ++ nl) ;;
  writes ("}" ++ nl ++ nl) ;;

  writes ("// ---------------- Private Constructor and Destructor Prototypes"
          ++ nl ++ nl) ;;
  forEach (fun n =>
      if negb (Struct_Public n) then writeCtorPrototype n else ret tt)
    (structList g) ;;

  writes ("// ---------------- Private Function Prototypes" ++ nl ++ nl) ;;
  forEachFunc priOnly writeFuncPrototype ;;

  writes ("// ---------------- Constructor and Destructor Implementations"
          ++ nl ++ nl) ;;
  writes ("// PUFFS_MAGIC is a magic number to check that constructors are called. It's" ++ nl) ;;
  writes ("// not foolproof, given C doesn't automatically zero memory before use, but it" ++ nl) ;;
  writes ("// should catch 99.99% of cases." ++ nl) ;;
  writes ("//" ++ nl) ;;
  writes ("// Its (non-zero) value is arbitrary, based on md5sum(" ++ dq
          ++ "puffs" ++ dq ++ ")." ++ nl) ;;
  writes ("#define PUFFS_MAGIC (0xCB3699CCU)" ++ nl ++ nl) ;;
  writes ("// PUFFS_ALREADY_ZEROED is passed from a container struct's constructor to a" ++ nl) ;;
  writes ("// containee struct's constructor when the container has already zeroed the" ++ nl) ;;
  writes ("// containee's memory." ++ nl) ;;
  writes ("//" ++ nl) ;;
  writes ("// Its (non-zero) value is arbitrary, based on md5sum(" ++ dq
          ++ "zeroed" ++ dq ++ ")." ++ nl) ;;
  writes ("#define PUFFS_ALREADY_ZEROED (0x68602EF1U)" ++ nl ++ nl) ;;
  forEach writeCtorImpl (structList g) ;;

  writes ("// ---------------- Function Implementations" ++ nl ++ nl) ;;
  forEachFunc bothPubPri writeFuncImpl.

(** The marker line between the header and the implementation. *)
Definition headerEndsHere : string :=
  "// C HEADER ENDS HERE." ++ nl ++ nl.

(** The structs of the package, in declaration order. *)
Definition unsortedStructs (files : list Node) : list Node :=
  flat_map (fun file =>
      filter (fun n => Kind_eqb (kind n) KStruct) (TopLevelDecls file))
    files.

Definition generate : M unit :=
  modify (setStatusMap []) ;;
  forEachStatus bothPubPri gatherStatuses ;;

  (* Make a topologically sorted list of structs. *)
  g <- getG ;;
  let (sorted, ok) := TopologicalSortStructs (unsortedStructs (files g)) in
  modify (setStructList sorted) ;;
  if negb ok then fail ErrCyclicalStructs
  else
    modify (setStructMap []) ;;
    forEach (fun n =>
        modify (fun g => setStructMap ((Struct_Name n, n) :: structMap g) g))
      sorted ;;

    genHeader ;;
    writes headerEndsHere ;;
    genImpl.

(** The generator as [main] builds it, and what [main] hands to the C
    formatter: the buffer of a run that did not fail. *)
Definition newGen (pkgName : string) (tm : Token.Map) (files : list Node)
  : gen :=
  mkGen pkgName tm files [] [] [] [] (mkPerFunc None [] 0 0 false false).

Definition run (pkgName : string) (tm : Token.Map) (files : list Node)
  : error + string :=
  match generate (newGen pkgName tm files) with
  | Ok _ _ out => inr out
  | Err e => inl e
  end.

(* ================================================================== *)
(** ** Syntax trees of the statements and declarations the properties
       speak about *)

Definition node (k : Kind) (f : Flags) (i0 i1 : ID) (l m r : option Node)
  (l0 l1 : list Node) : Node :=
  mkNode k f 0 None None 0 i0 i1 l m r l0 l1.

(** The type [u8], [u32], ... and [ptr T]. *)
Definition typeNamed (k : Key) : Node :=
  node KTypeExpr noFlags ID0 (ident k) None None None [] [].
Definition typePtr (t : Node) : Node :=
  node KTypeExpr noFlags (ident KeyPtr) ID0 None None (Some t) [] [].

(** A numeric type refined by constant bounds, as in [u32[lo..hi]]. *)
Definition exprConst (v : Z) (t : Node) : Node :=
  mkNode KExpr noFlags 0 (Some v) (Some t) 0 ID0 ID0 None None None [] [].
Definition typeRefined (k : Key) (lo hi : option Z) : Node :=
  node KTypeExpr noFlags ID0 (ident k)
       (option_map (fun v => exprConst v (typeNamed k)) lo)
       (option_map (fun v => exprConst v (typeNamed k)) hi) None [] [].

(** The local variable [x], of type [t]. *)
Definition exprIdent (x : ID) (t : Node) : Node :=
  mkNode KExpr noFlags 0 None (Some t) 0 ID0 x None None None [] [].

(** [in], [in.src] and [in.dst]. *)
Definition exprIn : Node :=
  node KExpr noFlags ID0 (ident KeyIn) None None None [] [].
Definition exprInField (f : ID) : Node :=
  node KExpr noFlags (ident KeyDot) f (Some exprIn) None None [] [].

Definition flagsSuspendibleCall : Flags :=
  mkFlags true true true false false false.

(** [in.src.read_u8?()] *)
Definition exprReadU8 (tm : Token.Map) : Node :=
  mkNode KExpr flagsSuspendibleCall 0 None (Some (typeNamed KeyU8)) 0
    (ident KeyOpenParen) ID0
    (Some (node KExpr noFlags (ident KeyDot) (ident KeyReadU8)
             (Some (exprInField (ByName tm "src"))) None None [] []))
    None None [] [].

(** [in.dst.write_u8?(x)] *)
Definition exprWriteU8 (tm : Token.Map) (x : Node) : Node :=
  mkNode KExpr flagsSuspendibleCall 0 None None 0
    (ident KeyOpenParen) ID0
    (Some (node KExpr noFlags (ident KeyDot) (ident KeyWriteU8)
             (Some (exprInField (ByName tm "dst"))) None None [] []))
    None None
    [node KArg noFlags ID0 ID0 None None (Some x) [] []] [].

(** [l = r] and [var x t]. *)
Definition stmtAssign (l r : Node) : Node :=
  node KAssign noFlags (ident KeyEq) ID0 (Some l) None (Some r) [] [].
Definition stmtVar (x : ID) (t : Node) : Node :=
  node KVar noFlags ID0 x (Some t) None None [] [].

(** [x = in.src.read_u8?()], for a local [x] of type [u8]. *)
Definition stmtReadU8 (tm : Token.Map) (x : ID) : Node :=
  stmtAssign (exprIdent x (typeNamed KeyU8)) (exprReadU8 tm).

(** Top-level declarations and files. *)
Definition declField (x : ID) (t : Node) : Node :=
  node KField noFlags ID0 x (Some t) None None [] [].
Definition declStruct (f : Flags) (nm : ID) (fields : list Node) : Node :=
  node KStruct f ID0 nm None None None fields [].
Definition declFunc (f : Flags) (receiver nm : ID) (ins body : list Node)
  : Node :=
  node KFunc f receiver nm (Some (declStruct noFlags ID0 ins)) None None
       [] body.
Definition declStatus (f : Flags) (keyword message : ID) : Node :=
  node KStatus f keyword message None None None [] [].
Definition fileOf (decls : list Node) : Node :=
  node KFile noFlags ID0 ID0 None None None decls [].

Definition flagsPublic : Flags := mkFlags false false false true false false.
Definition flagsSuspendible : Flags :=
  mkFlags true false false false false false.
Definition flagsPublicSuspendible : Flags :=
  mkFlags true false false true false false.

(** A small identifier table, for the concrete packages below. *)
Definition idSrc : ID := ident (KeyOther 1).
Definition idDst : ID := ident (KeyOther 2).
Definition idDecodeHeader : ID := ident (KeyOther 3).
Definition idX : ID := ident (KeyOther 4).
Definition idY : ID := ident (KeyOther 5).
Definition idBar : ID := ident (KeyOther 6).
Definition idCount : ID := ident (KeyOther 7).
Definition idDecode : ID := ident (KeyOther 8).
Definition idBadMagic : ID := ident (KeyOther 9).
Definition idBadMessage : ID := ident (KeyOther 10).

Definition exTm : Token.Map :=
  mkMap
    (fun s => if String.eqb s "src" then idSrc
              else if String.eqb s "dst" then idDst
              else if String.eqb s "decode_header" then idDecodeHeader
              else ID0)
    (fun i => match Key_ i with
              | KeyOther 1 => "src"
              | KeyOther 2 => "dst"
              | KeyOther 3 => "decode_header"
              | KeyOther 4 => "x"
              | KeyOther 5 => "y"
              | KeyOther 6 => "bar"
              | KeyOther 7 => "count"
              | KeyOther 8 => "decode"
              | KeyOther 9 => dq ++ "bad magic" ++ dq
              | KeyOther 10 => "bad message"
              | KeyU8 => "u8"
              | KeyU32 => "u32"
              | KeyIn => "in"
              | KeyThis => "this"
              | _ => ""
              end).

(** The topological sort of a package whose structs do not refer to one
    another: the declaration order. *)
Definition sortIndependent (l : list Node) : list Node * bool := (l, true).

(** The library on a package of ASCII text: what it gives for other text
    is never asked for. *)
Definition asciiText : Unicode := mkUnicode (fun s => s) (fun s => s).

(* ================================================================== *)
(** ** Notions the properties are stated with *)

(** [t] contains [s]: the text [s] occurs somewhere in [t]. *)
Definition contains (s t : string) : Prop :=
  exists a b : string, t = a ++ s ++ b.

(** The outcome of a run: the error, or the text written. *)
Definition outcome {A : Type} (r : Res A) : error + string :=
  match r with
  | Ok _ _ out => inr out
  | Err e => inl e
  end.

(** *** The collector *)

(** The status declarations of the package in source order: file by file,
    and declaration by declaration within a file. *)
Definition statusDecls (files : list Node) : list Node :=
  flat_map (fun file =>
      filter (selected KStatus bothPubPri) (TopLevelDecls file))
    files.

(** A double-quoted string literal: a quote, a body, a quote. *)
Definition quotedLiteral (m : string) : Prop :=
  exists body : string, m = dq ++ body ++ dq.

(** The status a declaration with message literal ["body"] stands for, in
    the words of the specification: the mangled name of the keyword, a space
    and the message. *)
Definition statusOfBody (g : gen) (n : Node) (body : string) : status :=
  let isError := Key_eqb (Key_ (Status_Keyword n)) KeyError in
  mkStatus (cName g ((if isError then "error" else "status") ++ " " ++ body))
           body isError.

(** The same from the literal as the identifier table holds it. *)
Definition statusOf (g : gen) (n : Node) : status :=
  let m := ByID (tm g) (Status_Message n) in
  statusOfBody g n (substring 1 (String.length m - 2) m).

(** *** The status enum *)

Definition mapI {A B : Type} (f : nat -> A -> B) : nat -> list A -> list B :=
  fix go (i : nat) (l : list A) : list B :=
    match l with
    | [] => []
    | x :: r => f i x :: go (S i) r
    end.

(** An enumerator [name = init,] of the C enum, and whether it stands for
    an error status. *)
Record enumerator : Type := mkEnumerator {
  en_name : string;
  en_init : string;
  en_isError : bool }.

Definition enumLine (e : enumerator) : string :=
  en_name e ++ " = " ++ en_init e ++ "," ++ nl.

(** The enumerators [genHeader] prints, in order: the built-in statuses,
    then the statuses of the package. *)
Definition builtInEnumerators (g : gen) : list enumerator :=
  mapI (fun i s =>
      mkEnumerator (cName g s)
        (showZ (-2 * Z.of_nat i)
         ++ (if HasPrefix s "error " then "+1" else ""))
        (HasPrefix s "error "))
    0 builtInStatuses.

Definition userEnumerators (g : gen) : list enumerator :=
  mapI (fun i s =>
      mkEnumerator (name s)
        (showZ (-2 * Z.of_nat (userDefinedStatusBase + i))
         ++ (if isError s then "+1" else ""))
        (isError s))
    0 (statusList g).

Definition statusEnumerators (g : gen) : list enumerator :=
  (builtInEnumerators g ++ userEnumerators g)%list.

Definition enumBody (g : gen) : string :=
  String.concat "" (map enumLine (statusEnumerators g)).

(** The value C gives to an initializer of the enum: a decimal literal,
    or the sum of two. *)
Fixpoint splitPlus (s : string) : string * option string :=
  match s with
  | EmptyString => (EmptyString, None)
  | String c r =>
      if Ascii.eqb c "+" then (EmptyString, Some r)
      else let (a, b) := splitPlus r in (String c a, b)
  end.

Definition parseInt (s : string) : option Z :=
  match s with
  | EmptyString => None
  | _ => option_map Z.of_int (NilEmpty.int_of_string s)
  end.

Definition cConstValue (s : string) : option Z :=
  match splitPlus s with
  | (a, None) => parseInt a
  | (a, Some b) =>
      match parseInt a, parseInt b with
      | Some x, Some y => Some (x + y)%Z
      | _, _ => None
      end
  end.

(** *** What a computation does to the generator *)

(** Every successful run of [m] takes the generator from [g] to some [g']
    with [R g g']. *)
Definition preservesAt {A : Type} (R : gen -> gen -> Prop) (m : M A)
  (g : gen) : Prop :=
  forall a g' o, m g = Ok a g' o -> R g g'.

Definition preserves {A : Type} (R : gen -> gen -> Prop) (m : M A) : Prop :=
  forall g, preservesAt R m g.

(** [m] only writes text: it leaves the generator as it found it. *)
Definition pure {A : Type} (m : M A) : Prop := preserves eq m.

(** *** The two sections of the output *)

(** The function declarations of the package that [forEachFunc] visits. *)
Definition funcDecls (v : visibility) (files : list Node) : list Node :=
  flat_map (fun file => filter (selected KFunc v) (TopLevelDecls file)) files.

(** The map from struct names that [generate] builds from the sorted
    structs. *)
Definition structMapOf (sorted : list Node) : list (ID * Node) :=
  rev (map (fun n => (Struct_Name n, n)) sorted).

(** The generator once the collector is done: after the statuses are
    gathered and the structs sorted, when the header is emitted. *)
Definition collected (g1 : gen) : gen :=
  let sorted := fst (TopologicalSortStructs (unsortedStructs (files g1))) in
  setStructMap (structMapOf sorted) (setStructList sorted g1).

(** The header section of an output: the text before the marker line. *)
Definition headerSection (out : string) : string :=
  match index 0 "// C HEADER ENDS HERE." out with
  | Some n => substring 0 n out
  | None => out
  end.

(** *** Concrete packages *)

(** The package [foo] that declares the error ["bad magic"]. *)
Definition declBadMagic : Node :=
  declStatus flagsPublic (ident KeyError) idBadMagic.
Definition pkgBadMagic : list Node := [fileOf [declBadMagic]].

(** A package whose only status message is not a quoted literal. *)
Definition pkgBadMessage : list Node :=
  [fileOf [declStatus flagsPublic (ident KeyError) idBadMessage]].

(** The package [foo] with one private struct, [bar]. *)
Definition declPrivateBar : Node :=
  declStruct flagsSuspendible idBar [declField idCount (typeNamed KeyU32)].
Definition pkgPrivateStruct : list Node := [fileOf [declPrivateBar]].

(** *** Argument checks, in the words of the specification *)

(** The constant a refinement gives for a bound, if any. *)
Definition refinementBound (b : option Node) : option Z :=
  match b with
  | Some e => Expr_ConstValue e
  | None => None
  end.

(** The bound equals the bound of the underlying numeric type. *)
Definition isNaturalBound (b : Z) (natural : option Z) : bool :=
  match natural with
  | Some t => Z.eqb b t
  | None => false
  end.

(** The checks of the input [o] of type [oTyp]: a pointer is checked for
    nil; a refined numeric input is compared with each of its bounds that is
    not the bound of its numeric type. *)
Definition specInputChecks (tm : Token.Map) (o oTyp : Node) : list string :=
  let arg := aPrefix ++ ByID tm (Field_Name o) in
  let natural := numTypeBounds (Key_ (TypeExpr_Name oTyp)) in
  if Key_eqb (Key_ (TypeExpr_Decorator oTyp)) KeyPtr then ["!" ++ arg]
  else if TypeExpr_IsRefined oTyp then
    List.app
      match refinementBound (lhs oTyp) with
      | Some b =>
          if isNaturalBound b (fst natural) then []
          else [arg ++ " < " ++ showZ b]
      | None => []
      end
      match refinementBound (mhs oTyp) with
      | Some b =>
          if isNaturalBound b (snd natural) then []
          else [arg ++ " > " ++ showZ b]
      | None => []
      end
  else [].

Definition specChecks (tm : Token.Map) (inputs : list Node) : list string :=
  flat_map (fun o =>
      match Field_XType o with
      | Some oTyp => specInputChecks tm o oTyp
      | None => []
      end)
    inputs.

(** What the emitted code does when a check fails. *)
Definition onBadArgument (g : gen) (n : Node) : string :=
  if Func_Suspendible n
  then "status = puffs_" ++ pkgName g ++ "_error_bad_argument; goto cleanup0;"
  else if negb (ID_eqb (Func_Receiver n) ID0)
  then "self->private_impl.status = puffs_" ++ pkgName g
       ++ "_error_bad_argument; return;"
  else "return;".

(** A public function without receiver that is not suspendible and takes
    a pointer. *)
Definition funcPointerInput : Node :=
  declFunc flagsPublic ID0 idDecode
    [declField idSrc (typePtr (typeNamed KeyBuf1))] [].

(** A public suspendible method that takes a pointer and a refined
    number [count u32[0..255]]. *)
Definition funcRefinedInput : Node :=
  declFunc flagsPublicSuspendible idBar idDecode
    [declField idSrc (typePtr (typeNamed KeyBuf1));
     declField idCount (typeRefined KeyU32 (Some 0%Z) (Some 255%Z))] [].

(** *** The cursors of the temporaries *)

(** No temporary is read before it is written, and no more temporaries
    are written than the check of the hoister lets through. *)
Definition tempsOK (g : gen) : Prop :=
  (tempR (perFunc_ g) <= tempW (perFunc_ g))%N
  /\ (tempW (perFunc_ g) <= maxTemp + 1)%N.

(** What the body of a function leaves alone: the package, the identifier
    table and the function's own flags. *)
Definition sameEnv (g g' : gen) : Prop :=
  pkgName g' = pkgName g
  /\ tm g' = tm g
  /\ public (perFunc_ g') = public (perFunc_ g)
  /\ suspendible (perFunc_ g') = suspendible (perFunc_ g).

(** What lowering an expression may do to the generator: it reads
    temporaries, and never more than were written. *)
Definition exprStep (g g' : gen) : Prop :=
  sameEnv g g'
  /\ tempW (perFunc_ g') = tempW (perFunc_ g)
  /\ (tempR (perFunc_ g) <= tempR (perFunc_ g'))%N
  /\ ((tempR (perFunc_ g) <= tempW (perFunc_ g))%N ->
      (tempR (perFunc_ g') <= tempW (perFunc_ g'))%N).

(** What lowering a statement may do: it also writes temporaries. *)
Definition tempsStep (g g' : gen) : Prop :=
  sameEnv g g'
  /\ (tempW (perFunc_ g) <= tempW (perFunc_ g'))%N
  /\ (tempR (perFunc_ g) <= tempR (perFunc_ g'))%N
  /\ (tempsOK g -> tempsOK g').

(** *** The text of a hoisted read *)

(** How a hoist leaves the function: through [cleanup0] in a public
    suspendible function, by [return status;] in any other. *)
Definition exitTextOf (cleanup : bool) : string :=
  if cleanup then "goto cleanup0;" else "return status;".

(** [writeExit]'s text, for the function being lowered. *)
Definition exitText (g : gen) : string :=
  exitTextOf (public (perFunc_ g) && suspendible (perFunc_ g)).

(** The guard of [in.src.read_u8?()], in package [pkg]. *)
Definition readGuardOf (pkg : string) : string :=
  "if (" ++ aPrefix ++ "src->ri >= " ++ aPrefix ++ "src->wi) { status = "
  ++ aPrefix ++ "src->closed ? puffs_" ++ pkg
  ++ "_error_unexpected_eof : puffs_" ++ pkg ++ "_status_short_read;".

Definition readGuard (g : gen) : string := readGuardOf (pkgName g).

(** What [x = in.src.read_u8?()] is lowered to when [w] temporaries were
    written and [r] of them read: the guard and the exit, the temporary
    [t_w] that receives the byte, and the assignment, which reads [t_r]. *)
Definition hoistedRead (pkg : string) (cleanup : bool) (x : string)
  (w r : N) : string :=
  readGuardOf pkg ++ exitTextOf cleanup ++ ("}" ++ nl)
  ++ ("uint8_t " ++ tPrefix ++ showN w)
  ++ (" = " ++ aPrefix ++ "src->ptr[" ++ aPrefix ++ "src->ri++];" ++ nl)
  ++ (vPrefix ++ x) ++ " = " ++ (tPrefix ++ showN r)
  ++ (";" ++ nl).

Definition readText (g : gen) (x : ID) : string :=
  hoistedRead (pkgName g) (public (perFunc_ g) && suspendible (perFunc_ g))
    (ByID (tm g) x) (tempW (perFunc_ g)) (tempR (perFunc_ g)).


(** The generator after the statement: one more temporary written, one
    more read. *)
Definition afterRead (g : gen) : gen :=
  setPerFunc
    (setTempR (tempR (perFunc_ g) + 1)
       (setTempW (tempW (perFunc_ g) + 1) (perFunc_ g))) g.

(** The result of a computation that runs after [o] was written. *)
Definition prepend {A : Type} (o : string) (r : Res A) : Res A :=
  match r with
  | Ok a g out => Ok a g (o ++ out)
  | Err e => Err e
  end.

(** *** Functions that read bytes *)

(** [pub func bar.decode?(src ptr buf1)] with the body
    [var x u8; x = in.src.read_u8?()]. *)
Definition funcReadOne : Node :=
  declFunc flagsPublicSuspendible idBar idDecode
    [declField idSrc (typePtr (typeNamed KeyBuf1))]
    [stmtVar idX (typeNamed KeyU8); stmtReadU8 exTm idX].



(** *** The state a function's body is lowered from *)

(** The generator when the body of [n] starts: no jump targets, no
    temporaries, the flags of [n]. *)
Definition bodyState (n : Node) (g : gen) : gen :=
  setPerFunc
    (mkPerFunc (Some n) [] 0 0 (Func_Public n) (Func_Suspendible n)) g.

(** The count of temporaries written is the same. *)
Definition sameTempW (g g' : gen) : Prop :=
  tempW (perFunc_ g') = tempW (perFunc_ g).

(** *** Jump targets *)

(** The jump targets are numbered as they are met: a number is below the
    count of targets, and no two loops share one. *)
Definition numbered (m : list (N * N)) : Prop :=
  (forall a j, lookupAddr m a = Some j -> (j < N.of_nat (length m))%N)
  /\ (forall a b j,
        lookupAddr m a = Some j -> lookupAddr m b = Some j -> a = b).

(** Every loop that has a jump target in [g] keeps it in [g']. *)
Definition keepsTargets (g g' : gen) : Prop :=
  forall a j,
    lookupAddr (jumpTargets (perFunc_ g)) a = Some j ->
    lookupAddr (jumpTargets (perFunc_ g')) a = Some j.

(** *** Mangled names *)

(** The characters of a mangled name: lower-case letters, digits and the
    underscore. *)
Definition isIdentChar (c : ascii) : bool :=
  inRange "a" "z" c || inRange "0" "9" c
  || Nat.eqb (nat_of_ascii c) (nat_of_ascii "_").

(** A name with its capitals in lower case and its spaces as underscores. *)
Definition foldChar (c : ascii) : ascii :=
  if inRange "A" "Z" c then ascii_of_nat (nat_of_ascii c + 32)
  else if Nat.eqb (nat_of_ascii c) (nat_of_ascii " ") then "_"%char
  else c.

Fixpoint foldName (s : string) : string :=
  match s with
  | EmptyString => EmptyString
  | String c r => String (foldChar c) (foldName r)
  end.

(** *** Types: pointers and arrays *)

(** [ptr] ... [ptr t], with [k] pointers. *)
Fixpoint ptrs (k : nat) (t : Node) : Node :=
  match k with
  | O => t
  | S k => typePtr (ptrs k t)
  end.

(** The array type [[len] t]. *)
Definition typeArray (len : Z) (t : Node) : Node :=
  node KTypeExpr noFlags (ident KeyOpenBracket) ID0
       (Some (exprConst len (typeNamed KeyU32))) None (Some t) [] [].

(** [[l1] [l2] ... t] *)
Definition arrays (lens : list Z) (t : Node) : Node :=
  fold_right typeArray t lens.

(** The extents of a C array declarator, the outermost first. *)
Definition extents (lens : list Z) : string :=
  String.concat "" (map (fun l => "[" ++ showZ l ++ "]") lens).

(** *** The table of status messages and the include guard *)

(** The entries of the table of status messages: the built-in ones, then
    those of the package. *)
Definition statusMessages (g : gen) : list string :=
  List.app
    (map (fun s => pkgName g ++ ": " ++ builtInMessage s) builtInStatuses)
    (map (fun s => pkgName g ++ ": " ++ msg s) (statusList g)).

(** The table as C has it: its declared length, then an initializer for
    each entry. *)
Definition statusTable (g : gen) (entries : list string) : string :=
  ("const char* puffs_" ++ pkgName g ++ "_status_strings["
   ++ showNat (List.length entries) ++ "] = {" ++ nl)
  ++ String.concat "" (map (fun e => quote e ++ ",") entries)
  ++ ("};" ++ nl ++ nl).

(** The include guard of the header of package [pkg]. *)
Definition includeGuardOf (pkg : string) : string :=
  "PUFFS_" ++ ToUpper pkg ++ "_H".

(** *** What the body of a function changes in the generator *)

(** The fields that the lowering of a body never touches: all of [gen] but
    the buffer, and of [perFunc] the function and its two flags. *)
Definition sameFields (g g' : gen) : Prop :=
  pkgName g' = pkgName g /\ tm g' = tm g /\ files g' = files g
  /\ statusList g' = statusList g /\ statusMap g' = statusMap g
  /\ structList g' = structList g /\ structMap g' = structMap g
  /\ funk (perFunc_ g') = funk (perFunc_ g)
  /\ public (perFunc_ g') = public (perFunc_ g)
  /\ suspendible (perFunc_ g') = suspendible (perFunc_ g).

(** Only the cursors of the temporaries move, forwards, and only new jump
    targets are added. *)
Definition bodyFrame (g g' : gen) : Prop :=
  sameFields g g'
  /\ keepsTargets g g'
  /\ (tempW (perFunc_ g) <= tempW (perFunc_ g'))%N
  /\ (tempR (perFunc_ g) <= tempR (perFunc_ g'))%N.

(** Only the read cursor moves. *)
Definition exprFrame (g g' : gen) : Prop :=
  sameFields g g'
  /\ jumpTargets (perFunc_ g') = jumpTargets (perFunc_ g)
  /\ tempW (perFunc_ g') = tempW (perFunc_ g)
  /\ (tempR (perFunc_ g) <= tempR (perFunc_ g'))%N.

(** *** Jumps and the labels of their loops *)

(** The statement [j] occurs in the statement [s], at any depth of its
    [if]s and [while]s, where the backend lowers it: in a chain of
    [else if]s, the links after one that has an [else] are not lowered. *)
Inductive inStmt (j : Node) : Node -> Prop :=
  | inStmt_here : inStmt j j
  | inStmt_if (s : Node) :
      kind s = KIf -> inChain j s -> inStmt j s
  | inStmt_while (s c : Node) :
      kind s = KWhile -> In c (While_Body s) -> inStmt j c -> inStmt j s
with inChain (j : Node) : Node -> Prop :=
  | inChain_true (n c : Node) :
      In c (If_BodyIfTrue n) -> inStmt j c -> inChain j n
  | inChain_false (n c : Node) :
      In c (If_BodyIfFalse n) -> inStmt j c -> inChain j n
  | inChain_elseIf (n e : Node) :
      If_BodyIfFalse n = [] -> If_ElseIf n = Some e -> inChain j e ->
      inChain j n.

(** [break] or [continue], as the labels have it. *)
Definition jumpWord (keyword : ID) : string :=
  if Key_eqb (Key_ keyword) KeyBreak then "break" else "continue".

(** The [goto] of a jump and the label of a loop, for the target [jt]. *)
Definition gotoText (jt : N) (keyword : ID) : string :=
  "goto label_" ++ showN jt ++ "_" ++ jumpWord keyword ++ ";" ++ nl.

Definition labelText (jt : N) (word : string) : string :=
  "label_" ++ showN jt ++ "_" ++ word ++ ":;" ++ nl.

(** The jump [j] was lowered: its [goto] is in the text, with the target
    that the loop it leaves has in the generator. *)
Definition jumped (j : Node) (g : gen) (out : string) : Prop :=
  exists jt : N,
    lookupAddr (jumpTargets (perFunc_ g)) (Jump_JumpTarget j) = Some jt
    /\ contains (gotoText jt (Jump_Keyword j)) out.

(** *** Loops, branches and jumps *)

(** [break] or [continue], out of the loop at address [target]. *)
Definition stmtJump (keyword : Key) (target : N) : Node :=
  mkNode KJump noFlags 0 None None target (ident keyword) ID0
    None None None [] [].

(** [if cond { thenB } else { elseB }] *)
Definition stmtIf (cond : Node) (thenB elseB : list Node) : Node :=
  node KIf noFlags ID0 ID0 (Some cond) None None thenB elseB.

(** [while cond { body }], the loop at address [a]. *)
Definition stmtWhile (a : N) (f : Flags) (cond : Node) (body : list Node)
  : Node :=
  mkNode KWhile f a None None 0 ID0 ID0 (Some cond) None None [] body.

Definition flagsHasBreak : Flags :=
  mkFlags false false false false true false.

(** [while x { if y { break } }] *)
Definition loopWithBreak : Node :=
  stmtWhile 7 flagsHasBreak (exprIdent idX (typeNamed KeyBool))
    [stmtIf (exprIdent idY (typeNamed KeyBool)) [stmtJump KeyBreak 7] []].

(** [in.dst.write_u8?(v)], for a constant [v], as a statement. *)
Definition stmtWriteU8 (tm : Token.Map) (v : Z) : Node :=
  exprWriteU8 tm (exprConst v (typeNamed KeyU8)).

(** *** Functions of reads and of writes *)

(** [pub func bar.decode?(src ptr buf1)], its body one statement
    [x = in.src.read_u8?()] for each [x] of [xs]. *)
Definition funcReads (xs : list ID) : Node :=
  declFunc flagsPublicSuspendible idBar idDecode
    [declField idSrc (typePtr (typeNamed KeyBuf1))]
    (map (stmtReadU8 exTm) xs).

(** [pub func bar.encode?(dst ptr buf1)], its body one statement
    [in.dst.write_u8?(v)] for each [v] of [vs]. *)
Definition funcWrites (vs : list Z) : Node :=
  declFunc flagsPublicSuspendible idBar idDecode
    [declField idDst (typePtr (typeNamed KeyBuf1))]
    (map (stmtWriteU8 exTm) vs).

(** *** Returns, and a package with a cycle *)

(** [return], [return status "m"] or [return error "m"]. *)
Definition stmtReturn (keyword message : ID) : Node :=
  node KReturn noFlags keyword message None None None [] [].

(** The error ["bad magic"] of the package [foo], as the collector
    gathers it. *)
Definition statusBadMagic : status :=
  mkStatus "puffs_foo_error_bad_magic" "bad magic" true.

(** The answer of the topological sort on structs that hold each other. *)
Definition sortCyclic (l : list Node) : list Node * bool := ([], false).

(** *** The brackets of the generated text *)

(** The three kinds of brackets of C. *)
Definition opener (c : ascii) : bool :=
  Ascii.eqb c "(" || Ascii.eqb c "[" || Ascii.eqb c "{".

(** The bracket that [c] closes. *)
Definition closer (c : ascii) : option ascii :=
  if Ascii.eqb c ")" then Some "("%char
  else if Ascii.eqb c "]" then Some "["%char
  else if Ascii.eqb c "}" then Some "{"%char
  else None.

(** One pass over a text, with the stack of the brackets that are open:
    [None] when a closing bracket is not the one of the innermost open
    bracket. *)
Fixpoint scan (st : list ascii) (s : string) : option (list ascii) :=
  match s with
  | EmptyString => Some st
  | String c r =>
      if opener c then scan (c :: st) r
      else
        match closer c with
        | Some o =>
            match st with
            | o' :: st' => if Ascii.eqb o o' then scan st' r else None
            | [] => None
            end
        | None => scan st r
        end
  end.

(** A text whose brackets are properly nested, and all closed. *)
Definition balanced (s : string) : Prop := scan [] s = Some [].

(** The same as a test. *)
Definition balancedb (s : string) : bool :=
  match scan [] s with
  | Some [] => true
  | _ => false
  end.

(** The names of a tree are balanced: the text that the identifier table
    [tm] gives for the identifier or literal (the ID1) of each node of the
    tree is. *)
Fixpoint namesBalanced (tm : Token.Map) (n : Node) : bool :=
  let opt (o : option Node) :=
    match o with Some c => namesBalanced tm c | None => true end in
  let all := fix all (l : list Node) : bool :=
    match l with [] => true | c :: r => namesBalanced tm c && all r end in
  balancedb (ByID tm (id1 n))
  && opt (mType n) && opt (lhs n) && opt (mhs n) && opt (rhs n)
  && all (list0 n) && all (list1 n).

(** The names the generator holds while it lowers a function: its
    identifier table is [tm0], and the package name, the C names of the
    statuses and the name of the receiver of the current function are
    balanced. *)
Definition wellNamed (tm0 : Token.Map) (g : gen) : Prop :=
  tm g = tm0
  /\ balanced (pkgName g)
  /\ (forall k s, lookupID (statusMap g) k = Some s -> balanced (name s))
  /\ (forall f, funk (perFunc_ g) = Some f ->
                balanced (ByID tm0 (Func_Receiver f))).

(** Every successful run of [m] writes a balanced text, and keeps the names
    of the generator balanced. *)
Definition emits {A : Type} (tm0 : Token.Map) (m : M A) : Prop :=
  forall g a g' o,
    wellNamed tm0 g -> m g = Ok a g' o -> wellNamed tm0 g' /\ balanced o.

(** *** What does not look at the current function *)

(** [m] neither reads nor writes the state of the current function: run
    with another [perFunc], it does the same and leaves that [perFunc]. *)
Definition ignoresPerFunc {A : Type} (m : M A) : Prop :=
  forall p g,
    m (setPerFunc p g)
    = match m g with
      | Ok a g1 o => Ok a (setPerFunc p g1) o
      | Err e => Err e
      end.

(** *** The nesting of blocks *)

Section NestingCases.

Variable nesting : Node -> nat.

(** The deepest nesting below the statements of a block. *)
Definition blockNesting (block : list Node) : nat :=
  fold_right (fun o r => Nat.max (nesting o) r) 0 block.

(** The blocks of a chain of [else if]s are all one level down. *)
Fixpoint chainNesting (o : Node) : nat :=
  Nat.max (S (blockNesting (If_BodyIfTrue o)))
    (Nat.max (S (blockNesting (If_BodyIfFalse o)))
       match If_ElseIf o with
       | Some o' => chainNesting o'
       | None => 0
       end).

End NestingCases.

(** How many blocks deep a statement goes: 0 for a statement without a
    block of its own, 1 for a loop or an [if] of such statements. *)
Fixpoint nesting (o : Node) : nat :=
  match kind o with
  | KIf => chainNesting nesting o
  | KWhile => S (blockNesting nesting (While_Body o))
  | _ => 0
  end.

(** [m] never fails with the error [e]. *)
Definition avoids {A : Type} (e : error) (m : M A) : Prop :=
  forall g, m g <> Err e.

(** [pub func bar.decode() { while x { if y { break } } }] *)
Definition funcLoop : Node :=
  declFunc flagsPublic idBar idDecode [] [loopWithBreak].

(** *** Constructors of sub-structs *)

(** The head of the definition of the constructor ([ctor]) or of the
    destructor of the struct [n]. *)
Definition ctorHead (g : gen) (n : Node) (ctor : bool) : string :=
  "void puffs_" ++ pkgName g ++ "_" ++ ByID (tm g) (Struct_Name n) ++ "_"
  ++ (if ctor then "constructor" else "destructor")
  ++ "(puffs_" ++ pkgName g ++ "_" ++ ByID (tm g) (Struct_Name n) ++ " *self"
  ++ (if ctor
      then ", uint32_t puffs_version, uint32_t for_internal_use_only"
      else "")
  ++ "){" ++ nl.

(** The call of the constructor and of the destructor of the field [f],
    of the struct type [x]. *)
Definition ctorCall (g : gen) (f x : Node) : string :=
  "puffs_" ++ pkgName g ++ "_" ++ ByID (tm g) (TypeExpr_Name x)
  ++ "_constructor(&self->private_impl." ++ fPrefix
  ++ ByID (tm g) (Field_Name f) ++ ","
  ++ "PUFFS_VERSION, PUFFS_ALREADY_ZEROED);" ++ nl.

Definition dtorCall (g : gen) (f x : Node) : string :=
  "puffs_" ++ pkgName g ++ "_" ++ ByID (tm g) (TypeExpr_Name x)
  ++ "_destructor(&self->private_impl." ++ fPrefix
  ++ ByID (tm g) (Field_Name f) ++ ");" ++ nl.

(** [struct y()] that is not suspendible, and [struct bar?(x y)] that holds
    one. *)
Definition declPlainY : Node := declStruct noFlags idY [].
Definition declBarOfY : Node :=
  declStruct flagsSuspendible idBar [declField idX (typeNamed (KeyOther 5))].

(** *** The package across the functions *)

(** All of the generator but the state of the current function. *)
Definition samePackage (g g' : gen) : Prop :=
  exists p : perFunc, g' = setPerFunc p g.

(** [pri func bar.count()], and the package of the public [bar.decode?]
    and of it. *)
Definition funcPrivateCount : Node :=
  declFunc noFlags idBar idCount [] [].
Definition pkgTwoFuncs : list Node :=
  [fileOf [declStruct flagsPublic idBar []; funcReadOne; funcPrivateCount]].

(** *** The text of the two sections *)

(** The top-level declarations of kind [k] of the package, in source order:
    file by file, and declaration by declaration within a file. *)
Definition topLevel (k : Kind) (files : list Node) : list Node :=
  flat_map (fun file =>
      filter (fun n => Kind_eqb (kind n) k) (TopLevelDecls file))
    files.

(** A declaration marked [pub]. *)
Definition isPublic (n : Node) : bool := FlagsPublic (flags n).

(** The declarations that a loop of visibility [v] is about. *)
Definition visible (v : visibility) (n : Node) : bool :=
  match v with
  | bothPubPri => true
  | pubOnly => isPublic n
  | priOnly => negb (isPublic n)
  end.

(** The body of [puffs_PKG_status_is_error], and the function around it. *)
Definition isErrorBody : string := "return s & 1;".

Definition isErrorFunction (pkg body : string) : string :=
  "bool puffs_" ++ pkg ++ "_status_is_error(puffs_" ++ pkg ++ "_status s) {"
  ++ body ++ " }" ++ nl ++ nl.

(** What C computes for a body [return s & M;] with a decimal mask [M] in a
    function that returns [bool]: whether [s & M] is not zero. *)
Definition evalMaskReturn (body : string) (s : Z) : option bool :=
  let n := String.length body in
  if HasPrefix body "return s & " && String.eqb (slice body (n - 1) n) ";"
  then option_map (fun m => negb (Z.eqb (Z.land s m) 0))
         (parseInt (slice body (String.length "return s & ") (n - 1)))
  else None.

(** The C predicate [puffs_PKG_status_is_error] of the implementation. *)
Definition status_is_error (s : Z) : option bool :=
  evalMaskReturn isErrorBody s.

(** The header of a package: around the enum of the statuses, the struct
    layouts [S], the prototypes [C] of constructors and destructors and the
    prototypes [F] of functions, nothing but fixed text. *)
Definition headerText (g : gen) (S C F : string) : string :=
  ("#ifndef " ++ includeGuardOf (pkgName g) ++ nl
   ++ "#define " ++ includeGuardOf (pkgName g) ++ nl ++ nl)
  ++ ("// Code generated by puffs-gen-c. DO NOT EDIT." ++ nl ++ nl)
  ++ baseHeader
  ++ (nl ++ "#ifdef __cplusplus" ++ nl ++ "extern " ++ dq ++ "C" ++ dq
      ++ " {" ++ nl ++ "#endif" ++ nl ++ nl)
  ++ ("// ---------------- Status Codes" ++ nl ++ nl)
  ++ ("// Status codes are non-positive integers." ++ nl)
  ++ ("//" ++ nl)
  ++ ("// The least significant bit indicates a non-recoverable status code: an error." ++ nl)
  ++ ("typedef enum {" ++ nl)
  ++ enumBody g
  ++ ("} puffs_" ++ pkgName g ++ "_status;" ++ nl ++ nl)
  ++ ("bool puffs_" ++ pkgName g ++ "_status_is_error(puffs_"
      ++ pkgName g ++ "_status s);" ++ nl ++ nl)
  ++ ("const char* puffs_" ++ pkgName g ++ "_status_string(puffs_"
      ++ pkgName g ++ "_status s);" ++ nl ++ nl)
  ++ ("// ---------------- Structs" ++ nl ++ nl)
  ++ S
  ++ ("// ---------------- Public Constructor and Destructor Prototypes"
      ++ nl ++ nl)
  ++ C
  ++ ("// ---------------- Public Function Prototypes" ++ nl ++ nl)
  ++ F
  ++ (nl ++ "#ifdef __cplusplus" ++ nl ++ "}  // extern " ++ dq ++ "C"
      ++ dq ++ nl ++ "#endif" ++ nl ++ nl)
  ++ ("#endif  // " ++ includeGuardOf (pkgName g) ++ nl ++ nl).

(** The C function that maps a status to its message. *)
Definition statusStringFunction (g : gen) : string :=
  ("const char* puffs_" ++ pkgName g ++ "_status_string(puffs_"
   ++ pkgName g ++ "_status s) {" ++ nl)
  ++ ("s = -(s >> 1); if (0 <= s) {" ++ nl)
  ++ ("if (s < " ++ showNat (List.length builtInStatuses)
      ++ ") { return puffs_" ++ pkgName g ++ "_status_strings[s]; }" ++ nl)
  ++ ("s -= "
      ++ showNat (userDefinedStatusBase - List.length builtInStatuses)
      ++ ";" ++ nl)
  ++ ("if ((" ++ showNat (List.length builtInStatuses)
      ++ " <= s) && (s < "
      ++ showNat (List.length builtInStatuses + List.length (statusList g))
      ++ ")) { return puffs_" ++ pkgName g ++ "_status_strings[s]; }" ++ nl)
  ++ ("}" ++ nl ++ "return " ++ dq ++ pkgName g ++ ": unknown status"
      ++ dq ++ ";" ++ nl)
  ++ ("}" ++ nl ++ nl).

(** The two magic numbers of the constructors. *)
Definition magicText : string :=
  ("// PUFFS_MAGIC is a magic number to check that constructors are called. It's" ++ nl)
  ++ ("// not foolproof, given C doesn't automatically zero memory before use, but it" ++ nl)
  ++ ("// should catch 99.99% of cases." ++ nl)
  ++ ("//" ++ nl)
  ++ ("// Its (non-zero) value is arbitrary, based on md5sum(" ++ dq
      ++ "puffs" ++ dq ++ ")." ++ nl)
  ++ ("#define PUFFS_MAGIC (0xCB3699CCU)" ++ nl ++ nl)
  ++ ("// PUFFS_ALREADY_ZEROED is passed from a container struct's constructor to a" ++ nl)
  ++ ("// containee struct's constructor when the container has already zeroed the" ++ nl)
  ++ ("// containee's memory." ++ nl)
  ++ ("//" ++ nl)
  ++ ("// Its (non-zero) value is arbitrary, based on md5sum(" ++ dq
      ++ "zeroed" ++ dq ++ ")." ++ nl)
  ++ ("#define PUFFS_ALREADY_ZEROED (0x68602EF1U)" ++ nl ++ nl).

(** The implementation of a package: around the prototypes [PC] of
    constructors and destructors, the prototypes [PF] of functions, the
    constructors and destructors [CI] and the functions [FI], nothing but
    the status functions and fixed text. *)
Definition implText (g : gen) (PC PF CI FI : string) : string :=
  baseImpl
  ++ nl
  ++ ("// ---------------- Status Codes Implementations" ++ nl ++ nl)
  ++ isErrorFunction (pkgName g) isErrorBody
  ++ statusTable g (statusMessages g)
  ++ statusStringFunction g
  ++ ("// ---------------- Private Constructor and Destructor Prototypes"
      ++ nl ++ nl)
  ++ PC
  ++ ("// ---------------- Private Function Prototypes" ++ nl ++ nl)
  ++ PF
  ++ ("// ---------------- Constructor and Destructor Implementations"
      ++ nl ++ nl)
  ++ magicText
  ++ CI
  ++ ("// ---------------- Function Implementations" ++ nl ++ nl)
  ++ FI.

(** The loops of [genHeader] over the structs and the functions succeed,
    and write [S], [C] and [F]: the layouts of all the structs, and the
    prototypes of the public structs and functions. *)
Definition headerLoops (g : gen) (S C F : string) : Prop :=
  forEach writeStruct (structList g) g = Ok tt g S
  /\ forEach writeCtorPrototype (filter isPublic (structList g)) g
     = Ok tt g C
  /\ forEach writeFuncPrototype
       (filter isPublic (topLevel KFunc (files g))) g
     = Ok tt g F.

(** The loops of [genImpl] succeed, and write [PC], [PF], [CI] and [FI]: the
    prototypes of the private structs and functions, and the definitions of
    all the structs and functions; the last loop leaves the generator
    [g']. *)
Definition implLoops (g g' : gen) (PC PF CI FI : string) : Prop :=
  forEach writeCtorPrototype
    (filter (fun n => negb (isPublic n)) (structList g)) g
  = Ok tt g PC
  /\ forEach writeFuncPrototype
       (filter (fun n => negb (isPublic n)) (topLevel KFunc (files g))) g
     = Ok tt g PF
  /\ forEach writeCtorImpl (structList g) g = Ok tt g CI
  /\ forEach writeFuncImpl (topLevel KFunc (files g)) g = Ok tt g' FI.

(** The generator of package [foo] once the collector has gathered the
    error ["bad magic"]. *)
Definition genBadMagic : gen :=
  setStatusList [mkStatus "puffs_foo_error_bad_magic" "bad magic" true]
    (newGen "foo" exTm pkgBadMagic).

(** *** What a text depends on *)

(** [m] only writes, and what it writes depends on the package name and on
    the identifier table alone: run from a generator with the same two, it
    does the same. *)
Definition byNames {A : Type} (m : M A) : Prop :=
  forall g g0,
    pkgName g0 = pkgName g -> tm g0 = tm g ->
    match m g with
    | Ok a g1 o => g1 = g /\ m g0 = Ok a g0 o
    | Err e => m g0 = Err e
    end.

(** The table of the example as the tokenizer fills it: the punctuation,
    the operators and the built-in names have their own text. *)
Definition exTmTokens : Token.Map :=
  mkMap (ByName exTm)
    (fun i => match Key_ i with
              | KeyOpenParen => "("
              | KeyOpenBracket => "["
              | KeyDot => "."
              | KeyColon => ":"
              | KeyEq => "="
              | KeyPtr => "ptr"
              | KeyBreak => "break"
              | KeyReadU8 => "read_u8"
              | KeyBool => "bool"
              | KeyBuf1 => "buf1"
              | _ => ByID exTm i
              end).

(** *** What a run depends on *)

(** Two generators hold the same inputs: the package name, the identifier
    table and the files, and the same statuses gathered so far (none, in the
    generator that [main] builds). *)
Definition sameInputs (g1 g2 : gen) : Prop :=
  pkgName g1 = pkgName g2 /\ tm g1 = tm g2 /\ files g1 = files g2
  /\ statusList g1 = statusList g2.

(** [m] gives the same text, or the same error, whatever the state of the
    current function it starts from. *)
Definition forgetsPerFunc {A : Type} (m : M A) : Prop :=
  forall p g, outcome (m (setPerFunc p g)) = outcome (m g).

(** The package [foo] of the two functions in a generator that holds what
    another run could have left: a status map, a struct list, a struct map
    and the state of a function. *)
Definition genLeftOver : gen :=
  mkGen "foo" exTm pkgTwoFuncs []
    [(idBadMagic, mkStatus "puffs_foo_error_bad_magic" "bad magic" true)]
    [declPrivateBar] [(idCount, declPrivateBar)]
    (mkPerFunc (Some funcReadOne) [(7, 0)%N] 3 2 true true).

(* ================================================================== *)
(** ** Properties *)

Lemma Key_eqb_refl (k : Key) : Key_eqb k k = true.
Proof. unfold Key_eqb. destruct (Key_eq_dec k k); congruence. Qed.

Lemma Key_eqb_eq (a b : Key) : Key_eqb a b = true <-> a = b.
Proof. unfold Key_eqb. destruct (Key_eq_dec a b); split; congruence. Qed.

Lemma ID_eqb_refl (i : ID) : ID_eqb i i = true.
Proof. unfold ID_eqb. destruct (ID_eq_dec i i); congruence. Qed.

Lemma ID_eqb_eq (a b : ID) : ID_eqb a b = true <-> a = b.
Proof. unfold ID_eqb. destruct (ID_eq_dec a b); split; congruence. Qed.

(** *** Strings *)

Lemma append_assoc (a b c : string) : (a ++ b) ++ c = a ++ (b ++ c).
Proof. induction a as [|x a IH]; simpl; [reflexivity | now rewrite IH]. Qed.

Lemma append_nil_r (a : string) : a ++ "" = a.
Proof. induction a as [|x a IH]; simpl; [reflexivity | now rewrite IH]. Qed.

Lemma length_append (a b : string) :
  String.length (a ++ b) = String.length a + String.length b.
Proof. induction a as [|x a IH]; simpl; [reflexivity | now rewrite IH]. Qed.

Lemma contains_refl (s : string) : contains s s.
Proof. exists "", "". simpl. now rewrite append_nil_r. Qed.

Lemma contains_app_l (s a b : string) : contains s a -> contains s (a ++ b).
Proof.
  intros (x & y & ->). exists x, (y ++ b).
  now rewrite !append_assoc.
Qed.

Lemma contains_app_r (s a b : string) : contains s b -> contains s (a ++ b).
Proof.
  intros (x & y & ->). exists (a ++ x), y.
  now rewrite !append_assoc.
Qed.

Lemma contains_trans (s t u : string) :
  contains s t -> contains t u -> contains s u.
Proof.
  intros (a & b & ->) (c & d & ->). exists (c ++ a), (b ++ d).
  now rewrite !append_assoc.
Qed.

(** *** The monad *)

Lemma bind_Ok {A B : Type} (m : M A) (k : A -> M B) g b g' out :
  bind m k g = Ok b g' out ->
  exists a g1 o1 o2,
    m g = Ok a g1 o1 /\ k a g1 = Ok b g' o2 /\ out = o1 ++ o2.
Proof.
  unfold bind. destruct (m g) as [a g1 o1|e]; [|discriminate].
  destruct (k a g1) as [b' g2 o2|e] eqn:K; [|discriminate].
  intros [= <- <- <-]. now exists a, g1, o1, o2.
Qed.

Lemma bind_intro {A B : Type} (m : M A) (k : A -> M B) g a g1 o1 b g2 o2 :
  m g = Ok a g1 o1 -> k a g1 = Ok b g2 o2 ->
  bind m k g = Ok b g2 (o1 ++ o2).
Proof. unfold bind. now intros -> ->. Qed.

Lemma bind_Err_l {A B : Type} (m : M A) (k : A -> M B) g e :
  m g = Err e -> bind m k g = Err e.
Proof. unfold bind. now intros ->. Qed.

Lemma bind_Err_r {A B : Type} (m : M A) (k : A -> M B) g a g1 o1 e :
  m g = Ok a g1 o1 -> k a g1 = Err e -> bind m k g = Err e.
Proof. unfold bind. now intros -> ->. Qed.

Lemma getG_Ok g a g' out : getG g = Ok a g' out -> a = g /\ g' = g /\ out = "".
Proof. unfold getG. now intros [= <- <- <-]. Qed.

Lemma writes_Ok s g a g' out : writes s g = Ok a g' out -> g' = g /\ out = s.
Proof. unfold writes. now intros [= <- <-]. Qed.

Lemma ret_Ok {A : Type} (x : A) g a g' out :
  ret x g = Ok a g' out -> a = x /\ g' = g /\ out = "".
Proof. unfold ret. now intros [= <- <- <-]. Qed.

Lemma modify_Ok f g a g' out :
  modify f g = Ok a g' out -> g' = f g /\ out = "".
Proof. unfold modify. now intros [= <- <-]. Qed.

Lemma deref_Ok {A : Type} (p : option A) g a g' out :
  deref p g = Ok a g' out -> p = Some a /\ g' = g /\ out = "".
Proof.
  destruct p as [x|]; simpl; [|discriminate].
  unfold ret. now intros [= <- <- <-].
Qed.

(** Inversion of a successful run, down to the calls of other functions. *)
Ltac minv H :=
  cbv beta in H;
  match type of H with
  | bind _ _ _ = Ok _ _ _ =>
      let a := fresh "a" in let g1 := fresh "g" in
      let o1 := fresh "o" in let o2 := fresh "o" in
      let H1 := fresh "H" in let H2 := fresh "H" in let E := fresh "E" in
      apply bind_Ok in H; destruct H as (a & g1 & o1 & o2 & H1 & H2 & E);
      minv H1; minv H2
  | getG _ = Ok _ _ _ =>
      apply getG_Ok in H; destruct H as (? & ? & ?); subst
  | writes _ _ = Ok _ _ _ =>
      apply writes_Ok in H; destruct H as (? & ?); subst
  | writeb _ _ = Ok _ _ _ => unfold writeb in H; minv H
  | ret _ _ = Ok _ _ _ =>
      apply ret_Ok in H; destruct H as (? & ? & ?); subst
  | modify _ _ = Ok _ _ _ =>
      apply modify_Ok in H; destruct H as (? & ?); subst
  | deref _ _ = Ok _ _ _ =>
      apply deref_Ok in H; destruct H as (? & ? & ?); subst
  | fail _ _ = Ok _ _ _ => discriminate H
  | when _ _ _ = Ok _ _ _ => unfold when in H; minv H
  | (if ?b then _ else _) _ = Ok _ _ _ => destruct b eqn:?; minv H
  | (match ?x with _ => _ end) _ = Ok _ _ _ => destruct x eqn:?; minv H
  | _ => idtac
  end.

Lemma ID_eqb_neq (a b : ID) : a <> b -> ID_eqb a b = false.
Proof.
  intro N. destruct (ID_eqb a b) eqn:E; [|reflexivity].
  apply ID_eqb_eq in E. contradiction.
Qed.

(** *** The last check of [writeFuncImpl] *)

(** A function is emitted when its text is and the temporaries written
    were all read. *)
Lemma writeFuncImpl_Ok (n : Node) (g g' : gen) (out : string) :
  writeFuncImpl n g = Ok tt g' out ->
  writeFuncImplEmit n g = Ok tt g' out
  /\ tempW (perFunc_ g') = tempR (perFunc_ g').
Proof.
  intro H. unfold writeFuncImpl in H.
  apply bind_Ok in H. destruct H as ([] & g1 & o1 & o2 & H1 & H2 & ->).
  apply bind_Ok in H2. destruct H2 as (g2 & g3 & o3 & o4 & H2 & H3 & ->).
  apply getG_Ok in H2. destruct H2 as (-> & -> & ->).
  destruct (N.eqb (tempW (perFunc_ g1)) (tempR (perFunc_ g1))) eqn:E;
    [|discriminate H3].
  apply ret_Ok in H3. destruct H3 as (_ & -> & ->).
  cbn [append]. rewrite append_nil_r.
  split; [exact H1 | now apply N.eqb_eq].
Qed.

(** What [writeFuncImpl] returns, from what [writeFuncImplEmit] does. *)
Lemma writeFuncImpl_check (n : Node) (g : gen) :
  writeFuncImpl n g =
  match writeFuncImplEmit n g with
  | Ok _ g' out =>
      if N.eqb (tempW (perFunc_ g')) (tempR (perFunc_ g'))
      then Ok tt g' out else Err ErrTempOutOfSync
  | Err e => Err e
  end.
Proof.
  unfold writeFuncImpl, bind.
  destruct (writeFuncImplEmit n g) as [[] g' out|e]; [|reflexivity].
  unfold getG.
  destruct (N.eqb (tempW (perFunc_ g')) (tempR (perFunc_ g')));
    [|reflexivity].
  cbn. now rewrite append_nil_r.
Qed.

(** *** The prologue of a public method that is not suspendible *)

(** C10.  A public function with a receiver that is not suspendible starts,
    after its signature and the null check of the receiver, with the early
    return on a latched error, [if (self->private_impl.status & 1) { return; }],
    and with the magic check, which stores [constructor_not_called] in the
    receiver's status field and returns. *)
Theorem public_method_prologue (n : Node) (g g' : gen) (out : string) :
  Func_Public n = true ->
  Func_Suspendible n = false ->
  Func_Receiver n <> ID0 ->
  writeFuncImpl n g = Ok tt g' out ->
  exists (sig rest : string) (g1 : gen),
    writeFuncSignature n
      (setPerFunc (mkPerFunc (Some n) [] 0 0 false false) g) = Ok tt g1 sig /\
    out = sig ++ ("{" ++ nl)
          ++ ("if (!self) {" ++ nl) ++ "return;" ++ ("}" ++ nl)
          ++ "if (self->private_impl.status & 1) { return; }"
          ++ ("if (self->private_impl.magic != PUFFS_MAGIC) {"
              ++ "self->private_impl.status = puffs_" ++ pkgName g
              ++ "_error_constructor_not_called; return; }" ++ nl)
          ++ rest.
Proof.
  intros Hp Hs Hr H. apply writeFuncImpl_Ok in H. destruct H as (H & _).
  apply ID_eqb_neq in Hr.
  unfold writeFuncImplEmit in H.
  apply bind_Ok in H. destruct H as ([] & gp & pre & rest & H & _ & ->).
  unfold writeFuncImplPrologue in H.
  rewrite Hp, Hs, Hr in H.
  simpl negb in H. simpl andb in H. cbv iota in H.
  minv H;
    match goal with
    | S : writeFuncSignature _ _ = Ok ?u ?g0 ?o |- _ =>
        destruct u; exists o; eexists; exists g0; split; [exact S|]
    end;
    cbn [pkgName setPerFunc]; rewrite !append_assoc; cbn [append nl];
    reflexivity.
Qed.

(** *** The collector *)

Lemma bind_ret_l {A : Type} (k : unit -> M A) (g : gen) :
  bind (ret tt) k g = k tt g.
Proof. unfold bind, ret. now destruct (k tt g). Qed.

Lemma forEach_app {A : Type} (f : A -> M unit) (l1 l2 : list A) (g : gen) :
  forEach f (l1 ++ l2)%list g = (forEach f l1 ;; forEach f l2) g.
Proof.
  revert g. induction l1 as [|x l1 IH]; intro g; simpl.
  - now rewrite bind_ret_l.
  - unfold bind. destruct (f x g) as [a g1 o1|e]; [|reflexivity].
    rewrite IH. unfold bind.
    destruct (forEach f l1 g1) as [a2 g2 o2|e]; [|reflexivity].
    destruct (forEach f l2 g2) as [a3 g3 o3|e]; [|reflexivity].
    now rewrite append_assoc.
Qed.

Lemma forEach_filter {A : Type} (sel : A -> bool) (f : A -> M unit)
  (l : list A) (g : gen) :
  forEach (fun n => if sel n then f n else ret tt) l g
  = forEach f (filter sel l) g.
Proof.
  revert g. induction l as [|x l IH]; intro g; simpl; [reflexivity|].
  destruct (sel x); simpl.
  - unfold bind. destruct (f x g); [now rewrite IH | reflexivity].
  - rewrite bind_ret_l. apply IH.
Qed.

Lemma forEach_flat_map {A B : Type} (h : A -> list B) (f : B -> M unit)
  (l : list A) (g : gen) :
  forEach (fun x => forEach f (h x)) l g = forEach f (flat_map h l) g.
Proof.
  revert g. induction l as [|x l IH]; intro g; simpl; [reflexivity|].
  rewrite forEach_app. unfold bind.
  destruct (forEach f (h x) g); [now rewrite IH | reflexivity].
Qed.

Lemma forEach_ext {A : Type} (f f' : A -> M unit) (l : list A) (g : gen) :
  (forall x g, f x g = f' x g) -> forEach f l g = forEach f' l g.
Proof.
  intro E. revert g. induction l as [|x l IH]; intro g; simpl; [reflexivity|].
  unfold bind. rewrite E. destruct (f' x g); [now rewrite IH | reflexivity].
Qed.

Lemma forEachStatus_decls (f : Node -> M unit) (g : gen) :
  forEachStatus bothPubPri f g = forEach f (statusDecls (files g)) g.
Proof.
  unfold forEachStatus, statusDecls, bind, getG.
  rewrite (forEach_ext _
             (fun file => forEach f (filter (selected KStatus bothPubPri)
                                            (TopLevelDecls file))))
    by (intros; apply forEach_filter).
  rewrite (forEach_flat_map
             (fun file => filter (selected KStatus bothPubPri)
                                 (TopLevelDecls file)) f).
  now destruct (forEach f _ g).
Qed.

Lemma substring_all (s : string) : substring 0 (String.length s) s = s.
Proof. induction s as [|c s IH]; simpl; [reflexivity | now rewrite IH]. Qed.

Lemma substring_app_l (s t : string) :
  substring 0 (String.length s) (s ++ t) = s.
Proof. induction s as [|c s IH]; simpl; [now destruct t | now rewrite IH]. Qed.

Lemma get_last (s : string) (c : ascii) :
  String.get (String.length s) (s ++ String c "") = Some c.
Proof. induction s as [|x s IH]; simpl; [reflexivity | exact IH]. Qed.

Lemma get_last_inv (s : string) (c : ascii) :
  String.get (String.length s - 1) s = Some c -> s <> "" ->
  exists body, s = body ++ String c "".
Proof.
  induction s as [|x s IH]; intros G N; [congruence|].
  destruct s as [|y s].
  - simpl in G. injection G as ->. now exists "".
  - simpl String.length in G. replace (S (S (String.length s)) - 1)
      with (S (String.length (String y s) - 1)) in G by (simpl; lia).
    simpl String.get in G. simpl String.length in IH.
    destruct IH as (body & E); [exact G | discriminate |].
    exists (String x body). simpl. now rewrite <- E.
Qed.

Lemma isQuoted_spec (m : string) : isQuoted m = true <-> quotedLiteral m.
Proof.
  unfold isQuoted, quotedLiteral, byteAt. split.
  - intro H. apply negb_true_iff in H.
    apply orb_false_iff in H. destruct H as (H & H3).
    apply orb_false_iff in H. destruct H as (H1 & H2).
    apply negb_false_iff in H2, H3. apply Nat.ltb_ge in H1.
    destruct (String.get (String.length m - 1) m) as [c|] eqn:G;
      [|discriminate].
    apply Ascii.eqb_eq in H3. subst c.
    apply get_last_inv in G; [|now destruct m].
    destruct G as (body & ->).
    destruct body as [|c body].
    + simpl in H1. lia.
    + simpl in H2. apply Ascii.eqb_eq in H2. subst c. now exists body.
  - intros (body & ->). apply negb_true_iff.
    unfold dq. simpl append.
    change (String.length (String dquote (body ++ String dquote "")))
      with (S (String.length (body ++ String dquote ""))).
    rewrite length_append.
    change (String.length (String dquote "")) with 1.
    replace (S (String.length body + 1) - 1) with (S (String.length body))
      by lia.
    change (String.get 0 (String dquote (body ++ String dquote "")))
      with (Some dquote).
    change (String.get (S (String.length body))
              (String dquote (body ++ String dquote "")))
      with (String.get (String.length body) (body ++ String dquote "")).
    rewrite get_last, !Ascii.eqb_refl.
    replace (S (String.length body + 1) <? 2)%nat with false; [reflexivity|].
    symmetry. apply Nat.ltb_ge. lia.
Qed.

Lemma unquote_literal (body : string) :
  let m := dq ++ body ++ dq in
  substring 1 (String.length m - 2) m = body.
Proof.
  unfold dq. simpl. rewrite length_append. simpl.
  replace (String.length body + 1 - 1) with (String.length body) by lia.
  apply substring_app_l.
Qed.

Lemma statusOf_ext (g g' : gen) (d : Node) :
  tm g' = tm g -> pkgName g' = pkgName g -> statusOf g' d = statusOf g d.
Proof.
  intros Et Ep. unfold statusOf, statusOfBody, cName. now rewrite Et, Ep.
Qed.

Lemma gatherStatuses_run (d : Node) (g : gen) :
  gatherStatuses d g =
  if isQuoted (ByID (tm g) (Status_Message d))
  then Ok tt (setStatusMap ((Status_Message d, statusOf g d) :: statusMap g)
                (setStatusList (statusList g ++ [statusOf g d])%list g)) ""
  else Err (ErrBadStatusMessage (ByID (tm g) (Status_Message d))).
Proof.
  unfold gatherStatuses, bind, getG.
  destruct (isQuoted (ByID (tm g) (Status_Message d))); simpl; [|reflexivity].
  unfold statusOf, statusOfBody, slice.
  rewrite <- Nat.sub_add_distr. simpl (1 + 1).
  now destruct (Key_eqb (Key_ (Status_Keyword d)) KeyError).
Qed.

Lemma gather_ok (ds : list Node) : forall g : gen,
  (forall d, In d ds -> isQuoted (ByID (tm g) (Status_Message d)) = true) ->
  exists g', forEach gatherStatuses ds g = Ok tt g' ""
    /\ statusList g' = (statusList g ++ map (statusOf g) ds)%list
    /\ tm g' = tm g /\ pkgName g' = pkgName g /\ files g' = files g.
Proof.
  induction ds as [|d ds IH]; intros g Q; simpl.
  - exists g. now rewrite app_nil_r.
  - unfold bind. rewrite gatherStatuses_run, (Q d) by now left.
    set (g1 := setStatusMap _ _).
    assert (Q1 : forall d', In d' ds ->
                 isQuoted (ByID (tm g1) (Status_Message d')) = true).
    { intros d' I. apply Q. now right. }
    destruct (IH g1 Q1) as (g' & E & L & T & P & F).
    exists g'. rewrite E. repeat split; try assumption.
    rewrite L. subst g1. simpl. rewrite <- app_assoc. reflexivity.
Qed.

Lemma gather_err (ds : list Node) : forall g : gen,
  (exists d, In d ds /\ isQuoted (ByID (tm g) (Status_Message d)) = false) ->
  exists d, In d ds /\ isQuoted (ByID (tm g) (Status_Message d)) = false
    /\ forEach gatherStatuses ds g
       = Err (ErrBadStatusMessage (ByID (tm g) (Status_Message d))).
Proof.
  induction ds as [|d ds IH]; intros g (b & I & Q); [contradiction|].
  simpl. unfold bind. rewrite gatherStatuses_run.
  destruct (isQuoted (ByID (tm g) (Status_Message d))) eqn:Qd.
  - destruct I as [->|I]; [congruence|].
    set (g1 := setStatusMap _ _).
    destruct (IH g1 (ex_intro _ b (conj I Q))) as (d' & I' & Q' & E).
    exists d'. rewrite E. auto.
  - exists d. auto.
Qed.

Lemma quoted_or_not (ds : list Node) (g : gen) :
  (forall d, In d ds -> isQuoted (ByID (tm g) (Status_Message d)) = true)
  \/ (exists d, In d ds
        /\ isQuoted (ByID (tm g) (Status_Message d)) = false).
Proof.
  induction ds as [|d ds [IH|(b & I & Q)]].
  - left. intros d [].
  - destruct (isQuoted (ByID (tm g) (Status_Message d))) eqn:Q.
    + left. intros d' [<-|I]; auto.
    + right. exists d. split; [now left | exact Q].
  - right. exists b. split; [now right | exact Q].
Qed.

Lemma not_quoted (m : string) : isQuoted m = false <-> ~ quotedLiteral m.
Proof.
  rewrite <- isQuoted_spec. destruct (isQuoted m); split; congruence.
Qed.

(** *** The status enum *)

Lemma concat_nil_app (l1 l2 : list string) :
  String.concat "" (l1 ++ l2)%list
  = String.concat "" l1 ++ String.concat "" l2.
Proof.
  induction l1 as [|x l1 IH]; [reflexivity|].
  destruct l1 as [|y l1].
  - simpl. destruct l2; simpl; [now rewrite append_nil_r | reflexivity].
  - change (String.concat "" ((x :: y :: l1) ++ l2)%list)
      with (x ++ "" ++ String.concat "" ((y :: l1) ++ l2)%list).
    rewrite IH. simpl. now rewrite append_assoc.
Qed.

Lemma concat_nil_cons (x : string) (l : list string) :
  String.concat "" (x :: l) = x ++ String.concat "" l.
Proof. change (x :: l) with ([x] ++ l)%list. now rewrite concat_nil_app. Qed.

Lemma forEachI_writes {A : Type} (h : nat -> A -> string) (l : list A) :
  forall (i : nat) (g : gen),
    forEachI (fun i x => writes (h i x)) i l g
    = Ok tt g (String.concat "" (mapI h i l)).
Proof.
  induction l as [|x l IH]; intros i g; [reflexivity|].
  cbn [forEachI mapI]. unfold bind. unfold writes at 1.
  fold (@forEachI A). rewrite IH. now rewrite concat_nil_cons.
Qed.

Lemma forEachI_writes_Ok {A : Type} (h : nat -> A -> string) (l : list A)
  (i : nat) (g : gen) (a : unit) (g' : gen) (o : string) :
  forEachI (fun i x => writes (h i x)) i l g = Ok a g' o ->
  g' = g /\ o = String.concat "" (mapI h i l).
Proof. rewrite forEachI_writes. now intros [= <- <-]. Qed.

Lemma map_mapI {A B C : Type} (f : nat -> A -> B) (h : B -> C) (l : list A) :
  forall i, map h (mapI f i l) = mapI (fun i x => h (f i x)) i l.
Proof. induction l as [|x l IH]; intro i; simpl; [|rewrite IH]; reflexivity. Qed.

Lemma mapI_ext {A B : Type} (f f' : nat -> A -> B) (l : list A) :
  (forall i x, f i x = f' i x) -> forall i, mapI f i l = mapI f' i l.
Proof.
  intro E. induction l as [|x l IH]; intro i; simpl; [reflexivity|].
  now rewrite E, IH.
Qed.

Lemma nth_error_mapI {A B : Type} (f : nat -> A -> B) (l : list A) :
  forall i k, nth_error (mapI f i l) k
              = option_map (f (i + k)) (nth_error l k).
Proof.
  induction l as [|x l IH]; intros i k.
  - now destruct k.
  - destruct k as [|k]; simpl.
    + now rewrite Nat.add_0_r.
    + rewrite IH. now rewrite Nat.add_succ_r.
Qed.

Lemma length_mapI {A B : Type} (f : nat -> A -> B) (l : list A) :
  forall i, List.length (mapI f i l) = List.length l.
Proof. induction l as [|x l IH]; intro i; simpl; [|rewrite IH]; reflexivity. Qed.

(** The text of the enum that [genHeader] writes. *)
Lemma genHeader_enum (g g' : gen) (out : string) :
  genHeader g = Ok tt g' out ->
  contains (("typedef enum {" ++ nl) ++ enumBody g
            ++ ("} puffs_" ++ pkgName g ++ "_status;" ++ nl ++ nl)) out.
Proof.
  intro H. unfold genHeader in H.
  repeat (apply bind_Ok in H;
          destruct H as (? & ? & ? & ? & ?H & H & ?); cbv beta in H).
  repeat match goal with
         | W : writes _ _ = Ok _ _ _ |- _ =>
             apply writes_Ok in W; destruct W as (? & ?)
         | W : getG _ = Ok _ _ _ |- _ =>
             apply getG_Ok in W; destruct W as (? & ? & ?)
         | W : forEachI (fun j s => writes (@?h j s)) ?k ?l ?g0 = Ok _ _ _
           |- _ =>
             apply (forEachI_writes_Ok h l k g0) in W; destruct W as (? & ?)
         end.
  subst.
  repeat match goal with
         | |- contains _ (("typedef enum {" ++ nl) ++ _) => fail 1
         | |- contains _ (_ ++ _) => apply contains_app_r
         end.
  unfold enumBody, statusEnumerators, builtInEnumerators, userEnumerators.
  rewrite map_app, concat_nil_app, !map_mapI.
  unfold enumLine. cbn [en_name en_init].
  rewrite (mapI_ext
             (fun i x => cName g x ++ " = "
                ++ (showZ (-2 * Z.of_nat i)
                    ++ (if HasPrefix x "error " then "+1" else ""))
                ++ "," ++ nl)
             (fun i s => cName g s ++ " = " ++ showZ (-2 * Z.of_nat i)
                ++ (if HasPrefix s "error " then "+1" else "") ++ "," ++ nl))
    by (intros; now rewrite !append_assoc).
  rewrite (mapI_ext
             (fun i x => name x ++ " = "
                ++ (showZ (-2 * Z.of_nat (userDefinedStatusBase + i))
                    ++ (if isError x then "+1" else ""))
                ++ "," ++ nl)
             (fun i s => name s ++ " = "
                ++ showZ (-2 * Z.of_nat (userDefinedStatusBase + i))
                ++ (if isError s then "+1" else "") ++ "," ++ nl))
    by (intros; now rewrite !append_assoc).
  eexists "", _. rewrite !append_assoc. reflexivity.
Qed.


Lemma splitPlus_uint (d : Decimal.uint) (t : string) :
  splitPlus (NilEmpty.string_of_uint d ++ t)
  = (NilEmpty.string_of_uint d ++ fst (splitPlus t), snd (splitPlus t)).
Proof.
  induction d; simpl; try (rewrite IHd; reflexivity).
  now destruct (splitPlus t).
Qed.

Lemma splitPlus_showZ (z : Z) (t : string) :
  splitPlus (showZ z ++ t)
  = (showZ z ++ fst (splitPlus t), snd (splitPlus t)).
Proof.
  unfold showZ. destruct (Z.to_int z) as [d|d]; simpl.
  - apply splitPlus_uint.
  - now rewrite splitPlus_uint.
Qed.

Lemma parseInt_showZ (z : Z) : parseInt (showZ z) = Some z.
Proof.
  unfold parseInt, showZ.
  destruct (NilEmpty.string_of_int (Z.to_int z)) eqn:E.
  - exfalso. destruct z as [|p|p]; simpl in E; try discriminate.
    destruct (Pos.to_uint p) eqn:U; try discriminate.
    now apply (DecimalPos.Unsigned.to_uint_nonnil p).
  - rewrite <- E, NilEmpty.isi. simpl. now rewrite DecimalZ.of_to.
Qed.

(** The value of the initializer [genHeader] prints for index [i]. *)
Lemma cConstValue_init (z : Z) (e : bool) :
  cConstValue (showZ z ++ (if e then "+1" else ""))
  = Some (z + (if e then 1 else 0))%Z.
Proof.
  unfold cConstValue. rewrite splitPlus_showZ.
  destruct e; simpl; rewrite append_nil_r, parseInt_showZ.
  - reflexivity.
  - now rewrite Z.add_0_r.
Qed.

Lemma land_one (k : Z) (e : bool) :
  Z.land (-2 * k + (if e then 1 else 0)) 1 = (if e then 1 else 0)%Z.
Proof.
  change 1%Z with (Z.ones 1) at 2. rewrite Z.land_ones by lia.
  change (2 ^ 1)%Z with 2%Z.
  replace (-2 * k + (if e then 1 else 0))%Z
    with ((if e then 1 else 0) + (- k) * 2)%Z by lia.
  rewrite Z.mod_add by lia. now destruct e.
Qed.

Lemma Some_inj {A : Type} (x y : A) : Some x = Some y -> x = y.
Proof. now intros [= ->]. Qed.

(** Every enumerator, by its position in the enum. *)
Lemma enumerator_at (g : gen) (k : nat) (e : enumerator) :
  nth_error (statusEnumerators g) k = Some e ->
  (exists s, k < List.length builtInStatuses
     /\ nth_error builtInStatuses k = Some s
     /\ e = mkEnumerator (cName g s)
              (showZ (-2 * Z.of_nat k)
               ++ (if HasPrefix s "error " then "+1" else ""))
              (HasPrefix s "error "))
  \/ (exists i s, k = List.length builtInStatuses + i
     /\ nth_error (statusList g) i = Some s
     /\ e = mkEnumerator (name s)
              (showZ (-2 * Z.of_nat (userDefinedStatusBase + i))
               ++ (if isError s then "+1" else ""))
              (isError s)).
Proof.
  unfold statusEnumerators. intro H.
  assert (L : List.length (builtInEnumerators g)
              = List.length builtInStatuses)
    by apply length_mapI.
  destruct (Nat.lt_ge_cases k (List.length builtInStatuses)) as [K|K].
  - left. rewrite nth_error_app1 in H by lia.
    unfold builtInEnumerators in H. rewrite nth_error_mapI in H.
    destruct (nth_error builtInStatuses k) as [s|]; [|discriminate].
    cbn [option_map] in H. apply Some_inj in H. subst e. now exists s.
  - right. rewrite nth_error_app2 in H by lia. rewrite L in H.
    unfold userEnumerators in H. rewrite nth_error_mapI in H.
    destruct (nth_error (statusList g) (k - List.length builtInStatuses))
      as [s|] eqn:E; [|discriminate].
    cbn [option_map] in H. apply Some_inj in H. subst e.
    exists (k - List.length builtInStatuses), s.
    split; [lia | split; [exact E | reflexivity]].
Qed.

(** *** What a computation does to the generator *)

Section Preserves.

Variable R : gen -> gen -> Prop.
Hypothesis R_refl : forall g, R g g.
Hypothesis R_trans : forall g1 g2 g3, R g1 g2 -> R g2 g3 -> R g1 g3.

Lemma pres_ret {A : Type} (x : A) : preserves R (ret x).
Proof. intros g a g' o H. apply ret_Ok in H. destruct H as (_ & -> & _). auto. Qed.

Lemma pres_fail {A : Type} (e : error) : preserves R (@fail A e).
Proof. intros g a g' o H. discriminate H. Qed.

Lemma pres_writes (s : string) : preserves R (writes s).
Proof. intros g a g' o H. apply writes_Ok in H. destruct H as (-> & _). auto. Qed.

Lemma pres_writeb (b : ascii) : preserves R (writeb b).
Proof. apply pres_writes. Qed.

Lemma pres_getG : preserves R getG.
Proof. intros g a g' o H. apply getG_Ok in H. destruct H as (_ & -> & _). auto. Qed.

Lemma pres_deref {A : Type} (p : option A) : preserves R (deref p).
Proof. intros g a g' o H. apply deref_Ok in H. destruct H as (_ & -> & _). auto. Qed.

Lemma pres_bind {A B : Type} (m : M A) (k : A -> M B) :
  preserves R m -> (forall a, preserves R (k a)) -> preserves R (bind m k).
Proof.
  intros Hm Hk g b g' o H. apply bind_Ok in H.
  destruct H as (a & g1 & o1 & o2 & H1 & H2 & _).
  eapply R_trans; [eapply Hm | eapply Hk]; eassumption.
Qed.

Lemma pres_bind_at {A B : Type} (m : M A) (k : A -> M B) (g : gen) :
  preservesAt R m g ->
  (forall a g1 o1, m g = Ok a g1 o1 -> preservesAt R (k a) g1) ->
  preservesAt R (bind m k) g.
Proof.
  intros Hm Hk b g' o H. apply bind_Ok in H.
  destruct H as (a & g1 & o1 & o2 & H1 & H2 & _).
  eapply R_trans; [eapply Hm | eapply Hk]; eassumption.
Qed.

(** The continuation of [g <- getG] runs in the state it is given. *)
Lemma pres_bind_getG {B : Type} (k : gen -> M B) :
  (forall g, preservesAt R (k g) g) -> preserves R (bind getG k).
Proof.
  intros Hk g b g' o H. apply bind_Ok in H.
  destruct H as (a & g1 & o1 & o2 & H1 & H2 & _).
  apply getG_Ok in H1. destruct H1 as (-> & -> & _).
  eapply Hk; eassumption.
Qed.

Lemma pres_when (b : bool) (m : M unit) :
  preserves R m -> preserves R (when b m).
Proof. intro Hm. destruct b; [exact Hm | apply pres_ret]. Qed.

Lemma pres_forEach {A : Type} (f : A -> M unit) (l : list A) :
  (forall x, In x l -> preserves R (f x)) -> preserves R (forEach f l).
Proof.
  induction l as [|x l IH]; intro Hf; simpl.
  - apply pres_ret.
  - apply pres_bind; [apply Hf; now left|].
    intros _. apply IH. intros y I. apply Hf. now right.
Qed.

Lemma pres_forEachI {A : Type} (f : nat -> A -> M unit) (l : list A) :
  (forall i x, In x l -> preserves R (f i x)) ->
  forall i, preserves R (forEachI f i l).
Proof.
  induction l as [|x l IH]; intros Hf i; simpl.
  - apply pres_ret.
  - apply pres_bind; [apply Hf; now left|].
    intros _. apply IH. intros j y I. apply Hf. now right.
Qed.

Lemma pres_foldM {A B : Type} (f : B -> A -> M B) (l : list A) :
  (forall b x, In x l -> preserves R (f b x)) ->
  forall b, preserves R (foldM f b l).
Proof.
  induction l as [|x l IH]; intros Hf b; simpl.
  - apply pres_ret.
  - apply pres_bind; [apply Hf; now left|].
    intros b'. apply IH. intros c y I. apply Hf. now right.
Qed.

End Preserves.

(** One step of a proof that a computation preserves a relation. *)
Ltac pres_step Rr Rt :=
  lazymatch goal with
  | |- preserves _ (bind getG _) =>
      fail "the continuation of getG needs the state"
  | |- preserves _ (bind _ _) => apply (pres_bind _ Rt); [|intro]
  | |- preserves _ (ret _) => apply (pres_ret _ Rr)
  | |- preserves _ (fail _) => apply pres_fail
  | |- preserves _ (writes _) => apply (pres_writes _ Rr)
  | |- preserves _ (writeb _) => apply (pres_writeb _ Rr)
  | |- preserves _ getG => apply (pres_getG _ Rr)
  | |- preserves _ (deref _) => apply (pres_deref _ Rr)
  | |- preserves _ (when _ _) => apply (pres_when _ Rr)
  | |- preserves _ (forEach _ _) => apply (pres_forEach _ Rr Rt); intros ? ?
  | |- preserves _ (forEachI _ _ _) =>
      apply (pres_forEachI _ Rr Rt); intros ? ? ?
  | |- preserves _ (foldM _ _ _) => apply (pres_foldM _ Rr Rt); intros ? ? ?
  | |- preserves _ (if ?b then _ else _) => destruct b
  | |- preserves _ (match ?x with _ => _ end) => destruct x
  end.

(** A continuation of [getG] that does not look at the state it was
    given: the case of the functions that only read the package name and
    the identifier table. *)
Lemma pres_bind_getG' {B : Type} (R : gen -> gen -> Prop) (k : gen -> M B) :
  (forall g0, preserves R (k g0)) -> preserves R (bind getG k).
Proof.
  intros Hk g b g' o H. apply bind_Ok in H.
  destruct H as (a & g1 & o1 & o2 & H1 & H2 & _).
  apply getG_Ok in H1. destruct H1 as (-> & -> & _).
  eapply Hk; eassumption.
Qed.

Lemma eq_trans_gen (g1 g2 g3 : gen) : g1 = g2 -> g2 = g3 -> g1 = g3.
Proof. congruence. Qed.

Ltac pure_step :=
  lazymatch goal with
  | |- pure _ => unfold pure
  | |- preserves eq (bind getG _) => apply pres_bind_getG'; intro
  | |- preserves eq _ => pres_step (@eq_refl gen) eq_trans_gen
  end.

(** *** Induction over syntax trees *)

Lemma height_eq (n : Node) :
  height n =
  S (Nat.max (match mType n with Some c => height c | None => 0 end)
    (Nat.max (match lhs n with Some c => height c | None => 0 end)
    (Nat.max (match mhs n with Some c => height c | None => 0 end)
    (Nat.max (match rhs n with Some c => height c | None => 0 end)
    (Nat.max (fold_right (fun c m => Nat.max (height c) m) 0 (list0 n))
             (fold_right (fun c m => Nat.max (height c) m) 0 (list1 n))))))).
Proof.
  destruct n as [k f a cv mt jt i0 i1 l m r l0 l1]. reflexivity.
Qed.

Lemma height_in (c : Node) (l : list Node) :
  In c l -> height c <= fold_right (fun c m => Nat.max (height c) m) 0 l.
Proof.
  induction l as [|x l IH]; intros []; simpl.
  - subst. lia.
  - specialize (IH H). lia.
Qed.

Lemma height_lhs (n c : Node) : lhs n = Some c -> height c < height n.
Proof. intro E. rewrite (height_eq n), E. lia. Qed.

Lemma height_mhs (n c : Node) : mhs n = Some c -> height c < height n.
Proof. intro E. rewrite (height_eq n), E. lia. Qed.

Lemma height_rhs (n c : Node) : rhs n = Some c -> height c < height n.
Proof. intro E. rewrite (height_eq n), E. lia. Qed.

Lemma height_mType (n c : Node) : mType n = Some c -> height c < height n.
Proof. intro E. rewrite (height_eq n), E. lia. Qed.

Lemma height_list0 (n c : Node) : In c (list0 n) -> height c < height n.
Proof. intro I. apply height_in in I. rewrite (height_eq n). lia. Qed.

Lemma height_list1 (n c : Node) : In c (list1 n) -> height c < height n.
Proof. intro I. apply height_in in I. rewrite (height_eq n). lia. Qed.

(** Induction on a node with the property for every node of a smaller
    height at hand: the children, and the children's children. *)
Lemma node_ind (P : Node -> Prop) :
  (forall n, (forall c, height c < height n -> P c) -> P n) ->
  forall n, P n.
Proof.
  intros step n.
  assert (H : forall h c, height c < h -> P c).
  { induction h as [|h IH]; intros c L; [lia|].
    apply step. intros c' L'. apply IH. lia. }
  apply (H (S (height n))). lia.
Qed.

(** The fixpoints over nodes, unfolded once. *)
Lemma skipArrays_eq (x : Node) :
  skipArrays x =
  if Key_eqb (Key_ (TypeExpr_Decorator x)) KeyOpenBracket
  then match TypeExpr_Inner x with
       | Some i => skipArrays i
       | None => None
       end
  else Some x.
Proof. now destruct x. Qed.

Lemma countPointers_eq (n : Node) (numPointers : nat) (innermost : Node) :
  countPointers n numPointers innermost =
  match TypeExpr_Inner innermost with
  | None => ret (numPointers, innermost)
  | Some inner =>
      if Key_eqb (Key_ (TypeExpr_Decorator innermost)) KeyPtr
      then if Nat.eqb numPointers maxNumPointers
           then fail (ErrTooManyPtrs n)
           else countPointers n (S numPointers) inner
      else fail (ErrCannotConvertType n)
  end.
Proof. now destruct innermost. Qed.

Lemma writeArrayExtents_eq (x : Node) :
  writeArrayExtents x =
  if Key_eqb (Key_ (TypeExpr_Decorator x)) KeyOpenBracket
  then
    writeb "[" ;;
    len <- deref (TypeExpr_ArrayLength x) ;;
    writes (showBig (Expr_ConstValue len)) ;;
    writeb "]" ;;
    match TypeExpr_Inner x with
    | Some i => writeArrayExtents i
    | None => ret tt
    end
  else ret tt.
Proof. now destruct x. Qed.

(** *** The functions that only write text *)

Lemma countPointers_pure (n : Node) (x : Node) :
  forall k, pure (countPointers n k x).
Proof.
  induction x as [x IH] using node_ind. intro k.
  rewrite countPointers_eq. unfold TypeExpr_Inner.
  destruct (rhs x) as [inner|] eqn:E; repeat pure_step.
  apply IH. now apply height_rhs.
Qed.

Lemma writeArrayExtents_pure (x : Node) : pure (writeArrayExtents x).
Proof.
  induction x as [x IH] using node_ind.
  rewrite writeArrayExtents_eq. unfold TypeExpr_Inner.
  destruct (rhs x) as [inner|] eqn:E; repeat pure_step.
  apply IH. now apply height_rhs.
Qed.

Lemma writeCTypeName_pure (n : Node) (p v : string) :
  pure (writeCTypeName n p v).
Proof.
  unfold writeCTypeName. repeat pure_step.
  - apply countPointers_pure.
  - apply writeArrayExtents_pure.
Qed.

Lemma writeStruct_pure (n : Node) : pure (writeStruct n).
Proof.
  unfold writeStruct. repeat pure_step. apply writeCTypeName_pure.
Qed.

Lemma writeCtorSignature_pure (n : Node) (p c : bool) :
  pure (writeCtorSignature n p c).
Proof. unfold writeCtorSignature. repeat pure_step. Qed.

Lemma writeCtorPrototype_pure (n : Node) : pure (writeCtorPrototype n).
Proof.
  unfold writeCtorPrototype. repeat pure_step.
  apply writeCtorSignature_pure.
Qed.

Lemma writeCtorImpl_pure (n : Node) : pure (writeCtorImpl n).
Proof.
  unfold writeCtorImpl. repeat pure_step.
  apply writeCtorSignature_pure.
Qed.

Lemma writeFuncSignature_pure (n : Node) : pure (writeFuncSignature n).
Proof.
  unfold writeFuncSignature. repeat pure_step. apply writeCTypeName_pure.
Qed.

Lemma writeFuncPrototype_pure (n : Node) : pure (writeFuncPrototype n).
Proof.
  unfold writeFuncPrototype. repeat pure_step.
  apply writeFuncSignature_pure.
Qed.

Lemma forEachFunc_pure (v : visibility) (f : Node -> M unit) :
  (forall n, pure (f n)) -> pure (forEachFunc v f).
Proof. intro Hf. unfold forEachFunc. repeat pure_step. apply Hf. Qed.

Lemma genHeader_pure : pure genHeader.
Proof.
  unfold genHeader. repeat pure_step.
  - apply writeStruct_pure.
  - apply writeCtorPrototype_pure.
  - apply forEachFunc_pure, writeFuncPrototype_pure.
Qed.

(** *** The run of [generate], step by step *)

Lemma forEachFunc_decls (v : visibility) (f : Node -> M unit) (g : gen) :
  forEachFunc v f g = forEach f (funcDecls v (files g)) g.
Proof.
  unfold forEachFunc, funcDecls, bind, getG.
  rewrite (forEach_ext _
             (fun file => forEach f (filter (selected KFunc v)
                                            (TopLevelDecls file))))
    by (intros; apply forEach_filter).
  rewrite (forEach_flat_map
             (fun file => filter (selected KFunc v) (TopLevelDecls file)) f).
  now destruct (forEach f _ g).
Qed.

Lemma buildStructMap (sorted : list Node) : forall g : gen,
  forEach (fun n =>
      modify (fun g => setStructMap ((Struct_Name n, n) :: structMap g) g))
    sorted g
  = Ok tt (setStructMap (structMapOf sorted ++ structMap g)%list g) "".
Proof.
  unfold structMapOf.
  induction sorted as [|n l IH]; intro g; simpl.
  - now destruct g.
  - unfold bind, modify at 1. rewrite IH. simpl.
    rewrite <- app_assoc. reflexivity.
Qed.

Lemma collector_Ok (g g1 : gen) (o : string) :
  forEachStatus bothPubPri gatherStatuses g = Ok tt g1 o ->
  o = ""
  /\ statusList g1
     = (statusList g ++ map (statusOf g) (statusDecls (files g)))%list
  /\ tm g1 = tm g /\ pkgName g1 = pkgName g /\ files g1 = files g.
Proof.
  rewrite forEachStatus_decls. intro H.
  destruct (quoted_or_not (statusDecls (files g)) g) as [Q|B].
  - destruct (gather_ok _ g Q) as (g' & E & L & T & P & F).
    rewrite E in H. injection H as <- <-. auto.
  - destruct (gather_err _ g B) as (d & _ & _ & E). congruence.
Qed.

Lemma Ok_inj {A : Type} (a a' : A) (g g' : gen) (o o' : string) :
  Ok a g o = Ok a' g' o' -> a = a' /\ g = g' /\ o = o'.
Proof. now intros [= -> -> ->]. Qed.

(** A successful run: the collector, then the header, the marker line and
    the implementation, both emitted from the same generator state. *)
Lemma generate_Ok (g g' : gen) (out : string) :
  generate g = Ok tt g' out ->
  exists (g1 : gen) (hout iout : string),
    forEachStatus bothPubPri gatherStatuses (setStatusMap [] g) = Ok tt g1 ""
    /\ genHeader (collected g1) = Ok tt (collected g1) hout
    /\ genImpl (collected g1) = Ok tt g' iout
    /\ out = hout ++ headerEndsHere ++ iout.
Proof.
  intro H. unfold generate in H.
  apply bind_Ok in H. destruct H as (? & g0 & ? & ? & H0 & H & ->).
  apply modify_Ok in H0. destruct H0 as (-> & ->).
  apply bind_Ok in H. destruct H as ([] & g1 & o1 & ? & H1 & H & ->).
  destruct (collector_Ok _ _ _ H1) as (-> & _).
  apply bind_Ok in H. destruct H as (? & ? & ? & ? & H2 & H & ->).
  apply getG_Ok in H2. destruct H2 as (-> & -> & ->).
  destruct (TopologicalSortStructs (unsortedStructs (files g1)))
    as [sorted ok] eqn:TS.
  apply bind_Ok in H. destruct H as (? & ? & ? & ? & H3 & H & ->).
  apply modify_Ok in H3. destruct H3 as (-> & ->).
  destruct ok; [|discriminate H]. cbn [negb] in H.
  apply bind_Ok in H. destruct H as (? & ? & ? & ? & H4 & H & ->).
  apply modify_Ok in H4. destruct H4 as (-> & ->).
  apply bind_Ok in H. destruct H as (? & ? & o5 & ? & H5 & H & ->).
  rewrite buildStructMap in H5. apply Ok_inj in H5.
  destruct H5 as (_ & <- & <-).
  apply bind_Ok in H. destruct H as ([] & g3 & hout & ? & H6 & H & ->).
  apply bind_Ok in H. destruct H as (? & ? & ? & iout & H7 & H & ->).
  apply writes_Ok in H7. destruct H7 as (-> & ->).
  assert (E := genHeader_pure _ _ _ _ H6). subst g3.
  cbn [structMap setStructMap] in H6, H. rewrite app_nil_r in H6, H.
  exists g1, hout, iout. unfold collected. rewrite TS. cbn [fst].
  split; [exact H1 | split; [exact H6 | split; [|reflexivity]]].
  match type of H with _ = Ok ?u _ _ => destruct u end. exact H.
Qed.

(** *** A status of the package in the enum and in the table of strings *)

Lemma forEach_writes {A : Type} (h : A -> string) (l : list A) (g : gen) :
  forEach (fun x => writes (h x)) l g = Ok tt g (String.concat "" (map h l)).
Proof.
  induction l as [|x l IH]; [reflexivity|].
  cbn [forEach map]. unfold bind. unfold writes at 1.
  fold (@forEach A). rewrite IH. now rewrite concat_nil_cons.
Qed.

Lemma forEach_writes_Ok {A : Type} (h : A -> string) (l : list A)
  (g : gen) (a : unit) (g' : gen) (o : string) :
  forEach (fun x => writes (h x)) l g = Ok a g' o ->
  g' = g /\ o = String.concat "" (map h l).
Proof. rewrite forEach_writes. now intros [= <- <-]. Qed.

Lemma contains_concat (x : string) (l : list string) :
  In x l -> contains x (String.concat "" l).
Proof.
  induction l as [|y l IH]; intros []; rewrite concat_nil_cons.
  - subst. apply contains_app_l, contains_refl.
  - apply contains_app_r. now apply IH.
Qed.

(** The table of status strings that [genImpl] writes. *)
Lemma genImpl_strings (g g' : gen) (out : string) :
  genImpl g = Ok tt g' out ->
  contains (String.concat ""
              (map (fun s => quote (pkgName g ++ ": " ++ msg s) ++ ",")
                   (statusList g))) out.
Proof.
  intro H. unfold genImpl in H.
  do 10 (apply bind_Ok in H;
         destruct H as (? & ? & ? & ? & ?H & H & ?); cbv beta in H).
  repeat match goal with
         | W : writes _ _ = Ok _ _ _ |- _ =>
             apply writes_Ok in W; destruct W as (? & ?)
         | W : getG _ = Ok _ _ _ |- _ =>
             apply getG_Ok in W; destruct W as (? & ? & ?)
         | W : forEach (fun s => writes (@?h s)) ?l ?g0 = Ok _ _ _ |- _ =>
             apply (forEach_writes_Ok h l g0) in W; destruct W as (? & ?)
         end.
  subst.
  do 7 apply contains_app_r. apply contains_app_l, contains_refl.
Qed.

Lemma mangle_error_bad_magic :
  mangle "error bad magic" = "error_bad_magic".
Proof. reflexivity. Qed.

(** C3, as the code has it.  In a package [foo] whose first status
    declaration is the error ["bad magic"], the enum holds the entry
    [puffs_foo_error_bad_magic = -256+1,], an initializer of value -255
    (that is -2*128 + 1), and the table of status strings holds
    ["foo: bad magic"]. *)
Theorem bad_magic_status (g g' : gen) (out : string) (d : Node)
  (rest : list Node) :
  pkgName g = "foo" ->
  statusList g = [] ->
  statusDecls (files g) = d :: rest ->
  Key_ (Status_Keyword d) = KeyError ->
  ByID (tm g) (Status_Message d) = dq ++ "bad magic" ++ dq ->
  generate g = Ok tt g' out ->
  contains ("puffs_foo_error_bad_magic = -256+1," ++ nl) out
  /\ cConstValue "-256+1" = Some (-255)%Z
  /\ contains (dq ++ "foo: bad magic" ++ dq ++ ",") out.
Proof.
  intros Pk Sl Ds Kw Ms H.
  apply generate_Ok in H.
  destruct H as (g1 & hout & iout & Hc & Hh & Hi & ->).
  apply collector_Ok in Hc. destruct Hc as (_ & L & T & P & F).
  cbn [statusList setStatusMap files] in L. rewrite Sl, Ds in L.
  cbn [app map] in L.
  assert (S0 : statusOf (setStatusMap [] g) d
               = mkStatus "puffs_foo_error_bad_magic" "bad magic" true).
  { unfold statusOf. cbn [tm setStatusMap]. rewrite Ms.
    rewrite unquote_literal. unfold statusOfBody. rewrite Kw.
    cbn [Key_eqb]. rewrite Key_eqb_refl. unfold cName.
    cbn [pkgName setStatusMap]. rewrite Pk. reflexivity. }
  rewrite S0 in L. cbn [pkgName setStatusMap] in P. rewrite Pk in P.
  split; [|split; [reflexivity|]].
  - apply contains_app_l.
    apply genHeader_enum in Hh. eapply contains_trans; [|exact Hh].
    apply contains_app_r, contains_app_l.
    unfold enumBody, statusEnumerators.
    rewrite map_app, concat_nil_app. apply contains_app_r.
    unfold userEnumerators.
    replace (statusList (collected g1)) with (statusList g1) by reflexivity.
    rewrite L. cbn [mapI map]. rewrite concat_nil_cons.
    apply contains_app_l. unfold enumLine. cbn [en_name en_init name isError].
    apply contains_refl.
  - do 2 apply contains_app_r.
    apply genImpl_strings in Hi. eapply contains_trans; [|exact Hi].
    replace (statusList (collected g1)) with (statusList g1) by reflexivity.
    replace (pkgName (collected g1)) with (pkgName g1) by reflexivity.
    rewrite L, P. cbn [map msg]. rewrite concat_nil_cons.
    apply contains_app_l. apply contains_refl.
Qed.

(** *** Deciding whether a text occurs in another *)

Lemma substring_mid (a s b : string) :
  substring (String.length a) (String.length s) (a ++ s ++ b) = s.
Proof.
  induction a as [|c a IH]; simpl.
  - apply substring_app_l.
  - exact IH.
Qed.

Lemma index_none_not_contains (s t : string) :
  index 0 s t = None -> s <> "" -> ~ contains s t.
Proof.
  intros I N (a & b & ->).
  apply (index_correct3 0 (String.length a) s (a ++ s ++ b) I N);
    [lia | apply substring_mid].
Qed.

Lemma substring_contains (s : string) : forall (n : nat) (t : string),
  substring n (String.length s) t = s -> contains s t.
Proof.
  induction n as [|n IH]; intros t E.
  - exists "". simpl. revert t E.
    induction s as [|c s IHs]; intros t E.
    + now exists t.
    + destruct t as [|c' t]; [discriminate|].
      simpl in E. injection E as -> E.
      destruct (IHs t E) as (b & ->). now exists b.
  - destruct t as [|c t].
    + simpl in E. subst s. exists "", "". reflexivity.
    + simpl in E. destruct (IH t E) as (a & b & ->).
      now exists (String c a), b.
Qed.

Lemma index_some_contains (s t : string) (n : nat) :
  index 0 s t = Some n -> contains s t.
Proof.
  intro I. apply index_correct1 in I. now apply substring_contains in I.
Qed.

(** *** The sections of the header and of the implementation *)

Lemma unit_eq (u : unit) : u = tt.
Proof. now destruct u. Qed.

Lemma forEach_pure {A : Type} (f : A -> M unit) (l : list A) :
  (forall x, pure (f x)) -> pure (forEach f l).
Proof.
  intro Hf. apply (pres_forEach _ (@eq_refl gen) eq_trans_gen).
  intros x _. apply Hf.
Qed.

(** What a pure loop writes holds what each of its rounds writes. *)
Lemma forEach_each {A : Type} (f : A -> M unit) (l : list A) (g g' : gen)
  (S : string) :
  (forall x, pure (f x)) ->
  forEach f l g = Ok tt g' S ->
  forall x, In x l -> exists o, f x g = Ok tt g o /\ contains o S.
Proof.
  intro Hf. revert S. induction l as [|y l IH]; intros S H x I; [contradiction|].
  simpl in H. apply bind_Ok in H.
  destruct H as (u & g1 & o1 & o2 & H1 & H2 & ->).
  assert (E := Hf y _ _ _ _ H1). subst g1. rewrite (unit_eq u) in H1.
  destruct I as [<-|I].
  - exists o1. split; [exact H1 | apply contains_app_l, contains_refl].
  - destruct (IH _ H2 x I) as (o & E & C).
    exists o. split; [exact E | now apply contains_app_r].
Qed.

(** The struct section of the header, then the prototypes of the public
    constructors and destructors, then those of the public functions. *)
Lemma genHeader_sections (g g' : gen) (hout : string) :
  genHeader g = Ok tt g' hout ->
  exists S C F : string,
    forEach writeStruct (structList g) g = Ok tt g S
    /\ forEach writeCtorPrototype (filter Struct_Public (structList g)) g
       = Ok tt g C
    /\ forEach writeFuncPrototype (funcDecls pubOnly (files g)) g = Ok tt g F
    /\ contains
         (("// ---------------- Structs" ++ nl ++ nl) ++ S
          ++ ("// ---------------- Public Constructor and Destructor Prototypes"
              ++ nl ++ nl) ++ C
          ++ ("// ---------------- Public Function Prototypes" ++ nl ++ nl)
          ++ F) hout.
Proof.
  intro H. unfold genHeader in H.
  repeat (apply bind_Ok in H;
          destruct H as (? & ? & ? & ? & ?H & H & ?); cbv beta in H).
  repeat match goal with
         | W : writes _ _ = Ok _ _ _ |- _ =>
             apply writes_Ok in W; destruct W as (? & ?)
         | W : getG _ = Ok _ _ _ |- _ =>
             apply getG_Ok in W; destruct W as (? & ? & ?)
         | W : forEachI (fun j s => writes (@?h j s)) ?k ?l ?g0 = Ok _ _ _
           |- _ =>
             apply (forEachI_writes_Ok h l k g0) in W; destruct W as (? & ?)
         end.
  subst.
  repeat match goal with
         | W : forEach writeStruct _ _ = Ok ?u ?g1 _ |- _ =>
             assert (g1 = g)
               by (symmetry;
                   exact (forEach_pure _ _ writeStruct_pure _ _ _ _ W));
             subst g1; rewrite (unit_eq u) in W; revert W
         | W : forEach (fun n => if Struct_Public n then _ else _) _ _
               = Ok ?u ?g1 _ |- _ =>
             rewrite forEach_filter in W;
             assert (g1 = g)
               by (symmetry;
                   exact (forEach_pure _ _ writeCtorPrototype_pure _ _ _ _ W));
             subst g1; rewrite (unit_eq u) in W; revert W
         | W : forEachFunc pubOnly _ _ = Ok ?u ?g1 _ |- _ =>
             rewrite forEachFunc_decls in W;
             assert (g1 = g)
               by (symmetry;
                   exact (forEach_pure _ _ writeFuncPrototype_pure _ _ _ _ W));
             subst g1; rewrite (unit_eq u) in W; revert W
         end.
  intros HF HC HS.
  do 3 eexists. split; [exact HS | split; [exact HC | split; [exact HF|]]].
  repeat match goal with
         | |- contains _ (("// ---------------- Structs" ++ nl ++ nl) ++ _) =>
             fail 1
         | |- contains _ (_ ++ _) => apply contains_app_r
         end.
  eexists "", _. rewrite !append_assoc. reflexivity.
Qed.

Lemma ends_app (a t s : string) :
  (exists b, t = b ++ s) -> exists b, a ++ t = b ++ s.
Proof. intros (b & ->). exists (a ++ b). now rewrite append_assoc. Qed.

(** The layout of a struct: a typedef of a struct that holds the fields in
    [private_impl]. *)
Lemma writeStruct_layout (n : Node) (g g' : gen) (o : string) :
  writeStruct n g = Ok tt g' o ->
  exists body : string,
    o = ("typedef struct {" ++ nl) ++ body
        ++ ("} private_impl;" ++ nl ++ " } puffs_" ++ pkgName g ++ "_"
            ++ ByID (tm g) (Struct_Name n) ++ ";" ++ nl ++ nl).
Proof.
  intro H. unfold writeStruct in H.
  apply bind_Ok in H. destruct H as (? & ? & ? & ? & H0 & H & ->).
  apply getG_Ok in H0. destruct H0 as (-> & -> & ->). cbv beta zeta in H.
  apply bind_Ok in H. destruct H as (? & ? & ? & rest & H0 & H & ->).
  apply writes_Ok in H0. destruct H0 as (-> & ->).
  cut (exists b, rest = b ++ ("} private_impl;" ++ nl ++ " } puffs_"
                            ++ pkgName g ++ "_"
                            ++ ByID (tm g) (Struct_Name n) ++ ";" ++ nl ++ nl)).
  { intros (b & ->). exists b. reflexivity. }
  repeat (apply bind_Ok in H;
          destruct H as (? & ? & ? & ? & _ & H & ->); cbv beta in H;
          apply ends_app).
  apply writes_Ok in H. destruct H as (_ & ->).
  exists "". reflexivity.
Qed.

(** The prototypes of the private constructors, destructors and functions
    are in the implementation. *)
Lemma genImpl_sections (g g' : gen) (iout : string) :
  genImpl g = Ok tt g' iout ->
  exists PC PF : string,
    forEach writeCtorPrototype
      (filter (fun n => negb (Struct_Public n)) (structList g)) g = Ok tt g PC
    /\ forEach writeFuncPrototype (funcDecls priOnly (files g)) g = Ok tt g PF
    /\ contains
         (("// ---------------- Private Constructor and Destructor Prototypes"
           ++ nl ++ nl) ++ PC
          ++ ("// ---------------- Private Function Prototypes" ++ nl ++ nl)
          ++ PF) iout.
Proof.
  intro H. unfold genImpl in H. cbv zeta in H.
  do 20 (apply bind_Ok in H;
         destruct H as (? & ? & ? & ? & ?H & H & ?); cbv beta in H).
  repeat match goal with
         | W : writes _ _ = Ok _ _ _ |- _ =>
             apply writes_Ok in W; destruct W as (? & ?)
         | W : getG _ = Ok _ _ _ |- _ =>
             apply getG_Ok in W; destruct W as (? & ? & ?)
         | W : forEach (fun s => writes (@?h s)) ?l ?g0 = Ok _ _ _ |- _ =>
             apply (forEach_writes_Ok h l g0) in W; destruct W as (? & ?)
         end.
  subst.
  repeat match goal with
         | W : forEach (fun n => if negb (Struct_Public n) then _ else _) _ _
               = Ok ?u ?g1 _ |- _ =>
             rewrite (forEach_filter (fun n => negb (Struct_Public n))) in W;
             assert (g1 = g)
               by (symmetry;
                   exact (forEach_pure _ _ writeCtorPrototype_pure _ _ _ _ W));
             subst g1; rewrite (unit_eq u) in W; revert W
         | W : forEachFunc priOnly _ _ = Ok ?u ?g1 _ |- _ =>
             rewrite forEachFunc_decls in W;
             assert (g1 = g)
               by (symmetry;
                   exact (forEach_pure _ _ writeFuncPrototype_pure _ _ _ _ W));
             subst g1; rewrite (unit_eq u) in W; revert W
         end.
  intros HF HC.
  do 2 eexists. split; [exact HC | split; [exact HF|]].
  repeat match goal with
         | |- contains _
                (("// ---------------- Private Constructor and Destructor Prototypes"
                  ++ nl ++ nl) ++ _) => fail 1
         | |- contains _ (_ ++ _) => apply contains_app_r
         end.
  eexists "", _. rewrite !append_assoc. reflexivity.
Qed.

(** *** Argument checks *)

Lemma argChecks_Ok (g : gen) (o : Node) (g0 g1 : gen) (cs : list string)
  (out : string) :
  argChecks g o g0 = Ok cs g1 out ->
  g1 = g0 /\ out = ""
  /\ exists oTyp, Field_XType o = Some oTyp
                  /\ cs = specInputChecks (tm g) o oTyp.
Proof.
  unfold argChecks. intro H.
  apply bind_Ok in H. destruct H as (oTyp & ? & ? & ? & H0 & H & ->).
  apply deref_Ok in H0. destruct H0 as (E & -> & ->).
  unfold specInputChecks.
  destruct (Key_eqb (Key_ (TypeExpr_Decorator oTyp)) KeyPtr) eqn:P;
    destruct (TypeExpr_IsRefined oTyp) eqn:Rf; cbn [negb andb] in H;
    apply ret_Ok in H; destruct H as (-> & -> & ->);
    (split; [reflexivity | split; [reflexivity|]]);
    exists oTyp; (split; [exact E|]); rewrite ?P, ?Rf; try reflexivity.
  unfold argBound, refinementBound, isNaturalBound.
  destruct (numTypeBounds (Key_ (TypeExpr_Name oTyp))) as [nlo nhi].
  cbn [fst snd].
  destruct (lhs oTyp) as [lo|]; destruct (mhs oTyp) as [hi|];
    try destruct (Expr_ConstValue lo) as [cl|];
    try destruct (Expr_ConstValue hi) as [ch|];
    try destruct nlo as [tl|]; try destruct nhi as [th|];
    try destruct (Z.eqb cl tl); try destruct (Z.eqb ch th); reflexivity.
Qed.

Lemma gatherChecks_Ok (g : gen) (l : list Node) :
  forall (acc checks : list string) (g0 g1 : gen) (out : string),
    foldM (fun checks o => cs <- argChecks g o ;; ret (List.app checks cs))
      acc l g0 = Ok checks g1 out ->
    g1 = g0 /\ out = "" /\ checks = (acc ++ specChecks (tm g) l)%list.
Proof.
  induction l as [|o l IH]; intros acc checks g0 g1 out H.
  - apply ret_Ok in H. destruct H as (-> & -> & ->).
    cbn. now rewrite app_nil_r.
  - cbn [foldM] in H.
    apply bind_Ok in H. destruct H as (acc' & ? & ? & ? & H0 & H & ->).
    apply bind_Ok in H0. destruct H0 as (cs & ? & ? & ? & H1 & H0 & ->).
    apply argChecks_Ok in H1. destruct H1 as (-> & -> & oTyp & E & ->).
    apply ret_Ok in H0. destruct H0 as (-> & -> & ->).
    apply IH in H. destruct H as (-> & -> & ->).
    split; [reflexivity | split; [reflexivity|]].
    unfold specChecks. cbn [flat_map]. rewrite E.
    now rewrite <- app_assoc.
Qed.

(** C6, as the code has it.  The argument checks of a function are one
    [if] whose condition is the disjunction of a nil check for each pointer
    input and of a [<] or [>] comparison for each constant bound of a
    refined numeric input that differs from the bound of its numeric type;
    when a check fails, a suspendible function sets [status] to
    [bad_argument] and jumps to [cleanup0], a function that is not
    suspendible stores [bad_argument] in the receiver's status and returns,
    or just returns when it has no receiver.  Nothing is written when there
    is no check. *)
Theorem arg_checks (n in_ : Node) (g g' : gen) (out : string) :
  Func_In n = Some in_ ->
  writeFuncImplArgChecks n g = Ok tt g' out ->
  g' = g
  /\ out = match specChecks (tm g) (Struct_Fields in_) with
           | [] => ""
           | checks =>
               "if (" ++ joinChecks checks ++ ") {" ++ onBadArgument g n
               ++ "}" ++ nl
           end.
Proof.
  intros I H. unfold writeFuncImplArgChecks in H. rewrite I in H.
  apply bind_Ok in H. destruct H as (? & ? & ? & ? & H0 & H & ->).
  apply getG_Ok in H0. destruct H0 as (-> & -> & ->).
  apply bind_Ok in H. destruct H as (? & ? & ? & ? & H0 & H & ->).
  apply ret_Ok in H0. destruct H0 as (-> & -> & ->).
  apply bind_Ok in H. destruct H as (checks & ? & ? & ? & H0 & H & ->).
  apply gatherChecks_Ok in H0. destruct H0 as (-> & -> & ->).
  cbn [app] in *.
  destruct (specChecks (tm g) (Struct_Fields in_)) as [|c cs].
  - apply ret_Ok in H. destruct H as (_ & -> & ->). auto.
  - unfold onBadArgument.
    destruct (Func_Suspendible n);
      [|destruct (negb (ID_eqb (Func_Receiver n) ID0))];
      minv H; (split; [reflexivity|]);
      cbn [append]; rewrite ?append_assoc; reflexivity.
Qed.

(** *** Lowering [x = in.src.read_u8?()] *)

Lemma writeExpr_eq (n : Node) (rp : replacementPolicy)
  (pp : parenthesesPolicy) (depth : nat) :
  writeExpr n rp pp depth =
  if Nat.ltb MaxExprDepth depth then fail ErrExprTooDeep else
  let depth := S depth in
  g <- getG ;;
  if match rp with replaceCallSuspendibles => true | replaceNothing => false end
     && Expr_CallSuspendible n
  then
    if N.leb (tempW (perFunc_ g)) (tempR (perFunc_ g))
    then fail ErrTempOutOfSync
    else
      writes (tPrefix ++ showN (tempR (perFunc_ g))) ;;
      modify (fun g =>
        setPerFunc (setTempR (tempR (perFunc_ g) + 1) (perFunc_ g)) g)
  else
    match Expr_ConstValue n with
    | Some cv =>
        mt <- deref (Expr_MType n) ;;
        if negb (TypeExpr_IsBool mt) then writes (showZ cv)
        else if Z.eqb cv 0 then writes "false"
        else if Z.eqb cv 1 then writes "true"
        else fail (ErrBoolConstant n cv)
    | None =>
        match FlagsUnaryOp (Expr_ID0 n), FlagsBinaryOp (Expr_ID0 n),
              FlagsAssociativeOp (Expr_ID0 n) with
        | false, false, false => writeExprOther writeExpr n rp depth
        | true, false, false => writeExprUnaryOp n rp depth
        | false, true, false => writeExprBinaryOp writeExpr n rp pp depth
        | false, false, true => writeExprAssociativeOp writeExpr n rp depth
        | _, _, _ => fail (ErrUnrecognizedKeyExpr (Key_ (Expr_ID0 n)))
        end
    end.
Proof. now destruct n. Qed.

(** A suspendible call in an expression is replaced by the next temporary
    to read; there must be one. *)
Lemma writeExpr_temp (n : Node) (pp : parenthesesPolicy) (depth : nat)
  (g : gen) :
  depth <= MaxExprDepth ->
  Expr_CallSuspendible n = true ->
  writeExpr n replaceCallSuspendibles pp depth g =
  if N.leb (tempW (perFunc_ g)) (tempR (perFunc_ g))
  then Err ErrTempOutOfSync
  else Ok tt (setPerFunc (setTempR (tempR (perFunc_ g) + 1) (perFunc_ g)) g)
          (tPrefix ++ showN (tempR (perFunc_ g))).
Proof.
  intros D C. rewrite writeExpr_eq.
  replace (Nat.ltb MaxExprDepth depth) with false
    by (symmetry; apply Nat.ltb_ge; lia).
  rewrite C. cbn [andb]. unfold bind, getG.
  destruct (N.leb (tempW (perFunc_ g)) (tempR (perFunc_ g))); [reflexivity|].
  unfold writes, modify. f_equal. all: try apply append_nil_r.
Qed.

(** A local variable is written with its prefix. *)
Lemma writeExpr_ident (x : ID) (t : Node) (rp : replacementPolicy)
  (pp : parenthesesPolicy) (depth : nat) (g : gen) :
  depth <= MaxExprDepth ->
  Key_ x <> KeyThis ->
  writeExpr (exprIdent x t) rp pp depth g
  = Ok tt g (vPrefix ++ ByID (tm g) x).
Proof.
  intros D K. rewrite writeExpr_eq.
  replace (Nat.ltb MaxExprDepth depth) with false
    by (symmetry; apply Nat.ltb_ge; lia).
  assert (E : Key_eqb (Key_ x) KeyThis = false).
  { destruct (Key_eqb (Key_ x) KeyThis) eqn:E; [|reflexivity].
    apply Key_eqb_eq in E. contradiction. }
  unfold exprIdent. cbn [Expr_CallSuspendible flags noFlags FlagsCallSuspendible
    andb Expr_ConstValue constValue Expr_ID0 id0 ID0 FlagsUnaryOp
    FlagsBinaryOp FlagsAssociativeOp].
  rewrite Bool.andb_false_r. unfold bind, getG, writeExprOther.
  cbn [Expr_ID0 id0 ID0 Key_ Expr_ID1 id1]. rewrite E.
  unfold bind, getG, writes. f_equal. all: try apply append_nil_r.
Qed.

Lemma isInSrcReadU8_exprReadU8 (tm : Token.Map) (g : gen) :
  isInSrcReadU8 tm (exprReadU8 tm) g = Ok true g "".
Proof.
  unfold isInSrcReadU8, exprReadU8, exprInField, exprIn, node, bind, ret,
    deref.
  simpl. rewrite ID_eqb_refl. reflexivity.
Qed.

(** *** The cursors of the temporaries *)

Lemma exprStep_refl (g : gen) : exprStep g g.
Proof. unfold exprStep, sameEnv. intuition (congruence || lia). Qed.

Lemma exprStep_trans (g1 g2 g3 : gen) :
  exprStep g1 g2 -> exprStep g2 g3 -> exprStep g1 g3.
Proof. unfold exprStep, sameEnv. intuition (congruence || lia). Qed.

Lemma tempsStep_refl (g : gen) : tempsStep g g.
Proof. unfold tempsStep, tempsOK, sameEnv. intuition (congruence || lia). Qed.

Lemma tempsStep_trans (g1 g2 g3 : gen) :
  tempsStep g1 g2 -> tempsStep g2 g3 -> tempsStep g1 g3.
Proof. unfold tempsStep, tempsOK, sameEnv. intuition (congruence || lia). Qed.

Lemma exprStep_tempsStep (g g' : gen) : exprStep g g' -> tempsStep g g'.
Proof. unfold exprStep, tempsStep, tempsOK, sameEnv. intuition (congruence || lia). Qed.

Lemma pres_weaken {A : Type} (R R' : gen -> gen -> Prop) (m : M A) :
  (forall g g', R g g' -> R' g g') -> preserves R m -> preserves R' m.
Proof. intros W H g a g' o E. apply W. eapply H. exact E. Qed.

Lemma pure_pres {A : Type} (R : gen -> gen -> Prop) (m : M A) :
  (forall g, R g g) -> pure m -> preserves R m.
Proof. intros Rr H. apply (pres_weaken eq); [now intros g g' <-|exact H]. Qed.

(** A step that keeps the equations of the case analyses. *)
Ltac pres_step_eqn Rr Rt :=
  lazymatch goal with
  | |- preserves _ (bind getG _) =>
      fail "the continuation of getG needs the state"
  | |- preserves _ (bind _ _) => apply (pres_bind _ Rt); [|intro]
  | |- preserves _ (ret _) => apply (pres_ret _ Rr)
  | |- preserves _ (fail _) => apply pres_fail
  | |- preserves _ (writes _) => apply (pres_writes _ Rr)
  | |- preserves _ (writeb _) => apply (pres_writeb _ Rr)
  | |- preserves _ getG => apply (pres_getG _ Rr)
  | |- preserves _ (deref _) => apply (pres_deref _ Rr)
  | |- preserves _ (when _ _) => apply (pres_when _ Rr)
  | |- preserves _ (if ?b then _ else _) => destruct b eqn:?
  | |- preserves _ (match ?x with _ => _ end) => destruct x eqn:?
  end.

Lemma isLowBits_pure (tm : Token.Map) (n : Node) : pure (isLowBits tm n).
Proof. unfold isLowBits. repeat pure_step. Qed.

Lemma isInSrcReadU8_pure (tm : Token.Map) (n : Node) :
  pure (isInSrcReadU8 tm n).
Proof. unfold isInSrcReadU8. repeat pure_step. Qed.

Lemma isInDst_pure (tm : Token.Map) (n : Node) (k : Key) :
  pure (isInDst tm n k).
Proof. unfold isInDst. repeat pure_step. Qed.

Lemma isThisDecodeHeader_pure (tm : Token.Map) (n : Node) :
  pure (isThisDecodeHeader tm n).
Proof. unfold isThisDecodeHeader. repeat pure_step. Qed.

Lemma writeExit_pure : pure writeExit.
Proof. unfold writeExit. repeat pure_step. Qed.

(** A child reached through the accessors is of a smaller height. *)
Ltac height_solve :=
  repeat match goal with
         | E : _ = Some _ |- _ =>
             first [ apply height_lhs in E | apply height_rhs in E
                   | apply height_mhs in E | apply height_mType in E ]
         | E : ?f ?n = ?a :: _ |- _ =>
             let I := fresh "I" in
             assert (I : In a (f n)) by (rewrite E; now left);
             clear E;
             first [ apply height_list0 in I | apply height_list1 in I ]
         | I : In _ (_ _) |- _ =>
             first [ apply height_list0 in I | apply height_list1 in I ]
         end;
  lia.

(** Lowering an expression reads temporaries that were written. *)
Lemma writeExpr_step (n : Node) :
  forall rp pp depth, preserves exprStep (writeExpr n rp pp depth).
Proof.
  induction n as [n IH] using node_ind. intros rp pp depth.
  rewrite writeExpr_eq.
  destruct (Nat.ltb MaxExprDepth depth); [apply pres_fail|].
  cbv zeta. apply pres_bind_getG. intros g a g' o H.
  destruct (match rp with replaceCallSuspendibles => true | _ => false end
            && Expr_CallSuspendible n).
  - destruct (N.leb (tempW (perFunc_ g)) (tempR (perFunc_ g))) eqn:L;
      [discriminate H|].
    apply N.leb_gt in L. minv H. unfold exprStep, sameEnv. cbn. intuition (congruence || lia).
  - revert g a g' o H.
    change (preserves exprStep
      match Expr_ConstValue n with
      | Some cv =>
          mt <- deref (Expr_MType n) ;;
          if negb (TypeExpr_IsBool mt) then writes (showZ cv)
          else if Z.eqb cv 0 then writes "false"
          else if Z.eqb cv 1 then writes "true"
          else fail (ErrBoolConstant n cv)
      | None =>
          match FlagsUnaryOp (Expr_ID0 n), FlagsBinaryOp (Expr_ID0 n),
                FlagsAssociativeOp (Expr_ID0 n) with
          | false, false, false => writeExprOther writeExpr n rp (S depth)
          | true, false, false => writeExprUnaryOp n rp (S depth)
          | false, true, false =>
              writeExprBinaryOp writeExpr n rp pp (S depth)
          | false, false, true =>
              writeExprAssociativeOp writeExpr n rp (S depth)
          | _, _, _ => fail (ErrUnrecognizedKeyExpr (Key_ (Expr_ID0 n)))
          end
      end).
    destruct (Expr_ConstValue n);
      [repeat pres_step_eqn exprStep_refl exprStep_trans|].
    destruct (FlagsUnaryOp (Expr_ID0 n)), (FlagsBinaryOp (Expr_ID0 n)),
      (FlagsAssociativeOp (Expr_ID0 n)); try apply pres_fail.
    + (* unary *)
      apply (pres_ret _ exprStep_refl).
    + (* binary *)
      unfold writeExprBinaryOp, writeExprAs. cbv zeta.
      repeat pres_step_eqn exprStep_refl exprStep_trans;
        try (apply (pure_pres _ _ exprStep_refl), writeCTypeName_pure);
        apply IH; height_solve.
    + (* associative *)
      unfold writeExprAssociativeOp. cbv zeta.
      apply (pres_forEachI _ exprStep_refl exprStep_trans).
      intros i x I.
      repeat pres_step_eqn exprStep_refl exprStep_trans.
      apply IH; height_solve.
    + (* other *)
      unfold writeExprOther.
      apply pres_bind_getG'. intro g0.
      destruct (Key_ (Expr_ID0 n)); try apply pres_fail;
        repeat pres_step_eqn exprStep_refl exprStep_trans;
        try (apply (pure_pres _ _ exprStep_refl), isLowBits_pure);
        apply IH; height_solve.
Qed.

Lemma writeCallSuspendibles_eq (n : Node) (depth : nat) :
  writeCallSuspendibles n depth =
  if negb (Expr_CallSuspendible n) then
    if Nat.ltb MaxExprDepth depth then fail ErrExprTooDeep else
    let depth := S depth in
    let sub (o : option Node) : M unit :=
      match o with
      | Some o =>
          if Kind_eqb (kind o) KExpr then writeCallSuspendibles o depth
          else ret tt
      | None => ret tt
      end in
    sub (lhs n) ;; sub (mhs n) ;; sub (rhs n) ;;
    forEach (fun o =>
        if Kind_eqb (kind o) KExpr then writeCallSuspendibles o depth
        else ret tt)
      (Expr_Args n)
  else
    g <- getG ;;
    b <- isInSrcReadU8 (tm g) n ;;
    if b then
      if N.ltb maxTemp (tempW (perFunc_ g)) then fail ErrTooManyTemporaries
      else
        let temp := tempW (perFunc_ g) in
        modify (fun g =>
          setPerFunc (setTempW (tempW (perFunc_ g) + 1) (perFunc_ g)) g) ;;
        writes ("if (" ++ aPrefix ++ "src->ri >= " ++ aPrefix
                ++ "src->wi) { status = " ++ aPrefix
                ++ "src->closed ? puffs_" ++ pkgName g
                ++ "_error_unexpected_eof : puffs_" ++ pkgName g
                ++ "_status_short_read;") ;;
        writeExit ;;
        writes ("}" ++ nl) ;;
        mt <- deref (Expr_MType n) ;;
        writeCTypeName mt tPrefix (showN temp) ;;
        writes (" = " ++ aPrefix ++ "src->ptr[" ++ aPrefix ++ "src->ri++];"
                ++ nl)
    else
    b <- isInDst (tm g) n KeyWrite ;;
    if b then
      writes ("if (" ++ aPrefix ++ "dst->closed) { status = puffs_"
              ++ pkgName g ++ "_error_closed_for_writes;") ;;
      writeExit ;;
      writes ("}" ++ nl) ;;
      writes ("if ((" ++ aPrefix ++ "dst->len - " ++ aPrefix
              ++ "dst->wi) < (sizeof(self->private_impl.f_stack) - v_s)) {") ;;
      writes ("status = puffs_" ++ pkgName g ++ "_status_short_write;") ;;
      writeExit ;;
      writes ("}" ++ nl) ;;
      writes ("memmove(" ++ "a_dst->ptr + a_dst->wi,"
              ++ "self->private_impl.f_stack + v_s,"
              ++ "sizeof(self->private_impl.f_stack) - v_s);" ++ nl) ;;
      writes ("a_dst->wi += sizeof(self->private_impl.f_stack) - v_s;" ++ nl)
    else
    b <- isInDst (tm g) n KeyWriteU8 ;;
    if b then
      writes ("if (" ++ aPrefix ++ "dst->wi >= " ++ aPrefix
              ++ "dst->len) { status = puffs_" ++ pkgName g
              ++ "_status_short_write;") ;;
      writeExit ;;
      writes ("}" ++ nl) ;;
      writes (aPrefix ++ "dst->ptr[" ++ aPrefix ++ "dst->wi++] = ") ;;
      a0 <- match Expr_Args n with
            | a0 :: _ => ret a0
            | [] => fail PanicIndexOutOfRange
            end ;;
      x <- deref (Arg_Value a0) ;;
      writeExpr x replaceCallSuspendibles parenthesesMandatory depth ;;
      writes (";" ++ nl)
    else
    b <- isThisDecodeHeader (tm g) n ;;
    if b then
      f <- deref (funk (perFunc_ g)) ;;
      writes ("status = puffs_" ++ pkgName g ++ "_"
              ++ ByID (tm g) (Func_Receiver f) ++ "_decode_header(self, "
              ++ aPrefix ++ "src);" ++ nl) ;;
      writes ("if (status) { goto cleanup0; }" ++ nl)
    else
      fail (ErrCannotConvertCall n).
Proof. now destruct n. Qed.

(** A step on a leaf of a statement: a function that only writes, or the
    lowering of an expression. *)
Ltac temps_leaf :=
  first [ apply (pure_pres _ _ tempsStep_refl);
          first [ apply writeExit_pure | apply isInDst_pure
                | apply isThisDecodeHeader_pure | apply isInSrcReadU8_pure
                | apply writeCTypeName_pure ]
        | apply (pres_weaken exprStep _ _ exprStep_tempsStep), writeExpr_step ].

(** Hoisting the suspendible calls of an expression writes temporaries,
    within the budget. *)
Lemma writeCallSuspendibles_step (n : Node) :
  forall depth, preserves tempsStep (writeCallSuspendibles n depth).
Proof.
  induction n as [n IH] using node_ind. intro depth.
  rewrite writeCallSuspendibles_eq.
  destruct (negb (Expr_CallSuspendible n)).
  - destruct (Nat.ltb MaxExprDepth depth); [apply pres_fail|]. cbv zeta.
    repeat first
      [ pres_step_eqn tempsStep_refl tempsStep_trans
      | apply (pres_forEach _ tempsStep_refl tempsStep_trans); intros ? ? ];
      apply IH; height_solve.
  - apply (pres_bind_getG _). intro g.
    apply (pres_bind_at _ tempsStep_trans).
    { apply (pure_pres _ _ tempsStep_refl), isInSrcReadU8_pure. }
    intros b g1 o1 Hb.
    assert (E := isInSrcReadU8_pure _ _ _ _ _ _ Hb). subst g1.
    destruct b.
    + intros a g' o H.
      destruct (N.ltb maxTemp (tempW (perFunc_ g))) eqn:L; [discriminate H|].
      apply N.ltb_ge in L. cbv zeta in H. minv H.
      repeat match goal with
             | W : writeExit _ = Ok _ _ _ |- _ =>
                 apply writeExit_pure in W; subst
             | W : writeCTypeName _ _ _ _ = Ok _ _ _ |- _ =>
                 apply writeCTypeName_pure in W; subst
             end.
      unfold tempsStep, tempsOK, sameEnv. cbn. unfold maxTemp in *.
      intuition (congruence || lia).
    + match goal with
      | |- preservesAt ?R ?m ?g0 =>
          assert (P : preserves R m); [|exact (P g0)]
      end.
      repeat first [ pres_step_eqn tempsStep_refl tempsStep_trans
                   | temps_leaf ].
Qed.

Lemma writeStatement_eq (n : Node) (depth : nat) :
  writeStatement n depth =
  if Nat.ltb MaxBodyDepth depth then fail ErrBodyTooDeep else
  let depth := S depth in
  match kind n with
  | KAssert =>
      (* Assertions only apply at compile-time. *)
      ret tt

  | KAssign =>
      l <- deref (Assign_LHS n) ;;
      writeSuspendibles l depth ;;
      r <- deref (Assign_RHS n) ;;
      writeSuspendibles r depth ;;
      writeExpr l replaceCallSuspendibles parenthesesMandatory depth ;;
      writes (cOpNames (Key_ (Assign_Operator n))) ;;
      writeExpr r replaceCallSuspendibles parenthesesMandatory depth ;;
      writes (";" ++ nl)

  | KExpr =>
      writeSuspendibles n depth ;;
      if Expr_CallSuspendible n then ret tt
      else fail ErrNotCallSuspendible

  | KIf =>
      nCloseCurly <- writeIfChain writeStatement n true 1 depth ;;
      writes (repeatString ("}" ++ nl) nCloseCurly)

  | KJump =>
      jt <- jumpTarget_ (Jump_JumpTarget n) ;;
      let keyword :=
        if Key_eqb (Key_ (Jump_Keyword n)) KeyBreak then "break"
        else "continue" in
      writes ("goto label_" ++ showN jt ++ "_" ++ keyword ++ ";" ++ nl)

  | KReturn =>
      g <- getG ;;
      let ret_ :=
        if ID_eqb (Return_Keyword n) ID0
        then "puffs_" ++ pkgName g ++ "_status_ok"
        else name (match lookupID (statusMap g) (Return_Message n) with
                   | Some s => s
                   | None => zeroStatus
                   end) in
      if negb (suspendible (perFunc_ g)) then writes ("return;" ++ nl)
      else if public (perFunc_ g)
      then writes ("status = " ++ ret_ ++ "; goto cleanup0;" ++ nl)
      else writes ("return " ++ ret_ ++ ";" ++ nl)

  | KVar =>
      g <- getG ;;
      match Var_Value n with
      | Some v => writeSuspendibles v depth
      | None => ret tt
      end ;;
      x <- deref (Var_XType n) ;;
      (if Key_eqb (Key_ (TypeExpr_Decorator x)) KeyOpenBracket then
         match Var_Value n with
         | Some _ => fail ErrArrayInitializer
         | None =>
             len <- deref (TypeExpr_ArrayLength x) ;;
             let cv := Expr_ConstValue len in
             writes ("for (size_t i = 0; i < " ++ showBig cv
                     ++ "; i++) { " ++ vPrefix ++ ByID (tm g) (Var_Name n)
                     ++ "[i] = 0; }" ++ nl)
         end
       else
         writes (vPrefix ++ ByID (tm g) (Var_Name n) ++ " = ") ;;
         match Var_Value n with
         | Some v =>
             writeExpr v replaceCallSuspendibles parenthesesMandatory 0
         | None => writeb "0"
         end) ;;
      writes (";" ++ nl)

  | KWhile =>
      when (While_HasContinue n)
        (jt <- jumpTarget_ (addr n) ;;
         writes ("label_" ++ showN jt ++ "_continue:;" ++ nl)) ;;
      writes "while (" ;;
      cond <- deref (While_Condition n) ;;
      writeExpr cond replaceCallSuspendibles parenthesesOptional 0 ;;
      writes (") {" ++ nl) ;;
      forEach (fun o => writeStatement o depth) (While_Body n) ;;
      writes ("}" ++ nl) ;;
      when (While_HasBreak n)
        (jt <- jumpTarget_ (addr n) ;;
         writes ("label_" ++ showN jt ++ "_break:;" ++ nl))

  | k => fail (ErrUnrecognizedKind k)
  end.
Proof. now destruct n. Qed.

Lemma writeIfChain_eq (ws : Node -> nat -> M unit) (n : Node) (first : bool) (nCloseCurly : nat)
  (depth : nat) :
  writeIfChain ws n first nCloseCurly depth =
  cond <- deref (If_Condition n) ;;
  nCloseCurly <-
    (if Expr_Suspendible cond then
       nCloseCurly <-
         (if negb first then
            writeb "{" ;;
            if Nat.eqb nCloseCurly maxCloseCurly
            then fail ErrTooManyNestedIfs
            else ret (S nCloseCurly)
          else ret nCloseCurly) ;;
       writeSuspendibles cond depth ;;
       ret nCloseCurly
     else ret nCloseCurly) ;;
  writes "if (" ;;
  writeExpr cond replaceCallSuspendibles parenthesesOptional 0 ;;
  writes (") {" ++ nl) ;;
  forEach (fun o => ws o depth) (If_BodyIfTrue n) ;;
  match If_BodyIfFalse n with
  | _ :: _ =>
      writes "} else {" ;;
      forEach (fun o => ws o depth) (If_BodyIfFalse n) ;;
      ret nCloseCurly
  | [] =>
      match If_ElseIf n with
      | None => ret nCloseCurly
      | Some n' =>
          writes "} else " ;;
          writeIfChain ws n' false nCloseCurly depth
      end
  end.
Proof. now destruct n. Qed.

Lemma writeVarsNode_eq (o : Node) (depth : nat) :
  writeVarsNode o depth =
  match kind o with
  | KIf => writeVarsIfChain writeVarsNode o depth
  | KVar =>
      g <- getG ;;
      x <- deref (Var_XType o) ;;
      writeCTypeName x vPrefix (ByID (tm g) (Var_Name o)) ;;
      writes (";" ++ nl)
  | KWhile => writeVarsBlock writeVarsNode (While_Body o) depth
  | _ => ret tt
  end.
Proof. now destruct o. Qed.

Lemma writeVarsIfChain_eq (wv : Node -> nat -> M unit) (o : Node) (depth : nat) :
  writeVarsIfChain wv o depth =
  writeVarsBlock wv (If_BodyIfTrue o) depth ;;
  writeVarsBlock wv (If_BodyIfFalse o) depth ;;
  match If_ElseIf o with
  | Some o' => writeVarsIfChain wv o' depth
  | None => ret tt
  end.
Proof. now destruct o. Qed.

Lemma writeSuspendibles_step (n : Node) (depth : nat) :
  preserves tempsStep (writeSuspendibles n depth).
Proof.
  unfold writeSuspendibles.
  destruct (negb (Expr_Suspendible n)); [apply (pres_ret _ tempsStep_refl)|].
  apply writeCallSuspendibles_step.
Qed.

Lemma jumpTarget_step (n : N) : preserves tempsStep (jumpTarget_ n).
Proof.
  unfold jumpTarget_. apply pres_bind_getG. intros g a g' o H.
  destruct (lookupAddr (jumpTargets (perFunc_ g)) n); minv H;
    unfold tempsStep, tempsOK, sameEnv; cbn; intuition (congruence || lia).
Qed.

Ltac stmt_leaf :=
  first [ apply writeSuspendibles_step
        | apply jumpTarget_step
        | apply (pres_weaken exprStep _ _ exprStep_tempsStep), writeExpr_step ].

Ltac stmt_steps :=
  repeat first
    [ pres_step_eqn tempsStep_refl tempsStep_trans
    | apply (pres_forEach _ tempsStep_refl tempsStep_trans); intros ? ?
    | stmt_leaf ].

(** The loop over a chain of [else if]s, when the statements below it keep
    the temporaries in order. *)
Lemma writeIfChain_step (n : Node) :
  (forall c d, height c < height n -> preserves tempsStep (writeStatement c d)) ->
  forall first k depth,
    preserves tempsStep (writeIfChain writeStatement n first k depth).
Proof.
  induction n as [n IH] using node_ind. intros Hs first k depth.
  rewrite writeIfChain_eq. stmt_steps;
    try match goal with
        | E : ?l = _ :: _, I : In _ (_ :: _) |- _ => rewrite <- E in I
        end;
    try (apply Hs; height_solve).
  apply IH; [height_solve|].
  intros c d Hc. apply Hs. height_solve.
Qed.

(** Lowering a statement keeps the cursors of the temporaries in order and
    within the budget. *)
Lemma writeStatement_step (n : Node) :
  forall depth, preserves tempsStep (writeStatement n depth).
Proof.
  induction n as [n IH] using node_ind. intro depth.
  rewrite writeStatement_eq.
  destruct (Nat.ltb MaxBodyDepth depth); [apply pres_fail|]. cbv zeta.
  destruct (kind n); try apply pres_fail.
  - (* assert *) apply (pres_ret _ tempsStep_refl).
  - (* assign *) stmt_steps.
  - (* expression *) stmt_steps.
  - (* if *)
    apply (pres_bind _ tempsStep_trans);
      [|intro; apply (pres_writes _ tempsStep_refl)].
    apply writeIfChain_step. intros c d Hc. now apply IH.
  - (* jump *) stmt_steps.
  - (* return *)
    apply pres_bind_getG'. intro g0. stmt_steps.
  - (* var *)
    apply pres_bind_getG'. intro g0. stmt_steps.
  - (* while *)
    stmt_steps. apply IH. height_solve.
Qed.

(** *** The temporaries of a whole function *)

Lemma pres_modify (R : gen -> gen -> Prop) (f : gen -> gen) :
  (forall g, R g (f g)) -> preserves R (modify f).
Proof.
  intros Hf g a g' o H. apply modify_Ok in H. destruct H as (-> & _).
  apply Hf.
Qed.

Ltac vars_steps :=
  repeat first
    [ apply writeCTypeName_pure
    | pres_step_eqn (@eq_refl gen) eq_trans_gen
    | apply pres_bind_getG'; intro
    | apply (pres_forEach _ (@eq_refl gen) eq_trans_gen); intros ? ? ].

Lemma writeVarsIfChain_pure (wv : Node -> nat -> M unit) (o : Node) :
  (forall c d, height c < height o -> pure (wv c d)) ->
  forall depth, pure (writeVarsIfChain wv o depth).
Proof.
  induction o as [o IH] using node_ind. intros Hw depth.
  rewrite writeVarsIfChain_eq. unfold writeVarsBlock, pure. vars_steps;
    try (apply Hw; height_solve).
  apply IH; [height_solve|]. intros c d Hc. apply Hw. height_solve.
Qed.

Lemma writeVarsNode_pure (o : Node) :
  forall depth, pure (writeVarsNode o depth).
Proof.
  induction o as [o IH] using node_ind. intro depth.
  rewrite writeVarsNode_eq.
  destruct (kind o); try apply (pres_ret _ (@eq_refl gen)).
  - apply writeVarsIfChain_pure. intros c d Hc. now apply IH.
  - unfold pure. vars_steps.
  - unfold writeVarsBlock, pure. vars_steps. apply IH. height_solve.
Qed.

(** Declaring the local variables changes nothing in the generator. *)
Lemma writeVars_pure (block : list Node) (depth : nat) :
  pure (writeVars block depth).
Proof.
  unfold writeVars, writeVarsBlock, pure. vars_steps.
  apply writeVarsNode_pure.
Qed.

Lemma writeFuncImplArgChecks_pure (n : Node) :
  pure (writeFuncImplArgChecks n).
Proof.
  unfold writeFuncImplArgChecks, pure. apply pres_bind_getG'. intro g0.
  unfold argChecks. cbv zeta. vars_steps.
  all: apply (pres_foldM _ (@eq_refl gen) eq_trans_gen); intros; vars_steps.
Qed.

(** The text of a function holds the text of its body, which is lowered
    from a state without temporaries, under the package and the flags of
    the function. *)
Lemma writeFuncImplEmit_Ok (n : Node) (g g' : gen) (out : string) :
  writeFuncImplEmit n g = Ok tt g' out ->
  exists (g0 : gen) (body : string),
    pkgName g0 = pkgName g /\ tm g0 = tm g
    /\ public (perFunc_ g0) = Func_Public n
    /\ suspendible (perFunc_ g0) = Func_Suspendible n
    /\ tempW (perFunc_ g0) = 0%N /\ tempR (perFunc_ g0) = 0%N
    /\ forEach (fun o => writeStatement o 0) (Func_Body n) g0 = Ok tt g' body
    /\ contains body out.
Proof.
  intro H. unfold writeFuncImplEmit, writeFuncImplPrologue in H.
  minv H;
    repeat match goal with
           | W : writeFuncSignature _ _ = Ok _ _ _ |- _ =>
               apply writeFuncSignature_pure in W
           | W : writeFuncImplArgChecks _ _ = Ok _ _ _ |- _ =>
               apply writeFuncImplArgChecks_pure in W
           | W : writeVars _ _ _ = Ok _ _ _ |- _ =>
               apply writeVars_pure in W
           end; subst;
    match goal with
    | W : forEach _ (Func_Body n) ?g0 = Ok ?u ?g1 ?b |- _ =>
        destruct u; exists g0, b;
        repeat (split; [solve [reflexivity | now symmetry | exact W]|])
    end;
    repeat first [ apply contains_app_l; apply contains_refl
                 | apply contains_app_r ].
Qed.

(** *** The text of [x = in.src.read_u8?()] *)

Lemma writeCTypeName_u8 (p v : string) (g : gen) :
  writeCTypeName (typeNamed KeyU8) p v g = Ok tt g ("uint8_t " ++ p ++ v).
Proof.
  unfold writeCTypeName, bind. cbn. now rewrite append_nil_r.
Qed.

Lemma writeExit_eq (g : gen) :
  writeExit g = Ok tt g (exitText g).
Proof.
  unfold writeExit, exitText, exitTextOf, bind, getG.
  now destruct (public (perFunc_ g) && suspendible (perFunc_ g)).
Qed.

Lemma writeCallSuspendibles_readU8 (depth : nat) (g : gen) :
  writeCallSuspendibles (exprReadU8 (tm g)) depth g =
  if N.ltb maxTemp (tempW (perFunc_ g)) then Err ErrTooManyTemporaries
  else Ok tt (setPerFunc (setTempW (tempW (perFunc_ g) + 1) (perFunc_ g)) g)
          (readGuard g ++ exitText g ++ ("}" ++ nl)
           ++ ("uint8_t " ++ tPrefix ++ showN (tempW (perFunc_ g)))
           ++ (" = " ++ aPrefix ++ "src->ptr[" ++ aPrefix ++ "src->ri++];"
               ++ nl)).
Proof.
  rewrite writeCallSuspendibles_eq.
  change (negb (Expr_CallSuspendible (exprReadU8 (tm g)))) with false.
  cbv iota. unfold bind at 1. unfold getG at 1.
  unfold bind at 1. rewrite isInSrcReadU8_exprReadU8.
  destruct (N.ltb maxTemp (tempW (perFunc_ g))); [reflexivity|].
  cbv zeta.
  erewrite bind_intro; [| reflexivity |].
  2:{ eapply bind_intro; [reflexivity|].
      eapply bind_intro; [apply writeExit_eq|].
      eapply bind_intro; [reflexivity|].
      eapply bind_intro; [reflexivity|].
      eapply bind_intro; [apply writeCTypeName_u8|].
      reflexivity. }
  cbn [append]. reflexivity.
Qed.

Lemma bind_step {A B : Type} (m : M A) (k : A -> M B) g a g1 o1 :
  m g = Ok a g1 o1 -> bind m k g = prepend o1 (k a g1).
Proof. unfold bind, prepend. now intros ->. Qed.

Lemma prepend_nil {A : Type} (r : Res A) : prepend "" r = r.
Proof. now destruct r. Qed.

Lemma prepend_prepend {A : Type} (o1 o2 : string) (r : Res A) :
  prepend o1 (prepend o2 r) = prepend (o1 ++ o2) r.
Proof. destruct r; cbn; [now rewrite append_assoc | reflexivity]. Qed.

Lemma writeStatement_readU8 (x : ID) (depth : nat) (g : gen) :
  depth <= MaxBodyDepth -> S depth <= MaxExprDepth ->
  Key_ x <> KeyThis ->
  writeStatement (stmtReadU8 (tm g) x) depth g =
  if N.ltb maxTemp (tempW (perFunc_ g)) then Err ErrTooManyTemporaries
  else if N.ltb (tempW (perFunc_ g)) (tempR (perFunc_ g))
  then Err ErrTempOutOfSync
  else Ok tt (afterRead g) (readText g x).
Proof.
  intros Hd He Hx.
  rewrite writeStatement_eq.
  destruct (Nat.ltb MaxBodyDepth depth) eqn:D;
    [apply Nat.ltb_lt in D; lia|].
  cbv zeta.
  change (kind (stmtReadU8 (tm g) x)) with KAssign. cbv iota.
  erewrite bind_step by reflexivity. rewrite prepend_nil.
  erewrite bind_step by reflexivity. rewrite prepend_nil.
  erewrite bind_step by reflexivity. rewrite prepend_nil.
  change (writeSuspendibles (exprReadU8 (tm g)) (S depth))
    with (writeCallSuspendibles (exprReadU8 (tm g)) (S depth)).
  assert (C := writeCallSuspendibles_readU8 (S depth) g).
  destruct (N.ltb maxTemp (tempW (perFunc_ g))) eqn:L;
    [now apply bind_Err_l|].
  erewrite bind_step by exact C.
  erewrite bind_step by (apply writeExpr_ident; assumption).
  erewrite bind_step by reflexivity.
  match goal with
  | |- context [bind (writeExpr ?r _ _ _) _ ?g1] =>
      assert (T := writeExpr_temp r parenthesesMandatory (S depth) g1
                     He eq_refl)
  end.
  cbn [perFunc_ setPerFunc tempW tempR setTempW] in T.
  destruct (N.ltb (tempW (perFunc_ g)) (tempR (perFunc_ g))) eqn:L2.
  - apply N.ltb_lt in L2.
    destruct (N.leb (tempW (perFunc_ g) + 1) (tempR (perFunc_ g))) eqn:L3;
      [|apply N.leb_gt in L3; lia].
    rewrite (bind_Err_l _ _ _ _ T). reflexivity.
  - apply N.ltb_ge in L2.
    destruct (N.leb (tempW (perFunc_ g) + 1) (tempR (perFunc_ g))) eqn:L3;
      [apply N.leb_le in L3; lia|].
    rewrite (bind_step _ _ _ _ _ _ T).
    rewrite !prepend_prepend. unfold writes, prepend.
    unfold afterRead, readText, hoistedRead, readGuard, exitText. f_equal.
    cbn [tm setPerFunc]. 
    change (cOpNames (Key_ (Assign_Operator (stmtReadU8 (tm g) x))))
      with " = ".
    rewrite !append_assoc. reflexivity.
Qed.


Lemma forEach_step (body : list Node) :
  preserves tempsStep (forEach (fun o => writeStatement o 0) body).
Proof.
  apply (pres_forEach _ tempsStep_refl tempsStep_trans).
  intros o _. apply writeStatement_step.
Qed.

(** *** The budget of temporaries *)

Lemma writeFuncImplPrologue_Ok (n : Node) (g g0 : gen) (pre : string) :
  writeFuncImplPrologue n g = Ok tt g0 pre -> g0 = bodyState n g.
Proof.
  intro H. unfold writeFuncImplPrologue in H.
  minv H;
    repeat match goal with
           | W : writeFuncSignature _ _ = Ok _ _ _ |- _ =>
               apply writeFuncSignature_pure in W
           | W : writeFuncImplArgChecks _ _ = Ok _ _ _ |- _ =>
               apply writeFuncImplArgChecks_pure in W
           | W : writeVars _ _ _ = Ok _ _ _ |- _ =>
               apply writeVars_pure in W
           end; subst; unfold bodyState;
    repeat match goal with
           | E : Func_Public n = _ |- _ => rewrite E; clear E
           | E : Func_Suspendible n = _ |- _ => rewrite E; clear E
           end; reflexivity.
Qed.

(** A function whose prologue is written is emitted when its body is. *)
Lemma writeFuncImplEmit_body (n : Node) (g g0 : gen) (pre : string) :
  writeFuncImplPrologue n g = Ok tt g0 pre ->
  (forall e, forEach (fun o => writeStatement o 0) (Func_Body n) g0 = Err e ->
             writeFuncImplEmit n g = Err e)
  /\ (forall g1 o,
        forEach (fun o => writeStatement o 0) (Func_Body n) g0 = Ok tt g1 o ->
        exists out, writeFuncImplEmit n g = Ok tt g1 out /\ contains o out).
Proof.
  intro P. unfold writeFuncImplEmit. rewrite (bind_step _ _ _ _ _ _ P).
  split.
  - intros e F. now rewrite (bind_Err_l _ _ _ _ F).
  - intros g1 o F. rewrite (bind_step _ _ _ _ _ _ F).
    erewrite bind_step by reflexivity.
    erewrite bind_step by reflexivity.
    unfold when.
    destruct (suspendible (perFunc_ g1)), (public (perFunc_ g1));
      (eexists; split; [reflexivity|]);
      apply contains_app_r, contains_app_l, contains_refl.
Qed.

Lemma reads_loop (xs : list ID) :
  1 <= MaxExprDepth ->
  Forall (fun x => Key_ x <> KeyThis) xs ->
  forall g : gen,
    tempR (perFunc_ g) = tempW (perFunc_ g) ->
    (tempW (perFunc_ g) <= maxTemp + 1)%N ->
    ((tempW (perFunc_ g) + N.of_nat (length xs) <= maxTemp + 1)%N ->
     exists g' o,
       forEach (fun o => writeStatement o 0)
         (map (stmtReadU8 (tm g)) xs) g = Ok tt g' o
       /\ tempW (perFunc_ g')
          = (tempW (perFunc_ g) + N.of_nat (length xs))%N
       /\ tempR (perFunc_ g') = tempW (perFunc_ g'))
    /\ ((maxTemp + 1 < tempW (perFunc_ g) + N.of_nat (length xs))%N ->
        forEach (fun o => writeStatement o 0)
          (map (stmtReadU8 (tm g)) xs) g = Err ErrTooManyTemporaries).
Proof.
  intros He Hx. induction Hx as [|x xs Hx _ IH]; intros g E B.
  - split.
    + intros _. exists g, "". cbn [map forEach length N.of_nat].
      split; [reflexivity|]. split; [lia|exact E].
    + cbn [length N.of_nat]. lia.
  - cbn [map forEach length]. rewrite Nat2N.inj_succ.
    assert (S := writeStatement_readU8 x 0 g (Nat.le_0_l _) He Hx).
    destruct (N.ltb maxTemp (tempW (perFunc_ g))) eqn:L.
    + apply N.ltb_lt in L. split; [lia|].
      intros _. now rewrite (bind_Err_l _ _ _ _ S).
    + apply N.ltb_ge in L.
      destruct (N.ltb (tempW (perFunc_ g)) (tempR (perFunc_ g))) eqn:L2;
        [apply N.ltb_lt in L2; lia|].
      rewrite (bind_step _ _ _ _ _ _ S).
      destruct (IH (afterRead g)) as (I1 & I2).
      { cbn [afterRead setPerFunc perFunc_ tempW tempR setTempW setTempR].
        now rewrite E. }
      { cbn [afterRead setPerFunc perFunc_ tempW tempR setTempW setTempR].
        lia. }
      cbn [afterRead tm setPerFunc perFunc_ tempW tempR setTempW setTempR]
        in I1, I2.
      split; intro K.
      * destruct I1 as (g' & o & F & W & R); [lia|].
        exists g', (readText g x ++ o). cbn [tm afterRead setPerFunc] in F.
        rewrite F. cbn [prepend]. split; [reflexivity|]. split; [lia|exact R].
      * cbn [tm afterRead setPerFunc].
        rewrite I2 by lia. reflexivity.
Qed.

Lemma isInSrcReadU8_true (tm0 : Token.Map) (n : Node) (g g1 : gen)
  (o : string) :
  isInSrcReadU8 tm0 n g = Ok true g1 o -> Expr_CallSuspendible n = true.
Proof.
  unfold isInSrcReadU8. destruct (Expr_CallSuspendible n); [reflexivity|].
  rewrite !orb_true_r. cbn. discriminate.
Qed.

Lemma sameTempW_refl (g : gen) : sameTempW g g.
Proof. reflexivity. Qed.

Lemma sameTempW_trans (g1 g2 g3 : gen) :
  sameTempW g1 g2 -> sameTempW g2 g3 -> sameTempW g1 g3.
Proof. unfold sameTempW. congruence. Qed.

Lemma exprStep_sameTempW (g g' : gen) : exprStep g g' -> sameTempW g g'.
Proof. unfold exprStep, sameTempW. tauto. Qed.

(** The hoist of [in.src.read_u8?()] takes one temporary, or fails when
    more than [maxTemp] were taken. *)
Lemma hoist_read (n : Node) (depth : nat) (g g1 : gen) (o1 : string) :
  isInSrcReadU8 (tm g) n g = Ok true g1 o1 ->
  ((maxTemp < tempW (perFunc_ g))%N ->
   writeCallSuspendibles n depth g = Err ErrTooManyTemporaries)
  /\ (forall g' o,
        writeCallSuspendibles n depth g = Ok tt g' o ->
        tempW (perFunc_ g') = (tempW (perFunc_ g) + 1)%N
        /\ (tempW (perFunc_ g) <= maxTemp)%N).
Proof.
  intro H. assert (C := isInSrcReadU8_true _ _ _ _ _ H).
  assert (E := isInSrcReadU8_pure _ _ _ _ _ _ H). subst g1.
  remember (writeCallSuspendibles n depth g) as r eqn:R.
  rewrite writeCallSuspendibles_eq, C in R. cbn [negb] in R.
  unfold bind at 1 in R. unfold getG at 1 in R.
  rewrite (bind_step _ _ _ _ _ _ H) in R. cbv iota beta zeta in R.
  destruct (N.ltb maxTemp (tempW (perFunc_ g))) eqn:L.
  - subst r. split; [reflexivity|]. intros g' o K. discriminate K.
  - apply N.ltb_ge in L. split; [lia|]. intros g' o K.
    split; [|exact L]. rewrite K in R. clear K.
    match type of R with
    | _ = match prepend _ ?x with _ => _ end =>
        destruct x as [u g2 o2|] eqn:P; [|discriminate R]
    end.
    cbn [prepend] in R. apply Ok_inj in R. destruct R as (_ & -> & _).
    minv P.
    repeat match goal with
           | W : writeExit _ = Ok _ _ _ |- _ =>
               apply writeExit_pure in W; subst
           | W : writeCTypeName _ _ _ _ = Ok _ _ _ |- _ =>
               apply writeCTypeName_pure in W; subst
           end.
    reflexivity.
Qed.

(** The hoists of the other calls take no temporary. *)
Lemma hoist_other (n : Node) (depth : nat) (g g1 g' : gen) (o1 o : string) :
  Expr_CallSuspendible n = true ->
  isInSrcReadU8 (tm g) n g = Ok false g1 o1 ->
  writeCallSuspendibles n depth g = Ok tt g' o ->
  tempW (perFunc_ g') = tempW (perFunc_ g).
Proof.
  intros C H K.
  assert (E := isInSrcReadU8_pure _ _ _ _ _ _ H). subst g1.
  rewrite writeCallSuspendibles_eq, C in K. cbn [negb] in K.
  unfold bind at 1 in K. unfold getG at 1 in K.
  rewrite (bind_step _ _ _ _ _ _ H) in K. cbv iota beta zeta in K.
  match type of K with
  | match prepend _ (?m _) with _ => _ end = _ =>
      assert (P : preserves sameTempW m);
      [|destruct (m g) as [[] g2 o2|] eqn:M; [|discriminate K];
        cbn [prepend] in K;
        apply Ok_inj in K; destruct K as (_ & -> & _);
        exact (P _ _ _ _ M)]
  end.
  repeat first
    [ apply (pure_pres _ _ sameTempW_refl);
      first [ apply writeExit_pure | apply isInDst_pure
            | apply isThisDecodeHeader_pure ]
    | apply (pres_weaken exprStep _ _ exprStep_sameTempW), writeExpr_step
    | pres_step_eqn sameTempW_refl sameTempW_trans ].
Qed.

(** When the text of a function is written, no temporary was read that
    was not written, and at most [maxTemp + 1] were written. *)
Lemma writeFuncImplEmit_temps (n : Node) (g g' : gen) (out : string) :
  writeFuncImplEmit n g = Ok tt g' out -> tempsOK g'.
Proof.
  intro H. apply writeFuncImplEmit_Ok in H.
  destruct H as (g0 & body & _ & _ & _ & _ & W0 & R0 & F & _).
  apply forEach_step in F. destruct F as (_ & _ & _ & K).
  apply K. unfold tempsOK, maxTemp. lia.
Qed.

(** C8.  A function is emitted only with as many temporaries read as
    written: once its text is written, [writeFuncImpl] fails with the
    internal error on the count of temporaries exactly when the two cursors
    differ.  No temporary is read before it is written: with the read cursor
    at the write cursor, lowering a hoisted call fails with that error, and
    the read cursor never passes the write cursor. *)
Theorem temporaries_in_sync (n : Node) (g : gen) :
  (forall g' out,
      writeFuncImpl n g = Ok tt g' out ->
      tempW (perFunc_ g') = tempR (perFunc_ g'))
  /\ (forall g1 out,
        writeFuncImplEmit n g = Ok tt g1 out ->
        (tempR (perFunc_ g1) <= tempW (perFunc_ g1))%N
        /\ (tempW (perFunc_ g1) <> tempR (perFunc_ g1) ->
            writeFuncImpl n g = Err ErrTempOutOfSync)
        /\ (tempW (perFunc_ g1) = tempR (perFunc_ g1) ->
            writeFuncImpl n g = Ok tt g1 out))
  /\ (forall e pp depth g0,
        depth <= MaxExprDepth ->
        Expr_CallSuspendible e = true ->
        (tempW (perFunc_ g0) <= tempR (perFunc_ g0))%N ->
        writeExpr e replaceCallSuspendibles pp depth g0
        = Err ErrTempOutOfSync)
  /\ (forall e rp pp depth g0 g0' o,
        writeExpr e rp pp depth g0 = Ok tt g0' o ->
        (tempR (perFunc_ g0) <= tempW (perFunc_ g0))%N ->
        (tempR (perFunc_ g0') <= tempW (perFunc_ g0'))%N).
Proof.
  split; [|split; [|split]].
  - intros g' out H. now apply writeFuncImpl_Ok in H.
  - intros g1 out H. split; [apply (writeFuncImplEmit_temps _ _ _ _ H)|].
    rewrite writeFuncImpl_check, H.
    split; intro E.
    + apply N.eqb_neq in E. now rewrite E.
    + apply N.eqb_eq in E. now rewrite E.
  - intros e pp depth g0 Hd Hc L.
    rewrite writeExpr_temp by assumption.
    apply N.leb_le in L. now rewrite L.
  - intros e rp pp depth g0 g0' o H L.
    apply writeExpr_step in H. destruct H as (_ & _ & _ & K). now apply K.
Qed.

(** C7, as the code has it.  Only the hoist of [in.src.read_u8?()] takes
    a temporary, one for each call, and it fails with the error on the
    number of temporaries when more than [maxTemp] were taken already; the
    hoists of the other calls take none.  So no function is emitted with
    more than [maxTemp + 1] temporaries; a function whose body is [k]
    statements [x = in.src.read_u8?()] is emitted, with [k] temporaries,
    when [k <= maxTemp + 1], and is refused with that error when
    [k > maxTemp + 1]. *)
Theorem temporary_budget :
  (forall n depth g g1 o1,
      isInSrcReadU8 (tm g) n g = Ok true g1 o1 ->
      ((maxTemp < tempW (perFunc_ g))%N ->
       writeCallSuspendibles n depth g = Err ErrTooManyTemporaries)
      /\ (forall g' o,
            writeCallSuspendibles n depth g = Ok tt g' o ->
            tempW (perFunc_ g') = (tempW (perFunc_ g) + 1)%N
            /\ (tempW (perFunc_ g) <= maxTemp)%N))
  /\ (forall n depth g g1 o1 g' o,
        Expr_CallSuspendible n = true ->
        isInSrcReadU8 (tm g) n g = Ok false g1 o1 ->
        writeCallSuspendibles n depth g = Ok tt g' o ->
        tempW (perFunc_ g') = tempW (perFunc_ g))
  /\ (forall n g g' out,
        writeFuncImpl n g = Ok tt g' out ->
        (tempW (perFunc_ g') <= maxTemp + 1)%N)
  /\ (forall n xs g g0 pre,
        1 <= MaxExprDepth ->
        Forall (fun x => Key_ x <> KeyThis) xs ->
        Func_Body n = map (stmtReadU8 (tm g)) xs ->
        writeFuncImplPrologue n g = Ok tt g0 pre ->
        ((N.of_nat (length xs) <= maxTemp + 1)%N ->
         exists g' out,
           writeFuncImpl n g = Ok tt g' out
           /\ tempW (perFunc_ g') = N.of_nat (length xs))
        /\ ((maxTemp + 1 < N.of_nat (length xs))%N ->
            writeFuncImpl n g = Err ErrTooManyTemporaries)).
Proof.
  split; [|split; [|split]].
  - intros n depth g g1 o1 H. exact (hoist_read n depth g g1 o1 H).
  - intros n depth g g1 o1 g' o C H K. exact (hoist_other _ _ _ _ _ _ _ C H K).
  - intros n g g' out H. apply writeFuncImpl_Ok in H. destruct H as (H & _).
    apply writeFuncImplEmit_temps in H. apply H.
  - intros n xs g g0 pre He Hx B P.
    assert (E := writeFuncImplPrologue_Ok _ _ _ _ P).
    destruct (writeFuncImplEmit_body _ _ _ _ P) as (Fe & Fo).
    rewrite B in Fe, Fo.
    assert (T : tm g0 = tm g) by now subst g0.
    rewrite <- T in Fe, Fo.
    destruct (reads_loop xs He Hx g0) as (L1 & L2).
    { now subst g0. }
    { subst g0. unfold maxTemp. cbn. lia. }
    assert (W0 : tempW (perFunc_ g0) = 0%N) by now subst g0.
    rewrite W0 in L1, L2. cbn [N.add] in L1, L2.
    split; intro K.
    + destruct L1 as (g' & o & F & W & R); [exact K|].
      destruct (Fo _ _ F) as (out & Em & _).
      exists g', out. rewrite writeFuncImpl_check, Em.
      rewrite R, N.eqb_refl. split; [reflexivity | exact W].
    + rewrite writeFuncImpl_check, (Fe _ (L2 K)). reflexivity.
Qed.

(** The check of the hoist is [tempW > maxTemp]: a function of
    [maxTemp + 1] reads is emitted too. *)
Lemma temporary_budget_boundary (n : Node) (xs : list ID) (g g0 : gen)
  (pre : string) :
  1 <= MaxExprDepth ->
  Forall (fun x => Key_ x <> KeyThis) xs ->
  N.of_nat (length xs) = (maxTemp + 1)%N ->
  Func_Body n = map (stmtReadU8 (tm g)) xs ->
  writeFuncImplPrologue n g = Ok tt g0 pre ->
  exists g' out,
    writeFuncImpl n g = Ok tt g' out
    /\ tempW (perFunc_ g') = (maxTemp + 1)%N.
Proof.
  intros He Hx Hk B P.
  assert (E := writeFuncImplPrologue_Ok _ _ _ _ P).
  destruct (writeFuncImplEmit_body _ _ _ _ P) as (_ & Fo).
  rewrite B in Fo.
  assert (T : tm g0 = tm g) by now subst g0.
  rewrite <- T in Fo.
  destruct (reads_loop xs He Hx g0) as (L1 & _).
  { now subst g0. }
  { subst g0. unfold maxTemp. cbn. lia. }
  assert (W0 : tempW (perFunc_ g0) = 0%N) by now subst g0.
  rewrite W0, Hk in L1.
  destruct L1 as (g' & o & F & W & R); [lia|].
  destruct (Fo _ _ F) as (out & Em & _).
  exists g', out. rewrite writeFuncImpl_check, Em.
  rewrite R, N.eqb_refl. split; [reflexivity|]. now rewrite W.
Qed.

(* ------------------------------------------------------------------ *)
(** ** Further properties of the backend *)

(** *** Jump targets *)

Lemma jumpTarget_Ok (n : N) (g g' : gen) (jt : N) (o : string) :
  jumpTarget_ n g = Ok jt g' o ->
  o = ""
  /\ ((lookupAddr (jumpTargets (perFunc_ g)) n = Some jt /\ g' = g)
      \/ (lookupAddr (jumpTargets (perFunc_ g)) n = None
          /\ jt = N.of_nat (length (jumpTargets (perFunc_ g)))
          /\ jt <> 1000000%N
          /\ g' = setPerFunc
                    (setJumpTargets ((n, jt) :: jumpTargets (perFunc_ g))
                       (perFunc_ g)) g)).
Proof.
  unfold jumpTarget_. intro H. unfold bind at 1, getG at 1 in H.
  destruct (lookupAddr (jumpTargets (perFunc_ g)) n) as [j|] eqn:L.
  - cbn in H. apply Ok_inj in H. destruct H as (-> & -> & ->). auto.
  - destruct (N.eqb (N.of_nat (length (jumpTargets (perFunc_ g)))) 1000000)
      eqn:E; [discriminate H|].
    apply N.eqb_neq in E. cbn in H.
    apply Ok_inj in H. destruct H as (<- & <- & <-).
    split; [reflexivity|]. right. auto.
Qed.

Lemma jumpTarget_lookup (n : N) (g g' : gen) (jt : N) (o : string) :
  jumpTarget_ n g = Ok jt g' o ->
  lookupAddr (jumpTargets (perFunc_ g')) n = Some jt.
Proof.
  intro H. apply jumpTarget_Ok in H.
  destruct H as (_ & [(L & ->)|(_ & _ & _ & ->)]); [exact L|].
  cbn. now rewrite N.eqb_refl.
Qed.

Lemma jumpTarget_known (n : N) (g : gen) (jt : N) :
  lookupAddr (jumpTargets (perFunc_ g)) n = Some jt ->
  jumpTarget_ n g = Ok jt g "".
Proof. intro L. unfold jumpTarget_, bind, getG. now rewrite L. Qed.

Lemma jumpTarget_keeps (n : N) (g g' : gen) (jt : N) (o : string) :
  jumpTarget_ n g = Ok jt g' o -> keepsTargets g g'.
Proof.
  intro H. apply jumpTarget_Ok in H.
  destruct H as (_ & [(_ & ->)|(L & _ & _ & ->)]); intros a j La;
    [exact La|].
  cbn. destruct (N.eqb n a) eqn:E; [|exact La].
  apply N.eqb_eq in E. subst a. congruence.
Qed.

Lemma numbered_nil : numbered [].
Proof. split; intros; discriminate. Qed.

Lemma numbered_cons (m : list (N * N)) (n : N) :
  numbered m -> lookupAddr m n = None ->
  numbered ((n, N.of_nat (length m)) :: m).
Proof.
  intros (B & I) L. split.
  - intros a j. cbn [lookupAddr length]. rewrite Nat2N.inj_succ.
    destruct (N.eqb n a).
    + intros [= <-]. lia.
    + intro La. apply B in La. lia.
  - intros a b j. cbn [lookupAddr].
    destruct (N.eqb n a) eqn:Ea, (N.eqb n b) eqn:Eb.
    + apply N.eqb_eq in Ea, Eb. congruence.
    + intros [= <-] Lb. apply B in Lb. lia.
    + intros La [= <-]. apply B in La. lia.
    + apply I.
Qed.

Lemma jumpTarget_numbered (n : N) (g g' : gen) (jt : N) (o : string) :
  numbered (jumpTargets (perFunc_ g)) ->
  jumpTarget_ n g = Ok jt g' o ->
  numbered (jumpTargets (perFunc_ g')).
Proof.
  intros Nm H. apply jumpTarget_Ok in H.
  destruct H as (_ & [(_ & ->)|(L & -> & _ & ->)]); [exact Nm|].
  cbn. now apply numbered_cons.
Qed.

(** X1.  A loop keeps the jump target it was given: asking again for the
    target of the same loop returns the same number, writes nothing, and
    leaves the generator as it is. *)
Theorem jumpTarget_stable (n : N) (g g' : gen) (jt : N) (o : string) :
  jumpTarget_ n g = Ok jt g' o ->
  o = "" /\ jumpTarget_ n g' = Ok jt g' "".
Proof.
  intro H. split; [now apply jumpTarget_Ok in H|].
  apply jumpTarget_known. exact (jumpTarget_lookup _ _ _ _ _ H).
Qed.

(** X2.  Two loops never share a jump target: when the targets are numbered
    as they are met (as they are from the empty map on), the targets given
    to two distinct loops differ, a new loop gets the count of the loops
    met before it, and the targets stay so numbered. *)
Theorem jumpTarget_distinct (a b : N) (g g1 g2 : gen) (ja jb : N)
  (o1 o2 : string) :
  numbered (jumpTargets (perFunc_ g)) ->
  a <> b ->
  jumpTarget_ a g = Ok ja g1 o1 ->
  jumpTarget_ b g1 = Ok jb g2 o2 ->
  ja <> jb
  /\ (lookupAddr (jumpTargets (perFunc_ g)) a = None ->
      ja = N.of_nat (length (jumpTargets (perFunc_ g))))
  /\ numbered (jumpTargets (perFunc_ g2)).
Proof.
  intros Nm D Ha Hb.
  assert (N1 := jumpTarget_numbered _ _ _ _ _ Nm Ha).
  assert (N2 := jumpTarget_numbered _ _ _ _ _ N1 Hb).
  assert (La := jumpTarget_keeps _ _ _ _ _ Hb _ _
                  (jumpTarget_lookup _ _ _ _ _ Ha)).
  assert (Lb := jumpTarget_lookup _ _ _ _ _ Hb).
  split; [|split; [|exact N2]].
  - intros ->. apply D. exact (proj2 N2 _ _ _ La Lb).
  - intro L. apply jumpTarget_Ok in Ha.
    destruct Ha as (_ & [(L' & _)|(_ & E & _)]); [congruence|exact E].
Qed.

(** X3.  The only failure of [jumpTarget]: a loop that has no target yet
    is refused, with the error on the number of jump targets, exactly when
    1,000,000 loops have one; a loop that has its target is never
    refused. *)
Theorem jumpTarget_limit (n : N) (g : gen) :
  (forall e, jumpTarget_ n g = Err e -> e = ErrTooManyJumpTargets)
  /\ (jumpTarget_ n g = Err ErrTooManyJumpTargets <->
      lookupAddr (jumpTargets (perFunc_ g)) n = None
      /\ N.of_nat (length (jumpTargets (perFunc_ g))) = 1000000%N).
Proof.
  unfold jumpTarget_, bind, getG.
  destruct (lookupAddr (jumpTargets (perFunc_ g)) n) as [j|] eqn:L.
  - cbn. split; [discriminate|]. split; [discriminate|]. intros (? & _).
    discriminate.
  - destruct (N.eqb (N.of_nat (length (jumpTargets (perFunc_ g)))) 1000000)
      eqn:E; cbn.
    + apply N.eqb_eq in E. split; [now intros e [= <-]|].
      split; [|reflexivity]. intros _. split; [reflexivity|exact E].
    + apply N.eqb_neq in E. split; [discriminate|].
      split; [discriminate|]. intros (_ & K). contradiction.
Qed.

(** *** Mangled names *)

Lemma inRange_spec (lo hi c : ascii) :
  inRange lo hi c = true <->
  nat_of_ascii lo <= nat_of_ascii c <= nat_of_ascii hi.
Proof.
  unfold inRange. rewrite andb_true_iff, !Nat.leb_le. tauto.
Qed.

Lemma lower_of_upper (c : ascii) :
  inRange "A" "Z" c = true ->
  isIdentChar (ascii_of_nat (nat_of_ascii c + 32)) = true
  /\ inRange "A" "Z" (ascii_of_nat (nat_of_ascii c + 32)) = false.
Proof.
  intro U. apply inRange_spec in U. cbn in U.
  assert (E : nat_of_ascii (ascii_of_nat (nat_of_ascii c + 32))
              = nat_of_ascii c + 32) by (apply nat_ascii_embedding; lia).
  split.
  - unfold isIdentChar.
    assert (L : inRange "a" "z" (ascii_of_nat (nat_of_ascii c + 32)) = true)
      by (apply inRange_spec; rewrite E; cbn; lia).
    now rewrite L.
  - destruct (inRange "A" "Z" (ascii_of_nat (nat_of_ascii c + 32))) eqn:K;
      [|reflexivity].
    apply inRange_spec in K. rewrite E in K. cbn in K. lia.
Qed.

Lemma isIdentChar_not_upper (c : ascii) :
  isIdentChar c = true ->
  inRange "A" "Z" c = false
  /\ (inRange "a" "z" c || inRange "0" "9" c
      || Nat.eqb (nat_of_ascii c) (nat_of_ascii "_")) = true.
Proof.
  intro H. split; [|exact H].
  destruct (inRange "A" "Z" c) eqn:U; [|reflexivity].
  apply inRange_spec in U. cbn in U.
  unfold isIdentChar in H. rewrite !orb_true_iff in H.
  destruct H as [[H|H]|H].
  - apply inRange_spec in H. cbn in H. lia.
  - apply inRange_spec in H. cbn in H. lia.
  - apply Nat.eqb_eq in H. cbn in H. lia.
Qed.

Lemma mangle_chars (s : string) (c : ascii) :
  In c (list_ascii_of_string (mangle s)) -> isIdentChar c = true.
Proof.
  induction s as [|r s IH]; cbn [mangle]; [intros []|].
  destruct (inRange "A" "Z" r) eqn:U.
  - cbn. intros [<-|I]; [now apply lower_of_upper | now apply IH].
  - destruct (inRange "a" "z" r || inRange "0" "9" r
              || Nat.eqb (nat_of_ascii r) (nat_of_ascii "_")) eqn:K.
    + cbn. intros [<-|I]; [exact K | now apply IH].
    + destruct (Nat.eqb (nat_of_ascii r) (nat_of_ascii " "));
        [|exact IH].
      cbn. intros [<-|I]; [reflexivity | now apply IH].
Qed.

Lemma mangle_fixed (s : string) :
  (forall c, In c (list_ascii_of_string s) -> isIdentChar c = true) ->
  mangle s = s.
Proof.
  induction s as [|r s IH]; intro H; [reflexivity|].
  cbn [mangle].
  destruct (isIdentChar_not_upper r (H r (or_introl eq_refl))) as (U & K).
  rewrite U, K. f_equal. apply IH. intros c I. apply H. now right.
Qed.

(** X4.  A mangled name is made of lower-case letters, digits and
    underscores only, whatever the name: what [cName] returns is this after
    the prefix of the package, and is a C identifier when the package name
    is one. *)
Theorem mangle_identifier (g : gen) (name : string) :
  cName g name = "puffs_" ++ pkgName g ++ "_" ++ mangle name
  /\ forall c, In c (list_ascii_of_string (mangle name)) ->
               isIdentChar c = true.
Proof. split; [reflexivity | apply mangle_chars]. Qed.

(** X5.  Mangling goes character by character and settles at once: the
    mangled name of a concatenation is the concatenation of the mangled
    names, and mangling a mangled name changes nothing. *)
Theorem mangle_idempotent (s t : string) :
  mangle (s ++ t) = mangle s ++ mangle t
  /\ mangle (mangle s) = mangle s.
Proof.
  split.
  - induction s as [|r s IH]; [reflexivity|].
    cbn [append mangle]. rewrite IH.
    destruct (inRange "A" "Z" r); [reflexivity|].
    destruct (inRange "a" "z" r || inRange "0" "9" r
              || Nat.eqb (nat_of_ascii r) (nat_of_ascii "_"));
      [reflexivity|].
    now destruct (Nat.eqb (nat_of_ascii r) (nat_of_ascii " ")).
  - apply mangle_fixed, mangle_chars.
Qed.

(** X6.  The mangler tells no capital from its lower-case letter and no
    space from an underscore: two names that are the same once folded get
    the same C name. *)
Theorem mangle_folds (g : gen) (s t : string) :
  foldName s = foldName t -> cName g s = cName g t.
Proof.
  assert (F : forall u, mangle (foldName u) = mangle u).
  { induction u as [|r u IH]; [reflexivity|].
    cbn [foldName mangle]. unfold foldChar.
    destruct (inRange "A" "Z" r) eqn:U.
    - destruct (lower_of_upper r U) as (I & NU).
      destruct (isIdentChar_not_upper _ I) as (_ & K).
      rewrite NU, K, IH. reflexivity.
    - destruct (inRange "a" "z" r || inRange "0" "9" r
                || Nat.eqb (nat_of_ascii r) (nat_of_ascii "_")) eqn:K.
      + destruct (Nat.eqb (nat_of_ascii r) (nat_of_ascii " ")) eqn:Sp.
        * apply Nat.eqb_eq in Sp. rewrite !orb_true_iff in K.
          exfalso. destruct K as [[K|K]|K].
          -- apply inRange_spec in K. cbn in K, Sp. lia.
          -- apply inRange_spec in K. cbn in K, Sp. lia.
          -- apply Nat.eqb_eq in K. cbn in K, Sp. lia.
        * rewrite U, K, IH. reflexivity.
      + destruct (Nat.eqb (nat_of_ascii r) (nat_of_ascii " ")) eqn:Sp.
        * cbn. now rewrite IH.
        * rewrite U, K, Sp. exact IH. }
  intro E. unfold cName. rewrite <- (F s), <- (F t), E. reflexivity.
Qed.

(** *** Types: pointers and arrays *)

Lemma skipArrays_arrays (lens : list Z) (t : Node) :
  Key_eqb (Key_ (TypeExpr_Decorator t)) KeyOpenBracket = false ->
  skipArrays (arrays lens t) = Some t.
Proof.
  intro D. induction lens as [|l lens IH]; cbn [arrays fold_right].
  - now rewrite skipArrays_eq, D.
  - rewrite skipArrays_eq. exact IH.
Qed.

Lemma writeArrayExtents_arrays (lens : list Z) (t : Node) (g : gen) :
  Key_eqb (Key_ (TypeExpr_Decorator t)) KeyOpenBracket = false ->
  writeArrayExtents (arrays lens t) g = Ok tt g (extents lens).
Proof.
  intro D. induction lens as [|l lens IH]; cbn [arrays fold_right].
  - now rewrite writeArrayExtents_eq, D.
  - rewrite writeArrayExtents_eq.
    change (Key_eqb (Key_ (TypeExpr_Decorator (typeArray l (fold_right typeArray t lens))))
              KeyOpenBracket) with true.
    cbv iota.
    erewrite bind_step by reflexivity.
    erewrite bind_step by reflexivity.
    erewrite bind_step by reflexivity.
    erewrite bind_step by reflexivity.
    change (TypeExpr_Inner (typeArray l (fold_right typeArray t lens)))
      with (Some (fold_right typeArray t lens)).
    cbv iota. fold (arrays lens t). rewrite IH.
    unfold extents. cbn [map prepend]. rewrite concat_nil_cons.
    cbn [showBig Expr_ConstValue exprConst constValue].
    f_equal. rewrite !append_assoc. reflexivity.
Qed.

Lemma countPointers_ptrs (n base : Node) (k : nat) (g : gen) :
  forall j, j <= maxNumPointers ->
    countPointers n j (ptrs k base) g =
    if Nat.leb (j + k) maxNumPointers
    then countPointers n (j + k) base g
    else Err (ErrTooManyPtrs n).
Proof.
  induction k as [|k IH]; intros j Hj; cbn [ptrs].
  - rewrite Nat.add_0_r.
    destruct (Nat.leb j maxNumPointers) eqn:L; [reflexivity|].
    apply Nat.leb_gt in L. lia.
  - rewrite countPointers_eq.
    change (TypeExpr_Inner (typePtr (ptrs k base))) with (Some (ptrs k base)).
    change (Key_eqb (Key_ (TypeExpr_Decorator (typePtr (ptrs k base)))) KeyPtr)
      with true.
    cbv iota.
    destruct (Nat.eqb j maxNumPointers) eqn:E.
    + apply Nat.eqb_eq in E.
      destruct (Nat.leb (j + S k) maxNumPointers) eqn:L; [|reflexivity].
      apply Nat.leb_le in L. lia.
    + apply Nat.eqb_neq in E. rewrite IH by lia.
      now rewrite Nat.add_succ_comm.
Qed.

(** X7.  The declarator of arrays of pointers to a built-in type: the C
    name of the type, one star for each [ptr], the name of the variable
    and the extents of the arrays, the outermost first; with more than 16
    pointers the type is refused. *)
Theorem type_declarator (lens : list Z) (k : nat) (key : Key)
  (p v : string) (g : gen) :
  cTypeNames key <> "" ->
  writeCTypeName (arrays lens (ptrs k (typeNamed key))) p v g =
  if Nat.leb k maxNumPointers
  then Ok tt g (cTypeNames key ++ repeatString "*" k ++ " " ++ p ++ v
                ++ extents lens)
  else Err (ErrTooManyPtrs (arrays lens (ptrs k (typeNamed key)))).
Proof.
  intro Hn.
  assert (D : Key_eqb (Key_ (TypeExpr_Decorator (ptrs k (typeNamed key))))
                KeyOpenBracket = false) by now destruct k.
  unfold writeCTypeName.
  erewrite bind_step by reflexivity. rewrite prepend_nil.
  rewrite (skipArrays_arrays lens _ D).
  erewrite bind_step by reflexivity. rewrite prepend_nil.
  assert (C := countPointers_ptrs (arrays lens (ptrs k (typeNamed key)))
                 (typeNamed key) k g 0 (Nat.le_0_l _)).
  cbn [Nat.add] in C.
  destruct (Nat.leb k maxNumPointers); [|now rewrite (bind_Err_l _ _ _ _ C)].
  assert (B : countPointers (arrays lens (ptrs k (typeNamed key))) k
                 (typeNamed key) g = Ok (k, typeNamed key) g "")
    by (rewrite countPointers_eq; reflexivity).
  rewrite B in C.
  erewrite bind_step by exact C. rewrite prepend_nil.
  change (Key_ (TypeExpr_Name (typeNamed key))) with key.
  destruct (cTypeNames key) as [|c s] eqn:T; [contradiction|].
  erewrite bind_step by reflexivity.
  erewrite bind_step by reflexivity.
  erewrite bind_step by reflexivity.
  erewrite bind_step by reflexivity.
  erewrite bind_step by reflexivity.
  rewrite (writeArrayExtents_arrays lens _ g D).
  cbn [prepend]. reflexivity.
Qed.

(** X8.  A pointer to an array is not lowered: a type with at most 16
    pointers over an array type is refused with the error of the types that
    cannot be converted. *)
Theorem pointer_to_array_refused (lens : list Z) (k : nat) (len : Z)
  (t : Node) (p v : string) (g : gen) :
  S k <= maxNumPointers ->
  writeCTypeName (arrays lens (ptrs (S k) (typeArray len t))) p v g
  = Err (ErrCannotConvertType (arrays lens (ptrs (S k) (typeArray len t)))).
Proof.
  intro Hk. unfold writeCTypeName.
  erewrite bind_step by reflexivity. rewrite prepend_nil.
  rewrite (skipArrays_arrays lens (ptrs (S k) (typeArray len t)) eq_refl).
  erewrite bind_step by reflexivity. rewrite prepend_nil.
  apply bind_Err_l.
  rewrite (countPointers_ptrs _ (typeArray len t) (S k) g 0 (Nat.le_0_l _)).
  cbn [Nat.add].
  destruct (Nat.leb (S k) maxNumPointers) eqn:L;
    [|apply Nat.leb_gt in L; lia].
  rewrite countPointers_eq. reflexivity.
Qed.

(** *** The functions of a package, by visibility *)

Lemma filter_partition_perm {A : Type} (p q r : A -> bool) (l : list A) :
  (forall x, r x = p x || q x) ->
  (forall x, p x && q x = false) ->
  Permutation (filter p l ++ filter q l) (filter r l).
Proof.
  intros Hr Hd. induction l as [|x l IH]; [constructor|].
  cbn [filter]. rewrite Hr. specialize (Hd x).
  destruct (p x), (q x); try discriminate Hd; cbn [orb app].
  - now constructor.
  - symmetry. apply Permutation_cons_app. now symmetry.
  - exact IH.
Qed.

Lemma selected_split (k : Kind) (n : Node) :
  selected k bothPubPri n = selected k pubOnly n || selected k priOnly n
  /\ selected k pubOnly n && selected k priOnly n = false
  /\ selected k pubOnly n = Kind_eqb (kind n) k && FlagsPublic (flags n)
  /\ selected k priOnly n
     = Kind_eqb (kind n) k && negb (FlagsPublic (flags n)).
Proof.
  unfold selected.
  now destruct (Kind_eqb (kind n) k), (FlagsPublic (flags n)).
Qed.

(** The declarations that the three loops over the functions select. *)
Lemma funcDecls_by_visibility (g : gen) :
  (forall v f, forEachFunc v f g = forEach f (funcDecls v (files g)) g)
  /\ Permutation
       (funcDecls pubOnly (files g) ++ funcDecls priOnly (files g))
       (funcDecls bothPubPri (files g))
  /\ (forall n, In n (funcDecls pubOnly (files g)) ->
                kind n = KFunc /\ Func_Public n = true)
  /\ (forall n, In n (funcDecls priOnly (files g)) ->
                kind n = KFunc /\ Func_Public n = false).
Proof.
  split; [intros v f; apply forEachFunc_decls|]. split; [|split].
  - unfold funcDecls. induction (files g) as [|file fs IH]; [constructor|].
    cbn [flat_map].
    rewrite <- app_assoc.
    rewrite (Permutation_app_comm (flat_map _ fs)).
    rewrite <- app_assoc, app_assoc.
    apply Permutation_app.
    + apply filter_partition_perm; intro x; apply selected_split.
    + rewrite Permutation_app_comm. exact IH.
  - intros n I. unfold funcDecls in I. apply in_flat_map in I.
    destruct I as (file & _ & I). apply filter_In in I. destruct I as (_ & S).
    rewrite (proj1 (proj2 (proj2 (selected_split KFunc n)))) in S.
    apply andb_prop in S. destruct S as (K & P).
    unfold Kind_eqb in K. destruct (Kind_eq_dec (kind n) KFunc); [|discriminate].
    now split.
  - intros n I. unfold funcDecls in I. apply in_flat_map in I.
    destruct I as (file & _ & I). apply filter_In in I. destruct I as (_ & S).
    rewrite (proj2 (proj2 (proj2 (selected_split KFunc n)))) in S.
    apply andb_prop in S. destruct S as (K & P).
    unfold Kind_eqb in K. destruct (Kind_eq_dec (kind n) KFunc); [|discriminate].
    split; [assumption|]. unfold Func_Public. now destruct (FlagsPublic (flags n)).
Qed.

(** *** The table of status messages *)

(** X10.  The table of status messages is declared with the length it
    has: [genImpl] writes the length of the table, the count of the
    built-in statuses and of those of the package, and then one initializer
    for each of them, in this order. *)
Theorem status_table_length (g g' : gen) (out : string) :
  genImpl g = Ok tt g' out ->
  List.length (statusMessages g)
  = List.length builtInStatuses + List.length (statusList g)
  /\ contains (statusTable g (statusMessages g)) out.
Proof.
  intro H. split.
  { unfold statusMessages. now rewrite length_app, !length_map. }
  unfold genImpl in H.
  do 10 (apply bind_Ok in H;
         destruct H as (? & ? & ? & ? & ?H & H & ?); cbv beta in H).
  repeat match goal with
         | W : writes _ _ = Ok _ _ _ |- _ =>
             apply writes_Ok in W; destruct W as (? & ?)
         | W : getG _ = Ok _ _ _ |- _ =>
             apply getG_Ok in W; destruct W as (? & ? & ?)
         | W : forEach (fun s => writes (@?h s)) ?l ?g0 = Ok _ _ _ |- _ =>
             apply (forEach_writes_Ok h l g0) in W; destruct W as (? & ?)
         end.
  subst.
  do 5 apply contains_app_r.
  match goal with
  | |- contains ?T (?a ++ ?b ++ ?c ++ ?d ++ ?r) =>
      replace (a ++ b ++ c ++ d ++ r) with (T ++ r);
      [apply contains_app_l, contains_refl|]
  end.
  unfold statusTable, statusMessages.
  rewrite length_app, !length_map, map_app, !map_map, concat_nil_app.
  rewrite !append_assoc. reflexivity.
Qed.

(** *** The include guard *)

Lemma genHeader_guard (g g' : gen) (hout : string) :
  genHeader g = Ok tt g' hout ->
  exists mid : string,
    hout = ("#ifndef " ++ includeGuardOf (pkgName g) ++ nl
            ++ "#define " ++ includeGuardOf (pkgName g) ++ nl ++ nl)
           ++ mid
           ++ ("#endif  // " ++ includeGuardOf (pkgName g) ++ nl ++ nl).
Proof.
  intro H. unfold genHeader in H.
  apply bind_Ok in H. destruct H as (? & ? & ? & ? & H0 & H & ->).
  apply getG_Ok in H0. destruct H0 as (-> & -> & ->).
  cbv zeta in H.
  apply bind_Ok in H. destruct H as (? & ? & ? & rest & H0 & H & ->).
  apply writes_Ok in H0. destruct H0 as (-> & ->).
  assert (E : exists b, rest = b ++ ("#endif  // " ++ includeGuardOf (pkgName g)
                                      ++ nl ++ nl)).
  { clear - H. revert H. generalize rest. clear rest.
    repeat match goal with
           | |- forall r, bind _ _ _ = Ok _ _ _ -> _ =>
               let r := fresh "r" in let H := fresh "H" in
               intros r H; apply bind_Ok in H;
               destruct H as (? & ? & ? & ? & _ & H & ->);
               apply ends_app; revert H;
               match goal with
               | |- _ = Ok _ _ ?r' -> _ => generalize r'
               end
           end.
    intros r H. apply writes_Ok in H. destruct H as (_ & ->).
    now exists "". }
  destruct E as (mid & ->). exists mid. reflexivity.
Qed.

(** X11.  The header is wrapped in its include guard: the output of a run
    starts with the [#ifndef] and the [#define] of [PUFFS_<PKG>_H], and the
    header section ends, right before the marker line, with the [#endif] of
    the same name. *)
Theorem header_guarded (g g' : gen) (out : string) :
  generate g = Ok tt g' out ->
  exists mid impl : string,
    out = ("#ifndef " ++ includeGuardOf (pkgName g) ++ nl
           ++ "#define " ++ includeGuardOf (pkgName g) ++ nl ++ nl)
          ++ mid
          ++ ("#endif  // " ++ includeGuardOf (pkgName g) ++ nl ++ nl)
          ++ headerEndsHere ++ impl.
Proof.
  intro H. apply generate_Ok in H.
  destruct H as (g1 & hout & iout & C & Hh & _ & ->).
  apply collector_Ok in C. destruct C as (_ & _ & _ & Ep & _).
  apply genHeader_guard in Hh. destruct Hh as (mid & ->).
  exists mid, iout.
  change (pkgName (collected g1)) with (pkgName g1).
  rewrite Ep. change (pkgName (setStatusMap [] g)) with (pkgName g).
  rewrite !append_assoc. reflexivity.
Qed.

(** *** What the body of a function changes in the generator *)

Section Frame.

(** A relation between the generator before and after, that the three
    updates of the body keep: a temporary read, a temporary written, a jump
    target added. *)
Variable R : gen -> gen -> Prop.
Hypothesis R_refl : forall g, R g g.
Hypothesis R_trans : forall g1 g2 g3, R g1 g2 -> R g2 g3 -> R g1 g3.
Hypothesis R_read : forall g,
  R g (setPerFunc (setTempR (tempR (perFunc_ g) + 1) (perFunc_ g)) g).
Hypothesis R_write : forall g,
  R g (setPerFunc (setTempW (tempW (perFunc_ g) + 1) (perFunc_ g)) g).
Hypothesis R_target : forall g n,
  lookupAddr (jumpTargets (perFunc_ g)) n = None ->
  R g (setPerFunc
         (setJumpTargets
            ((n, N.of_nat (length (jumpTargets (perFunc_ g))))
             :: jumpTargets (perFunc_ g)) (perFunc_ g)) g).

Ltac frame_pure :=
  apply (pure_pres _ _ R_refl);
  first [ apply writeExit_pure | apply isInDst_pure
        | apply isThisDecodeHeader_pure | apply isInSrcReadU8_pure
        | apply isLowBits_pure | apply writeCTypeName_pure ].

Lemma writeExpr_frame (n : Node) :
  forall rp pp depth, preserves R (writeExpr n rp pp depth).
Proof.
  induction n as [n IH] using node_ind. intros rp pp depth.
  rewrite writeExpr_eq.
  destruct (Nat.ltb MaxExprDepth depth); [apply pres_fail|].
  cbv zeta. apply pres_bind_getG. intros g a g' o H.
  destruct (match rp with replaceCallSuspendibles => true | _ => false end
            && Expr_CallSuspendible n).
  - destruct (N.leb (tempW (perFunc_ g)) (tempR (perFunc_ g))) eqn:L;
      [discriminate H|].
    minv H. apply R_read.
  - revert g a g' o H.
    change (preserves R
      match Expr_ConstValue n with
      | Some cv =>
          mt <- deref (Expr_MType n) ;;
          if negb (TypeExpr_IsBool mt) then writes (showZ cv)
          else if Z.eqb cv 0 then writes "false"
          else if Z.eqb cv 1 then writes "true"
          else fail (ErrBoolConstant n cv)
      | None =>
          match FlagsUnaryOp (Expr_ID0 n), FlagsBinaryOp (Expr_ID0 n),
                FlagsAssociativeOp (Expr_ID0 n) with
          | false, false, false => writeExprOther writeExpr n rp (S depth)
          | true, false, false => writeExprUnaryOp n rp (S depth)
          | false, true, false =>
              writeExprBinaryOp writeExpr n rp pp (S depth)
          | false, false, true =>
              writeExprAssociativeOp writeExpr n rp (S depth)
          | _, _, _ => fail (ErrUnrecognizedKeyExpr (Key_ (Expr_ID0 n)))
          end
      end).
    destruct (Expr_ConstValue n);
      [repeat pres_step_eqn R_refl R_trans|].
    destruct (FlagsUnaryOp (Expr_ID0 n)), (FlagsBinaryOp (Expr_ID0 n)),
      (FlagsAssociativeOp (Expr_ID0 n)); try apply pres_fail.
    + apply (pres_ret _ R_refl).
    + unfold writeExprBinaryOp, writeExprAs. cbv zeta.
      repeat pres_step_eqn R_refl R_trans;
        try frame_pure; apply IH; height_solve.
    + unfold writeExprAssociativeOp. cbv zeta.
      apply (pres_forEachI _ R_refl R_trans).
      intros i x I.
      repeat pres_step_eqn R_refl R_trans.
      apply IH; height_solve.
    + unfold writeExprOther.
      apply pres_bind_getG'. intro g0.
      destruct (Key_ (Expr_ID0 n)); try apply pres_fail;
        repeat pres_step_eqn R_refl R_trans;
        try frame_pure; apply IH; height_solve.
Qed.

Lemma writeCallSuspendibles_frame (n : Node) :
  forall depth, preserves R (writeCallSuspendibles n depth).
Proof.
  induction n as [n IH] using node_ind. intro depth.
  rewrite writeCallSuspendibles_eq.
  destruct (negb (Expr_CallSuspendible n)).
  - destruct (Nat.ltb MaxExprDepth depth); [apply pres_fail|]. cbv zeta.
    repeat first
      [ pres_step_eqn R_refl R_trans
      | apply (pres_forEach _ R_refl R_trans); intros ? ? ];
      apply IH; height_solve.
  - apply (pres_bind_getG _). intro g.
    apply (pres_bind_at _ R_trans).
    { apply (pure_pres _ _ R_refl), isInSrcReadU8_pure. }
    intros b g1 o1 Hb.
    assert (E := isInSrcReadU8_pure _ _ _ _ _ _ Hb). subst g1.
    destruct b.
    + intros a g' o H.
      destruct (N.ltb maxTemp (tempW (perFunc_ g))) eqn:L; [discriminate H|].
      cbv zeta in H. minv H.
      repeat match goal with
             | W : writeExit _ = Ok _ _ _ |- _ =>
                 apply writeExit_pure in W; subst
             | W : writeCTypeName _ _ _ _ = Ok _ _ _ |- _ =>
                 apply writeCTypeName_pure in W; subst
             end.
      apply R_write.
    + match goal with
      | |- preservesAt ?R0 ?m ?g0 =>
          assert (P : preserves R0 m); [|exact (P g0)]
      end.
      repeat first [ pres_step_eqn R_refl R_trans
                   | frame_pure
                   | apply writeExpr_frame ].
Qed.

Lemma jumpTarget_frame (n : N) : preserves R (jumpTarget_ n).
Proof.
  intros g jt g' o H. apply jumpTarget_Ok in H.
  destruct H as (_ & [(_ & ->)|(L & -> & _ & ->)]);
    [apply R_refl | now apply R_target].
Qed.

Ltac frame_steps :=
  repeat first
    [ pres_step_eqn R_refl R_trans
    | apply (pres_forEach _ R_refl R_trans); intros ? ?
    | apply jumpTarget_frame
    | apply writeExpr_frame
    | apply writeCallSuspendibles_frame ].

Lemma writeSuspendibles_frame (n : Node) (depth : nat) :
  preserves R (writeSuspendibles n depth).
Proof.
  unfold writeSuspendibles.
  destruct (negb (Expr_Suspendible n)); [apply (pres_ret _ R_refl)|].
  apply writeCallSuspendibles_frame.
Qed.

Lemma writeIfChain_frame (n : Node) :
  (forall c d, height c < height n -> preserves R (writeStatement c d)) ->
  forall first k depth,
    preserves R (writeIfChain writeStatement n first k depth).
Proof.
  induction n as [n IH] using node_ind. intros Hs first k depth.
  rewrite writeIfChain_eq.
  repeat first [ apply writeSuspendibles_frame | progress frame_steps ];
    try match goal with
        | E : ?l = _ :: _, I : In _ (_ :: _) |- _ => rewrite <- E in I
        end;
    try (apply Hs; height_solve).
  apply IH; [height_solve|].
  intros c d Hc. apply Hs. height_solve.
Qed.

Lemma writeStatement_frame (n : Node) :
  forall depth, preserves R (writeStatement n depth).
Proof.
  induction n as [n IH] using node_ind. intro depth.
  rewrite writeStatement_eq.
  destruct (Nat.ltb MaxBodyDepth depth); [apply pres_fail|]. cbv zeta.
  destruct (kind n); try apply pres_fail.
  - apply (pres_ret _ R_refl).
  - repeat first [ apply writeSuspendibles_frame | progress frame_steps ].
  - repeat first [ apply writeSuspendibles_frame | progress frame_steps ].
  - apply (pres_bind _ R_trans);
      [|intro; apply (pres_writes _ R_refl)].
    apply writeIfChain_frame. intros c d Hc. now apply IH.
  - frame_steps.
  - apply pres_bind_getG'. intro g0. frame_steps.
  - apply pres_bind_getG'. intro g0.
    repeat first [ apply writeSuspendibles_frame | progress frame_steps ].
  - frame_steps. apply IH. height_solve.
Qed.

End Frame.

Lemma sameFields_refl (g : gen) : sameFields g g.
Proof. unfold sameFields. tauto. Qed.

Lemma sameFields_trans (g1 g2 g3 : gen) :
  sameFields g1 g2 -> sameFields g2 g3 -> sameFields g1 g3.
Proof. unfold sameFields. intuition congruence. Qed.

Lemma bodyFrame_refl (g : gen) : bodyFrame g g.
Proof.
  unfold bodyFrame, keepsTargets.
  split; [apply sameFields_refl|]. split; [auto|]. lia.
Qed.

Lemma bodyFrame_trans (g1 g2 g3 : gen) :
  bodyFrame g1 g2 -> bodyFrame g2 g3 -> bodyFrame g1 g3.
Proof.
  unfold bodyFrame, keepsTargets.
  intros (F1 & K1 & W1 & R1) (F2 & K2 & W2 & R2).
  split; [exact (sameFields_trans _ _ _ F1 F2)|].
  split; [auto|]. lia.
Qed.

Lemma bodyFrame_read (g : gen) :
  bodyFrame g (setPerFunc (setTempR (tempR (perFunc_ g) + 1) (perFunc_ g)) g).
Proof.
  unfold bodyFrame, keepsTargets, sameFields. cbn.
  repeat split; auto; lia.
Qed.

Lemma bodyFrame_write (g : gen) :
  bodyFrame g (setPerFunc (setTempW (tempW (perFunc_ g) + 1) (perFunc_ g)) g).
Proof.
  unfold bodyFrame, keepsTargets, sameFields. cbn.
  repeat split; auto; lia.
Qed.

Lemma bodyFrame_target (g : gen) (n : N) :
  lookupAddr (jumpTargets (perFunc_ g)) n = None ->
  bodyFrame g
    (setPerFunc
       (setJumpTargets
          ((n, N.of_nat (length (jumpTargets (perFunc_ g))))
           :: jumpTargets (perFunc_ g)) (perFunc_ g)) g).
Proof.
  intro L. unfold bodyFrame, keepsTargets, sameFields. cbn.
  repeat split; auto; try lia.
  intros a j La. destruct (N.eqb n a) eqn:E; [|exact La].
  apply N.eqb_eq in E. subst a. congruence.
Qed.

Lemma writeStatement_bodyFrame (n : Node) (depth : nat) :
  preserves bodyFrame (writeStatement n depth).
Proof.
  apply (writeStatement_frame bodyFrame bodyFrame_refl bodyFrame_trans
           bodyFrame_read bodyFrame_write bodyFrame_target).
Qed.

Lemma writeExpr_bodyFrame (n : Node) rp pp (depth : nat) :
  preserves bodyFrame (writeExpr n rp pp depth).
Proof.
  apply (writeExpr_frame bodyFrame bodyFrame_refl bodyFrame_trans
           bodyFrame_read).
Qed.

Lemma exprFrame_refl (g : gen) : exprFrame g g.
Proof.
  unfold exprFrame. split; [apply sameFields_refl|].
  repeat split; auto; lia.
Qed.

Lemma exprFrame_trans (g1 g2 g3 : gen) :
  exprFrame g1 g2 -> exprFrame g2 g3 -> exprFrame g1 g3.
Proof.
  unfold exprFrame.
  intros (F1 & K1 & W1 & R1) (F2 & K2 & W2 & R2).
  split; [exact (sameFields_trans _ _ _ F1 F2)|].
  repeat split; try congruence; lia.
Qed.

Lemma exprFrame_read (g : gen) :
  exprFrame g (setPerFunc (setTempR (tempR (perFunc_ g) + 1) (perFunc_ g)) g).
Proof.
  unfold exprFrame, sameFields. cbn. repeat split; auto; lia.
Qed.

(** X12.  Lowering a statement changes nothing in the generator but the
    two cursors of the temporaries, which only move forwards, and the jump
    targets, to which it only adds: the package, the identifier table, the
    files, the statuses, the structs, the function and its flags stay, and
    every loop keeps the target it has. *)
Theorem statement_frame (n : Node) (depth : nat) (g g' : gen) (o : string) :
  writeStatement n depth g = Ok tt g' o -> bodyFrame g g'.
Proof. apply writeStatement_bodyFrame. Qed.

(** X13.  Lowering an expression moves the read cursor only, forwards and
    never past the write cursor: everything else in the generator stays,
    the jump targets and the write cursor too. *)
Theorem expression_frame (n : Node) (rp : replacementPolicy)
  (pp : parenthesesPolicy) (depth : nat) (g g' : gen) (o : string) :
  writeExpr n rp pp depth g = Ok tt g' o ->
  exprFrame g g'
  /\ ((tempR (perFunc_ g) <= tempW (perFunc_ g))%N ->
      (tempR (perFunc_ g') <= tempW (perFunc_ g'))%N).
Proof.
  intro H. split.
  - exact (writeExpr_frame exprFrame exprFrame_refl exprFrame_trans
             exprFrame_read n rp pp depth _ _ _ _ H).
  - apply writeExpr_step in H. apply H.
Qed.

(** *** Jumps and the labels of their loops *)

Lemma jumped_later (j : Node) (g g' : gen) (o o' : string) :
  jumped j g o -> bodyFrame g g' -> jumped j g' (o ++ o').
Proof.
  intros (jt & L & C) (_ & K & _). exists jt.
  split; [now apply K | now apply contains_app_l].
Qed.

Lemma jumped_after (j : Node) (g : gen) (o o' : string) :
  jumped j g o' -> jumped j g (o ++ o').
Proof.
  intros (jt & L & C). exists jt. split; [exact L | now apply contains_app_r].
Qed.

(** A statement of a block that is lowered: what it wrote is in the text
    of the block. *)
Lemma forEach_jumped (j : Node) (f : Node -> M unit) (l : list Node) :
  (forall x, In x l -> preserves bodyFrame (f x)) ->
  forall (c : Node) (g g' : gen) (out : string),
    In c l ->
    (forall g1 g2 o, f c g1 = Ok tt g2 o -> jumped j g2 o) ->
    forEach f l g = Ok tt g' out ->
    jumped j g' out.
Proof.
  induction l as [|x l IH]; intros Hf c g g' out I Hc H; [contradiction|].
  cbn [forEach] in H. apply bind_Ok in H.
  destruct H as ([] & g1 & o1 & o2 & H1 & H2 & ->).
  destruct I as [->|I].
  - apply (jumped_later j g1); [exact (Hc _ _ _ H1)|].
    refine (pres_forEach _ bodyFrame_refl bodyFrame_trans f l _ _ _ _ _ H2).
    intros y Iy. apply Hf. now right.
  - apply jumped_after. refine (IH _ c _ _ _ I Hc H2).
    intros y Iy. apply Hf. now right.
Qed.

Lemma jumpTarget_bodyFrame (n : N) : preserves bodyFrame (jumpTarget_ n).
Proof.
  apply (jumpTarget_frame bodyFrame bodyFrame_refl bodyFrame_target).
Qed.

Lemma writeIfChain_bodyFrame (n : Node) (first : bool) (k depth : nat) :
  preserves bodyFrame (writeIfChain writeStatement n first k depth).
Proof.
  apply (writeIfChain_frame bodyFrame bodyFrame_refl bodyFrame_trans
           bodyFrame_read bodyFrame_write).
  intros c d _. apply writeStatement_bodyFrame.
Qed.

Ltac body_steps :=
  repeat first
    [ apply writeStatement_bodyFrame
    | apply writeIfChain_bodyFrame
    | apply jumpTarget_bodyFrame
    | apply writeExpr_bodyFrame
    | pres_step_eqn bodyFrame_refl bodyFrame_trans
    | apply (pres_forEach _ bodyFrame_refl bodyFrame_trans); intros ? ? ].

(** One step into a sequence: the jump is lowered by what follows. *)
Ltac peel H :=
  apply bind_Ok in H;
  destruct H as (? & ? & ? & ? & _ & H & ->);
  cbv beta in H; apply jumped_after.

(** The jump is lowered by the head of the sequence: [tac] shows it, and
    what follows keeps the targets. *)
Ltac at_head H tac :=
  let H1 := fresh "H" in let P := fresh "P" in
  apply bind_Ok in H;
  destruct H as (? & ? & ? & ? & H1 & H & ->);
  cbv beta in H;
  match type of H with
  | ?m ?g0 = _ =>
      assert (P : preserves bodyFrame m) by body_steps;
      apply P in H
  end;
  refine (jumped_later _ _ _ _ _ _ H); clear H P;
  repeat match goal with u : unit |- _ => destruct u end;
  tac H1.

Lemma jump_lowered (j : Node) :
  kind j = KJump ->
  forall s : Node,
    (forall depth g g' out,
        inStmt j s ->
        writeStatement s depth g = Ok tt g' out -> jumped j g' out)
    /\ (forall first k depth g k' g' out,
          inChain j s ->
          writeIfChain writeStatement s first k depth g = Ok k' g' out ->
          jumped j g' out).
Proof.
  intros Kj s. induction s as [s IH] using node_ind.
  assert (Chain : forall first k depth g k' g' out,
             inChain j s ->
             writeIfChain writeStatement s first k depth g = Ok k' g' out ->
             jumped j g' out).
  { intros first k depth g k' g' out I H.
    rewrite writeIfChain_eq in H.
    do 5 peel H.
    inversion I as [n c Ic Sc|n c Ic Sc|n e Ef Ee Ce]; subst n.
    - at_head H ltac:(fun H1 =>
        refine (forEach_jumped j _ _ _ c _ _ _ Ic _ H1);
        [ intros; apply writeStatement_bodyFrame
        | intros g1 g2 o; apply (proj1 (IH c ltac:(height_solve)));
          exact Sc ]).
    - assert (Hc : height c < height s) by height_solve.
      peel H. destruct (If_BodyIfFalse s) as [|b bs] eqn:Eb; [contradiction|].
      peel H.
      at_head H ltac:(fun H1 =>
        refine (forEach_jumped j _ _ _ c _ _ _ Ic _ H1);
        [ intros; apply writeStatement_bodyFrame
        | intros g1 g2 o; apply (proj1 (IH c Hc)); exact Sc ]).
    - peel H. rewrite Ef, Ee in H. peel H.
      refine (proj2 (IH e _) _ _ _ _ _ _ _ Ce H). height_solve. }
  split; [|exact Chain].
  intros depth g g' out I H.
  rewrite writeStatement_eq in H.
  destruct (Nat.ltb MaxBodyDepth depth); [discriminate H|]. cbv zeta in H.
  inversion I as [|s0 Ks Cs|s0 c Ks Ic Sc]; subst.
  - rewrite Kj in H.
    apply bind_Ok in H. destruct H as (jt & g1 & o1 & o2 & H1 & H & ->).
    apply writes_Ok in H. destruct H as (-> & ->).
    exists jt. split; [exact (jumpTarget_lookup _ _ _ _ _ H1)|].
    apply contains_app_r. apply contains_refl.
  - rewrite Ks in H.
    at_head H ltac:(fun H1 => exact (Chain _ _ _ _ _ _ _ Cs H1)).
  - rewrite Ks in H.
    do 5 peel H.
    at_head H ltac:(fun H1 =>
      refine (forEach_jumped j _ _ _ c _ _ _ Ic _ H1);
      [ intros; apply writeStatement_bodyFrame
      | intros g1 g2 o; apply (proj1 (IH c ltac:(height_solve)));
        exact Sc ]).
Qed.

(** X14.  A jump and the loop it leaves agree on the label: when a
    [while] is lowered that has a [break] (or a [continue]) of its own
    anywhere in its body, the text holds the [goto] of the jump and the
    label of the loop with one and the same number. *)
Theorem loop_labels_agree (w c j : Node) (depth : nat) (g g' : gen)
  (out : string) :
  kind w = KWhile ->
  In c (While_Body w) -> inStmt j c ->
  kind j = KJump -> Jump_JumpTarget j = addr w ->
  (if Key_eqb (Key_ (Jump_Keyword j)) KeyBreak
   then While_HasBreak w else While_HasContinue w) = true ->
  writeStatement w depth g = Ok tt g' out ->
  exists jt : N,
    contains (gotoText jt (Jump_Keyword j)) out
    /\ contains (labelText jt (jumpWord (Jump_Keyword j))) out.
Proof.
  intros Kw Ic Sc Kj Tj Fl H.
  rewrite writeStatement_eq in H.
  destruct (Nat.ltb MaxBodyDepth depth); [discriminate H|]. cbv zeta in H.
  rewrite Kw in H.
  apply bind_Ok in H. destruct H as ([] & g1 & o1 & ? & H1 & H & ->).
  apply bind_Ok in H. destruct H as ([] & g2 & o2 & ? & H2 & H & ->).
  apply bind_Ok in H. destruct H as (cond & g3 & o3 & ? & H3 & H & ->).
  apply bind_Ok in H. destruct H as ([] & g4 & o4 & ? & H4 & H & ->).
  apply bind_Ok in H. destruct H as ([] & g5 & o5 & ? & H5 & H & ->).
  apply bind_Ok in H. destruct H as ([] & g6 & o6 & ? & H6 & H & ->).
  apply bind_Ok in H. destruct H as ([] & g7 & o7 & o8 & H7 & H8 & ->).
  apply writes_Ok in H2. destruct H2 as (-> & ->).
  apply deref_Ok in H3. destruct H3 as (_ & -> & ->).
  apply writeExpr_bodyFrame in H4.
  apply writes_Ok in H5. destruct H5 as (-> & ->).
  apply writes_Ok in H7. destruct H7 as (-> & ->).
  assert (J : jumped j g6 o6).
  { refine (forEach_jumped j _ _ _ c _ _ _ Ic _ H6).
    - intros. apply writeStatement_bodyFrame.
    - intros ga gb o. now apply (proj1 (jump_lowered j Kj c)). }
  assert (F6 : bodyFrame g4 g6).
  { refine (pres_forEach _ bodyFrame_refl bodyFrame_trans _ _ _ _ _ _ _ H6).
    intros. apply writeStatement_bodyFrame. }
  destruct J as (jt & L & C). rewrite Tj in L. exists jt.
  split; [do 5 apply contains_app_r; now apply contains_app_l|].
  unfold jumpWord.
  destruct (Key_eqb (Key_ (Jump_Keyword j)) KeyBreak).
  - rewrite Fl in H8. cbn [when] in H8.
    apply bind_Ok in H8. destruct H8 as (jb & g8 & o9 & ? & H8 & H9 & ->).
    apply writes_Ok in H9. destruct H9 as (-> & ->).
    apply jumpTarget_Ok in H8.
    destruct H8 as (-> & [(L' & _)|(L' & _)]); [|congruence].
    assert (jb = jt) by congruence. subst jb.
    do 7 apply contains_app_r. apply contains_refl.
  - rewrite Fl in H1. cbn [when] in H1.
    apply bind_Ok in H1. destruct H1 as (jc & g0 & o0 & ? & H1 & H9 & ->).
    apply writes_Ok in H9. destruct H9 as (-> & ->).
    apply jumpTarget_lookup in H1.
    apply (proj1 (proj2 H4)) in H1. apply (proj1 (proj2 F6)) in H1.
    assert (jc = jt) by congruence. subst jc.
    apply contains_app_l, contains_app_r, contains_refl.
Qed.

(** *** A function of writes *)

Lemma isInSrcReadU8_exprWriteU8 (tm0 : Token.Map) (x : Node) (g : gen) :
  isInSrcReadU8 tm0 (exprWriteU8 tm0 x) g = Ok false g "".
Proof. reflexivity. Qed.

Lemma isInDst_exprWriteU8 (tm0 : Token.Map) (x : Node) (g : gen) :
  isInDst tm0 (exprWriteU8 tm0 x) KeyWrite g = Ok false g ""
  /\ isInDst tm0 (exprWriteU8 tm0 x) KeyWriteU8 g = Ok true g "".
Proof.
  split; [reflexivity|].
  unfold isInDst, exprWriteU8, exprInField, exprIn, node, bind, deref, ret.
  simpl. rewrite ID_eqb_refl. reflexivity.
Qed.

Lemma writeExpr_const (v : Z) (rp : replacementPolicy)
  (pp : parenthesesPolicy) (depth : nat) (g : gen) :
  depth <= MaxExprDepth ->
  writeExpr (exprConst v (typeNamed KeyU8)) rp pp depth g
  = Ok tt g (showZ v).
Proof.
  intro Hd. rewrite writeExpr_eq.
  destruct (Nat.ltb MaxExprDepth depth) eqn:D;
    [apply Nat.ltb_lt in D; lia|].
  cbv zeta. unfold bind at 1. unfold getG at 1.
  change (Expr_CallSuspendible (exprConst v (typeNamed KeyU8))) with false.
  rewrite andb_false_r. cbv iota.
  change (Expr_ConstValue (exprConst v (typeNamed KeyU8))) with (Some v).
  cbv iota.
  reflexivity.
Qed.

(** [in.dst.write_u8?(v)] as a statement: it is lowered, and the generator
    is as it was. *)
Lemma writeStatement_writeU8 (v : Z) (depth : nat) (g : gen) :
  depth <= MaxBodyDepth -> S depth <= MaxExprDepth ->
  exists o : string,
    writeStatement (exprWriteU8 (tm g) (exprConst v (typeNamed KeyU8)))
      depth g = Ok tt g o.
Proof.
  intros Hd He. rewrite writeStatement_eq.
  destruct (Nat.ltb MaxBodyDepth depth) eqn:D;
    [apply Nat.ltb_lt in D; lia|].
  cbv zeta.
  change (kind (exprWriteU8 (tm g) (exprConst v (typeNamed KeyU8))))
    with KExpr.
  cbv iota.
  change (writeSuspendibles ?n (S depth))
    with (writeCallSuspendibles n (S depth)).
  rewrite writeCallSuspendibles_eq.
  change (negb (Expr_CallSuspendible
                  (exprWriteU8 (tm g) (exprConst v (typeNamed KeyU8)))))
    with false.
  cbv iota.
  destruct (isInDst_exprWriteU8 (tm g) (exprConst v (typeNamed KeyU8)) g)
    as (I1 & I2).
  eexists.
  eapply bind_intro; [|reflexivity].
  eapply bind_intro; [reflexivity|].
  eapply bind_intro; [apply isInSrcReadU8_exprWriteU8|]. cbv iota.
  eapply bind_intro; [exact I1|]. cbv iota.
  eapply bind_intro; [exact I2|]. cbv iota.
  eapply bind_intro; [reflexivity|].
  eapply bind_intro; [apply writeExit_eq|].
  eapply bind_intro; [reflexivity|].
  eapply bind_intro; [reflexivity|].
  eapply bind_intro; [reflexivity|].
  eapply bind_intro; [reflexivity|].
  eapply bind_intro; [|reflexivity].
  now apply writeExpr_const.
Qed.

(** *** The temporaries: cursors, hoists and the budget *)

(** X15.  Once the text of a function is written, no temporary was read
    that was not written, at most [maxTemp + 1] were written, and
    [writeFuncImpl] returns that text exactly when every temporary written
    was read: else it fails with the internal error on the count of
    temporaries. *)
Theorem function_cursors (n : Node) (g g1 : gen) (out : string) :
  writeFuncImplEmit n g = Ok tt g1 out ->
  (tempR (perFunc_ g1) <= tempW (perFunc_ g1))%N
  /\ (tempW (perFunc_ g1) <= maxTemp + 1)%N
  /\ writeFuncImpl n g
     = if N.eqb (tempW (perFunc_ g1)) (tempR (perFunc_ g1))
       then Ok tt g1 out else Err ErrTempOutOfSync.
Proof.
  intro H. destruct (writeFuncImplEmit_temps _ _ _ _ H) as (A & B).
  split; [exact A|]. split; [exact B|].
  now rewrite writeFuncImpl_check, H.
Qed.

(** X16.  Which hoists take a temporary: the hoist of a call takes one
    temporary when the call is [in.src.read_u8?()], and then at most
    [maxTemp] were taken before it; the hoist of any other call that is
    lowered takes none. *)
Theorem hoist_temporaries (n : Node) (depth : nat) (g g' : gen) (o : string) :
  Expr_CallSuspendible n = true ->
  writeCallSuspendibles n depth g = Ok tt g' o ->
  exists (b : bool) (o1 : string),
    isInSrcReadU8 (tm g) n g = Ok b g o1
    /\ tempW (perFunc_ g')
       = (tempW (perFunc_ g) + if b then 1 else 0)%N
    /\ (b = true -> (tempW (perFunc_ g) <= maxTemp)%N).
Proof.
  intros C H.
  destruct (isInSrcReadU8 (tm g) n g) as [b g1 o1|e] eqn:I.
  - assert (E := isInSrcReadU8_pure _ _ _ _ _ _ I). subst g1.
    exists b, o1. split; [reflexivity|]. destruct b.
    + destruct (proj2 (hoist_read n depth g g o1 I) _ _ H) as (W & B).
      split; [exact W | intros _; exact B].
    + rewrite (hoist_other n depth g g g' o1 o C I H).
      split; [lia | discriminate].
  - exfalso. rewrite writeCallSuspendibles_eq, C in H. cbn [negb] in H.
    unfold bind at 1 in H. unfold getG at 1 in H.
    rewrite (bind_Err_l _ _ _ _ I) in H. discriminate H.
Qed.

(** X17.  The budget of temporaries, for a function whose body is made of
    statements [x = in.src.read_u8?()]: with at most [maxTemp + 1] of them
    the function is emitted, with as many temporaries as statements; with
    more it is refused with the error on the number of temporaries. *)
Theorem reads_budget (n : Node) (xs : list ID) (g g0 : gen)
  (pre : string) :
  1 <= MaxExprDepth ->
  Forall (fun x => Key_ x <> KeyThis) xs ->
  Func_Body n = map (stmtReadU8 (tm g)) xs ->
  writeFuncImplPrologue n g = Ok tt g0 pre ->
  ((N.of_nat (length xs) <= maxTemp + 1)%N ->
   exists g' out,
     writeFuncImpl n g = Ok tt g' out
     /\ tempW (perFunc_ g') = N.of_nat (length xs))
  /\ ((maxTemp + 1 < N.of_nat (length xs))%N ->
      writeFuncImpl n g = Err ErrTooManyTemporaries).
Proof.
  intros He Hx B P.
  assert (E := writeFuncImplPrologue_Ok _ _ _ _ P).
  destruct (writeFuncImplEmit_body _ _ _ _ P) as (Fe & Fo).
  rewrite B in Fe, Fo.
  assert (T : tm g0 = tm g) by now subst g0.
  rewrite <- T in Fe, Fo.
  destruct (reads_loop xs He Hx g0) as (L1 & L2).
  { now subst g0. }
  { subst g0. unfold maxTemp. cbn. lia. }
  assert (W0 : tempW (perFunc_ g0) = 0%N) by now subst g0.
  rewrite W0 in L1, L2. cbn [N.add] in L1, L2.
  split; intro K.
  - destruct L1 as (g' & o & F & W & R); [exact K|].
    destruct (Fo _ _ F) as (out & Em & _).
    exists g', out. rewrite writeFuncImpl_check, Em.
    rewrite R, N.eqb_refl. split; [reflexivity | exact W].
  - rewrite writeFuncImpl_check, (Fe _ (L2 K)). reflexivity.
Qed.

(** X18.  The text of [x = in.src.read_u8?()]: when [w] temporaries were
    written and [r] read, with [r <= w <= maxTemp], the statement is
    lowered to the guard on [a_src] with its exit, the declaration of
    [t_w], which receives the byte, and the assignment of [t_r] to [v_x];
    both cursors move by one.  With [w > maxTemp] it is refused. *)
Theorem read_statement_text (x : ID) (depth : nat) (g : gen) :
  depth <= MaxBodyDepth -> S depth <= MaxExprDepth ->
  Key_ x <> KeyThis ->
  writeStatement (stmtReadU8 (tm g) x) depth g =
  if N.ltb maxTemp (tempW (perFunc_ g)) then Err ErrTooManyTemporaries
  else if N.ltb (tempW (perFunc_ g)) (tempR (perFunc_ g))
  then Err ErrTempOutOfSync
  else Ok tt (afterRead g)
         (hoistedRead (pkgName g)
            (public (perFunc_ g) && suspendible (perFunc_ g))
            (ByID (tm g) x) (tempW (perFunc_ g)) (tempR (perFunc_ g))).
Proof. apply writeStatement_readU8. Qed.

Lemma writes_loop (vs : list Z) (g : gen) :
  1 <= MaxExprDepth ->
  exists o : string,
    forEach (fun o => writeStatement o 0) (map (stmtWriteU8 (tm g)) vs) g
    = Ok tt g o.
Proof.
  intro He. induction vs as [|v vs IH]; [now exists ""|].
  destruct IH as (o & IH).
  destruct (writeStatement_writeU8 v 0 g (Nat.le_0_l _) He) as (o1 & W).
  exists (o1 ++ o). cbn [map forEach].
  now rewrite (bind_step _ _ _ _ _ _ W), IH.
Qed.

(** X19.  The calls [in.dst.write_u8?(v)] take no temporary: a function
    whose body is made of such statements is emitted however many they
    are, with no temporary. *)
Theorem writes_need_no_temporary (n : Node) (vs : list Z) (g g0 : gen)
  (pre : string) :
  1 <= MaxExprDepth ->
  Func_Body n = map (stmtWriteU8 (tm g)) vs ->
  writeFuncImplPrologue n g = Ok tt g0 pre ->
  exists g' out,
    writeFuncImpl n g = Ok tt g' out /\ tempW (perFunc_ g') = 0%N.
Proof.
  intros He B P.
  assert (E := writeFuncImplPrologue_Ok _ _ _ _ P).
  destruct (writeFuncImplEmit_body _ _ _ _ P) as (_ & Fo).
  rewrite B in Fo.
  assert (T : tm g0 = tm g) by now subst g0.
  rewrite <- T in Fo.
  destruct (writes_loop vs g0 He) as (o & F).
  destruct (Fo _ _ F) as (out & Em & _).
  exists g0, out. rewrite writeFuncImpl_check, Em.
  subst g0. cbn. split; reflexivity.
Qed.

(** *** The statuses by message, and [return] *)

Lemma lookupID_app {V : Type} (a b : list (ID * V)) (k : ID) :
  lookupID (a ++ b)%list k
  = match lookupID a k with Some v => Some v | None => lookupID b k end.
Proof.
  induction a as [|[k' v'] a IH]; [reflexivity|].
  cbn [app lookupID]. now destruct (ID_eqb k' k).
Qed.

Lemma lookupID_None {V : Type} (l : list (ID * V)) (k : ID) :
  ~ In k (map fst l) -> lookupID l k = None.
Proof.
  induction l as [|[k' v'] l IH]; intro N; [reflexivity|].
  cbn [lookupID]. destruct (ID_eqb k' k) eqn:E.
  - apply ID_eqb_eq in E. exfalso. apply N. now left.
  - apply IH. intro I. apply N. now right.
Qed.

Lemma lookupID_rev {V : Type} (l : list (ID * V)) (k : ID) (v : V) :
  NoDup (map fst l) -> In (k, v) l -> lookupID (rev l) k = Some v.
Proof.
  induction l as [|[k' v'] l IH]; intros D I; [contradiction|].
  cbn [map fst] in D. inversion D as [|? ? Nk Dl]; subst.
  cbn [rev]. rewrite lookupID_app. destruct I as [[= -> ->]|I].
  - rewrite lookupID_None by (rewrite map_rev, <- in_rev; exact Nk).
    cbn. now rewrite ID_eqb_refl.
  - now rewrite (IH Dl I).
Qed.

Lemma gather_map (ds : list Node) : forall (g g' : gen) (o : string),
  forEach gatherStatuses ds g = Ok tt g' o ->
  statusMap g'
  = (rev (map (fun d => (Status_Message d, statusOf g d)) ds)
     ++ statusMap g)%list.
Proof.
  induction ds as [|d ds IH]; intros g g' o H.
  - apply ret_Ok in H. now destruct H as (_ & -> & _).
  - cbn [forEach] in H. apply bind_Ok in H.
    destruct H as ([] & g1 & o1 & o2 & H1 & H2 & ->).
    rewrite gatherStatuses_run in H1.
    destruct (isQuoted (ByID (tm g) (Status_Message d))); [|discriminate H1].
    apply Ok_inj in H1. destruct H1 as (_ & <- & _).
    rewrite (IH _ _ _ H2). cbn [map rev statusMap setStatusMap].
    rewrite <- app_assoc. reflexivity.
Qed.

(** X20.  The statuses are found again by their message: after the
    collector has run on a package whose status messages are distinct,
    [statusMap] gives for the message of each declaration the status of this
    declaration, and nothing for any other message; so a [return] that
    names a declared status is lowered with the C name of this status, and a
    [return] that names a status that is not declared is lowered all the
    same, with an empty name. *)
Theorem return_names_status (g g1 gf : gen) (r : Node) (depth : nat) :
  forEachStatus bothPubPri gatherStatuses (setStatusMap [] g) = Ok tt g1 "" ->
  NoDup (map Status_Message (statusDecls (files g))) ->
  kind r = KReturn -> Return_Keyword r <> ID0 ->
  depth <= MaxBodyDepth ->
  statusMap gf = statusMap g1 ->
  suspendible (perFunc_ gf) = true -> public (perFunc_ gf) = false ->
  (forall d, In d (statusDecls (files g)) ->
     lookupID (statusMap g1) (Status_Message d) = Some (statusOf g d)
     /\ (Return_Message r = Status_Message d ->
         writeStatement r depth gf
         = Ok tt gf ("return " ++ name (statusOf g d) ++ ";" ++ nl)))
  /\ (~ In (Return_Message r)
        (map Status_Message (statusDecls (files g))) ->
      lookupID (statusMap g1) (Return_Message r) = None
      /\ writeStatement r depth gf = Ok tt gf ("return ;" ++ nl)).
Proof.
  intros C D Kr Kw Hd Em Su Pu.
  rewrite forEachStatus_decls in C.
  change (files (setStatusMap [] g)) with (files g) in C.
  assert (M := gather_map _ _ _ _ C).
  cbn [statusMap setStatusMap] in M. rewrite app_nil_r in M.
  assert (S : forall d, statusOf (setStatusMap [] g) d = statusOf g d)
    by (intro; now apply statusOf_ext).
  assert (W : writeStatement r depth gf
              = Ok tt gf ("return "
                          ++ name (match lookupID (statusMap g1)
                                           (Return_Message r) with
                                   | Some s => s
                                   | None => zeroStatus
                                   end) ++ ";" ++ nl)).
  { rewrite writeStatement_eq.
    destruct (Nat.ltb MaxBodyDepth depth) eqn:L;
      [apply Nat.ltb_lt in L; lia|].
    cbv zeta. rewrite Kr. unfold bind, getG.
    rewrite (ID_eqb_neq _ _ Kw), Su, Pu, Em. reflexivity. }
  split.
  - intros d I.
    assert (L : lookupID (statusMap g1) (Status_Message d)
                = Some (statusOf g d)).
    { rewrite M. apply lookupID_rev.
      - rewrite map_map. exact D.
      - apply in_map_iff. exists d. now rewrite S. }
    split; [exact L|]. intro E. rewrite W, E, L. reflexivity.
  - intro N.
    assert (L : lookupID (statusMap g1) (Return_Message r) = None).
    { rewrite M. apply lookupID_None.
      rewrite map_rev, <- in_rev, map_map. exact N. }
    split; [exact L|]. rewrite W, L. reflexivity.
Qed.

(** X21.  Structs that depend on each other in a cycle are refused: when
    every status message is a quoted literal and the topological sort of
    the structs reports a cycle, [generate] fails with the error on
    cyclical struct definitions. *)
Theorem generate_cyclic_structs (g : gen) :
  (forall d, In d (statusDecls (files g)) ->
             isQuoted (ByID (tm g) (Status_Message d)) = true) ->
  snd (TopologicalSortStructs (unsortedStructs (files g))) = false ->
  generate g = Err ErrCyclicalStructs.
Proof.
  intros Q Cy. unfold generate.
  erewrite bind_step by reflexivity. rewrite prepend_nil.
  destruct (gather_ok (statusDecls (files g)) (setStatusMap [] g) Q)
    as (g1 & C & _ & _ & _ & F).
  assert (C' : forEachStatus bothPubPri gatherStatuses (setStatusMap [] g)
               = Ok tt g1 "") by (rewrite forEachStatus_decls; exact C).
  erewrite bind_step by exact C'. rewrite prepend_nil.
  erewrite bind_step by reflexivity. rewrite prepend_nil.
  rewrite F. change (files (setStatusMap [] g)) with (files g).
  destruct (TopologicalSortStructs (unsortedStructs (files g)))
    as [sorted ok]. cbn [snd] in Cy. subst ok.
  erewrite bind_step by reflexivity. reflexivity.
Qed.

(** *** The brackets of the generated text *)

Lemma scan_app (a b : string) :
  forall st,
    scan st (a ++ b)
    = match scan st a with Some st' => scan st' b | None => None end.
Proof.
  induction a as [|c a IH]; intro st; [reflexivity|].
  cbn [append scan].
  destruct (opener c); [apply IH|].
  destruct (closer c) as [o|]; [|apply IH].
  destruct st as [|o' st']; [reflexivity|].
  destruct (Ascii.eqb o o'); [apply IH | reflexivity].
Qed.

(** What is below the brackets a text opens is not looked at. *)
Lemma scan_under (s : string) :
  forall st1 st2 st,
    scan st1 s = Some st2 -> scan (st1 ++ st) s = Some (st2 ++ st)%list.
Proof.
  induction s as [|c s IH]; intros st1 st2 st H; cbn [scan] in *.
  - now injection H as <-.
  - destruct (opener c); [exact (IH (c :: st1) _ _ H)|].
    destruct (closer c) as [o|]; [|exact (IH _ _ _ H)].
    destruct st1 as [|o' st1]; [discriminate H|].
    cbn [List.app]. destruct (Ascii.eqb o o'); [|discriminate H].
    exact (IH _ _ _ H).
Qed.

Lemma balanced_any (s : string) :
  balanced s -> forall st, scan st s = Some st.
Proof. intros B st. exact (scan_under s [] [] st B). Qed.

Lemma balanced_nil : balanced "".
Proof. reflexivity. Qed.

Lemma balanced_app (a b : string) :
  balanced a -> balanced b -> balanced (a ++ b).
Proof. intros A B. unfold balanced. now rewrite scan_app, A. Qed.

Lemma scan_uint (d : Decimal.uint) :
  forall st, scan st (NilEmpty.string_of_uint d) = Some st.
Proof. induction d; intro st; cbn; auto. Qed.

Lemma scan_showZ (z : Z) : forall st, scan st (showZ z) = Some st.
Proof.
  intro st. unfold showZ.
  destruct (Z.to_int z); cbn; apply scan_uint.
Qed.

Lemma scan_showN (n : N) : forall st, scan st (showN n) = Some st.
Proof. intro. apply scan_showZ. Qed.

Lemma scan_showBig (o : option Z) : forall st, scan st (showBig o) = Some st.
Proof. intro st. destruct o; [apply scan_showZ | reflexivity]. Qed.

Lemma scan_repeat (s : string) (n : nat) :
  balanced s -> forall st, scan st (repeatString s n) = Some st.
Proof.
  intros B. induction n as [|n IH]; intro st; cbn [repeatString];
    [reflexivity|].
  now rewrite scan_app, (balanced_any _ B).
Qed.

Lemma scan_cTypeNames (k : Key) :
  forall st, scan st (cTypeNames k) = Some st.
Proof. intro st. destruct k; reflexivity. Qed.

Lemma scan_cOpNames (k : Key) :
  forall st, scan st (cOpNames k) = Some st.
Proof. intro st. destruct k; reflexivity. Qed.

Lemma balancedb_true (s : string) : balancedb s = true <-> balanced s.
Proof.
  unfold balancedb, balanced.
  destruct (scan [] s) as [[|c st]|]; split; congruence.
Qed.

(** The names of a tree: the name of its root, and the names of the trees
    below it. *)
Lemma namesBalanced_eq (t : Token.Map) (n : Node) :
  namesBalanced t n = true
  <-> balanced (ByID t (id1 n))
      /\ (forall c, mType n = Some c -> namesBalanced t c = true)
      /\ (forall c, lhs n = Some c -> namesBalanced t c = true)
      /\ (forall c, mhs n = Some c -> namesBalanced t c = true)
      /\ (forall c, rhs n = Some c -> namesBalanced t c = true)
      /\ (forall c, In c (list0 n) -> namesBalanced t c = true)
      /\ (forall c, In c (list1 n) -> namesBalanced t c = true).
Proof.
  assert (L : forall l : list Node,
            (fix all (l : list Node) : bool :=
               match l with
               | [] => true
               | c :: r => namesBalanced t c && all r
               end) l = true
            <-> forall c, In c l -> namesBalanced t c = true).
  { induction l as [|x l IH]; [now split|].
    rewrite Bool.andb_true_iff, IH. cbn [In]. split.
    - intros [X A] c [<-|I]; auto.
    - intro A. split; [apply A; now left | intros c I; apply A; now right]. }
  assert (O : forall o : option Node,
            match o with Some c => namesBalanced t c | None => true end = true
            <-> forall c, o = Some c -> namesBalanced t c = true).
  { intros [c|]; split.
    - intros A c' [= <-]. exact A.
    - intro A. now apply A.
    - intros _ c E. discriminate E.
    - reflexivity. }
  destruct n as [k f a cv mt jt i0 i1 l m r l0 l1].
  cbn [namesBalanced id1 mType lhs mhs rhs list0 list1].
  rewrite !Bool.andb_true_iff, balancedb_true, !O, !L.
  split;
    [ intros [[[[[[? ?] ?] ?] ?] ?] ?] | intros (? & ? & ? & ? & ? & ? & ?) ];
    repeat split; assumption.
Qed.

Section Brackets.

(** The identifier table of the run. *)
Variable t : Token.Map.

Lemma named_id1 (n : Node) :
  namesBalanced t n = true -> balanced (ByID t (id1 n)).
Proof. intro N. apply (proj1 (namesBalanced_eq t n)) in N. apply N. Qed.

Lemma named_mType (n c : Node) :
  namesBalanced t n = true -> mType n = Some c -> namesBalanced t c = true.
Proof.
  intros N E. apply (proj1 (namesBalanced_eq t n)) in N.
  destruct N as (_ & A1 & A2 & A3 & A4 & A5 & A6). auto.
Qed.

Lemma named_lhs (n c : Node) :
  namesBalanced t n = true -> lhs n = Some c -> namesBalanced t c = true.
Proof.
  intros N E. apply (proj1 (namesBalanced_eq t n)) in N.
  destruct N as (_ & A1 & A2 & A3 & A4 & A5 & A6). auto.
Qed.

Lemma named_mhs (n c : Node) :
  namesBalanced t n = true -> mhs n = Some c -> namesBalanced t c = true.
Proof.
  intros N E. apply (proj1 (namesBalanced_eq t n)) in N.
  destruct N as (_ & A1 & A2 & A3 & A4 & A5 & A6). auto.
Qed.

Lemma named_rhs (n c : Node) :
  namesBalanced t n = true -> rhs n = Some c -> namesBalanced t c = true.
Proof.
  intros N E. apply (proj1 (namesBalanced_eq t n)) in N.
  destruct N as (_ & A1 & A2 & A3 & A4 & A5 & A6). auto.
Qed.

Lemma named_list0 (n c : Node) :
  namesBalanced t n = true -> In c (list0 n) -> namesBalanced t c = true.
Proof.
  intros N E. apply (proj1 (namesBalanced_eq t n)) in N.
  destruct N as (_ & A1 & A2 & A3 & A4 & A5 & A6). auto.
Qed.

Lemma named_list1 (n c : Node) :
  namesBalanced t n = true -> In c (list1 n) -> namesBalanced t c = true.
Proof.
  intros N E. apply (proj1 (namesBalanced_eq t n)) in N.
  destruct N as (_ & A1 & A2 & A3 & A4 & A5 & A6). auto.
Qed.

Lemma named_head0 (n c : Node) (r : list Node) :
  namesBalanced t n = true -> list0 n = c :: r -> namesBalanced t c = true.
Proof. intros N E. apply (named_list0 n c N). rewrite E. now left. Qed.

Lemma named_head1 (n c : Node) (r : list Node) :
  namesBalanced t n = true -> list1 n = c :: r -> namesBalanced t c = true.
Proof. intros N E. apply (named_list1 n c N). rewrite E. now left. Qed.

(** The names of a node reached through the accessors are balanced when
    those of the tree it is in are. *)
Ltac named_sat :=
  repeat match goal with
         | N : namesBalanced t ?n = true, E : _ = Some ?c |- _ =>
             lazymatch goal with
             | _ : namesBalanced t c = true |- _ => fail
             | _ => idtac
             end;
             first [ pose proof (named_lhs n c N E)
                   | pose proof (named_rhs n c N E)
                   | pose proof (named_mhs n c N E)
                   | pose proof (named_mType n c N E) ]
         | N : namesBalanced t ?n = true, E : _ = ?c :: ?r |- _ =>
             lazymatch goal with
             | _ : namesBalanced t c = true |- _ => fail
             | _ => idtac
             end;
             first [ pose proof (named_head0 n c r N E)
                   | pose proof (named_head1 n c r N E) ]
         | N : namesBalanced t ?n = true, I : In ?c _ |- _ =>
             lazymatch goal with
             | _ : namesBalanced t c = true |- _ => fail
             | _ => idtac
             end;
             first [ pose proof (named_list0 n c N I)
                   | pose proof (named_list1 n c N I) ]
         end.

Ltac named_solve := named_sat; assumption.

Lemma wellNamed_tm (g : gen) : wellNamed t g -> tm g = t.
Proof. intro W. apply W. Qed.

Lemma wellNamed_receiver (g : gen) (f : Node) :
  wellNamed t g -> funk (perFunc_ g) = Some f ->
  balanced (ByID t (Func_Receiver f)).
Proof. intros W E. now apply W. Qed.

Lemma scan_pkgName (g : gen) :
  wellNamed t g -> forall st, scan st (pkgName g) = Some st.
Proof. intros W. apply balanced_any, W. Qed.

(** The text of an identifier that is written is balanced: it is the name
    of a node of the tree, or of the receiver of the current function. *)
Ltac named_id :=
  first [ assumption
        | apply named_id1; named_solve
        | match goal with
          | W : wellNamed t ?g, E : funk (perFunc_ ?g) = Some ?f |- _ =>
              exact (wellNamed_receiver g f W E)
          end ].

(** One step of the pass over a text that is put together from literals,
    names, numbers and texts known to be balanced. *)
Ltac scan_head :=
  match goal with
  | |- context [scan ?st (?a ++ ?b)] => rewrite (scan_app a b st)
  | W : wellNamed t ?g |- context [scan ?st (pkgName ?g)] =>
      rewrite (scan_pkgName g W st)
  | W : wellNamed t ?g |- context [tm ?g] => rewrite (wellNamed_tm g W)
  | |- context [scan ?st (ByID t ?id)] =>
      let B := fresh "B" in
      assert (B : balanced (ByID t id)) by named_id;
      rewrite (balanced_any _ B st); clear B
  | B : balanced ?o |- context [scan ?st ?o] =>
      rewrite (balanced_any o B st)
  | |- context [scan ?st (showZ ?z)] => rewrite (scan_showZ z st)
  | |- context [scan ?st (showN ?z)] => rewrite (scan_showN z st)
  | |- context [scan ?st (showBig ?z)] => rewrite (scan_showBig z st)
  | |- context [scan ?st (cOpNames ?k)] => rewrite (scan_cOpNames k st)
  | |- context [scan ?st (cTypeNames ?k)] => rewrite (scan_cTypeNames k st)
  | W : wellNamed t ?g, E : lookupID (statusMap ?g) ?k = Some ?s
    |- context [scan ?st (name ?s)] =>
      rewrite (balanced_any _ (proj1 (proj2 (proj2 W)) k s E) st)
  end.

Ltac scan_lit :=
  first
    [ progress change (ascii_of_nat 10) with "010"%char
    | progress cbn [scan opener closer Ascii.eqb Bool.eqb orb andb append
                    aPrefix vPrefix tPrefix fPrefix nl name zeroStatus] ].

Ltac scan_case :=
  match goal with
  | |- context [scan _ (if ?b then _ else _)] => destruct b
  | |- context [scan _ (_ ++ if ?b then _ else _)] => destruct b
  | |- context [match lookupID ?m ?k with _ => _ end] =>
      destruct (lookupID m k) eqn:?
  end.

Ltac bal :=
  unfold balanced;
  repeat first [ reflexivity | scan_head | scan_lit | scan_case ].

Lemma emits_ret {A : Type} (x : A) : emits t (ret x).
Proof.
  intros g a g' o W H. apply ret_Ok in H. destruct H as (_ & -> & ->).
  now split.
Qed.

Lemma emits_fail {A : Type} (e : error) : emits t (@fail A e).
Proof. intros g a g' o W H. discriminate H. Qed.

Lemma emits_writes (s : string) : balanced s -> emits t (writes s).
Proof.
  intros B g a g' o W H. apply writes_Ok in H. destruct H as (-> & ->).
  now split.
Qed.

Lemma emits_getG : emits t getG.
Proof.
  intros g a g' o W H. apply getG_Ok in H. destruct H as (_ & -> & ->).
  now split.
Qed.

Lemma emits_deref {A : Type} (p : option A) : emits t (deref p).
Proof.
  intros g a g' o W H. apply deref_Ok in H. destruct H as (_ & -> & ->).
  now split.
Qed.

(** The continuation of a dereference runs on what was found. *)
Lemma emits_bind_deref {A B : Type} (p : option A) (k : A -> M B) :
  (forall a, p = Some a -> emits t (k a)) -> emits t (bind (deref p) k).
Proof.
  intros Hk g b g' o W H. apply bind_Ok in H.
  destruct H as (a & g1 & o1 & o2 & H1 & H2 & ->).
  apply deref_Ok in H1. destruct H1 as (E & -> & ->).
  exact (Hk a E _ _ _ _ W H2).
Qed.

Lemma emits_bind {A B : Type} (m : M A) (k : A -> M B) :
  emits t m -> (forall a, emits t (k a)) -> emits t (bind m k).
Proof.
  intros Hm Hk g b g' o W H. apply bind_Ok in H.
  destruct H as (a & g1 & o1 & o2 & H1 & H2 & ->).
  destruct (Hm _ _ _ _ W H1) as [W1 B1].
  destruct (Hk _ _ _ _ _ W1 H2) as [W2 B2].
  split; [exact W2 | now apply balanced_app].
Qed.

(** The continuation of [g <- getG] runs in the state it is given, whose
    names are balanced. *)
Lemma emits_bind_getG {B : Type} (k : gen -> M B) :
  (forall g0, wellNamed t g0 -> emits t (k g0)) -> emits t (bind getG k).
Proof.
  intros Hk g b g' o W H. apply bind_Ok in H.
  destruct H as (a & g1 & o1 & o2 & H1 & H2 & ->).
  apply getG_Ok in H1. destruct H1 as (-> & -> & ->).
  exact (Hk _ W _ _ _ _ W H2).
Qed.

Lemma emits_when (b : bool) (m : M unit) : emits t m -> emits t (when b m).
Proof. intro Hm. destruct b; [exact Hm | apply emits_ret]. Qed.

Lemma emits_forEach {A : Type} (f : A -> M unit) (l : list A) :
  (forall x, In x l -> emits t (f x)) -> emits t (forEach f l).
Proof.
  induction l as [|x l IH]; intro Hf; simpl.
  - apply emits_ret.
  - apply emits_bind; [apply Hf; now left|].
    intros _. apply IH. intros y I. apply Hf. now right.
Qed.

Lemma emits_forEachI {A : Type} (f : nat -> A -> M unit) (l : list A) :
  (forall i x, In x l -> emits t (f i x)) -> forall i, emits t (forEachI f i l).
Proof.
  induction l as [|x l IH]; intros Hf i; simpl.
  - apply emits_ret.
  - apply emits_bind; [apply Hf; now left|].
    intros _. apply IH. intros j y I. apply Hf. now right.
Qed.

Lemma emits_foldM {A B : Type} (f : B -> A -> M B) (l : list A) :
  (forall b x, In x l -> emits t (f b x)) -> forall b, emits t (foldM f b l).
Proof.
  induction l as [|x l IH]; intros Hf b; simpl.
  - apply emits_ret.
  - apply emits_bind; [apply Hf; now left|].
    intros b'. apply IH. intros c y I. apply Hf. now right.
Qed.

(** One step of a proof that a computation made of balanced pieces writes
    a balanced text. *)
Ltac emits_step :=
  lazymatch goal with
  | |- emits t (bind getG _) => apply emits_bind_getG; intros ? ?
  | |- emits t (bind (deref _) _) => apply emits_bind_deref; intros ? ?
  | |- emits t (bind _ _) => apply emits_bind; [|intro]
  | |- emits t (ret _) => apply emits_ret
  | |- emits t (fail _) => apply emits_fail
  | |- emits t (writes _) => apply emits_writes; bal
  | |- emits t (writeb _) => apply emits_writes; bal
  | |- emits t getG => apply emits_getG
  | |- emits t (deref _) => apply emits_deref
  | |- emits t (when _ _) => apply emits_when
  | |- emits t (forEach _ _) => apply emits_forEach; intros ? ?
  | |- emits t (forEachI _ _ _) => apply emits_forEachI; intros ? ? ?
  | |- emits t (foldM _ _ _) => apply emits_foldM; intros ? ? ?
  | |- emits t (if ?b then _ else _) => destruct b eqn:?
  | |- emits t (match ?x with _ => _ end) => destruct x eqn:?
  end.

Lemma isLowBits_emits (tm : Token.Map) (n : Node) : emits t (isLowBits tm n).
Proof. unfold isLowBits. repeat emits_step. Qed.

Lemma isInSrcReadU8_emits (tm : Token.Map) (n : Node) :
  emits t (isInSrcReadU8 tm n).
Proof. unfold isInSrcReadU8. repeat emits_step. Qed.

Lemma isInDst_emits (tm : Token.Map) (n : Node) (k : Key) :
  emits t (isInDst tm n k).
Proof. unfold isInDst. repeat emits_step. Qed.

Lemma isThisDecodeHeader_emits (tm : Token.Map) (n : Node) :
  emits t (isThisDecodeHeader tm n).
Proof. unfold isThisDecodeHeader. repeat emits_step. Qed.

Lemma writeExit_emits : emits t writeExit.
Proof. unfold writeExit. repeat emits_step. Qed.

Lemma countPointers_emits (n : Node) (x : Node) :
  forall k, emits t (countPointers n k x).
Proof.
  induction x as [x IH] using node_ind. intro k.
  rewrite countPointers_eq.
  repeat emits_step. apply IH. height_solve.
Qed.

(** Sequences whose pieces are not balanced one by one are taken apart:
    every call in the run gives a balanced piece, and the pass is made over
    the whole text. *)
Ltac name_states :=
  repeat match goal with
         | H : _ (setPerFunc ?p ?g) = Ok _ _ _ |- _ =>
             lazymatch goal with
             | W : wellNamed t (setPerFunc p g) |- _ => fail
             | _ => idtac
             end;
             let W' := fresh "W" in
             assert (W' : wellNamed t (setPerFunc p g))
               by (match goal with W : wellNamed t _ |- _ => exact W end)
         end.

Ltac use_emits tac :=
  repeat (name_states;
          match goal with
          | W : wellNamed t ?g, H : ?m ?g = Ok _ _ _ |- _ =>
              let E := fresh "E" in
              let W' := fresh "W" in
              let B := fresh "B" in
              assert (E : emits t m) by tac;
              destruct (E _ _ _ _ W H) as [W' B]; clear H E
          end).

Ltac close_emits :=
  subst; split;
  [ first [ assumption
          | match goal with W : wellNamed t _ |- _ => exact W end ]
  | bal ].

Lemma writeArrayExtents_scan (x : Node) :
  emits t (writeArrayExtents x).
Proof.
  induction x as [x IH] using node_ind.
  intros g a g' o W H.
  rewrite writeArrayExtents_eq in H. minv H;
    use_emits ltac:(apply IH; height_solve);
    close_emits.
Qed.

Lemma writeCTypeName_emits (n : Node) (p v : string) :
  namesBalanced t n = true ->
  balanced p -> balanced v -> emits t (writeCTypeName n p v).
Proof.
  intros Nn Bp Bv g a g' o W H. unfold writeCTypeName in H.
  minv H;
    use_emits ltac:(first [ apply countPointers_emits
                          | apply writeArrayExtents_scan ]);
    split; try assumption; unfold balanced;
    try match goal with
        | E : cTypeNames _ = String _ _ |- _ => rewrite <- E
        end;
    repeat first [ reflexivity | scan_head | scan_lit
                 | rewrite scan_repeat by reflexivity ].
Qed.

Lemma writeExpr_emits (n : Node) :
  namesBalanced t n = true ->
  forall rp pp depth, emits t (writeExpr n rp pp depth).
Proof.
  induction n as [n IH] using node_ind.
  intros Nn rp pp depth g a g' o W H.
  rewrite writeExpr_eq in H.
  destruct (Nat.ltb MaxExprDepth depth); [discriminate H|]. cbv zeta in H.
  minv H;
    try match goal with
        | K : _ = Ok _ _ _ |- _ =>
            progress unfold writeExprOther, writeExprUnaryOp,
              writeExprBinaryOp, writeExprAssociativeOp in K;
            cbv zeta in K; minv K
        end;
    try match goal with
        | K : writeExprAs _ _ _ _ _ _ = Ok _ _ _ |- _ =>
            unfold writeExprAs in K; minv K
        end;
    use_emits ltac:(first
      [ apply IH; [height_solve | named_solve]
      | apply isLowBits_emits
      | apply writeCTypeName_emits; [named_solve | reflexivity | reflexivity]
      | apply emits_forEachI; intros ? ? ?;
        repeat emits_step; apply IH; [height_solve | named_solve] ]);
    close_emits.
Qed.

Lemma writeCallSuspendibles_emits (n : Node) :
  namesBalanced t n = true ->
  forall depth, emits t (writeCallSuspendibles n depth).
Proof.
  induction n as [n IH] using node_ind. intros Nn depth g a g' o W H.
  rewrite writeCallSuspendibles_eq in H. cbv zeta in H.
  minv H;
    use_emits ltac:(first
      [ apply IH; [height_solve | named_solve]
      | apply isInSrcReadU8_emits
      | apply isInDst_emits
      | apply isThisDecodeHeader_emits
      | apply writeExit_emits
      | apply writeExpr_emits; named_solve
      | apply writeCTypeName_emits; [named_solve | reflexivity | bal]
      | apply emits_forEach; intros ? ?;
        repeat emits_step; apply IH; [height_solve | named_solve] ]);
    close_emits.
Qed.

Lemma writeSuspendibles_emits (n : Node) (depth : nat) :
  namesBalanced t n = true -> emits t (writeSuspendibles n depth).
Proof.
  intro Nn. unfold writeSuspendibles.
  destruct (negb (Expr_Suspendible n)); [apply emits_ret|].
  now apply writeCallSuspendibles_emits.
Qed.

Lemma jumpTarget_emits (n : N) : emits t (jumpTarget_ n).
Proof.
  intros g jt g' o W H. apply jumpTarget_Ok in H.
  destruct H as (-> & [(_ & ->)|(_ & _ & _ & ->)]); now split.
Qed.

(** The closing braces [writeStatement] writes after a chain. *)
Lemma scan_close (j : nat) :
  forall st,
    scan (repeat "{"%char j ++ st) (repeatString ("}" ++ nl) j) = Some st.
Proof.
  induction j as [|j IH]; intro st; [reflexivity|].
  cbn [repeat List.app repeatString]. rewrite scan_app.
  cbn [scan opener closer Ascii.eqb Bool.eqb orb andb append nl].
  apply IH.
Qed.

Lemma repeat_snoc {A : Type} (x : A) (j : nat) (l : list A) :
  (repeat x j ++ x :: l = x :: repeat x j ++ l)%list.
Proof. induction j as [|j IH]; cbn; [reflexivity | now rewrite IH]. Qed.

(** A chain of [if]s leaves open the brace of its last block and one brace
    for every [else if] whose condition was hoisted: the braces it reports
    as owed. *)
Lemma writeIfChain_scan (n : Node) :
  namesBalanced t n = true ->
  (forall c d, height c < height n -> namesBalanced t c = true ->
               emits t (writeStatement c d)) ->
  forall first k depth g k' g' o,
    wellNamed t g ->
    writeIfChain writeStatement n first k depth g = Ok k' g' o ->
    wellNamed t g'
    /\ exists j, k' = k + j
         /\ forall st, scan st o = Some (repeat "{"%char (S j) ++ st)%list.
Proof.
  induction n as [n IH] using node_ind.
  intros Nn Hs first k depth g k' g' o W H.
  rewrite writeIfChain_eq in H.
  minv H;
    named_sat;
    repeat match goal with
           | E : ?l = _ :: _ |- _ => rewrite <- E in *
           end;
    use_emits ltac:(first
      [ apply writeSuspendibles_emits; named_solve
      | apply writeExpr_emits; named_solve
      | apply emits_forEach; intros ? ?;
        apply Hs; [height_solve | named_solve] ]).
  all: try match goal with
           | K : writeIfChain _ ?e _ _ _ _ = Ok _ _ _ |- _ =>
               apply IH in K;
                 [ destruct K as (Wk & j & -> & Sk)
                 | height_solve
                 | named_solve
                 | intros c d Hc; apply Hs; height_solve
                 | assumption ]
           end.
  all: split; [assumption|].
  all: match goal with
       | |- exists j0, S ?k + ?j = ?k + j0 /\ _ => exists (S j)
       | |- exists j0, ?k + ?j = ?k + j0 /\ _ => exists j
       | |- exists j0, S ?k = ?k + j0 /\ _ => exists 1
       | |- exists j0, ?k = ?k + j0 /\ _ => exists 0
       end.
  all: split; [lia|]; intro st.
  all: repeat first
         [ reflexivity | scan_head | scan_lit
         | match goal with
           | Sk : forall st, scan st ?o = _ |- context [scan ?st ?o] =>
               rewrite (Sk st)
           end ].
  all: cbn [repeat List.app]; rewrite ?repeat_snoc; reflexivity.
Qed.

Lemma writeStatement_emits (n : Node) :
  namesBalanced t n = true ->
  forall depth, emits t (writeStatement n depth).
Proof.
  induction n as [n IH] using node_ind. intros Nn depth g a g' o W H.
  rewrite writeStatement_eq in H.
  destruct (Nat.ltb MaxBodyDepth depth); [discriminate H|]. cbv zeta in H.
  destruct (kind n) eqn:Kn; try discriminate H.
  4: { apply bind_Ok in H. destruct H as (k' & g1 & o1 & o2 & H1 & H2 & ->).
       apply writes_Ok in H2. destruct H2 as (-> & ->).
       apply writeIfChain_scan in H1;
         [|exact Nn | intros c d Hc Nc; now apply IH | exact W].
       destruct H1 as (W1 & j & -> & S1).
       split; [exact W1|]. unfold balanced.
       rewrite scan_app, S1. cbn [Nat.add].
       apply scan_close. }
  all: minv H;
    named_sat;
    repeat match goal with
           | E : ?l = _ :: _ |- _ => rewrite <- E in *
           end;
    use_emits ltac:(first
      [ apply writeSuspendibles_emits; named_solve
      | apply writeExpr_emits; named_solve
      | apply jumpTarget_emits
      | apply emits_forEach; intros ? ?;
        apply IH; [height_solve | named_solve] ]);
    close_emits.
Qed.

(** *** The brackets of a function *)

Ltac emits_steps :=
  repeat first
    [ emits_step
    | apply writeCTypeName_emits; [named_solve | reflexivity | bal] ].

Lemma writeVarsIfChain_emits (wv : Node -> nat -> M unit) (o : Node) :
  namesBalanced t o = true ->
  (forall c d, height c < height o -> namesBalanced t c = true ->
               emits t (wv c d)) ->
  forall depth, emits t (writeVarsIfChain wv o depth).
Proof.
  induction o as [o IH] using node_ind. intros No Hw depth.
  rewrite writeVarsIfChain_eq. unfold writeVarsBlock. emits_steps;
    try (apply Hw; [height_solve | named_solve]).
  apply IH; [height_solve | named_solve |].
  intros c d Hc Nc. apply Hw; [height_solve | exact Nc].
Qed.

Lemma writeVarsNode_emits (o : Node) :
  namesBalanced t o = true ->
  forall depth, emits t (writeVarsNode o depth).
Proof.
  induction o as [o IH] using node_ind. intros No depth.
  rewrite writeVarsNode_eq.
  destruct (kind o); try apply emits_ret.
  - apply writeVarsIfChain_emits; [exact No|].
    intros c d Hc Nc. now apply IH.
  - emits_steps.
  - unfold writeVarsBlock. emits_steps.
    apply IH; [height_solve | named_solve].
Qed.

Lemma writeVars_emits (block : list Node) (depth : nat) :
  (forall o, In o block -> namesBalanced t o = true) ->
  emits t (writeVars block depth).
Proof.
  intro Nb. unfold writeVars, writeVarsBlock. emits_steps.
  apply writeVarsNode_emits. now apply Nb.
Qed.

Lemma joinChecks_balanced (l : list string) :
  Forall balanced l -> balanced (joinChecks l).
Proof.
  induction 1 as [|c l Hc Hl IH]; [reflexivity|].
  destruct l as [|d l]; [exact Hc|].
  change (joinChecks (c :: d :: l))
    with (c ++ " || " ++ joinChecks (d :: l)).
  bal.
Qed.

Lemma specChecks_balanced (l : list Node) :
  (forall o, In o l -> namesBalanced t o = true) ->
  Forall balanced (specChecks t l).
Proof.
  intro Nl. unfold specChecks. induction l as [|o l IH]; [constructor|].
  cbn [flat_map]. apply Forall_app.
  split; [|apply IH; intros c I; apply Nl; now right].
  assert (No : namesBalanced t o = true) by (apply Nl; now left).
  destruct (Field_XType o) as [oTyp|]; [|constructor].
  unfold specInputChecks. cbv zeta.
  repeat match goal with
         | |- Forall _ (if ?b then _ else _) => destruct b
         | |- Forall _ (List.app _ _) => apply Forall_app; split
         | |- Forall _ (match ?x with _ => _ end) => destruct x
         | |- Forall _ [] => constructor
         | |- Forall _ (_ :: _) => constructor
         end; bal.
Qed.

Lemma writeFuncImplArgChecks_emits (n : Node) :
  namesBalanced t n = true -> emits t (writeFuncImplArgChecks n).
Proof.
  intros Nn g a g' o W H. unfold writeFuncImplArgChecks in H.
  apply bind_Ok in H. destruct H as (g0 & ? & ? & ? & H0 & H & ->).
  apply getG_Ok in H0. destruct H0 as (-> & -> & ->).
  apply bind_Ok in H. destruct H as (in_ & ? & ? & ? & H0 & H & ->).
  apply deref_Ok in H0. destruct H0 as (Ei & -> & ->).
  apply bind_Ok in H. destruct H as (checks & ? & ? & ? & H0 & H & ->).
  apply gatherChecks_Ok in H0. destruct H0 as (-> & -> & ->).
  cbn [List.app] in H. rewrite (wellNamed_tm g W) in H.
  assert (J : balanced (joinChecks (specChecks t (Struct_Fields in_)))).
  { apply joinChecks_balanced, specChecks_balanced.
    intros c I. named_solve. }
  destruct (specChecks t (Struct_Fields in_)) as [|c cs]; minv H;
    close_emits.
Qed.

Lemma writeFuncSignature_emits (n : Node) :
  namesBalanced t n = true ->
  balanced (ByID t (Func_Receiver n)) ->
  emits t (writeFuncSignature n).
Proof.
  intros Nn Br g a g' o W H. unfold writeFuncSignature in H.
  minv H;
    use_emits ltac:(apply emits_foldM; intros ? ? ?; emits_steps);
    close_emits.
Qed.

(** The generator when the lowering of function [n] starts: the current
    function is [n]. *)
Lemma wellNamed_start (n : Node) (g : gen) :
  balanced (ByID t (Func_Receiver n)) ->
  tm g = t -> balanced (pkgName g) ->
  (forall k s, lookupID (statusMap g) k = Some s -> balanced (name s)) ->
  wellNamed t (setPerFunc (mkPerFunc (Some n) [] 0 0 false false) g).
Proof.
  intros Br T P S. split; [exact T|]. split; [exact P|].
  split; [exact S|]. intros f [= <-]. exact Br.
Qed.

(** What comes before the body leaves the brace of the function open. *)
Lemma writeFuncImplPrologue_scan (n : Node) (g g' : gen) (o : string) :
  namesBalanced t n = true ->
  wellNamed t (setPerFunc (mkPerFunc (Some n) [] 0 0 false false) g) ->
  writeFuncImplPrologue n g = Ok tt g' o ->
  wellNamed t g' /\ forall st, scan st o = Some ("{"%char :: st).
Proof.
  intros Nn W H.
  assert (Br : balanced (ByID t (Func_Receiver n)))
    by (apply (wellNamed_receiver _ n W); reflexivity).
  unfold writeFuncImplPrologue in H.
  minv H;
    use_emits ltac:(first
      [ apply writeFuncSignature_emits; assumption
      | apply writeFuncImplArgChecks_emits; assumption
      | apply writeVars_emits; intros ? ?; named_solve ]).
  all: split;
    [ first [ assumption
            | match goal with W : wellNamed t _ |- _ => exact W end ]
    | intro st; repeat first [ reflexivity | scan_head | scan_lit ] ].
Qed.

Lemma writeFuncImpl_balanced (n : Node) (g g' : gen) (o : string) :
  namesBalanced t n = true ->
  wellNamed t (setPerFunc (mkPerFunc (Some n) [] 0 0 false false) g) ->
  writeFuncImpl n g = Ok tt g' o ->
  balanced o.
Proof.
  intros Nn W H.
  apply writeFuncImpl_Ok in H. destruct H as [H _].
  unfold writeFuncImplEmit in H.
  apply bind_Ok in H. destruct H as ([] & g1 & o1 & o2 & H1 & H & ->).
  apply writeFuncImplPrologue_scan in H1; [|exact Nn | exact W].
  destruct H1 as [W1 S1].
  minv H;
    use_emits ltac:(apply emits_forEach; intros ? ?;
                    apply writeStatement_emits; named_solve).
  all: unfold balanced; rewrite scan_app, S1.
  all: repeat first [ reflexivity | scan_head | scan_lit ].
Qed.

End Brackets.

(** X22.  The brackets of a lowered statement are properly nested.  When
    the names that the lowering takes from its input are balanced (the
    package name, the C names of the statuses, the receiver of the current
    function, and the identifier or literal of each node of the statement),
    the text [writeStatement] writes for the statement is balanced: every
    parenthesis, square bracket and brace it opens is closed, innermost
    first.  In particular a chain of [else if]s closes the braces it opened
    for the hoisted conditions. *)
Theorem statement_brackets (n : Node) (depth : nat) (g g' : gen)
  (out : string) :
  balanced (pkgName g) ->
  (forall k s, lookupID (statusMap g) k = Some s -> balanced (name s)) ->
  (forall f, funk (perFunc_ g) = Some f ->
             balanced (ByID (tm g) (Func_Receiver f))) ->
  namesBalanced (tm g) n = true ->
  writeStatement n depth g = Ok tt g' out ->
  balanced out.
Proof.
  intros P S R Nn H.
  assert (W : wellNamed (tm g) g) by (repeat split; assumption).
  exact (proj2 (writeStatement_emits (tm g) n Nn depth _ _ _ _ W H)).
Qed.

(** X23.  The brackets of a function definition are properly nested.
    When the package name, the C names of the statuses, the name of the
    receiver and the identifier or literal of each node of the function are
    balanced, the whole text [writeFuncImpl] writes for the function, from
    the signature to the closing brace, with the checks of the arguments,
    the local variables, the body and the epilogue, is balanced. *)
Theorem function_brackets (n : Node) (g g' : gen) (out : string) :
  balanced (pkgName g) ->
  (forall k s, lookupID (statusMap g) k = Some s -> balanced (name s)) ->
  balanced (ByID (tm g) (Func_Receiver n)) ->
  namesBalanced (tm g) n = true ->
  writeFuncImpl n g = Ok tt g' out ->
  balanced out.
Proof.
  intros P S R Nn H.
  apply (writeFuncImpl_balanced (tm g) n g g' out Nn); [|exact H].
  now apply wellNamed_start.
Qed.


(** *** The prototype and the definition of a function *)

Lemma ign_ret {A : Type} (x : A) : ignoresPerFunc (ret x).
Proof. intros p g. reflexivity. Qed.

Lemma ign_fail {A : Type} (e : error) : ignoresPerFunc (@fail A e).
Proof. intros p g. reflexivity. Qed.

Lemma ign_writes (s : string) : ignoresPerFunc (writes s).
Proof. intros p g. reflexivity. Qed.

Lemma ign_deref {A : Type} (o : option A) : ignoresPerFunc (deref o).
Proof. intros p g. destruct o; reflexivity. Qed.

Lemma ign_bind {A B : Type} (m : M A) (k : A -> M B) :
  ignoresPerFunc m -> (forall a, ignoresPerFunc (k a)) ->
  ignoresPerFunc (bind m k).
Proof.
  intros Hm Hk p g. unfold bind. rewrite Hm.
  destruct (m g) as [a g1 o1|e]; [|reflexivity].
  rewrite Hk. destruct (k a g1); reflexivity.
Qed.

(** The continuation of [g <- getG] may read the package name and the
    identifier table of [g], which [setPerFunc] leaves alone. *)
Lemma ign_bind_getG {B : Type} (k : gen -> M B) :
  (forall p g0, k (setPerFunc p g0) = k g0) ->
  (forall g0, ignoresPerFunc (k g0)) ->
  ignoresPerFunc (bind getG k).
Proof.
  intros Hr Hk p g. unfold bind, getG.
  rewrite Hr, Hk. destruct (k g g); reflexivity.
Qed.

Lemma ign_when (b : bool) (m : M unit) :
  ignoresPerFunc m -> ignoresPerFunc (when b m).
Proof. intro Hm. destruct b; [exact Hm | apply ign_ret]. Qed.

Lemma ign_foldM {A B : Type} (f : B -> A -> M B) (l : list A) :
  (forall b x, In x l -> ignoresPerFunc (f b x)) ->
  forall b, ignoresPerFunc (foldM f b l).
Proof.
  induction l as [|x l IH]; intros Hf b; simpl.
  - apply ign_ret.
  - apply ign_bind; [apply Hf; now left|].
    intros b'. apply IH. intros c y I. apply Hf. now right.
Qed.

Ltac ign_step :=
  lazymatch goal with
  | |- ignoresPerFunc (bind getG _) =>
      apply ign_bind_getG; [intros; reflexivity | intro]
  | |- ignoresPerFunc (bind _ _) => apply ign_bind; [|intro]
  | |- ignoresPerFunc (ret _) => apply ign_ret
  | |- ignoresPerFunc (fail _) => apply ign_fail
  | |- ignoresPerFunc (writes _) => apply ign_writes
  | |- ignoresPerFunc (writeb _) => apply ign_writes
  | |- ignoresPerFunc (deref _) => apply ign_deref
  | |- ignoresPerFunc (when _ _) => apply ign_when
  | |- ignoresPerFunc (foldM _ _ _) => apply ign_foldM; intros ? ? ?
  | |- ignoresPerFunc (if ?b then _ else _) => destruct b eqn:?
  | |- ignoresPerFunc (match ?x with _ => _ end) => destruct x eqn:?
  end.

Lemma countPointers_ign (n : Node) (x : Node) :
  forall k, ignoresPerFunc (countPointers n k x).
Proof.
  induction x as [x IH] using node_ind. intro k.
  rewrite countPointers_eq.
  repeat ign_step. apply IH. height_solve.
Qed.

Lemma writeArrayExtents_ign (x : Node) :
  ignoresPerFunc (writeArrayExtents x).
Proof.
  induction x as [x IH] using node_ind.
  rewrite writeArrayExtents_eq.
  repeat ign_step. apply IH. height_solve.
Qed.

Lemma writeCTypeName_ign (n : Node) (p v : string) :
  ignoresPerFunc (writeCTypeName n p v).
Proof.
  unfold writeCTypeName.
  repeat first [ ign_step | apply countPointers_ign
               | apply writeArrayExtents_ign ].
Qed.

Lemma writeFuncSignature_ign (n : Node) :
  ignoresPerFunc (writeFuncSignature n).
Proof.
  unfold writeFuncSignature.
  repeat first [ ign_step | apply writeCTypeName_ign ].
Qed.

(** The text of a function starts with its signature, whatever function
    was lowered before. *)
Lemma writeFuncImpl_head (n : Node) (p : perFunc) (g g' : gen)
  (out : string) :
  writeFuncImpl n (setPerFunc p g) = Ok tt g' out ->
  exists sig rest,
    writeFuncSignature n g = Ok tt g sig
    /\ out = sig ++ "{" ++ nl ++ rest.
Proof.
  intro H.
  assert (S := writeFuncSignature_ign n
                 (mkPerFunc (Some n) [] 0 0 false false) g).
  assert (P := writeFuncSignature_pure n g).
  apply writeFuncImpl_Ok in H. destruct H as [H _].
  unfold writeFuncImplEmit in H.
  apply bind_Ok in H. destruct H as ([] & g1 & o1 & rest1 & H1 & _ & ->).
  unfold writeFuncImplPrologue in H1.
  apply bind_Ok in H1. destruct H1 as ([] & ? & ? & ? & H0 & H1 & ->).
  apply modify_Ok in H0. destruct H0 as (-> & ->).
  apply bind_Ok in H1. destruct H1 as (? & ? & ? & ? & H0 & H1 & ->).
  apply getG_Ok in H0. destruct H0 as (-> & -> & ->).
  apply bind_Ok in H1. destruct H1 as ([] & g2 & sig & o2 & H0 & H1 & ->).
  apply bind_Ok in H1. destruct H1 as ([] & ? & ? & rest2 & H2 & _ & ->).
  apply writes_Ok in H2. destruct H2 as (-> & ->).
  change (writeFuncSignature n
            (setPerFunc (mkPerFunc (Some n) [] 0 0 false false) g)
          = Ok tt g2 sig) in H0.
  rewrite S in H0.
  destruct (writeFuncSignature n g) as [[] g3 sig'|e] eqn:F;
    [|discriminate H0].
  apply Ok_inj in H0. destruct H0 as (_ & _ & ->).
  pose proof (P _ _ _ F) as E. subst g3.
  exists sig, (rest2 ++ rest1). split; [reflexivity|].
  cbn [append]. now rewrite !append_assoc.
Qed.

(** X24.  The prototype of the header and the definition of the
    implementation carry the same signature.  Whatever function was
    lowered before, the text of a function that [writeFuncImpl] lowers
    starts with the signature that [writeFuncPrototype] writes for it,
    there followed by a semicolon, here by the opening brace; and when the
    prototype cannot be written the definition fails with the same
    error. *)
Theorem prototype_matches_definition (n : Node) (p : perFunc) (g : gen) :
  (forall g' out,
      writeFuncImpl n (setPerFunc p g) = Ok tt g' out ->
      exists sig rest,
        writeFuncPrototype n g = Ok tt g (sig ++ ";" ++ nl ++ nl)
        /\ out = sig ++ "{" ++ nl ++ rest)
  /\ (forall e,
        writeFuncPrototype n g = Err e ->
        writeFuncImpl n (setPerFunc p g) = Err e).
Proof.
  split.
  - intros g' out H.
    destruct (writeFuncImpl_head _ _ _ _ _ H) as (sig & rest & Hs & ->).
    exists sig, rest. split; [|reflexivity].
    unfold writeFuncPrototype, bind. rewrite Hs. reflexivity.
  - intros e H. unfold writeFuncPrototype, bind in H.
    destruct (writeFuncSignature n g) as [[] g3 sig'|e'] eqn:F;
      [discriminate H|].
    injection H as ->.
    unfold writeFuncImpl, writeFuncImplEmit, writeFuncImplPrologue.
    unfold bind at 1 2 3. unfold modify at 1.
    unfold bind at 1. unfold getG at 1. unfold bind at 1.
    change (setPerFunc (mkPerFunc (Some n) [] 0 0 false false)
              (setPerFunc p g))
      with (setPerFunc (mkPerFunc (Some n) [] 0 0 false false) g).
    rewrite (writeFuncSignature_ign n
               (mkPerFunc (Some n) [] 0 0 false false) g), F.
    reflexivity.
Qed.


(** *** The nesting limit *)

Lemma nesting_eq (o : Node) :
  nesting o =
  match kind o with
  | KIf => chainNesting nesting o
  | KWhile => S (blockNesting nesting (While_Body o))
  | _ => 0
  end.
Proof. now destruct o. Qed.

Lemma chainNesting_eq (f : Node -> nat) (o : Node) :
  chainNesting f o =
  Nat.max (S (blockNesting f (If_BodyIfTrue o)))
    (Nat.max (S (blockNesting f (If_BodyIfFalse o)))
       match If_ElseIf o with
       | Some o' => chainNesting f o'
       | None => 0
       end).
Proof. now destruct o. Qed.

Lemma blockNesting_in (f : Node -> nat) (l : list Node) (c : Node) :
  In c l -> f c <= blockNesting f l.
Proof.
  induction l as [|x l IH]; intros I; [contradiction|].
  cbn [blockNesting fold_right]. destruct I as [<-|I]; [lia|].
  specialize (IH I). unfold blockNesting in IH. lia.
Qed.

Lemma blockNesting_le (f : Node -> nat) (l : list Node) (k : nat) :
  (forall c, In c l -> f c <= k) -> blockNesting f l <= k.
Proof.
  induction l as [|x l IH]; intro H; cbn [blockNesting fold_right]; [lia|].
  assert (f x <= k) by (apply H; now left).
  assert (blockNesting f l <= k) by (apply IH; intros c I; apply H; now right).
  unfold blockNesting in *. lia.
Qed.

Section Avoids.

Variable e : error.

Lemma avoids_ret {A : Type} (x : A) : avoids e (ret x).
Proof. intros g H. discriminate H. Qed.

Lemma avoids_fail {A : Type} (e' : error) : e' <> e -> avoids e (@fail A e').
Proof. intros N g H. injection H as ->. now apply N. Qed.

Lemma avoids_writes (s : string) : avoids e (writes s).
Proof. intros g H. discriminate H. Qed.

Lemma avoids_getG : avoids e getG.
Proof. intros g H. discriminate H. Qed.

Lemma avoids_modify (f : gen -> gen) : avoids e (modify f).
Proof. intros g H. discriminate H. Qed.

Lemma avoids_deref {A : Type} (p : option A) :
  PanicNilDereference <> e -> avoids e (deref p).
Proof.
  intro N. destruct p; [apply avoids_ret | now apply avoids_fail].
Qed.

Lemma avoids_bind {A B : Type} (m : M A) (k : A -> M B) :
  avoids e m -> (forall a, avoids e (k a)) -> avoids e (bind m k).
Proof.
  intros Hm Hk g H. unfold bind in H.
  destruct (m g) as [a g1 o1|e1] eqn:E1.
  - destruct (k a g1) as [b g2 o2|e2] eqn:E2; [discriminate H|].
    injection H as ->. exact (Hk a g1 E2).
  - injection H as ->. exact (Hm g E1).
Qed.

Lemma avoids_when (b : bool) (m : M unit) :
  avoids e m -> avoids e (when b m).
Proof. intro Hm. destruct b; [exact Hm | apply avoids_ret]. Qed.

Lemma avoids_forEach {A : Type} (f : A -> M unit) (l : list A) :
  (forall x, In x l -> avoids e (f x)) -> avoids e (forEach f l).
Proof.
  induction l as [|x l IH]; intro Hf; simpl.
  - apply avoids_ret.
  - apply avoids_bind; [apply Hf; now left|].
    intros _. apply IH. intros y I. apply Hf. now right.
Qed.

Lemma avoids_forEachI {A : Type} (f : nat -> A -> M unit) (l : list A) :
  (forall i x, In x l -> avoids e (f i x)) ->
  forall i, avoids e (forEachI f i l).
Proof.
  induction l as [|x l IH]; intros Hf i; simpl.
  - apply avoids_ret.
  - apply avoids_bind; [apply Hf; now left|].
    intros _. apply IH. intros j y I. apply Hf. now right.
Qed.

Lemma avoids_foldM {A B : Type} (f : B -> A -> M B) (l : list A) :
  (forall b x, In x l -> avoids e (f b x)) ->
  forall b, avoids e (foldM f b l).
Proof.
  induction l as [|x l IH]; intros Hf b; simpl.
  - apply avoids_ret.
  - apply avoids_bind; [apply Hf; now left|].
    intros b'. apply IH. intros c y I. apply Hf. now right.
Qed.

End Avoids.

(** One step of a proof that a computation never fails with the error of
    the nesting limit. *)
Ltac avoids_step :=
  lazymatch goal with
  | |- avoids _ (bind _ _) => apply avoids_bind; [|intro]
  | |- avoids _ (ret _) => apply avoids_ret
  | |- avoids _ (fail _) => apply avoids_fail; discriminate
  | |- avoids _ (writes _) => apply avoids_writes
  | |- avoids _ (writeb _) => apply avoids_writes
  | |- avoids _ getG => apply avoids_getG
  | |- avoids _ (modify _) => apply avoids_modify
  | |- avoids _ (deref _) => apply avoids_deref; discriminate
  | |- avoids _ (when _ _) => apply avoids_when
  | |- avoids _ (forEach _ _) => apply avoids_forEach; intros ? ?
  | |- avoids _ (forEachI _ _ _) => apply avoids_forEachI; intros ? ? ?
  | |- avoids _ (foldM _ _ _) => apply avoids_foldM; intros ? ? ?
  | |- avoids _ (if ?b then _ else _) => destruct b eqn:?
  | |- avoids _ (match ?x with _ => _ end) => destruct x eqn:?
  end.

Lemma countPointers_avoids (n : Node) (x : Node) :
  forall k, avoids ErrBodyTooDeep (countPointers n k x).
Proof.
  induction x as [x IH] using node_ind. intro k.
  rewrite countPointers_eq.
  repeat avoids_step. apply IH. height_solve.
Qed.

Lemma writeArrayExtents_avoids (x : Node) :
  avoids ErrBodyTooDeep (writeArrayExtents x).
Proof.
  induction x as [x IH] using node_ind.
  rewrite writeArrayExtents_eq.
  repeat avoids_step. apply IH. height_solve.
Qed.

Lemma writeCTypeName_avoids (n : Node) (p v : string) :
  avoids ErrBodyTooDeep (writeCTypeName n p v).
Proof.
  unfold writeCTypeName.
  repeat first [ avoids_step | apply countPointers_avoids
               | apply writeArrayExtents_avoids ].
Qed.

Lemma isLowBits_avoids (tm : Token.Map) (n : Node) :
  avoids ErrBodyTooDeep (isLowBits tm n).
Proof. unfold isLowBits. repeat avoids_step. Qed.

Lemma isInSrcReadU8_avoids (tm : Token.Map) (n : Node) :
  avoids ErrBodyTooDeep (isInSrcReadU8 tm n).
Proof. unfold isInSrcReadU8. repeat avoids_step. Qed.

Lemma isInDst_avoids (tm : Token.Map) (n : Node) (k : Key) :
  avoids ErrBodyTooDeep (isInDst tm n k).
Proof. unfold isInDst. repeat avoids_step. Qed.

Lemma isThisDecodeHeader_avoids (tm : Token.Map) (n : Node) :
  avoids ErrBodyTooDeep (isThisDecodeHeader tm n).
Proof. unfold isThisDecodeHeader. repeat avoids_step. Qed.

Lemma writeExit_avoids : avoids ErrBodyTooDeep writeExit.
Proof. unfold writeExit. repeat avoids_step. Qed.

Lemma writeExpr_avoids (n : Node) :
  forall rp pp depth, avoids ErrBodyTooDeep (writeExpr n rp pp depth).
Proof.
  induction n as [n IH] using node_ind. intros rp pp depth.
  rewrite writeExpr_eq.
  unfold writeExprOther, writeExprUnaryOp, writeExprBinaryOp, writeExprAs,
    writeExprAssociativeOp. cbv zeta.
  repeat first
    [ avoids_step | apply isLowBits_avoids | apply writeCTypeName_avoids ];
    apply IH; height_solve.
Qed.

Lemma writeCallSuspendibles_avoids (n : Node) :
  forall depth, avoids ErrBodyTooDeep (writeCallSuspendibles n depth).
Proof.
  induction n as [n IH] using node_ind. intro depth.
  rewrite writeCallSuspendibles_eq. cbv zeta.
  repeat first
    [ avoids_step
    | apply isInSrcReadU8_avoids | apply isInDst_avoids
    | apply isThisDecodeHeader_avoids | apply writeExit_avoids
    | apply writeExpr_avoids | apply writeCTypeName_avoids ];
    apply IH; height_solve.
Qed.

Lemma writeSuspendibles_avoids (n : Node) (depth : nat) :
  avoids ErrBodyTooDeep (writeSuspendibles n depth).
Proof.
  unfold writeSuspendibles.
  destruct (negb (Expr_Suspendible n)); [apply avoids_ret|].
  apply writeCallSuspendibles_avoids.
Qed.

Lemma jumpTarget_avoids (n : N) : avoids ErrBodyTooDeep (jumpTarget_ n).
Proof. unfold jumpTarget_. repeat avoids_step. Qed.

Lemma forEach_Ok_each {A : Type} (f : A -> M unit) (l : list A) :
  forall g g' out,
    forEach f l g = Ok tt g' out ->
    forall x, In x l -> exists g1 g2 o, f x g1 = Ok tt g2 o.
Proof.
  induction l as [|y l IH]; intros g g' out H x I; [contradiction|].
  simpl in H. apply bind_Ok in H.
  destruct H as ([] & g1 & o1 & o2 & H1 & H2 & _).
  destruct I as [<-|I]; [now exists g, g1, o1|].
  exact (IH _ _ _ H2 x I).
Qed.

(** A block that is declared is within the limit, with all that is nested
    in it. *)
Lemma writeVarsBlock_depth (wv : Node -> nat -> M unit) (block : list Node)
  (d : nat) (g g' : gen) (out : string) :
  (forall c g1 g2 o,
      In c block -> wv c (S d) g1 = Ok tt g2 o ->
      nesting c = 0 \/ S d + nesting c <= S MaxBodyDepth) ->
  writeVarsBlock wv block d g = Ok tt g' out ->
  d + blockNesting nesting block <= MaxBodyDepth.
Proof.
  intros Hw H. unfold writeVarsBlock in H.
  destruct (Nat.ltb MaxBodyDepth d) eqn:L; [discriminate H|].
  apply Nat.ltb_ge in L.
  assert (B : blockNesting nesting block <= MaxBodyDepth - d); [|lia].
  apply blockNesting_le. intros c I.
  destruct (forEach_Ok_each _ _ _ _ _ H c I) as (g1 & g2 & o & Hc).
  destruct (Hw _ _ _ _ I Hc); lia.
Qed.

Lemma writeVarsIfChain_depth (o : Node) :
  (forall c d g1 g2 out,
      height c < height o -> writeVarsNode c d g1 = Ok tt g2 out ->
      nesting c = 0 \/ d + nesting c <= S MaxBodyDepth) ->
  forall d g g' out,
    writeVarsIfChain writeVarsNode o d g = Ok tt g' out ->
    d + chainNesting nesting o <= S MaxBodyDepth.
Proof.
  induction o as [o IH] using node_ind. intros Hw d g g' out H.
  rewrite writeVarsIfChain_eq in H. rewrite chainNesting_eq.
  apply bind_Ok in H. destruct H as ([] & g1 & o1 & o2 & H1 & H & _).
  apply bind_Ok in H. destruct H as ([] & g2 & o3 & o4 & H2 & H & _).
  apply writeVarsBlock_depth in H1;
    [|intros c ? ? ? I Hc; eapply Hw; [height_solve|exact Hc]].
  apply writeVarsBlock_depth in H2;
    [|intros c ? ? ? I Hc; eapply Hw; [height_solve|exact Hc]].
  destruct (If_ElseIf o) as [o'|] eqn:E; [|lia].
  apply IH in H; [lia | height_solve |].
  intros c d' ? ? ? Hc. apply Hw. height_solve.
Qed.

Lemma writeVarsNode_depth (o : Node) :
  forall d g g' out,
    writeVarsNode o d g = Ok tt g' out ->
    nesting o = 0 \/ d + nesting o <= S MaxBodyDepth.
Proof.
  induction o as [o IH] using node_ind. intros d g g' out H.
  rewrite writeVarsNode_eq in H. rewrite nesting_eq.
  destruct (kind o); try (now left).
  - right. apply writeVarsIfChain_depth in H; [exact H|].
    intros c d' ? ? ? Hc. now apply IH.
  - right. apply writeVarsBlock_depth in H; [lia|].
    intros c ? ? ? I Hc. apply (IH c) in Hc; [exact Hc | height_solve].
Qed.

Lemma writeVars_depth (block : list Node) (d : nat) (g g' : gen)
  (out : string) :
  writeVars block d g = Ok tt g' out ->
  d + blockNesting nesting block <= MaxBodyDepth.
Proof.
  apply writeVarsBlock_depth.
  intros c ? ? ? _ Hc. exact (writeVarsNode_depth _ _ _ _ _ Hc).
Qed.

(** Within the limit, nothing fails with the error of the limit. *)
Ltac too_deep :=
  exfalso;
  match goal with
  | L : Nat.ltb _ _ = true |- _ => apply Nat.ltb_lt in L; lia
  end.

Lemma writeVarsBlock_avoids (wv : Node -> nat -> M unit)
  (block : list Node) (d : nat) :
  d <= MaxBodyDepth ->
  (forall c, In c block -> avoids ErrBodyTooDeep (wv c (S d))) ->
  avoids ErrBodyTooDeep (writeVarsBlock wv block d).
Proof.
  intros Hd Hw. unfold writeVarsBlock.
  destruct (Nat.ltb MaxBodyDepth d) eqn:L; [too_deep|].
  apply avoids_forEach. exact Hw.
Qed.

Lemma writeVarsIfChain_avoids (o : Node) :
  (forall c d, height c < height o -> d + nesting c <= S MaxBodyDepth ->
               avoids ErrBodyTooDeep (writeVarsNode c d)) ->
  forall d,
    d + chainNesting nesting o <= S MaxBodyDepth ->
    avoids ErrBodyTooDeep (writeVarsIfChain writeVarsNode o d).
Proof.
  induction o as [o IH] using node_ind. intros Hw d Hd.
  rewrite writeVarsIfChain_eq. rewrite chainNesting_eq in Hd.
  apply avoids_bind; [|intros _; apply avoids_bind; [|intros _]].
  - apply writeVarsBlock_avoids; [lia|]. intros c I.
    apply Hw; [height_solve|].
    pose proof (blockNesting_in nesting _ _ I). lia.
  - apply writeVarsBlock_avoids; [lia|]. intros c I.
    apply Hw; [height_solve|].
    pose proof (blockNesting_in nesting _ _ I). lia.
  - destruct (If_ElseIf o) as [o'|] eqn:E; [|apply avoids_ret].
    apply IH; [height_solve | | lia].
    intros c d' Hc. apply Hw. height_solve.
Qed.

Lemma writeVarsNode_avoids (o : Node) :
  forall d,
    d + nesting o <= S MaxBodyDepth ->
    avoids ErrBodyTooDeep (writeVarsNode o d).
Proof.
  induction o as [o IH] using node_ind. intros d Hd.
  rewrite writeVarsNode_eq. rewrite nesting_eq in Hd.
  destruct (kind o); try apply avoids_ret.
  - apply writeVarsIfChain_avoids; [|exact Hd].
    intros c d' Hc. now apply IH.
  - repeat first [ avoids_step | apply writeCTypeName_avoids ].
  - apply writeVarsBlock_avoids; [lia|]. intros c I.
    apply IH; [height_solve|].
    pose proof (blockNesting_in nesting _ _ I). lia.
Qed.

Lemma writeVars_avoids (block : list Node) (d : nat) :
  d + blockNesting nesting block <= MaxBodyDepth ->
  avoids ErrBodyTooDeep (writeVars block d).
Proof.
  intro Hd. apply writeVarsBlock_avoids; [lia|]. intros c I.
  apply writeVarsNode_avoids.
  pose proof (blockNesting_in nesting _ _ I). lia.
Qed.

Lemma writeIfChain_avoids (n : Node) :
  (forall c d, height c < height n -> d + nesting c <= MaxBodyDepth ->
               avoids ErrBodyTooDeep (writeStatement c d)) ->
  forall first k depth,
    depth + chainNesting nesting n <= S MaxBodyDepth ->
    avoids ErrBodyTooDeep (writeIfChain writeStatement n first k depth).
Proof.
  induction n as [n IH] using node_ind. intros Hs first k depth Hd.
  rewrite writeIfChain_eq. rewrite chainNesting_eq in Hd.
  repeat first
    [ avoids_step | apply writeSuspendibles_avoids | apply writeExpr_avoids ];
    try match goal with
        | E : ?l = _ :: _ |- _ => rewrite <- E in *
        end;
    try (apply Hs; [height_solve|];
         match goal with
         | I : In _ _ |- _ => pose proof (blockNesting_in nesting _ _ I)
         end; lia).
  apply IH; [height_solve | | lia].
  intros c d Hc. apply Hs. height_solve.
Qed.

Lemma writeStatement_avoids (n : Node) :
  forall depth,
    depth + nesting n <= MaxBodyDepth ->
    avoids ErrBodyTooDeep (writeStatement n depth).
Proof.
  induction n as [n IH] using node_ind. intros depth Hd.
  rewrite writeStatement_eq. rewrite nesting_eq in Hd.
  destruct (Nat.ltb MaxBodyDepth depth) eqn:L; [too_deep|]. cbv zeta.
  destruct (kind n) eqn:Kn;
    try (repeat first
           [ avoids_step | apply writeSuspendibles_avoids
           | apply writeExpr_avoids | apply jumpTarget_avoids ]; fail).
  - apply avoids_bind; [|intro; apply avoids_writes].
    apply writeIfChain_avoids; [|lia].
    intros c d Hc. now apply IH.
  - repeat first
      [ avoids_step | apply writeExpr_avoids | apply jumpTarget_avoids ].
    apply IH; [height_solve|].
    match goal with
    | I : In _ _ |- _ => pose proof (blockNesting_in nesting _ _ I)
    end. lia.
Qed.

Lemma writeFuncSignature_avoids (n : Node) :
  avoids ErrBodyTooDeep (writeFuncSignature n).
Proof.
  unfold writeFuncSignature.
  repeat first [ avoids_step | apply writeCTypeName_avoids ].
Qed.

Lemma writeFuncImplArgChecks_avoids (n : Node) :
  avoids ErrBodyTooDeep (writeFuncImplArgChecks n).
Proof.
  unfold writeFuncImplArgChecks, argChecks. cbv zeta.
  repeat avoids_step.
Qed.

(** X25.  The nesting limit.  A function that [writeFuncImpl] lowers nests
    its blocks at most [MaxBodyDepth] deep: the declaration of the local
    variables walks every block of the body, the empty ones too, before any
    statement is written.  And the limit is the only source of its error: a
    body within the limit never fails with the error of the limit, so that
    the test of [writeStatement] can no longer fail once the variables are
    declared. *)
Theorem nesting_limit (n : Node) (g : gen) :
  (forall g' out,
      writeFuncImpl n g = Ok tt g' out ->
      blockNesting nesting (Func_Body n) <= MaxBodyDepth)
  /\ (blockNesting nesting (Func_Body n) <= MaxBodyDepth ->
      writeFuncImpl n g <> Err ErrBodyTooDeep).
Proof.
  split.
  - intros g' out H.
    apply writeFuncImpl_Ok in H. destruct H as [H _].
    unfold writeFuncImplEmit in H.
    apply bind_Ok in H. destruct H as ([] & g1 & o1 & o2 & H & _ & _).
    unfold writeFuncImplPrologue in H.
    repeat match type of H with
           | bind (writeVars _ _) _ _ = _ => fail 1
           | bind _ _ _ = _ =>
               apply bind_Ok in H;
               destruct H as (? & ? & ? & ? & _ & H & _); cbv beta in H
           end.
    apply bind_Ok in H. destruct H as ([] & ? & ? & ? & H & _ & _).
    exact (writeVars_depth _ _ _ _ _ H).
  - intro Hd. revert g.
    change (avoids ErrBodyTooDeep (writeFuncImpl n)).
    unfold writeFuncImpl, writeFuncImplEmit, writeFuncImplPrologue.
    repeat first
      [ avoids_step
      | apply writeFuncSignature_avoids
      | apply writeFuncImplArgChecks_avoids
      | apply writeVars_avoids; lia ].
    all: apply writeStatement_avoids.
    all: match goal with
         | I : In _ _ |- _ => pose proof (blockNesting_in nesting _ _ I)
         end; lia.
Qed.


(** *** Constructors of sub-structs *)

Ltac find_in C :=
  first
    [ exact C
    | apply contains_app_l; find_in C
    | apply contains_app_r; find_in C ].

Lemma writeCtorSignature_head (n : Node) (ctor : bool) (g g' : gen)
  (o rest : string) :
  writeCtorSignature n false ctor g = Ok tt g' o ->
  g' = g /\ o ++ ("{" ++ nl) ++ rest = ctorHead g n ctor ++ rest.
Proof.
  intro H. split; [exact (eq_sym (writeCtorSignature_pure _ _ _ _ _ _ _ H))|].
  unfold writeCtorSignature in H. cbv zeta in H.
  rewrite Bool.andb_false_r in H. unfold ctorHead.
  destruct ctor; minv H;
    repeat first [ rewrite append_assoc | progress cbn [append] ];
    reflexivity.
Qed.

(** The calls on the sub-structs, in the constructor or the destructor. *)
Lemma subCalls_each (g0 : gen) (ctor : bool) (l : list Node) (f x t : Node)
  (g g' : gen) (o : string) :
  In f l -> Field_XType f = Some x -> TypeExpr_IsInnermost x = true ->
  lookupID (structMap g0) (TypeExpr_Name x) = Some t ->
  forEach (fun f =>
      x <- deref (Field_XType f) ;;
      if negb (TypeExpr_IsInnermost x) then ret tt
      else
        match lookupID (structMap g0) (TypeExpr_Name x) with
        | None => ret tt
        | Some _ =>
            if ctor then
              writes ("puffs_" ++ pkgName g0 ++ "_"
                      ++ ByID (tm g0) (TypeExpr_Name x)
                      ++ "_constructor(&self->private_impl." ++ fPrefix
                      ++ ByID (tm g0) (Field_Name f) ++ ","
                      ++ "PUFFS_VERSION, PUFFS_ALREADY_ZEROED);" ++ nl)
            else
              writes ("puffs_" ++ pkgName g0 ++ "_"
                      ++ ByID (tm g0) (TypeExpr_Name x)
                      ++ "_destructor(&self->private_impl." ++ fPrefix
                      ++ ByID (tm g0) (Field_Name f) ++ ");" ++ nl)
        end) l g = Ok tt g' o ->
  g' = g
  /\ contains (if ctor then ctorCall g0 f x else dtorCall g0 f x) o.
Proof.
  intros I Ex Ei El H.
  match type of H with
  | forEach ?F _ _ = _ => assert (P : forall y, pure (F y))
  end.
  { intro y. unfold pure. repeat pure_step. }
  assert (E := forEach_pure _ _ P _ _ _ _ H). subst g'.
  split; [reflexivity|].
  destruct (forEach_each _ _ _ _ _ P H f I) as (o1 & H1 & C).
  cbv beta in H1. rewrite Ex in H1.
  erewrite bind_step in H1 by reflexivity. rewrite prepend_nil in H1.
  rewrite Ei, El in H1. cbn [negb] in H1.
  destruct ctor; apply writes_Ok in H1; destruct H1 as (_ & E1);
    subst o1; exact C.
Qed.

(** X26.  The constructor of a struct constructs its sub-structs, and the
    destructor destroys them.  For a suspendible struct, [writeCtorImpl]
    writes the definition of the constructor and then the one of the
    destructor; for every field whose type is a struct of the package (and
    not an array), the first holds the call of the constructor of the
    field and the second the call of its destructor.  Whether the struct
    of the field is suspendible is not looked at, although a struct that
    is not gets neither a prototype nor a definition of its constructor. *)
Theorem substruct_constructors (n f x t : Node) (g g' : gen)
  (out : string) :
  Struct_Suspendible n = true ->
  In f (Struct_Fields n) ->
  Field_XType f = Some x ->
  TypeExpr_IsInnermost x = true ->
  lookupID (structMap g) (TypeExpr_Name x) = Some t ->
  writeCtorImpl n g = Ok tt g' out ->
  (exists bodyC bodyD : string,
      out = (ctorHead g n true ++ bodyC) ++ (ctorHead g n false ++ bodyD)
      /\ contains (ctorCall g f x) bodyC
      /\ contains (dtorCall g f x) bodyD)
  /\ (Struct_Suspendible t = false ->
      writeCtorPrototype t g = Ok tt g ""
      /\ writeCtorImpl t g = Ok tt g "").
Proof.
  intros Hs I Ex Ei El H. split.
  - unfold writeCtorImpl in H. rewrite Hs in H. cbn [negb] in H.
    apply bind_Ok in H. destruct H as (g0 & ? & ? & ? & H0 & H & ->).
    apply getG_Ok in H0. destruct H0 as (-> & -> & ->).
    cbn [forEach] in H.
    apply bind_Ok in H. destruct H as ([] & g1 & oC & o2 & HC & H & ->).
    apply bind_Ok in H. destruct H as ([] & g2 & oD & o3 & HD & H & ->).
    apply ret_Ok in H. destruct H as (_ & -> & ->).
    apply bind_Ok in HC. destruct HC as ([] & ? & sC & rC & SC & HC & ->).
    apply bind_Ok in HD. destruct HD as ([] & ? & sD & rD & SD & HD & ->).
    apply bind_Ok in HC. destruct HC as ([] & ? & ? & rC' & WC & HC & ->).
    apply bind_Ok in HD. destruct HD as ([] & ? & ? & rD' & WD & HD & ->).
    apply writes_Ok in WC. destruct WC as (-> & ->).
    apply writes_Ok in WD. destruct WD as (-> & ->).
    destruct (writeCtorSignature_head _ _ _ _ _ rC' SC) as [-> EC].
    assert (G1 : g1 = g /\ contains (ctorCall g f x) rC').
    { minv HC.
      repeat match goal with u : unit |- _ => destruct u end.
      match goal with
      | K : forEach (fun f => match Field_DefaultValue f with
                              | Some _ => _ | None => _ end) _ _
            = Ok _ _ _ |- _ =>
          apply forEach_pure in K;
            [subst | intro; unfold pure; repeat pure_step]
      end.
      match goal with
      | K : forEach _ _ _ = Ok _ _ _ |- _ =>
          apply (subCalls_each _ true _ f x t) in K; [|assumption ..];
            destruct K as [E K]; subst
      end.
      split; [reflexivity|].
      match goal with C : contains _ _ |- _ => find_in C end. }
    destruct G1 as [-> CC].
    destruct (writeCtorSignature_head _ _ _ _ _ rD' SD) as [-> ED].
    assert (CD : contains (dtorCall g f x) rD').
    { minv HD.
      repeat match goal with u : unit |- _ => destruct u end.
      match goal with
      | K : forEach _ _ _ = Ok _ _ _ |- _ =>
          apply (subCalls_each _ false _ f x t) in K; [|assumption ..];
            destruct K as [E K]; subst
      end.
      match goal with C : contains _ _ |- _ => find_in C end. }
    exists rC', rD'. split; [|split; assumption].
    rewrite append_nil_r, EC, ED. reflexivity.
  - intro Ht. unfold writeCtorPrototype, writeCtorImpl. rewrite Ht.
    split; reflexivity.
Qed.


(** *** Every function is declared before it is defined *)

Lemma bind_pure_split {A B : Type} (m : M A) (k : A -> M B) (g g' : gen)
  (b : B) (out : string) :
  pure m ->
  bind m k g = Ok b g' out ->
  exists a o1 o2,
    m g = Ok a g o1 /\ k a g = Ok b g' o2 /\ out = o1 ++ o2.
Proof.
  intros P H. apply bind_Ok in H.
  destruct H as (a & g1 & o1 & o2 & H1 & H2 & ->).
  pose proof (P _ _ _ _ H1) as E. subst g1.
  now exists a, o1, o2.
Qed.

Ltac head_pure :=
  unfold pure;
  repeat first
    [ apply writeCtorPrototype_pure
    | apply writeCtorImpl_pure
    | apply forEachFunc_pure; intro; apply writeFuncPrototype_pure
    | pure_step ].

(** One step into [genImpl]: [E] says where the text still to come sits in
    the whole. *)
Ltac peel_pure H E :=
  let o1 := fresh "o" in
  let o2 := fresh "o" in
  let Eo := fresh "Eo" in
  apply bind_pure_split in H; [|head_pure];
  destruct H as (? & o1 & o2 & _ & H & Eo); cbv beta in H;
  rewrite Eo in E;
  match type of E with
  | _ = ?pre ++ (_ ++ _) => rewrite <- (append_assoc pre o1 o2) in E
  end;
  clear Eo.

(** The implementation holds the prototypes of the private functions
    before the definitions of all the functions, which come last. *)
Lemma genImpl_split (g g' : gen) (iout : string) :
  genImpl g = Ok tt g' iout ->
  exists a PF b IMPL : string,
    forEach writeFuncPrototype (funcDecls priOnly (files g)) g = Ok tt g PF
    /\ forEach writeFuncImpl (funcDecls bothPubPri (files g)) g
       = Ok tt g' IMPL
    /\ iout = a ++ PF ++ b ++ IMPL.
Proof.
  intro H. unfold genImpl in H. cbv zeta in H.
  apply bind_Ok in H. destruct H as (g0 & ? & ? & o0 & H0 & H & E).
  apply getG_Ok in H0. destruct H0 as (-> & -> & ->).
  repeat match type of H with
         | bind (forEachFunc priOnly writeFuncPrototype) _ _ = _ => fail 1
         | bind _ _ _ = _ => peel_pure H E
         end.
  apply bind_pure_split in H; [|head_pure].
  destruct H as ([] & PF & rest & HP & H & Eo). cbv beta in H.
  rewrite Eo in E. clear Eo.
  pose (r0 := rest).
  assert (E2 : r0 = "" ++ rest) by reflexivity.
  repeat match type of H with
         | bind _ _ _ = _ => peel_pure H E2
         end.
  rewrite forEachFunc_decls in HP, H.
  match type of E with _ = ?a ++ _ => exists a end.
  exists PF.
  match type of E2 with _ = ?b ++ ?i => exists b, i end.
  split; [exact HP|]. split; [exact H|].
  rewrite E. f_equal. f_equal. exact E2.
Qed.

Lemma samePackage_refl (g : gen) : samePackage g g.
Proof. exists (perFunc_ g). now destruct g. Qed.

Lemma samePackage_trans (g1 g2 g3 : gen) :
  samePackage g1 g2 -> samePackage g2 g3 -> samePackage g1 g3.
Proof. intros [p ->] [q ->]. now exists q. Qed.

Lemma samePackage_set (f : perFunc -> perFunc) (g : gen) :
  samePackage g (setPerFunc (f (perFunc_ g)) g).
Proof. now eexists. Qed.

(** Lowering a function changes the state of the current function
    only. *)
Lemma writeFuncImpl_samePackage (n : Node) :
  preserves samePackage (writeFuncImpl n).
Proof.
  unfold writeFuncImpl, writeFuncImplEmit, writeFuncImplPrologue.
  repeat first
    [ apply (pure_pres _ _ samePackage_refl);
      first [ apply writeFuncSignature_pure
            | apply writeFuncImplArgChecks_pure
            | apply writeVars_pure ]
    | apply pres_bind_getG'; intro
    | apply pres_modify; intro; eexists; reflexivity
    | apply (writeStatement_frame samePackage samePackage_refl
               samePackage_trans);
      intros; eexists; reflexivity
    | pres_step_eqn samePackage_refl samePackage_trans
    | apply (pres_forEach _ samePackage_refl samePackage_trans);
      intros ? ? ].
Qed.

(** Every round of a loop runs in a state the rounds before have led to,
    and what it writes is in the text of the loop. *)
Lemma forEach_each_rel {A : Type} (R : gen -> gen -> Prop)
  (f : A -> M unit) (l : list A) :
  (forall g, R g g) ->
  (forall g1 g2 g3, R g1 g2 -> R g2 g3 -> R g1 g3) ->
  (forall x, preserves R (f x)) ->
  forall g g' out,
    forEach f l g = Ok tt g' out ->
    forall x, In x l ->
      exists g1 g2 o,
        R g g1 /\ f x g1 = Ok tt g2 o /\ contains o out.
Proof.
  intros Rr Rt Hf. induction l as [|y l IH]; intros g g' out H x I;
    [contradiction|].
  simpl in H. apply bind_Ok in H.
  destruct H as ([] & g1 & o1 & o2 & H1 & H2 & ->).
  destruct I as [<-|I].
  - exists g, g1, o1. split; [apply Rr|]. split; [exact H1|].
    apply contains_app_l, contains_refl.
  - destruct (IH _ _ _ H2 x I) as (ga & gb & o & Ra & Ha & C).
    exists ga, gb, o. split; [|split; [exact Ha|]].
    + eapply Rt; [|exact Ra]. exact (Hf y _ _ _ _ H1).
    + now apply contains_app_r.
Qed.

Lemma funcDecls_split (files : list Node) (f : Node) :
  In f (funcDecls bothPubPri files) ->
  In f (funcDecls pubOnly files) \/ In f (funcDecls priOnly files).
Proof.
  unfold funcDecls. rewrite !in_flat_map.
  intros (file & If & I). apply filter_In in I. destruct I as [I S].
  destruct (selected_split KFunc f) as (E & _). rewrite S in E.
  symmetry in E. apply Bool.orb_true_iff in E.
  destruct E as [E|E]; [left|right]; exists file;
    (split; [exact If | apply filter_In; now split]).
Qed.

(** *** The two sections, to the letter *)

Lemma Kind_eqb_true (a b : Kind) : Kind_eqb a b = true <-> a = b.
Proof.
  unfold Kind_eqb. destruct (Kind_eq_dec a b); split; congruence.
Qed.

Lemma selected_visible (k : Kind) (v : visibility) (n : Node) :
  selected k v n = Kind_eqb (kind n) k && visible v n.
Proof.
  unfold selected, visible, isPublic.
  destruct (Kind_eqb (kind n) k), v, (FlagsPublic (flags n)); reflexivity.
Qed.

Lemma filter_filter {A : Type} (p q : A -> bool) (l : list A) :
  filter q (filter p l) = filter (fun x => p x && q x) l.
Proof.
  induction l as [|x l IH]; [reflexivity|]. cbn [filter].
  destruct (p x); cbn [filter andb]; [destruct (q x)|]; now rewrite IH.
Qed.

Lemma filter_flat_map {A B : Type} (p : B -> bool) (h : A -> list B)
  (l : list A) :
  filter p (flat_map h l) = flat_map (fun x => filter p (h x)) l.
Proof.
  induction l as [|x l IH]; [reflexivity|]. cbn [flat_map].
  now rewrite filter_app, IH.
Qed.

Lemma selected_topLevel (k : Kind) (v : visibility) (fs : list Node) :
  flat_map (fun file => filter (selected k v) (TopLevelDecls file)) fs
  = filter (visible v) (topLevel k fs).
Proof.
  unfold topLevel. rewrite filter_flat_map.
  apply flat_map_ext. intro file. rewrite filter_filter.
  apply filter_ext. intro n. apply selected_visible.
Qed.

Lemma filter_true {A : Type} (l : list A) : filter (fun _ => true) l = l.
Proof. induction l as [|x l IH]; cbn; [|rewrite IH]; reflexivity. Qed.

Lemma funcDecls_topLevel (v : visibility) (fs : list Node) :
  funcDecls v fs = filter (visible v) (topLevel KFunc fs).
Proof. apply selected_topLevel. Qed.

Lemma funcDecls_all (fs : list Node) :
  funcDecls bothPubPri fs = topLevel KFunc fs.
Proof. rewrite funcDecls_topLevel. apply filter_true. Qed.

Lemma statusDecls_topLevel (fs : list Node) :
  statusDecls fs = topLevel KStatus fs.
Proof.
  unfold statusDecls. rewrite selected_topLevel. apply filter_true.
Qed.

Lemma in_topLevel (k : Kind) (fs : list Node) (n : Node) :
  In n (topLevel k fs)
  <-> exists file, In file fs /\ In n (TopLevelDecls file) /\ kind n = k.
Proof.
  unfold topLevel. rewrite in_flat_map.
  split; intros (file & I & H); exists file; (split; [exact I|]).
  - apply filter_In in H. now rewrite Kind_eqb_true in H.
  - apply filter_In. now rewrite Kind_eqb_true.
Qed.

Lemma bind_writes {B : Type} (s : string) (k : unit -> M B) (g : gen) :
  bind (writes s) k g = prepend s (k tt g).
Proof. reflexivity. Qed.

Lemma bind_getG {B : Type} (k : gen -> M B) (g : gen) :
  bind getG k g = k g g.
Proof. unfold bind, getG. now destruct (k g g). Qed.

Lemma enumBody_eq (g : gen) :
  enumBody g
  = String.concat ""
      (mapI (fun i s =>
           cName g s ++ " = " ++ showZ (-2 * Z.of_nat i)
           ++ (if HasPrefix s "error " then "+1" else "") ++ "," ++ nl)
         0 builtInStatuses)
    ++ String.concat ""
         (mapI (fun i s =>
              name s ++ " = "
              ++ showZ (-2 * Z.of_nat (userDefinedStatusBase + i))
              ++ (if isError s then "+1" else "") ++ "," ++ nl)
            0 (statusList g)).
Proof.
  unfold enumBody, statusEnumerators, builtInEnumerators, userEnumerators.
  rewrite map_app, concat_nil_app, !map_mapI.
  unfold enumLine. cbn [en_name en_init].
  f_equal; f_equal; apply mapI_ext; intros; now rewrite !append_assoc.
Qed.

(** [genHeader] succeeds when its three loops do, and then writes the text
    of the header around what they write. *)
Lemma genHeader_runs (g : gen) (S C F : string) :
  headerLoops g S C F ->
  genHeader g = Ok tt g (headerText g S C F).
Proof.
  intros (HS & HC & HF). unfold genHeader.
  rewrite bind_getG. cbv zeta.
  rewrite !bind_writes.
  rewrite (bind_step _ _ _ _ _ _ (forEachI_writes _ _ _ _)).
  rewrite (bind_step _ _ _ _ _ _ (forEachI_writes _ _ _ _)).
  rewrite !bind_writes.
  rewrite (bind_step _ _ _ _ _ _ HS).
  rewrite !bind_writes.
  assert (HC' : forEach (fun n =>
                     if Struct_Public n then writeCtorPrototype n else ret tt)
                  (structList g) g = Ok tt g C).
  { rewrite forEach_filter. exact HC. }
  rewrite (bind_step _ _ _ _ _ _ HC').
  rewrite !bind_writes.
  assert (HF' : forEachFunc pubOnly writeFuncPrototype g = Ok tt g F).
  { rewrite forEachFunc_decls, funcDecls_topLevel. exact HF. }
  rewrite (bind_step _ _ _ _ _ _ HF').
  rewrite !bind_writes.
  unfold writes at 1. cbn [prepend].
  unfold headerText. rewrite enumBody_eq. unfold includeGuardOf.
  rewrite !append_assoc. reflexivity.
Qed.

Lemma isErrorFunction_eq (pkg : string) :
  isErrorFunction pkg isErrorBody
  = "bool puffs_" ++ pkg ++ "_status_is_error(puffs_" ++ pkg
    ++ "_status s) {" ++ "return s & 1; }" ++ nl ++ nl.
Proof.
  unfold isErrorFunction, isErrorBody. do 4 f_equal.
Qed.

(** [genImpl] succeeds when its four loops do, and then writes the text of
    the implementation around what they write. *)
Lemma genImpl_runs (g g' : gen) (PC PF CI FI : string) :
  implLoops g g' PC PF CI FI ->
  genImpl g = Ok tt g' (implText g PC PF CI FI).
Proof.
  intros (HPC & HPF & HCI & HFI). unfold genImpl.
  rewrite bind_getG. cbv zeta.
  rewrite !bind_writes.
  rewrite (bind_step _ _ _ _ _ _ (forEach_writes _ _ _)).
  rewrite (bind_step _ _ _ _ _ _ (forEach_writes _ _ _)).
  rewrite !bind_writes.
  assert (HPC' : forEach (fun n =>
                     if negb (Struct_Public n) then writeCtorPrototype n
                     else ret tt)
                   (structList g) g = Ok tt g PC).
  { rewrite (forEach_filter (fun n => negb (Struct_Public n))). exact HPC. }
  rewrite (bind_step _ _ _ _ _ _ HPC').
  rewrite !bind_writes.
  assert (HPF' : forEachFunc priOnly writeFuncPrototype g = Ok tt g PF).
  { rewrite forEachFunc_decls, funcDecls_topLevel. exact HPF. }
  rewrite (bind_step _ _ _ _ _ _ HPF').
  rewrite !bind_writes.
  rewrite (bind_step _ _ _ _ _ _ HCI).
  rewrite !bind_writes.
  rewrite forEachFunc_decls, funcDecls_all, HFI. cbn [prepend].
  unfold implText. rewrite isErrorFunction_eq.
  unfold statusTable, statusMessages, statusStringFunction, magicText.
  rewrite length_app, !length_map, map_app, !map_map, concat_nil_app.
  rewrite !append_assoc. reflexivity.
Qed.

(** The loops of a successful [genHeader]. *)
Lemma genHeader_loops (g g' : gen) (hout : string) :
  genHeader g = Ok tt g' hout ->
  exists S C F : string, headerLoops g S C F.
Proof.
  intro H. destruct (genHeader_sections _ _ _ H) as (S & C & F & HS & HC & HF & _).
  exists S, C, F. unfold headerLoops.
  rewrite funcDecls_topLevel in HF. now repeat split.
Qed.

(** A successful [genHeader] leaves the generator as it was and has written
    the text of the header, to the letter. *)
Lemma genHeader_exact (g g' : gen) (hout : string) :
  genHeader g = Ok tt g' hout ->
  g' = g
  /\ exists S C F : string,
       headerLoops g S C F /\ hout = headerText g S C F.
Proof.
  intro H. destruct (genHeader_loops _ _ _ H) as (S & C & F & L).
  rewrite (genHeader_runs _ _ _ _ L) in H. injection H as <- <-.
  split; [reflexivity|]. now exists S, C, F.
Qed.

Lemma genImpl_loops (g g' : gen) (iout : string) :
  genImpl g = Ok tt g' iout ->
  exists PC PF CI FI : string, implLoops g g' PC PF CI FI.
Proof.
  intro H. unfold genImpl in H. cbv zeta in H.
  repeat match type of H with
         | bind _ _ _ = _ =>
             apply bind_Ok in H;
             destruct H as (? & ? & ? & ? & ?H & H & ?); cbv beta in H
         end.
  repeat match goal with
         | W : writes _ _ = Ok _ _ _ |- _ =>
             apply writes_Ok in W; destruct W as (? & ?)
         | W : getG _ = Ok _ _ _ |- _ =>
             apply getG_Ok in W; destruct W as (? & ? & ?)
         | W : forEach (fun s => writes (@?h s)) ?l ?g0 = Ok _ _ _ |- _ =>
             apply (forEach_writes_Ok h l g0) in W; destruct W as (? & ?)
         end.
  subst.
  repeat match goal with
         | W : forEach (fun n => if negb (Struct_Public n) then _ else _) _ _
               = Ok ?u ?g1 _ |- _ =>
             rewrite (forEach_filter (fun n => negb (Struct_Public n))) in W;
             assert (g1 = g)
               by (symmetry;
                   exact (forEach_pure _ _ writeCtorPrototype_pure _ _ _ _ W));
             subst g1; rewrite (unit_eq u) in W; revert W
         | W : forEachFunc priOnly _ _ = Ok ?u ?g1 _ |- _ =>
             rewrite forEachFunc_decls, funcDecls_topLevel in W;
             assert (g1 = g)
               by (symmetry;
                   exact (forEach_pure _ _ writeFuncPrototype_pure _ _ _ _ W));
             subst g1; rewrite (unit_eq u) in W; revert W
         | W : forEach writeCtorImpl _ _ = Ok ?u ?g1 _ |- _ =>
             assert (g1 = g)
               by (symmetry;
                   exact (forEach_pure _ _ writeCtorImpl_pure _ _ _ _ W));
             subst g1; rewrite (unit_eq u) in W; revert W
         end.
  rewrite forEachFunc_decls, funcDecls_all in H.
  intros HCI HPF HPC.
  do 4 eexists. unfold implLoops.
  split; [exact HPC | split; [exact HPF | split; [exact HCI | exact H]]].
Qed.

(** A successful [genImpl] has written the text of the implementation, to
    the letter. *)
Lemma genImpl_exact (g g' : gen) (iout : string) :
  genImpl g = Ok tt g' iout ->
  exists PC PF CI FI : string,
    implLoops g g' PC PF CI FI /\ iout = implText g PC PF CI FI.
Proof.
  intro H. destruct (genImpl_loops _ _ _ H) as (PC & PF & CI & FI & L).
  rewrite (genImpl_runs _ _ _ _ _ _ L) in H. injection H as <-.
  now exists PC, PF, CI, FI.
Qed.

(** *** The status enum and its predicate *)

Lemma contains_headerText_enum (g : gen) (S C F : string) :
  contains (("typedef enum {" ++ nl) ++ enumBody g
            ++ ("} puffs_" ++ pkgName g ++ "_status;" ++ nl ++ nl))
    (headerText g S C F).
Proof.
  unfold headerText. do 8 apply contains_app_r.
  eexists "", _. rewrite !append_assoc. reflexivity.
Qed.

Lemma contains_implText_isError (g : gen) (PC PF CI FI : string) :
  contains (isErrorFunction (pkgName g) isErrorBody) (implText g PC PF CI FI).
Proof.
  unfold implText. do 3 apply contains_app_r.
  apply contains_app_l, contains_refl.
Qed.

Lemma contains_enumLine (g : gen) (k : nat) (e : enumerator) (S C F : string) :
  nth_error (statusEnumerators g) k = Some e ->
  contains (enumLine e) (headerText g S C F).
Proof.
  intro H. eapply contains_trans; [|apply contains_headerText_enum].
  apply contains_app_r, contains_app_l. unfold enumBody.
  apply contains_concat, in_map. eapply nth_error_In. exact H.
Qed.

Lemma status_is_error_lsb (v : Z) :
  status_is_error v = Some (negb (Z.eqb (Z.land v 1) 0)).
Proof. reflexivity. Qed.

(** C2.  When its loops over the structs and the functions succeed,
    [genHeader] succeeds and emits the enum of the statuses, one line
    [name = value,] for each, the built-in statuses first: the built-in status
    at index [i] has the value [-2*i], and the status of the package at index
    [i] the value [-2*(128+i)], each with 1 added exactly when the status is
    an error.  Hence every value is at most 0, the value 0 belongs to the
    first enumerator, [status_ok], and the value -1 to the second,
    [error_bad_version]; and [genImpl] emits [status_is_error] with the body
    [return s & 1;], which is true of the value of an enumerator exactly when
    it stands for an error. *)
Theorem status_enum_values (g g' : gen) (S C F PC PF CI FI : string) :
  headerLoops g S C F ->
  implLoops g g' PC PF CI FI ->
  exists hout iout : string,
    genHeader g = Ok tt g hout
    /\ genImpl g = Ok tt g' iout
    /\ contains (("typedef enum {" ++ nl) ++ enumBody g
                 ++ ("} puffs_" ++ pkgName g ++ "_status;" ++ nl ++ nl)) hout
    /\ contains (isErrorFunction (pkgName g) isErrorBody) iout
    /\ (forall i s, nth_error builtInStatuses i = Some s ->
          exists e, nth_error (statusEnumerators g) i = Some e
            /\ contains (enumLine e) hout
            /\ en_name e = cName g s
            /\ en_isError e = HasPrefix s "error "
            /\ cConstValue (en_init e)
               = Some (-2 * Z.of_nat i + (if en_isError e then 1 else 0))%Z)
    /\ (forall i s, nth_error (statusList g) i = Some s ->
          exists e, nth_error (statusEnumerators g)
                      (List.length builtInStatuses + i) = Some e
            /\ contains (enumLine e) hout
            /\ en_name e = name s
            /\ en_isError e = isError s
            /\ cConstValue (en_init e)
               = Some (-2 * (128 + Z.of_nat i)
                       + (if en_isError e then 1 else 0))%Z)
    /\ (forall k e, nth_error (statusEnumerators g) k = Some e ->
          contains (enumLine e) hout
          /\ exists v, cConstValue (en_init e) = Some v
               /\ (v <= 0)%Z
               /\ (Z.land v 1 = 1%Z <-> en_isError e = true)
               /\ status_is_error v = Some (en_isError e)
               /\ (v = 0%Z <-> k = 0)
               /\ (v = (-1)%Z <-> k = 1))
    /\ (exists ok bv rest, statusEnumerators g = ok :: bv :: rest
          /\ en_name ok = "puffs_" ++ pkgName g ++ "_status_ok"
          /\ en_name bv = "puffs_" ++ pkgName g ++ "_error_bad_version").
Proof.
  intros HL IL.
  exists (headerText g S C F), (implText g PC PF CI FI).
  split; [now apply genHeader_runs|].
  split; [now apply genImpl_runs|].
  split; [apply contains_headerText_enum|].
  split; [apply contains_implText_isError|].
  split; [|split; [|split]].
  - intros i s E.
    assert (I : i < List.length builtInStatuses)
      by (apply nth_error_Some; congruence).
    assert (N : nth_error (statusEnumerators g) i
                = Some (mkEnumerator (cName g s)
                          (showZ (-2 * Z.of_nat i)
                           ++ (if HasPrefix s "error " then "+1" else ""))
                          (HasPrefix s "error "))).
    { unfold statusEnumerators. rewrite nth_error_app1
        by (unfold builtInEnumerators; now rewrite length_mapI).
      unfold builtInEnumerators. rewrite nth_error_mapI, E.
      reflexivity. }
    eexists. split; [exact N|].
    split; [eapply contains_enumLine; exact N|].
    cbn [en_name en_isError en_init].
    split; [reflexivity | split; [reflexivity|]]. apply cConstValue_init.
  - intros i s E.
    assert (N : nth_error (statusEnumerators g)
                  (List.length builtInStatuses + i)
                = Some (mkEnumerator (name s)
                          (showZ (-2 * Z.of_nat (userDefinedStatusBase + i))
                           ++ (if isError s then "+1" else ""))
                          (isError s))).
    { unfold statusEnumerators. rewrite nth_error_app2
        by (unfold builtInEnumerators; rewrite length_mapI; lia).
      unfold builtInEnumerators at 1. rewrite length_mapI.
      replace (List.length builtInStatuses + i - List.length builtInStatuses)
        with i by lia.
      unfold userEnumerators. rewrite nth_error_mapI, E.
      reflexivity. }
    eexists. split; [exact N|].
    split; [eapply contains_enumLine; exact N|].
    cbn [en_name en_isError en_init].
    split; [reflexivity | split; [reflexivity|]].
    rewrite cConstValue_init. do 2 f_equal.
    unfold userDefinedStatusBase. lia.
  - intros k e H. split; [eapply contains_enumLine; exact H|].
    apply enumerator_at in H.
    destruct H as [(s & K & E & ->)|(i & s & -> & E & ->)]; cbn [en_init en_isError].
    + rewrite cConstValue_init. eexists. split; [reflexivity|].
      rewrite status_is_error_lsb, land_one.
      assert (B : (k = 0 -> HasPrefix s "error " = false)
                  /\ (k = 1 -> HasPrefix s "error " = true)).
      { split; intros ->; simpl in E; injection E as <-; reflexivity. }
      destruct B as (B0 & B1).
      destruct (HasPrefix s "error ") eqn:P; cbn [negb Z.eqb];
        repeat split; intros; try reflexivity; try discriminate; try lia;
        exfalso;
        first [ assert (K0 : k = 0) by lia; specialize (B0 K0); discriminate
              | assert (K1 : k = 1) by lia; specialize (B1 K1); discriminate ].
    + rewrite cConstValue_init. eexists. split; [reflexivity|].
      rewrite status_is_error_lsb, land_one.
      unfold userDefinedStatusBase.
      change (List.length builtInStatuses) with 9.
      destruct (isError s); cbn [negb Z.eqb];
        repeat split; intros; try reflexivity; try discriminate; lia.
  - unfold statusEnumerators, builtInEnumerators, builtInStatuses.
    cbn [mapI app].
    do 3 eexists. split; [reflexivity|]. split; reflexivity.
Qed.

(** *** The header section and the implementation section *)

(** C4, as the code has it.  The output of a successful run is the header,
    the marker line and the implementation.  The header is fixed text and
    the enum of the statuses around three blocks and no more: the layouts of
    all the structs of the package, public or private, in the sorted order;
    the prototypes of the constructors and destructors of the public
    structs; the prototypes of the public functions.  The prototypes of the
    private structs and functions are in the implementation, before the
    definitions of all the constructors, destructors and functions. *)
Theorem header_struct_layouts (g g' : gen) (out : string) :
  generate g = Ok tt g' out ->
  exists (g2 : gen) (hout iout S C F PC PF CI FI : string),
    out = hout ++ headerEndsHere ++ iout
    /\ genHeader g2 = Ok tt g2 hout
    /\ genImpl g2 = Ok tt g' iout
    /\ pkgName g2 = pkgName g /\ tm g2 = tm g /\ files g2 = files g
    /\ structList g2
       = fst (TopologicalSortStructs (topLevel KStruct (files g)))
    /\ hout = headerText g2 S C F
    /\ iout = implText g2 PC PF CI FI
    /\ forEach writeStruct (structList g2) g2 = Ok tt g2 S
    /\ forEach writeCtorPrototype (filter isPublic (structList g2)) g2
       = Ok tt g2 C
    /\ forEach writeFuncPrototype
         (filter isPublic (topLevel KFunc (files g))) g2
       = Ok tt g2 F
    /\ (forall n, In n (structList g2) ->
        exists body : string,
          contains
            (("typedef struct {" ++ nl) ++ body
             ++ ("} private_impl;" ++ nl ++ " } puffs_" ++ pkgName g ++ "_"
                 ++ ByID (tm g) (Struct_Name n) ++ ";" ++ nl ++ nl)) S)
    /\ forEach writeCtorPrototype
         (filter (fun n => negb (isPublic n)) (structList g2)) g2
       = Ok tt g2 PC
    /\ forEach writeFuncPrototype
         (filter (fun n => negb (isPublic n)) (topLevel KFunc (files g))) g2
       = Ok tt g2 PF
    /\ forEach writeCtorImpl (structList g2) g2 = Ok tt g2 CI
    /\ forEach writeFuncImpl (topLevel KFunc (files g)) g2 = Ok tt g' FI.
Proof.
  intro H. apply generate_Ok in H.
  destruct H as (g1 & hout & iout & Hc & Hh & Hi & ->).
  apply collector_Ok in Hc. destruct Hc as (_ & _ & T & P & Fl).
  cbn [tm pkgName files setStatusMap] in T, P, Fl.
  destruct (genHeader_exact _ _ _ Hh) as (_ & S & C & F & (HS & HC & HF) & EH).
  destruct (genImpl_exact _ _ _ Hi)
    as (PC & PF & CI & FI & (HPC & HPF & HCI & HFI) & EI).
  exists (collected g1), hout, iout, S, C, F, PC, PF, CI, FI.
  replace (files (collected g1)) with (files g) in * by (symmetry; exact Fl).
  replace (structList (collected g1))
    with (fst (TopologicalSortStructs (topLevel KStruct (files g)))) in *
    by (unfold collected; cbn [structList setStructMap setStructList];
        now rewrite Fl).
  repeat (split; [first [reflexivity | assumption]|]).
  split; [|repeat (split; [first [reflexivity | assumption]|]); assumption].
  intros n I.
  destruct (forEach_each _ _ _ _ _ writeStruct_pure HS n I) as (o & E & Co).
  apply writeStruct_layout in E. destruct E as (body & ->).
  exists body.
  replace (pkgName (collected g1)) with (pkgName g) in Co by (symmetry; exact P).
  replace (tm (collected g1)) with (tm g) in Co by (symmetry; exact T).
  exact Co.
Qed.

(** *** The collector *)

(** C5.  The collector visits the top-level declarations of kind status of
    every file, all of them and no other declaration, in source order.  Its
    pass fails exactly when the message of one of them is not a double-quoted
    literal, and then with the bad-status-message error and no other; when
    every message is quoted it appends, in that order, one status per
    declaration, whose name is the mangled keyword, space and unquoted
    message.  A package with a bad message makes the whole generation fail
    with that error. *)
Theorem collector_gathers_statuses (g : gen) :
  let collect := forEachStatus bothPubPri gatherStatuses in
  let ds := topLevel KStatus (files g) in
  let message d := ByID (tm g) (Status_Message d) in
  (forall d, In d ds
     <-> exists file, In file (files g) /\ In d (TopLevelDecls file)
                      /\ kind d = KStatus)
  /\ ((exists m, collect g = Err (ErrBadStatusMessage m))
   <-> (exists d, In d ds /\ ~ quotedLiteral (message d)))
  /\ (forall e, collect g = Err e -> exists m, e = ErrBadStatusMessage m)
  /\ ((forall d, In d ds -> quotedLiteral (message d)) ->
      exists g', collect g = Ok tt g' ""
        /\ statusList g' = (statusList g ++ map (statusOf g) ds)%list)
  /\ (forall d body, message d = dq ++ body ++ dq ->
        statusOf g d = statusOfBody g d body)
  /\ ((exists d, In d ds /\ ~ quotedLiteral (message d)) ->
      exists m, generate g = Err (ErrBadStatusMessage m)).
Proof.
  intros collect ds message. subst collect.
  split; [intro d; apply in_topLevel|].
  subst ds. rewrite <- statusDecls_topLevel.
  set (ds := statusDecls (files g)).
  assert (Bad : (exists d, In d ds /\ ~ quotedLiteral (message d)) ->
                exists m, forEach gatherStatuses ds g
                          = Err (ErrBadStatusMessage m)).
  { intros (d & I & Q). apply not_quoted in Q.
    destruct (gather_err ds g (ex_intro _ d (conj I Q))) as (d' & _ & _ & E).
    eauto. }
  split; [split|split; [|split; [|split]]].
  - intros (m & E). rewrite forEachStatus_decls in E.
    destruct (quoted_or_not ds g) as [Q|(d & I & Q)].
    + destruct (gather_ok ds g Q) as (g' & E' & _). fold ds in E. congruence.
    + exists d. split; [exact I | now apply not_quoted].
  - intro B. rewrite forEachStatus_decls. now apply Bad.
  - intros e E. rewrite forEachStatus_decls in E. fold ds in E.
    destruct (quoted_or_not ds g) as [Q|B].
    + destruct (gather_ok ds g Q) as (g' & E' & _). congruence.
    + destruct (gather_err ds g B) as (d & _ & _ & E').
      rewrite E' in E. injection E as <-. eauto.
  - intro Q. rewrite forEachStatus_decls. fold ds.
    assert (Q1 : forall d, In d ds -> isQuoted (message d) = true).
    { intros d I. apply isQuoted_spec. now apply Q. }
    destruct (gather_ok ds g Q1) as (g' & E & L & _).
    eauto.
  - intros d body E. unfold statusOf. fold (message d). rewrite E.
    now rewrite unquote_literal.
  - intros (d & I & Q). apply not_quoted in Q.
    destruct (gather_err ds (setStatusMap [] g) (ex_intro _ d (conj I Q)))
      as (d' & _ & _ & E').
    exists (message d'). unfold generate.
    eapply bind_Err_r; [unfold modify; reflexivity|].
    apply bind_Err_l. rewrite forEachStatus_decls. exact E'.
Qed.

(** *** The loops over the functions *)

(** X9.  The loops over the functions of a package.  The functions are the
    top-level declarations of kind function of the files, all of them and
    in source order; [forEachFunc] visits those of the visibility asked for,
    in that order; the public ones and the private ones together are all the
    functions, each once.  [genHeader] succeeds exactly when its loops do, and
    its text then holds, besides the layouts and the prototypes of the
    structs, the prototypes of the public functions and of no other;
    [genImpl] succeeds exactly when its loops do, and its text then holds the
    prototypes of the private functions and the definitions of all the
    functions. *)
Theorem funcs_by_visibility (g : gen) :
  let fs := topLevel KFunc (files g) in
  (forall n, In n fs
     <-> exists file, In file (files g) /\ In n (TopLevelDecls file)
                      /\ kind n = KFunc)
  /\ (forall v f, forEachFunc v f g = forEach f (filter (visible v) fs) g)
  /\ Permutation
       (filter isPublic fs ++ filter (fun n => negb (isPublic n)) fs) fs
  /\ (forall g' hout,
        genHeader g = Ok tt g' hout
        <-> g' = g /\ exists S C F : string,
              forEach writeStruct (structList g) g = Ok tt g S
              /\ forEach writeCtorPrototype
                   (filter isPublic (structList g)) g = Ok tt g C
              /\ forEach writeFuncPrototype (filter isPublic fs) g
                 = Ok tt g F
              /\ hout = headerText g S C F)
  /\ (forall g' iout,
        genImpl g = Ok tt g' iout
        <-> exists PC PF CI FI : string,
              forEach writeCtorPrototype
                (filter (fun n => negb (isPublic n)) (structList g)) g
              = Ok tt g PC
              /\ forEach writeFuncPrototype
                   (filter (fun n => negb (isPublic n)) fs) g
                 = Ok tt g PF
              /\ forEach writeCtorImpl (structList g) g = Ok tt g CI
              /\ forEach writeFuncImpl fs g = Ok tt g' FI
              /\ iout = implText g PC PF CI FI).
Proof.
  intro fs. split; [intro n; apply in_topLevel|].
  split; [intros v f; rewrite forEachFunc_decls, funcDecls_topLevel;
          reflexivity|].
  split.
  { pose proof (proj1 (proj2 (funcDecls_by_visibility g))) as P.
    rewrite !funcDecls_topLevel in P. cbn [visible] in P.
    rewrite filter_true in P. exact P. }
  split.
  - intros g' hout. split.
    + intro H. destruct (genHeader_exact _ _ _ H)
        as (-> & S & C & F & (HS & HC & HF) & E).
      split; [reflexivity|]. now exists S, C, F.
    + intros (-> & S & C & F & HS & HC & HF & ->).
      apply genHeader_runs. now repeat split.
  - intros g' iout. split.
    + intro H. destruct (genImpl_exact _ _ _ H)
        as (PC & PF & CI & FI & (HPC & HPF & HCI & HFI) & E).
      now exists PC, PF, CI, FI.
    + intros (PC & PF & CI & FI & HPC & HPF & HCI & HFI & ->).
      apply genImpl_runs. now repeat split.
Qed.

(** *** The signature of a function *)

Lemma names_ret {A : Type} (x : A) : byNames (ret x).
Proof. intros g g0 _ _. now split. Qed.

Lemma names_fail {A : Type} (e : error) : byNames (@fail A e).
Proof. intros g g0 _ _. reflexivity. Qed.

Lemma names_writes (s : string) : byNames (writes s).
Proof. intros g g0 _ _. now split. Qed.

Lemma names_deref {A : Type} (o : option A) : byNames (deref o).
Proof. intros g g0 _ _. destruct o; cbn; [now split | reflexivity]. Qed.

Lemma names_bind {A B : Type} (m : M A) (k : A -> M B) :
  byNames m -> (forall a, byNames (k a)) -> byNames (bind m k).
Proof.
  intros Hm Hk g g0 P T. unfold bind.
  specialize (Hm g g0 P T).
  destruct (m g) as [a g1 o1|e]; [|now rewrite Hm].
  destruct Hm as (-> & ->).
  specialize (Hk a g g0 P T).
  destruct (k a g) as [b g2 o2|e]; [|now rewrite Hk].
  destruct Hk as (-> & ->). now split.
Qed.

(** The continuation of [g <- getG] may read the package name and the
    identifier table of [g], and no more. *)
Lemma names_bind_getG {B : Type} (k : gen -> M B) :
  (forall g g0, pkgName g0 = pkgName g -> tm g0 = tm g -> k g0 = k g) ->
  (forall g1, byNames (k g1)) ->
  byNames (bind getG k).
Proof.
  intros Hr Hk g g0 P T. unfold bind, getG.
  rewrite (Hr g g0 P T).
  specialize (Hk g g g0 P T).
  destruct (k g g) as [b g2 o2|e]; [|now rewrite Hk].
  destruct Hk as (-> & ->). now split.
Qed.

Lemma names_when (b : bool) (m : M unit) : byNames m -> byNames (when b m).
Proof. intro Hm. destruct b; [exact Hm | apply names_ret]. Qed.

Lemma names_foldM {A B : Type} (f : B -> A -> M B) (l : list A) :
  (forall b x, In x l -> byNames (f b x)) ->
  forall b, byNames (foldM f b l).
Proof.
  induction l as [|x l IH]; intros Hf b; simpl.
  - apply names_ret.
  - apply names_bind; [apply Hf; now left|].
    intros b'. apply IH. intros c y I. apply Hf. now right.
Qed.

Ltac names_step :=
  lazymatch goal with
  | |- byNames (bind getG _) =>
      apply names_bind_getG;
      [ let P := fresh "P" in let T := fresh "T" in
        intros ? ? P T; cbv beta; rewrite ?P, ?T; reflexivity
      | intro ]
  | |- byNames (bind _ _) => apply names_bind; [|intro]
  | |- byNames (ret _) => apply names_ret
  | |- byNames (fail _) => apply names_fail
  | |- byNames (writes _) => apply names_writes
  | |- byNames (writeb _) => apply names_writes
  | |- byNames (deref _) => apply names_deref
  | |- byNames (when _ _) => apply names_when
  | |- byNames (foldM _ _ _) => apply names_foldM; intros ? ? ?
  | |- byNames (if ?b then _ else _) => destruct b eqn:?
  | |- byNames (match ?x with _ => _ end) => destruct x eqn:?
  end.

Lemma countPointers_names (n : Node) (x : Node) :
  forall k, byNames (countPointers n k x).
Proof.
  induction x as [x IH] using node_ind. intro k.
  rewrite countPointers_eq.
  repeat names_step. apply IH. height_solve.
Qed.

Lemma writeArrayExtents_names (x : Node) : byNames (writeArrayExtents x).
Proof.
  induction x as [x IH] using node_ind.
  rewrite writeArrayExtents_eq.
  repeat names_step. apply IH. height_solve.
Qed.

Lemma writeCTypeName_names (n : Node) (p v : string) :
  byNames (writeCTypeName n p v).
Proof.
  unfold writeCTypeName.
  repeat first [ names_step | apply countPointers_names
               | apply writeArrayExtents_names ].
Qed.

(** The signature of a function depends on the function, on the package
    name and on the identifier table, and on nothing else. *)
Lemma writeFuncSignature_names (n : Node) : byNames (writeFuncSignature n).
Proof.
  unfold writeFuncSignature.
  repeat first [ names_step | apply writeCTypeName_names ].
Qed.

(** X27.  Every function is declared before it is defined, with one and
    the same signature.  In the text of a successful [generate], each
    top-level function declaration of the package, public or private, has
    its prototype (in the header if it is public, among the private
    prototypes of the implementation if not) and, further on, its
    definition; the prototype is the signature and a semicolon, the
    definition starts with the signature and an opening brace; the
    signature is the text that [writeFuncSignature] writes for the function
    from any generator with the package name and the identifier table of
    the run. *)
Theorem declared_before_defined (g g' : gen) (out : string) (f : Node) :
  generate g = Ok tt g' out ->
  In f (topLevel KFunc (files g)) ->
  exists sig a b c : string,
    (forall g0, pkgName g0 = pkgName g -> tm g0 = tm g ->
       writeFuncSignature f g0 = Ok tt g0 sig
       /\ writeFuncPrototype f g0 = Ok tt g0 (sig ++ ";" ++ nl ++ nl))
    /\ out = a ++ (sig ++ ";" ++ nl ++ nl) ++ b ++ (sig ++ "{" ++ nl) ++ c.
Proof.
  intros H I. rewrite <- funcDecls_all in I.
  destruct (generate_Ok _ _ _ H) as (g1 & hout & iout & HC & HH & HI & ->).
  destruct (collector_Ok _ _ _ HC) as (_ & _ & Tg & Pg & Fg).
  change (files (setStatusMap [] g)) with (files g) in Fg.
  change (tm (setStatusMap [] g)) with (tm g) in Tg.
  change (pkgName (setStatusMap [] g)) with (pkgName g) in Pg.
  assert (FG : files (collected g1) = files g) by exact Fg.
  destruct (genImpl_split _ _ _ HI) as (a & PF & b & IMPL & HP & HM & ->).
  rewrite FG in HP, HM.
  destruct (forEach_each_rel samePackage _ _ samePackage_refl
              samePackage_trans writeFuncImpl_samePackage _ _ _ HM f I)
    as (gf & g2 & o & [p ->] & Hf & (u & v & ->)).
  destruct (writeFuncImpl_head _ _ _ _ _ Hf) as (sig & rest & Hs & ->).
  assert (Hp : writeFuncPrototype f (collected g1)
               = Ok tt (collected g1) (sig ++ ";" ++ nl ++ nl)).
  { unfold writeFuncPrototype, bind. rewrite Hs. reflexivity. }
  assert (C : contains (sig ++ ";" ++ nl ++ nl)
                (hout ++ headerEndsHere ++ a ++ PF ++ b)).
  { destruct (funcDecls_split _ _ I) as [Ip|Ip].
    - destruct (genHeader_sections _ _ _ HH) as (S & Cs & F & _ & _ & HF & CF).
      rewrite FG in HF.
      destruct (forEach_each _ _ _ _ _ writeFuncPrototype_pure HF f Ip)
        as (o & Ho & Co).
      rewrite Hp in Ho. apply Ok_inj in Ho. destruct Ho as (_ & _ & <-).
      apply contains_app_l.
      refine (contains_trans _ _ _ Co (contains_trans _ _ _ _ CF)).
      do 5 apply contains_app_r. apply contains_refl.
    - destruct (forEach_each _ _ _ _ _ writeFuncPrototype_pure HP f Ip)
        as (o & Ho & Co).
      rewrite Hp in Ho. apply Ok_inj in Ho. destruct Ho as (_ & _ & <-).
      do 3 apply contains_app_r. apply contains_app_l. exact Co. }
  destruct C as (pre & mid & E).
  exists sig, pre, (mid ++ u), (rest ++ v).
  split.
  { intros g0 P0 T0.
    assert (N := writeFuncSignature_names f (collected g1) g0).
    rewrite Hs in N. destruct N as (_ & N).
    - rewrite P0. symmetry. exact Pg.
    - rewrite T0. symmetry. exact Tg.
    - split; [exact N|]. unfold writeFuncPrototype, bind. rewrite N.
      reflexivity. }
  transitivity ((hout ++ headerEndsHere ++ a ++ PF ++ b)
                ++ u ++ (sig ++ "{" ++ nl ++ rest) ++ v).
  - now rewrite !append_assoc.
  - rewrite E. now rewrite !append_assoc.
Qed.

(** *** The hoisted read of a function *)


(** *** What a run depends on *)

Lemma ign_forEach {A : Type} (f : A -> M unit) (l : list A) :
  (forall x, In x l -> ignoresPerFunc (f x)) -> ignoresPerFunc (forEach f l).
Proof.
  induction l as [|x l IH]; intro Hf; simpl.
  - apply ign_ret.
  - apply ign_bind; [apply Hf; now left|].
    intros _. apply IH. intros y I. apply Hf. now right.
Qed.

Lemma ign_forEachI {A : Type} (f : nat -> A -> M unit) (l : list A) :
  (forall i x, In x l -> ignoresPerFunc (f i x)) ->
  forall i, ignoresPerFunc (forEachI f i l).
Proof.
  induction l as [|x l IH]; intros Hf i; simpl.
  - apply ign_ret.
  - apply ign_bind; [apply Hf; now left|].
    intros _. apply IH. intros j y I. apply Hf. now right.
Qed.

Ltac ign_steps :=
  repeat first
    [ ign_step
    | apply ign_forEach; intros ? ?
    | apply ign_forEachI; intros ? ? ?
    | apply writeCTypeName_ign
    | apply writeFuncSignature_ign ].

Lemma writeStruct_ign (n : Node) : ignoresPerFunc (writeStruct n).
Proof. unfold writeStruct. ign_steps. Qed.

Lemma writeCtorSignature_ign (n : Node) (p c : bool) :
  ignoresPerFunc (writeCtorSignature n p c).
Proof. unfold writeCtorSignature. ign_steps. Qed.

Lemma writeCtorPrototype_ign (n : Node) : ignoresPerFunc (writeCtorPrototype n).
Proof.
  unfold writeCtorPrototype. ign_steps. apply writeCtorSignature_ign.
Qed.

Lemma writeCtorImpl_ign (n : Node) : ignoresPerFunc (writeCtorImpl n).
Proof.
  unfold writeCtorImpl. ign_steps; apply writeCtorSignature_ign.
Qed.

Lemma writeFuncPrototype_ign (n : Node) : ignoresPerFunc (writeFuncPrototype n).
Proof. unfold writeFuncPrototype. ign_steps. Qed.

Lemma forEachFunc_ign (v : visibility) (f : Node -> M unit) :
  (forall n, ignoresPerFunc (f n)) -> ignoresPerFunc (forEachFunc v f).
Proof.
  intro Hf. unfold forEachFunc. ign_steps; apply Hf.
Qed.

Lemma genHeader_ign : ignoresPerFunc genHeader.
Proof.
  unfold genHeader. cbv zeta.
  ign_steps;
    first [ apply writeStruct_ign | apply writeCtorPrototype_ign
          | apply forEachFunc_ign; intro; apply writeFuncPrototype_ign ].
Qed.

Lemma forgets_ign {A : Type} (m : M A) : ignoresPerFunc m -> forgetsPerFunc m.
Proof. intros H p g. rewrite H. now destruct (m g). Qed.

Lemma forgets_bind {A B : Type} (m : M A) (k : A -> M B) :
  ignoresPerFunc m -> (forall a, forgetsPerFunc (k a)) ->
  forgetsPerFunc (bind m k).
Proof.
  intros Hm Hk p g. unfold bind. rewrite Hm.
  destruct (m g) as [a g1 o1|e]; [|reflexivity].
  specialize (Hk a p g1).
  destruct (k a (setPerFunc p g1)), (k a g1); cbn in *; congruence.
Qed.

Lemma forgets_bind_getG {B : Type} (k : gen -> M B) :
  (forall p g0, k (setPerFunc p g0) = k g0) ->
  (forall g0, forgetsPerFunc (k g0)) ->
  forgetsPerFunc (bind getG k).
Proof.
  intros Hr Hk p g. unfold bind, getG. rewrite Hr.
  specialize (Hk g p g).
  destruct (k g (setPerFunc p g)), (k g g); cbn in *; congruence.
Qed.

(** The lowering of a function starts by setting the state of the current
    function: what the state was does not matter. *)
Lemma writeFuncImpl_resets (n : Node) (p : perFunc) (g : gen) :
  writeFuncImpl n (setPerFunc p g) = writeFuncImpl n g.
Proof.
  unfold writeFuncImpl, writeFuncImplEmit, writeFuncImplPrologue.
  unfold bind at 1 2 3. unfold modify at 1.
  symmetry. unfold bind at 1 2 3. unfold modify at 1. symmetry.
  reflexivity.
Qed.

Lemma forEach_resets {A : Type} (f : A -> M unit) (l : list A) :
  (forall x p g, f x (setPerFunc p g) = f x g) ->
  forgetsPerFunc (forEach f l).
Proof.
  intros Hf p g. destruct l as [|x l]; [reflexivity|].
  cbn [forEach]. unfold bind. now rewrite Hf.
Qed.

Lemma genImpl_forgets : forgetsPerFunc genImpl.
Proof.
  unfold genImpl. cbv zeta.
  apply forgets_bind_getG; [intros; reflexivity | intro g0].
  repeat match goal with
         | |- forgetsPerFunc (bind _ _) =>
             apply forgets_bind;
             [ solve [ ign_steps;
                       first [ apply writeCtorPrototype_ign
                             | apply writeCtorImpl_ign
                             | apply forEachFunc_ign; intro;
                               apply writeFuncPrototype_ign ] ]
             | intro ]
         end.
  intros p g. rewrite !forEachFunc_decls.
  apply forEach_resets. intros x q h. apply writeFuncImpl_resets.
Qed.

(** The collector on two generators that hold the same inputs and the same
    status map. *)
Lemma collector_frame (ds : list Node) :
  forall g1 g2,
    sameInputs g1 g2 -> statusMap g1 = statusMap g2 ->
    match forEach gatherStatuses ds g1, forEach gatherStatuses ds g2 with
    | Ok _ h1 o1, Ok _ h2 o2 =>
        sameInputs h1 h2 /\ statusMap h1 = statusMap h2 /\ o1 = o2
    | Err e1, Err e2 => e1 = e2
    | _, _ => False
    end.
Proof.
  induction ds as [|d ds IH]; intros g1 g2 S M; [now cbn|].
  cbn [forEach]. unfold bind. rewrite !gatherStatuses_run.
  destruct S as (P & T & F & L).
  rewrite (statusOf_ext g2 g1 d) by assumption.
  rewrite T.
  destruct (isQuoted (ByID (tm g2) (Status_Message d))); [|reflexivity].
  match goal with
  | |- match match forEach _ _ ?a with _ => _ end with _ => _ end =>
      set (h1 := a)
  end.
  match goal with
  | |- match _ with
       | Ok _ _ _ => match match forEach _ _ ?b with _ => _ end with _ => _ end
       | Err _ => _
       end => set (h2 := b)
  end.
  assert (S' : sameInputs h1 h2).
  { subst h1 h2. unfold sameInputs. cbn. now rewrite P, T, F, L. }
  assert (M' : statusMap h1 = statusMap h2).
  { subst h1 h2. cbn. now rewrite M. }
  specialize (IH h1 h2 S' M').
  destruct (forEach gatherStatuses ds h1), (forEach gatherStatuses ds h2);
    cbn [append]; exact IH.
Qed.

(** [generate], step by step. *)
Lemma generate_run (g : gen) :
  generate g =
  match forEachStatus bothPubPri gatherStatuses (setStatusMap [] g) with
  | Ok _ h o =>
      prepend o
        (if snd (TopologicalSortStructs (unsortedStructs (files h)))
         then (genHeader ;; writes headerEndsHere ;; genImpl) (collected h)
         else Err ErrCyclicalStructs)
  | Err e => Err e
  end.
Proof.
  unfold generate. unfold bind at 1. unfold modify at 1.
  unfold bind at 1.
  destruct (forEachStatus bothPubPri gatherStatuses (setStatusMap [] g))
    as [[] h o|e]; [|reflexivity].
  unfold bind at 1. unfold getG at 1. unfold collected.
  destruct (TopologicalSortStructs (unsortedStructs (files h)))
    as [sorted ok].
  unfold bind at 1. unfold modify at 1. cbn [snd fst].
  destruct ok; cbn [negb]; [|reflexivity].
  unfold bind at 1. unfold modify at 1.
  unfold bind at 1. rewrite buildStructMap.
  cbn [structMap setStructMap List.app]. rewrite app_nil_r.
  cbn [prepend append].
  destruct ((genHeader ;; writes headerEndsHere ;; genImpl) _);
    reflexivity.
Qed.

Lemma outcome_prepend {A : Type} (o : string) (r : Res A) :
  outcome (prepend o r)
  = match outcome r with
    | inr t => inr (o ++ t)
    | inl e => inl e
    end.
Proof. now destruct r. Qed.

Lemma collected_sameInputs (h1 h2 : gen) :
  sameInputs h1 h2 -> statusMap h1 = statusMap h2 ->
  collected h1 = setPerFunc (perFunc_ h1) (collected h2).
Proof.
  intros (P & T & F & L) M.
  destruct h1, h2. cbn in P, T, F, L, M. subst.
  reflexivity.
Qed.

(** C9.  The text of a run is a function of its three inputs.  Generation
    from two generators that hold the same package name, identifier table
    and files, with the same statuses gathered so far (none in the
    generator that [main] builds), gives the same text, or fails with the
    same error, whatever else the two hold: the status map, the list and
    the map of the structs and the state of the current function are set
    anew before they are read.  So every run on these inputs gives what
    [run] gives.  The name mangler reads the package name and the name it
    is given, and nothing else of the generator. *)
Theorem backend_deterministic :
  (forall g1 g2 s, pkgName g1 = pkgName g2 -> cName g1 s = cName g2 s)
  /\ (forall g1 g2,
        sameInputs g1 g2 -> outcome (generate g1) = outcome (generate g2))
  /\ (forall g,
        statusList g = [] ->
        outcome (generate g) = run (pkgName g) (tm g) (files g)).
Proof.
  assert (D : forall g1 g2,
            sameInputs g1 g2 ->
            outcome (generate g1) = outcome (generate g2)).
  { intros g1 g2 S. rewrite !generate_run, !forEachStatus_decls.
    assert (S0 : sameInputs (setStatusMap [] g1) (setStatusMap [] g2))
      by exact S.
    destruct S as (_ & _ & F & _).
    change (files (setStatusMap [] g1)) with (files g1).
    change (files (setStatusMap [] g2)) with (files g2).
    rewrite F.
    pose proof (collector_frame (statusDecls (files g2)) _ _ S0 eq_refl) as C.
    destruct (forEach gatherStatuses (statusDecls (files g2))
                (setStatusMap [] g1)) as [[] h1 o1|e1];
      destruct (forEach gatherStatuses (statusDecls (files g2))
                  (setStatusMap [] g2)) as [[] h2 o2|e2];
      try contradiction; [|now subst].
    destruct C as (S1 & M1 & <-).
    rewrite !outcome_prepend.
    rewrite (collected_sameInputs _ _ S1 M1).
    destruct S1 as (_ & _ & F1 & _). rewrite F1.
    destruct (snd (TopologicalSortStructs (unsortedStructs (files h2))));
      [|reflexivity].
    assert (Fg : forgetsPerFunc
                   (genHeader ;; writes headerEndsHere ;; genImpl)).
    { apply forgets_bind; [apply genHeader_ign|]. intros _.
      apply forgets_bind; [apply ign_writes|]. intros _.
      apply genImpl_forgets. }
    now rewrite Fg. }
  split; [|split].
  - intros g1 g2 s P. unfold cName. now rewrite P.
  - exact D.
  - intros g L. unfold run.
    change (match generate (newGen (pkgName g) (tm g) (files g)) with
            | Ok _ _ out => inr out
            | Err e => inl e
            end)
      with (outcome (generate (newGen (pkgName g) (tm g) (files g)))).
    apply D. unfold sameInputs. cbn. now rewrite L.
Qed.

End Backend.

(* ================================================================== *)
(** ** The properties on concrete packages *)

(** The ast package's limits are 255 in the Puffs sources of the time. *)
Lemma public_method_prologue_witness :
  exists (sig rest : string) (g1 : gen),
    writeFuncSignature (declFunc flagsPublic idBar idDecode [] [])
      (setPerFunc
         (mkPerFunc (Some (declFunc flagsPublic idBar idDecode [] []))
                    [] 0 0 false false)
         (newGen "foo" exTm [])) = Ok tt g1 sig /\
    "void puffs_foo_bar_decode(puffs_foo_bar *self){
if (!self) {
return;}
if (self->private_impl.status & 1) { return; }if (self->private_impl.magic != PUFFS_MAGIC) {self->private_impl.status = puffs_foo_error_constructor_not_called; return; }



}

"
    = sig ++ ("{" ++ nl)
          ++ ("if (!self) {" ++ nl) ++ "return;" ++ ("}" ++ nl)
          ++ "if (self->private_impl.status & 1) { return; }"
          ++ ("if (self->private_impl.magic != PUFFS_MAGIC) {"
              ++ "self->private_impl.status = puffs_"
              ++ pkgName (newGen "foo" exTm [])
              ++ "_error_constructor_not_called; return; }" ++ nl)
          ++ rest.
Proof.
  eapply (public_method_prologue 255 255
            (declFunc flagsPublic idBar idDecode [] [])
            (newGen "foo" exTm [])).
  - reflexivity.
  - reflexivity.
  - discriminate.
  - vm_compute. reflexivity.
Defined.

Lemma bad_magic_status_witness :
  exists g' out,
    generate 255 255 sortIndependent "" "" asciiText (newGen "foo" exTm pkgBadMagic)
    = Ok tt g' out
    /\ contains ("puffs_foo_error_bad_magic = -256+1," ++ nl) out
    /\ cConstValue "-256+1" = Some (-255)%Z
    /\ contains (dq ++ "foo: bad magic" ++ dq ++ ",") out.
Proof.
  do 2 eexists. split; [vm_compute; reflexivity|].
  eapply (bad_magic_status 255 255 sortIndependent "" "" asciiText
            (newGen "foo" exTm pkgBadMagic) _ _ declBadMagic []);
    reflexivity.
Defined.

(** The entry the specification names is not in the output. *)
Lemma bad_magic_status_counterexample :
  exists out,
    run 255 255 sortIndependent "" "" asciiText "foo" exTm pkgBadMagic = inr out
    /\ ~ contains "puffs_foo_error_bad_magic = -257," out.
Proof.
  eexists. split; [vm_compute; reflexivity|].
  apply index_none_not_contains; [vm_compute; reflexivity | discriminate].
Qed.

(** The layout of a private struct is in the header section. *)
Lemma header_struct_layouts_counterexample :
  exists out : string,
    run 255 255 sortIndependent "" "" asciiText "foo" exTm pkgPrivateStruct = inr out
    /\ Struct_Public declPrivateBar = false
    /\ contains
         ("typedef struct {" ++ nl
          ++ "// Do not access the private_impl's fields directly. There is no API/ABI"
          ++ nl
          ++ "// compatibility or safety guarantee if you do so. Instead, use the"
          ++ nl ++ "// puffs_foo_bar_etc functions." ++ nl ++ "//" ++ nl
          ++ "// In C++, these fields would be " ++ dq ++ "private" ++ dq
          ++ ", but C does not support that." ++ nl ++ "//" ++ nl
          ++ "// It is a struct, not a struct*, so that it can be stack allocated."
          ++ nl ++ "struct {" ++ nl ++ "puffs_foo_status status;" ++ nl
          ++ "uint32_t magic;" ++ nl ++ "uint32_t f_count;" ++ nl
          ++ "} private_impl;" ++ nl ++ " } puffs_foo_bar;" ++ nl)
         (headerSection out).
Proof.
  eexists. split; [vm_compute; reflexivity|]. split; [reflexivity|].
  eapply index_some_contains. vm_compute. reflexivity.
Qed.

Lemma arg_checks_witness :
  writeFuncImplArgChecks funcRefinedInput (newGen "foo" exTm [])
  = Ok tt (newGen "foo" exTm [])
      ("if (!a_src || a_count > 255) {status = puffs_foo_error_bad_argument; goto cleanup0;}"
       ++ nl).
Proof.
  destruct (writeFuncImplArgChecks funcRefinedInput (newGen "foo" exTm []))
    as [[] g' out|e] eqn:H; [|vm_compute in H; discriminate H].
  destruct (arg_checks funcRefinedInput _ _ _ _ eq_refl H) as (-> & ->).
  reflexivity.
Defined.

(** A function that is not suspendible does not return [bad_argument]: it
    returns no value, and without a receiver its check does not mention
    [bad_argument] at all. *)
Lemma arg_checks_counterexample :
  Func_Public funcPointerInput = true
  /\ Func_Suspendible funcPointerInput = false
  /\ writeFuncImplArgChecks funcPointerInput (newGen "foo" exTm [])
     = Ok tt (newGen "foo" exTm []) ("if (!a_src) {return;}" ++ nl)
  /\ ~ contains "bad_argument" ("if (!a_src) {return;}" ++ nl).
Proof.
  split; [reflexivity|]. split; [reflexivity|]. split; [reflexivity|].
  apply index_none_not_contains; [reflexivity | discriminate].
Qed.




(* ------------------------------------------------------------------ *)
(** ** The further properties on concrete inputs *)

(** The generator while a function is lowered in which the loop at address
    7 was met first. *)
Lemma jumpTarget_stable_witness :
  jumpTarget_ 7 (setPerFunc (mkPerFunc None [(7, 0)%N] 0 0 false false)
                   (newGen "foo" exTm []))
  = Ok 0%N (setPerFunc (mkPerFunc None [(7, 0)%N] 0 0 false false)
              (newGen "foo" exTm [])) "".
Proof.
  exact (proj2 (jumpTarget_stable 7 (newGen "foo" exTm []) _ 0 "" eq_refl)).
Defined.

(** The loops at the addresses 7 and 9, met in this order, get the targets
    0 and 1. *)
Lemma jumpTarget_distinct_witness :
  (0 <> 1)%N
  /\ numbered [(9, 1)%N; (7, 0)%N].
Proof.
  destruct (jumpTarget_distinct 7 9 (newGen "foo" exTm []) _ _ 0 1 "" ""
              numbered_nil ltac:(discriminate) eq_refl eq_refl)
    as (D & _ & Nm).
  split; [exact D | exact Nm].
Defined.


(** The errors ["Bad Magic"] and ["bad_magic"] get one C name. *)
Lemma mangle_folds_witness :
  cName (newGen "foo" exTm []) "error Bad Magic"
  = cName (newGen "foo" exTm []) "error bad_magic".
Proof. apply mangle_folds. vm_compute. reflexivity. Defined.


(** [[4] [2] ptr u8] for the local [x]. *)
Lemma type_declarator_witness :
  writeCTypeName (arrays [4; 2]%Z (ptrs 1 (typeNamed KeyU8))) vPrefix "x"
    (newGen "foo" exTm [])
  = Ok tt (newGen "foo" exTm []) "uint8_t* v_x[4][2]".
Proof.
  refine (eq_trans
            (type_declarator [4; 2]%Z 1 KeyU8 vPrefix "x"
               (newGen "foo" exTm []) _) _).
  - discriminate.
  - vm_compute. reflexivity.
Defined.

(** [ptr [4] u8] *)
Lemma pointer_to_array_refused_witness :
  writeCTypeName (typePtr (typeArray 4 (typeNamed KeyU8))) vPrefix "x"
    (newGen "foo" exTm [])
  = Err (ErrCannotConvertType (typePtr (typeArray 4 (typeNamed KeyU8)))).
Proof.
  refine (pointer_to_array_refused [] 0 4 (typeNamed KeyU8) vPrefix "x"
            (newGen "foo" exTm []) _).
  unfold maxNumPointers. lia.
Defined.


(** The table of the package [foo] with the error ["bad magic"]: ten
    entries. *)
Lemma status_table_length_witness :
  exists out : string,
    outcome (genImpl 255 255 "" asciiText
               (mkGen "foo" exTm []
                  [mkStatus "puffs_foo_error_bad_magic" "bad magic" true]
                  [] [] [] (mkPerFunc None [] 0 0 false false)))
    = inr out
    /\ contains
         (("const char* puffs_foo_status_strings[10] = {" ++ nl)
          ++ (dq ++ "foo: ok" ++ dq ++ "," ++ dq ++ "foo: bad version" ++ dq
              ++ "," ++ dq ++ "foo: bad receiver" ++ dq ++ "," ++ dq
              ++ "foo: bad argument" ++ dq ++ "," ++ dq
              ++ "foo: constructor not called" ++ dq ++ "," ++ dq
              ++ "foo: unexpected EOF" ++ dq ++ "," ++ dq ++ "foo: short read"
              ++ dq ++ "," ++ dq ++ "foo: short write" ++ dq ++ "," ++ dq
              ++ "foo: closed for writes" ++ dq ++ "," ++ dq
              ++ "foo: bad magic" ++ dq ++ ",")
          ++ ("};" ++ nl ++ nl)) out.
Proof.
  destruct (genImpl 255 255 "" asciiText
              (mkGen "foo" exTm []
                 [mkStatus "puffs_foo_error_bad_magic" "bad magic" true]
                 [] [] [] (mkPerFunc None [] 0 0 false false)))
    as [[] g' out|e] eqn:H; [|vm_compute in H; discriminate H].
  exists out. split; [reflexivity|].
  destruct (status_table_length 255 255 "" asciiText _ _ _ H) as (_ & C).
  eapply contains_trans; [|exact C].
  eapply index_some_contains. vm_compute. reflexivity.
Defined.

(** The header of the package [foo] is guarded by [PUFFS_FOO_H]. *)
Lemma header_guarded_witness :
  exists out mid impl : string,
    run 255 255 sortIndependent "" "" asciiText "foo" exTm pkgBadMagic = inr out
    /\ out = ("#ifndef PUFFS_FOO_H" ++ nl ++ "#define PUFFS_FOO_H" ++ nl ++ nl)
             ++ mid ++ ("#endif  // PUFFS_FOO_H" ++ nl ++ nl)
             ++ headerEndsHere ++ impl.
Proof.
  unfold run.
  destruct (generate 255 255 sortIndependent "" "" asciiText
              (newGen "foo" exTm pkgBadMagic))
    as [[] g' out|e] eqn:H; [|vm_compute in H; discriminate H].
  destruct (header_guarded 255 255 sortIndependent "" "" asciiText _ _ _ H)
    as (mid & impl & E).
  exists out, mid, impl. split; [reflexivity|exact E].
Defined.


(** [x = in.src.read_u8?()] moves both cursors by one. *)
Lemma statement_frame_witness :
  bodyFrame (newGen "foo" exTm []) (afterRead (newGen "foo" exTm [])).
Proof.
  eapply (statement_frame 255 255 (stmtReadU8 exTm idX) 0).
  vm_compute. reflexivity.
Defined.

(** The temporary [t_0] read where one temporary was written. *)
Lemma expression_frame_witness :
  exprFrame
    (setPerFunc (mkPerFunc None [] 1 0 false false) (newGen "foo" exTm []))
    (setPerFunc (mkPerFunc None [] 1 1 false false) (newGen "foo" exTm [])).
Proof.
  refine (proj1 (expression_frame 255 (exprReadU8 exTm)
                   replaceCallSuspendibles parenthesesMandatory 0 _ _
                   "t_0" _)).
  vm_compute. reflexivity.
Defined.


(** [while x { if y { break } }] is lowered with one label. *)
Lemma loop_labels_agree_witness :
  exists (out : string) (jt : N),
    outcome (writeStatement 255 255 loopWithBreak 0 (newGen "foo" exTm []))
    = inr out
    /\ contains ("goto label_" ++ showN jt ++ "_break;" ++ nl) out
    /\ contains ("label_" ++ showN jt ++ "_break:;" ++ nl) out.
Proof.
  destruct (writeStatement 255 255 loopWithBreak 0 (newGen "foo" exTm []))
    as [[] g' out|e] eqn:H; [|vm_compute in H; discriminate H].
  assert (I : inStmt (stmtJump KeyBreak 7)
                (stmtIf (exprIdent idY (typeNamed KeyBool))
                   [stmtJump KeyBreak 7] [])).
  { apply inStmt_if; [reflexivity|].
    apply (inChain_true _ _ (stmtJump KeyBreak 7));
      [now left | apply inStmt_here]. }
  destruct (loop_labels_agree 255 255 loopWithBreak _ _ 0 _ _ _
              eq_refl (or_introl eq_refl) I eq_refl eq_refl eq_refl H)
    as (jt & C1 & C2).
  exists out, jt. split; [reflexivity|]. split; [exact C1 | exact C2].
Defined.


(** The function of the example: one temporary written, one read. *)
Lemma function_cursors_witness :
  exists (g1 : gen) (out : string),
    writeFuncImpl 255 255 funcReadOne (newGen "foo" exTm []) = Ok tt g1 out
    /\ tempW (perFunc_ g1) = 1%N /\ tempR (perFunc_ g1) = 1%N.
Proof.
  destruct (writeFuncImplEmit 255 255 funcReadOne (newGen "foo" exTm []))
    as [[] g1 out|e] eqn:H; [|vm_compute in H; discriminate H].
  destruct (function_cursors 255 255 funcReadOne _ _ _ H) as (_ & _ & E).
  assert (W : tempW (perFunc_ g1) = 1%N /\ tempR (perFunc_ g1) = 1%N).
  { vm_compute in H. injection H as <- _. split; reflexivity. }
  destruct W as (W & R). rewrite W, R in E.
  exists g1, out. split; [exact E|]. split; assumption.
Defined.

(** The hoist of [in.src.read_u8?()] in a fresh function. *)
Lemma hoist_temporaries_witness :
  exists (b : bool) (o1 : string),
    isInSrcReadU8 exTm (exprReadU8 exTm) (newGen "foo" exTm [])
    = Ok b (newGen "foo" exTm []) o1
    /\ 1%N = (0 + if b then 1 else 0)%N
    /\ (b = true -> (0 <= maxTemp)%N).
Proof.
  refine (hoist_temporaries 255 (exprReadU8 exTm) 1 (newGen "foo" exTm [])
            (setPerFunc (mkPerFunc None [] 1 0 false false)
               (newGen "foo" exTm [])) _ eq_refl _).
  vm_compute. reflexivity.
Defined.

Lemma repeat_not_this (k : nat) :
  Forall (fun x => Key_ x <> KeyThis) (repeat idX k).
Proof.
  apply Forall_forall. intros x I. apply repeat_spec in I. now subst x.
Qed.

(** Three reads are emitted with three temporaries; 10,002 reads are
    refused. *)
Lemma reads_budget_witness :
  (exists g' out,
      writeFuncImpl 255 255 (funcReads [idX; idY; idX])
        (newGen "foo" exTm []) = Ok tt g' out
      /\ tempW (perFunc_ g') = 3%N)
  /\ writeFuncImpl 255 255 (funcReads (repeat idX (N.to_nat 10002)))
       (newGen "foo" exTm []) = Err ErrTooManyTemporaries.
Proof.
  split.
  - destruct (writeFuncImplPrologue 255 (funcReads [idX; idY; idX])
                (newGen "foo" exTm []))
      as [[] g0 pre|e] eqn:P; [|vm_compute in P; discriminate P].
    refine (proj1 (reads_budget 255 255 (funcReads [idX; idY; idX])
                     [idX; idY; idX] (newGen "foo" exTm []) _ _ _ _
                     eq_refl P) _).
    + lia.
    + repeat constructor; discriminate.
    + vm_compute. discriminate.
  - destruct (writeFuncImplPrologue 255
                (funcReads (repeat idX (N.to_nat 10002)))
                (newGen "foo" exTm []))
      as [[] g0 pre|e] eqn:P; [|vm_compute in P; discriminate P].
    refine (proj2 (reads_budget 255 255
                     (funcReads (repeat idX (N.to_nat 10002)))
                     (repeat idX (N.to_nat 10002)) (newGen "foo" exTm [])
                     _ _ _ (repeat_not_this _) eq_refl P) _).
    + lia.
    + rewrite repeat_length, N2Nat.id. reflexivity.
Defined.

(** The first read of a function that is neither public nor suspendible. *)
Lemma read_statement_text_witness :
  writeStatement 255 255 (stmtReadU8 exTm idX) 0 (newGen "foo" exTm [])
  = Ok tt (afterRead (newGen "foo" exTm []))
      (hoistedRead "foo" false "x" 0 0).
Proof.
  refine (eq_trans
            (read_statement_text 255 255 idX 0 (newGen "foo" exTm []) _ _ _)
            _).
  - lia.
  - lia.
  - discriminate.
  - reflexivity.
Defined.

(** 10,001 writes are emitted, with no temporary. *)
Lemma writes_need_no_temporary_witness :
  exists g' out,
    writeFuncImpl 255 255 (funcWrites (repeat 65%Z (N.to_nat 10001)))
      (newGen "foo" exTm []) = Ok tt g' out
    /\ tempW (perFunc_ g') = 0%N.
Proof.
  destruct (writeFuncImplPrologue 255
              (funcWrites (repeat 65%Z (N.to_nat 10001)))
              (newGen "foo" exTm []))
    as [[] g0 pre|e] eqn:P; [|vm_compute in P; discriminate P].
  refine (writes_need_no_temporary 255 255
            (funcWrites (repeat 65%Z (N.to_nat 10001)))
            (repeat 65%Z (N.to_nat 10001)) (newGen "foo" exTm []) _ _ _
            eq_refl P).
  lia.
Defined.


(** [return error "bad magic"] in a private suspendible function of the
    package [foo]. *)
Lemma return_names_status_witness :
  writeStatement 255 255 (stmtReturn (ident KeyError) idBadMagic) 0
    (mkGen "foo" exTm pkgBadMagic [statusBadMagic]
       [(idBadMagic, statusBadMagic)] [] []
       (mkPerFunc None [] 0 0 false true))
  = Ok tt
      (mkGen "foo" exTm pkgBadMagic [statusBadMagic]
         [(idBadMagic, statusBadMagic)] [] []
         (mkPerFunc None [] 0 0 false true))
      ("return puffs_foo_error_bad_magic;" ++ nl).
Proof.
  assert (C : forEachStatus bothPubPri gatherStatuses
                (setStatusMap [] (newGen "foo" exTm pkgBadMagic))
              = Ok tt
                  (mkGen "foo" exTm pkgBadMagic [statusBadMagic]
                     [(idBadMagic, statusBadMagic)] [] []
                     (mkPerFunc None [] 0 0 false false)) "")
    by (vm_compute; reflexivity).
  assert (D : NoDup (map Status_Message
                       (statusDecls (files (newGen "foo" exTm pkgBadMagic)))))
    by (repeat constructor; intros []).
  refine (eq_trans
            (proj2 (proj1 (return_names_status 255 255
                             (newGen "foo" exTm pkgBadMagic) _
                             (mkGen "foo" exTm pkgBadMagic [statusBadMagic]
                                [(idBadMagic, statusBadMagic)] [] []
                                (mkPerFunc None [] 0 0 false true))
                             (stmtReturn (ident KeyError) idBadMagic) 0
                             C D eq_refl _ _ eq_refl eq_refl eq_refl)
                      declBadMagic (or_introl eq_refl)) eq_refl) _).
  - discriminate.
  - lia.
  - vm_compute. reflexivity.
Defined.

(** A package whose structs the sort reports as cyclical. *)
Lemma generate_cyclic_structs_witness :
  generate 255 255 sortCyclic "" "" asciiText (newGen "foo" exTm pkgPrivateStruct)
  = Err ErrCyclicalStructs.
Proof.
  apply generate_cyclic_structs.
  - intros d [].
  - reflexivity.
Defined.


(** The function of the example, lowered after a function that left its
    own state behind. *)
Lemma prototype_matches_definition_witness :
  exists sig rest : string,
    writeFuncPrototype funcReadOne (newGen "foo" exTm [])
    = Ok tt (newGen "foo" exTm []) (sig ++ ";" ++ nl ++ nl)
    /\ outcome (writeFuncImpl 255 255 funcReadOne
                  (setPerFunc (mkPerFunc None [] 3 3 true true)
                     (newGen "foo" exTm [])))
       = inr (sig ++ "{" ++ nl ++ rest).
Proof.
  destruct (writeFuncImpl 255 255 funcReadOne
              (setPerFunc (mkPerFunc None [] 3 3 true true)
                 (newGen "foo" exTm [])))
    as [[] g' out|e] eqn:H; [|vm_compute in H; discriminate H].
  destruct (proj1 (prototype_matches_definition 255 255 funcReadOne _ _)
              _ _ H) as (sig & rest & P & ->).
  exists sig, rest. split; [exact P | reflexivity].
Defined.


(** The loop of the example is two blocks deep: it is lowered when the
    limit is two. *)
Lemma nesting_limit_witness :
  exists out : string,
    outcome (writeFuncImpl 255 2 funcLoop (newGen "foo" exTm [])) = inr out
    /\ blockNesting nesting (Func_Body funcLoop) <= 2.
Proof.
  destruct (writeFuncImpl 255 2 funcLoop (newGen "foo" exTm []))
    as [[] g' out|e] eqn:H; [|vm_compute in H; discriminate H].
  exists out. split; [reflexivity|].
  exact (proj1 (nesting_limit 255 2 funcLoop (newGen "foo" exTm [])) _ _ H).
Defined.


(** The constructor of [bar] calls the constructor of its field [x], a
    struct [y] that has none. *)
Lemma substruct_constructors_witness :
  exists bodyC bodyD : string,
    outcome (writeCtorImpl declBarOfY
               (setStructMap [(idY, declPlainY)] (newGen "foo" exTm [])))
    = inr (("void puffs_foo_bar_constructor(puffs_foo_bar *self, "
            ++ "uint32_t puffs_version, uint32_t for_internal_use_only){"
            ++ nl ++ bodyC)
           ++ ("void puffs_foo_bar_destructor(puffs_foo_bar *self){"
               ++ nl ++ bodyD))
    /\ contains ("puffs_foo_y_constructor(&self->private_impl.f_x,"
                 ++ "PUFFS_VERSION, PUFFS_ALREADY_ZEROED);" ++ nl) bodyC
    /\ contains ("puffs_foo_y_destructor(&self->private_impl.f_x);" ++ nl)
         bodyD
    /\ outcome (writeCtorPrototype declPlainY
                  (setStructMap [(idY, declPlainY)] (newGen "foo" exTm [])))
       = inr "".
Proof.
  destruct (writeCtorImpl declBarOfY
              (setStructMap [(idY, declPlainY)] (newGen "foo" exTm [])))
    as [[] g' out|e] eqn:H; [|vm_compute in H; discriminate H].
  destruct (substruct_constructors declBarOfY
              (declField idX (typeNamed (KeyOther 5)))
              (typeNamed (KeyOther 5)) declPlainY
              (setStructMap [(idY, declPlainY)] (newGen "foo" exTm [])) _ _
              eq_refl (or_introl eq_refl) eq_refl eq_refl eq_refl H)
    as ((bodyC & bodyD & -> & CC & CD) & N).
  destruct (N eq_refl) as [P _].
  exists bodyC, bodyD.
  split; [reflexivity|]. split; [exact CC|]. split; [exact CD|].
  rewrite P. reflexivity.
Defined.


(** The private function of a package of two functions. *)
Lemma status_enum_values_witness :
  exists hout iout : string,
    genHeader "" asciiText genBadMagic = Ok tt genBadMagic hout
    /\ genImpl 255 255 "" asciiText genBadMagic = Ok tt genBadMagic iout
    /\ contains ("puffs_foo_status_ok = 0," ++ nl) hout
    /\ contains ("puffs_foo_error_bad_version = -2+1," ++ nl) hout
    /\ contains ("puffs_foo_error_bad_magic = -256+1," ++ nl) hout
    /\ contains ("bool puffs_foo_status_is_error(puffs_foo_status s) {"
                 ++ "return s & 1; }" ++ nl ++ nl) iout
    /\ cConstValue "-256+1" = Some (-255)%Z
    /\ status_is_error (-255) = Some true.
Proof.
  destruct (status_enum_values 255 255 "" "" asciiText genBadMagic genBadMagic
              "" "" "" "" "" "" "")
    as (hout & iout & H & I & _ & E & B & U & _).
  - repeat split.
  - repeat split.
  - exists hout, iout.
    destruct (B 0 "status ok" eq_refl) as (e0 & N0 & C0 & _).
    destruct (B 1 "error bad version" eq_refl) as (e1 & N1 & C1 & _).
    destruct (U 0 _ eq_refl) as (e2 & N2 & C2 & _).
    vm_compute in N0, N1, N2.
    injection N0 as <-. injection N1 as <-. injection N2 as <-.
    repeat split; assumption || reflexivity.
Defined.

Lemma header_struct_layouts_witness :
  exists (g2 : gen) (out S PC CI : string),
    run 255 255 sortIndependent "" "" asciiText "foo" exTm pkgPrivateStruct
    = inr out
    /\ out = headerText "" asciiText g2 S "" "" ++ headerEndsHere
             ++ implText "" asciiText g2 PC "" CI ""
    /\ forEach writeCtorPrototype [declPrivateBar] g2 = Ok tt g2 PC
    /\ exists body : string,
         contains
           (("typedef struct {" ++ nl) ++ body
            ++ ("} private_impl;" ++ nl ++ " } puffs_foo_bar;" ++ nl ++ nl))
           S.
Proof.
  destruct (generate 255 255 sortIndependent "" "" asciiText
              (newGen "foo" exTm pkgPrivateStruct)) as [[] g' out|e] eqn:G;
    [|vm_compute in G; discriminate G].
  destruct (header_struct_layouts 255 255 sortIndependent "" "" asciiText
              _ _ _ G)
    as (g2 & hout & iout & S & C & F & PC & PF & CI & FI & E & _ & _ & _ & _
        & _ & L & EH & EI & _ & HC & HF & Each & HPC & HPF & _ & HFI).
  rewrite L in HC, HPC, Each.
  change (Ok tt g2 "" = Ok tt g2 C) in HC. injection HC as <-.
  change (Ok tt g2 "" = Ok tt g2 F) in HF. injection HF as <-.
  change (Ok tt g2 "" = Ok tt g2 PF) in HPF. injection HPF as <-.
  change (Ok tt g2 "" = Ok tt g' FI) in HFI. injection HFI as <- <-.
  exists g2, out, S, PC, CI.
  split; [unfold run; now rewrite G|].
  split; [now rewrite E, EH, EI|].
  split; [exact HPC|].
  apply (Each declPrivateBar). now left.
Defined.

Lemma collector_gathers_statuses_witness :
  (exists g' : gen,
     forEachStatus bothPubPri gatherStatuses (newGen "foo" exTm pkgBadMagic)
     = Ok tt g' ""
     /\ statusList g'
        = [mkStatus "puffs_foo_error_bad_magic" "bad magic" true])
  /\ (exists m : string,
        forEachStatus bothPubPri gatherStatuses
          (newGen "foo" exTm pkgBadMessage)
        = Err (ErrBadStatusMessage m)).
Proof.
  split.
  - destruct (collector_gathers_statuses 255 255 sortIndependent "" "" asciiText
              (newGen "foo" exTm pkgBadMagic))
      as (_ & _ & _ & Q & _).
    destruct Q as (g' & E & L).
    + intros d [<-|[]]. exists "bad magic". reflexivity.
    + exists g'. split; [exact E | rewrite L; reflexivity].
  - destruct (collector_gathers_statuses 255 255 sortIndependent "" "" asciiText
              (newGen "foo" exTm pkgBadMessage))
      as (_ & (_ & B) & _).
    apply B. eexists. split; [left; reflexivity|].
    apply not_quoted. reflexivity.
Defined.

Lemma declared_before_defined_witness :
  exists a b c : string,
    outcome (generate 255 255 sortIndependent "" "" asciiText
               (newGen "foo" exTm pkgTwoFuncs))
    = inr (a ++ ("void puffs_foo_bar_count(puffs_foo_bar *self)"
                 ++ ";" ++ nl ++ nl)
           ++ b ++ ("void puffs_foo_bar_count(puffs_foo_bar *self)"
                    ++ "{" ++ nl) ++ c).
Proof.
  destruct (generate 255 255 sortIndependent "" "" asciiText
              (newGen "foo" exTm pkgTwoFuncs))
    as [[] g' out|e] eqn:H; [|vm_compute in H; discriminate H].
  destruct (declared_before_defined 255 255 sortIndependent "" "" asciiText
              _ _ _ funcPrivateCount H (or_intror (or_introl eq_refl)))
    as (sig & a & b & c & N & ->).
  destruct (N (newGen "foo" exTm pkgTwoFuncs) eq_refl eq_refl) as (S & _).
  vm_compute in S. injection S as <-.
  exists a, b, c. reflexivity.
Defined.

(** The brackets of [x = in.src.read_u8?()], with a table where the text of
    the call operator is an open parenthesis. *)
Lemma statement_brackets_witness :
  exists out : string,
    outcome (writeStatement 255 255 (stmtReadU8 exTm idX) 0
               (newGen "foo" exTmTokens []))
    = inr out
    /\ balanced out
    /\ ~ balanced (ByID exTmTokens (ident KeyOpenParen)).
Proof.
  destruct (writeStatement 255 255 (stmtReadU8 exTm idX) 0
              (newGen "foo" exTmTokens []))
    as [[] g' out|e] eqn:H; [|vm_compute in H; discriminate H].
  exists out. split; [reflexivity|]. split; [|discriminate].
  apply (statement_brackets 255 255 (stmtReadU8 exTm idX) 0
           (newGen "foo" exTmTokens []) g' out).
  - reflexivity.
  - intros k s L. discriminate L.
  - intros f E. discriminate E.
  - reflexivity.
  - exact H.
Defined.

(** The brackets of the function of the example. *)
Lemma function_brackets_witness :
  exists out : string,
    outcome (writeFuncImpl 255 255 funcReadOne (newGen "foo" exTmTokens []))
    = inr out
    /\ balanced out
    /\ ~ balanced (ByID exTmTokens (ident KeyOpenParen)).
Proof.
  destruct (writeFuncImpl 255 255 funcReadOne (newGen "foo" exTmTokens []))
    as [[] g' out|e] eqn:H; [|vm_compute in H; discriminate H].
  exists out. split; [reflexivity|]. split; [|discriminate].
  apply (function_brackets 255 255 funcReadOne
           (newGen "foo" exTmTokens []) g' out).
  - reflexivity.
  - intros k s L. discriminate L.
  - reflexivity.
  - reflexivity.
  - exact H.
Defined.

(** Three reads are emitted with three temporaries; 10,002 reads are
    refused. *)
Lemma temporary_budget_witness :
  (exists g' out,
      writeFuncImpl 255 255 (funcReads [idX; idY; idX])
        (newGen "foo" exTm []) = Ok tt g' out
      /\ tempW (perFunc_ g') = 3%N)
  /\ writeFuncImpl 255 255 (funcReads (repeat idX (N.to_nat 10002)))
       (newGen "foo" exTm []) = Err ErrTooManyTemporaries.
Proof.
  destruct (temporary_budget 255 255) as (_ & _ & _ & B).
  split.
  - destruct (writeFuncImplPrologue 255 (funcReads [idX; idY; idX])
                (newGen "foo" exTm []))
      as [[] g0 pre|e] eqn:P; [|vm_compute in P; discriminate P].
    refine (proj1 (B (funcReads [idX; idY; idX]) [idX; idY; idX]
                     (newGen "foo" exTm []) _ _ _ _ eq_refl P) _).
    + lia.
    + repeat constructor; discriminate.
    + vm_compute. discriminate.
  - destruct (writeFuncImplPrologue 255
                (funcReads (repeat idX (N.to_nat 10002)))
                (newGen "foo" exTm []))
      as [[] g0 pre|e] eqn:P; [|vm_compute in P; discriminate P].
    refine (proj2 (B (funcReads (repeat idX (N.to_nat 10002)))
                     (repeat idX (N.to_nat 10002)) (newGen "foo" exTm [])
                     _ _ _ (repeat_not_this _) eq_refl P) _).
    + lia.
    + rewrite repeat_length, N2Nat.id. reflexivity.
Defined.

(** A function of 10,001 reads, more than [maxTemp], is emitted, and with
    10,001 temporaries. *)
Lemma temporary_budget_counterexample :
  exists g' out,
    writeFuncImpl 255 255 (funcReads (repeat idX (N.to_nat 10001)))
      (newGen "foo" exTm []) = Ok tt g' out
    /\ length (Func_Body (funcReads (repeat idX (N.to_nat 10001))))
       = N.to_nat 10001
    /\ tempW (perFunc_ g') = 10001%N
    /\ (maxTemp < tempW (perFunc_ g'))%N.
Proof.
  destruct (writeFuncImplPrologue 255
              (funcReads (repeat idX (N.to_nat 10001)))
              (newGen "foo" exTm []))
    as [[] g0 pre|e] eqn:P; [|vm_compute in P; discriminate P].
  destruct (temporary_budget_boundary 255 255
              (funcReads (repeat idX (N.to_nat 10001)))
              (repeat idX (N.to_nat 10001)) (newGen "foo" exTm []) g0 pre)
    as (g' & out & E & W).
  - lia.
  - apply repeat_not_this.
  - rewrite repeat_length, N2Nat.id. reflexivity.
  - reflexivity.
  - exact P.
  - exists g', out. split; [exact E|]. split.
    + unfold funcReads, declFunc, node, Func_Body. cbn [list1].
      now rewrite length_map, repeat_length.
    + split; [exact W|]. rewrite W. reflexivity.
Qed.

(** The function of the example is emitted with its one temporary written
    and read; an expression that reads a temporary when none was written is
    refused. *)
Lemma temporaries_in_sync_witness :
  (exists g' out,
      writeFuncImpl 255 255 funcReadOne (newGen "foo" exTm [])
      = Ok tt g' out
      /\ tempW (perFunc_ g') = tempR (perFunc_ g'))
  /\ writeExpr 255 (exprReadU8 exTm) replaceCallSuspendibles
       parenthesesOptional 0 (newGen "foo" exTm [])
     = Err ErrTempOutOfSync.
Proof.
  destruct (temporaries_in_sync 255 255 funcReadOne (newGen "foo" exTm []))
    as (S1 & _ & S3 & _).
  split.
  - destruct (writeFuncImpl 255 255 funcReadOne (newGen "foo" exTm []))
      as [[] g' out|e] eqn:H; [|vm_compute in H; discriminate H].
    exists g', out. split; [reflexivity|]. exact (S1 g' out eq_refl).
  - apply S3; [lia | reflexivity | reflexivity].
Defined.


(** A generator that holds what another run left gives the text of a
    fresh run. *)
Lemma backend_deterministic_witness :
  outcome (generate 255 255 sortIndependent "" "" asciiText genLeftOver)
  = run 255 255 sortIndependent "" "" asciiText "foo" exTm pkgTwoFuncs
  /\ cName genLeftOver "error bad magic"
     = cName (newGen "foo" exTm []) "error bad magic"
  /\ exists out : string,
       run 255 255 sortIndependent "" "" asciiText "foo" exTm pkgTwoFuncs
       = inr out.
Proof.
  destruct (backend_deterministic 255 255 sortIndependent "" "" asciiText)
    as (C & _ & R).
  split; [exact (R genLeftOver eq_refl)|].
  split; [exact (C genLeftOver (newGen "foo" exTm []) _ eq_refl)|].
  eexists. vm_compute. reflexivity.
Defined.
